(** * beacon: round-trip packet builder, path helpers, transport channel,
      hash table dispatch, Boomerang probes and path discovery.

    A shallow embedding of the Go sources
    (builder.go, path.go, transport.go, hash.go, traffic.go) and the
    properties of the specification checked against them. Pure functions
    are Rocq functions into [outcome]; functions that change the transport
    channel pass its state along; the goroutines of path discovery and of
    the synchronous probe are step relations on a state. Bytes and machine
    integers are [Z], with the wrap-around of conversions written out. *)

From Stdlib Require Import ZArith Lia.
From stdpp Require Import gmap strings list fin_maps pretty.

(** ** Results of Go calls

    A Go function of this package either returns normally, returns a
    non-nil [error], panics at run time (index out of range, nil
    dereference) or never returns because it blocks on a channel
    operation that no goroutine can complete. *)

Inductive outcome (A : Type) : Type :=
| Ok (a : A)
| Err (e : string)
| Panic (msg : string)
| Blocked (site : string).

Arguments Ok {A} a.
Arguments Err {A} e.
Arguments Panic {A} msg.
Arguments Blocked {A} site.

Definition obind {A B} (m : outcome A) (k : A -> outcome B) : outcome B :=
  match m with
  | Ok a => k a
  | Err e => Err e
  | Panic msg => Panic msg
  | Blocked s => Blocked s
  end.

#[global] Instance outcome_ret : MRet outcome := fun A a => Ok a.
#[global] Instance outcome_bind : MBind outcome := fun A B k m => obind m k.

(** [s[i]] on a Go slice: a run-time panic when out of range. *)
Definition index {A} (s : list A) (i : nat) : outcome A :=
  match s !! i with
  | Some x => Ok x
  | None => Panic "index out of range"
  end.

(** [s[i] = x] on a Go slice. *)
Definition slice_set {A} (s : list A) (i : nat) (x : A) : outcome (list A) :=
  if decide (i < length s) then Ok (<[i:=x]> s) else Panic "index out of range".

(** ** Machine integers *)

(** Conversion [uint16(x)] of a Go [int]. *)
Definition uint16 (x : Z) : Z := (x mod 65536)%Z.
Definition uint8 (x : Z) : Z := (x mod 256)%Z.

(** ** net.IP

    [net.IP] is a byte slice: 4 bytes for the short IPv4 form, 16 bytes
    for IPv6 and for the IPv4-in-IPv6 form [::ffff:a.b.c.d] that
    [net.ParseIP] produces; [nil] is the empty slice. *)

Definition IP := list Z.

Definition v4InV6Prefix : list Z :=
  [0; 0; 0; 0; 0; 0; 0; 0; 0; 0; 255; 255]%Z.

Definition bytes_eqb (a b : list Z) : bool := bool_decide (a = b).

(** [ip.To4()]: the 4-byte form, or [None] for Go's [nil] result. *)
Definition IP_To4 (ip : IP) : option IP :=
  if decide (length ip = 4) then Some ip
  else if decide (length ip = 16) then
    if bytes_eqb (take 12 ip) v4InV6Prefix then Some (drop 12 ip) else None
  else None.

(** [ip.Equal(x)]: an IPv4 address and its 16-byte form are equal. *)
Definition IP_Equal (ip x : IP) : bool :=
  if decide (length ip = length x) then bytes_eqb ip x
  else if decide (length ip = 4 /\ length x = 16) then
    bytes_eqb (take 12 x) v4InV6Prefix && bytes_eqb ip (drop 12 x)
  else if decide (length ip = 16 /\ length x = 4) then
    bytes_eqb (take 12 ip) v4InV6Prefix && bytes_eqb (drop 12 ip) x
  else false.

(** ** path.go: Path *)

(** [type Path []net.IP] *)
Definition Path := list IP.

(** [func (p Path) SubPath(lastHop net.IP) Path]: the loop
    [for idx, IP := range p] with [rest] the part of [p] not yet visited
    and [idx] the index of its head. *)
Fixpoint SubPath_loop (p : Path) (lastHop : IP) (idx : nat) (rest : Path) : Path :=
  match rest with
  | [] => []
  | ip :: rest' =>
      if IP_Equal lastHop ip then take (idx + 1) p
      else SubPath_loop p lastHop (idx + 1) rest'
  end.

Definition SubPath (p : Path) (lastHop : IP) : Path :=
  SubPath_loop p lastHop 0 p.

(** [func (p Path) Equal(other Path) bool] *)
Fixpoint Path_Equal_loop (p other : Path) : bool :=
  match p, other with
  | [], _ => true
  | a :: p', b :: other' => if IP_Equal a b then Path_Equal_loop p' other' else false
  | _ :: _, [] => false
  end.

Definition Path_Equal (p other : Path) : bool :=
  if decide (length p = length other) then Path_Equal_loop p other else false.

(** The index of the first hop of [p] that [IP_Equal]s [x]. *)
Fixpoint first_index (x : IP) (p : Path) : option nat :=
  match p with
  | [] => None
  | ip :: p' => if IP_Equal x ip then Some 0 else S <$> first_index x p'
  end.

(** ** builder.go: layers and serialization *)

(** Modelled from the spec: the header-length constants [ipHeaderLen] and
    [udpHeaderLen] are declared in a file that is not part of the sources
    at hand; the builder scenario of the specification
    ([4*20 + 20 + 8 + 1 = 109]) fixes them to 20 and 8. *)
Definition ipHeaderLen : Z := 20.
Definition udpHeaderLen : Z := 8.

(** gopacket's [layers.IPProtocol] numbers and [layers.IPv4Flag] bits. *)
Definition IPProtocolICMPv4 : Z := 1.
Definition IPProtocolIPv4 : Z := 4.
Definition IPProtocolUDP : Z := 17.
Definition IPv4DontFragment : Z := 2.

(** The fields of gopacket's [layers.IPv4] (no options are ever set by
    this package). Fields a composite literal leaves out are zero. *)
Record IPv4 : Type := mkIPv4 {
  Version : Z;
  IHL : Z;
  TOS : Z;
  Length : Z;
  Id : Z;
  Flags : Z;
  FragOffset : Z;
  TTL : Z;
  Protocol : Z;
  Checksum : Z;
  SrcIP : IP;
  DstIP : IP
}.

(** [func buildIPIPLayer(sourceIP, destIP net.IP, totalLength uint16) *layers.IPv4] *)
Definition buildIPIPLayer (sourceIP destIP : IP) (totalLength : Z) : IPv4 :=
  {| Version := 4; IHL := 5; TOS := 0; Length := totalLength; Id := 0;
     Flags := IPv4DontFragment; FragOffset := 0; TTL := 255;
     Protocol := IPProtocolIPv4; Checksum := 0;
     SrcIP := sourceIP; DstIP := destIP |}.

(** [func buildIPv4ICMPLayer(sourceIP, destIP net.IP, totalLength uint16, ttl uint8) *layers.IPv4] *)
Definition buildIPv4ICMPLayer (sourceIP destIP : IP) (totalLength ttl : Z) : IPv4 :=
  {| Version := 4; IHL := 5; TOS := 0; Length := totalLength; Id := 0;
     Flags := IPv4DontFragment; FragOffset := 0; TTL := ttl;
     Protocol := IPProtocolICMPv4; Checksum := 0;
     SrcIP := sourceIP; DstIP := destIP |}.

(** [func buildUDPLayer(sourceIP, destIP net.IP, totalLength uint16) *layers.IPv4]:
    an IPv4 header whose protocol field announces UDP. *)
Definition buildUDPLayer (sourceIP destIP : IP) (totalLength : Z) : IPv4 :=
  {| Version := 4; IHL := 5; TOS := 0; Length := totalLength; Id := 0;
     Flags := IPv4DontFragment; FragOffset := 0; TTL := 255;
     Protocol := IPProtocolUDP; Checksum := 0;
     SrcIP := sourceIP; DstIP := destIP |}.

(** The [gopacket.SerializableLayer] values this package builds. *)
Inductive Layer : Type :=
| LIPv4 (h : IPv4)
| LPayload (data : list Z).

(** [binary.BigEndian.PutUint16] *)
Definition be16 (v : Z) : list Z :=
  [Z.shiftr v 8 mod 256; v mod 256]%Z.

(** The words of a header, [uint32(bytes[i]) << 8 + uint32(bytes[i+1])],
    summed as gopacket's [checksum] does. *)
Fixpoint sum16 (bytes : list Z) : Z :=
  match bytes with
  | hi :: lo :: rest => (Z.shiftl hi 8 + lo + sum16 rest)%Z
  | _ => 0%Z
  end.

(** The carry loop of [checksum]:
    [for { if csum <= 65535 { break }; csum = (csum >> 16) + uint32(uint16(csum)) }]. *)
Fixpoint fold_carry (fuel : nat) (csum : Z) : Z :=
  match fuel with
  | O => csum
  | S fuel' =>
      if decide (csum <= 65535)%Z then csum
      else fold_carry fuel' (Z.shiftr csum 16 + uint16 csum)%Z
  end.

(** gopacket's IPv4 header [checksum]; the bytes at 10 and 11 are
    cleared by the caller below. Two rounds of the carry loop bring any
    32-bit sum under 65536 (see [fold_carry_bound]). *)
Definition checksum (bytes : list Z) : Z :=
  (Z.lxor (fold_carry 2 (sum16 bytes)) 65535)%Z.

(** [uint16(ip.Flags) << 13 | ip.FragOffset] *)
Definition flagsfrags (h : IPv4) : Z :=
  Z.lor (uint16 (Z.shiftl (Flags h) 13)) (FragOffset h).

(** gopacket's [checkIPv4Address]: the 4-byte form of the address, or the
    error "address is IPv6" for a 16-byte address that has none and
    [fmt.Errorf("wrong length of %d bytes instead of %d", len(addr), net.IPv4len)]
    for an address of another length. *)
Definition checkIPv4Address (addr : IP) : outcome IP :=
  match IP_To4 addr with
  | Some c => Ok c
  | None =>
      if decide (length addr = 16) then Err "address is IPv6"
      else Err ("wrong length of " +:+ pretty (length addr) +:+ " bytes instead of 4")
  end.

(** One of the two checks of gopacket's [AddressTo4], for the source
    ([which] is "source") or the destination address: the error is wrapped
    as [fmt.Errorf("Invalid source IPv4 address (%s)", err)]. *)
Definition addressTo4 (which : string) (ip : IP) : outcome IP :=
  match checkIPv4Address ip with
  | Ok a => Ok a
  | Err err => Err ("Invalid " +:+ which +:+ " IPv4 address (" +:+ err +:+ ")")
  | Panic msg => Panic msg
  | Blocked site => Blocked site
  end.

(** [SerializeTo] of [layers.IPv4] with [ComputeChecksums] set, [FixLengths]
    unset and no options: the 20 bytes of the header. The [Length] field is
    written as the caller gave it. *)
Definition serializeIPv4 (h : IPv4) : outcome (list Z) :=
  src ← addressTo4 "source" (SrcIP h);
  dst ← addressTo4 "destination" (DstIP h);
  let front :=
    [uint8 (Z.lor (Z.shiftl (Version h) 4) (IHL h)); TOS h]
      ++ be16 (Length h) ++ be16 (Id h) ++ be16 (flagsfrags h)
      ++ [TTL h; Protocol h] in
  let back := src ++ dst in
  let csum := checksum (front ++ [0; 0]%Z ++ back) in
  Ok (front ++ be16 csum ++ back).

(** [layer.SerializeTo(w, opts)]; a nil interface value in the slice makes
    the method call panic. *)
Definition SerializeTo (l : option Layer) : outcome (list Z) :=
  match l with
  | None => Panic "nil pointer dereference"
  | Some (LIPv4 h) => serializeIPv4 h
  | Some (LPayload data) => Ok data
  end.

(** [gopacket.SerializeLayers]: the buffer is cleared, then the layers are
    serialized from the last to the first, each one prepended to the bytes
    already there. The result is the content of the buffer. *)
Fixpoint SerializeLayers (layers : list (option Layer)) : outcome (list Z) :=
  match layers with
  | [] => Ok []
  | l :: rest =>
      tail ← SerializeLayers rest;
      head ← SerializeTo l;
      Ok (head ++ tail)
  end.

(** The body of the loop [for idx := range path[:len(path)-1]] of
    [CreateRoundTripPacketForPath], for one [idx]. *)
Definition fill_hop (path : Path) (numLayers : nat) (lenOverhead : Z)
    (idx : nat) (constructedLayers : list (option Layer))
    : outcome (list (option Layer)) :=
  hopA ← index path idx;
  hopB ← index path (idx + 1);
  let depLen := uint16 (ipHeaderLen * (Z.of_nat numLayers - Z.of_nat idx) + lenOverhead) in
  let arrLen := uint16 (ipHeaderLen * (Z.of_nat idx + 1) + lenOverhead) in
  ls ← slice_set constructedLayers idx (Some (LIPv4 (buildIPIPLayer hopA hopB depLen)));
  slice_set ls (numLayers - idx - 1) (Some (LIPv4 (buildIPIPLayer hopB hopA arrLen))).

Fixpoint fill_hops (path : Path) (numLayers : nat) (lenOverhead : Z)
    (idxs : list nat) (constructedLayers : list (option Layer))
    : outcome (list (option Layer)) :=
  match idxs with
  | [] => Ok constructedLayers
  | idx :: rest =>
      ls ← fill_hop path numLayers lenOverhead idx constructedLayers;
      fill_hops path numLayers lenOverhead rest ls
  end.

(** The slice [constructedLayers] that [CreateRoundTripPacketForPath]
    hands to [gopacket.SerializeLayers], for a path of at least two hops. *)
Definition roundTripLayers (path : Path) (payload : list Z)
    : outcome (list (option Layer)) :=
  let numHops := length path in
  let numLayers := 2 * (numHops - 1) in
  let lenOverhead := (Z.of_nat (length payload) + udpHeaderLen + ipHeaderLen)%Z in
  let constructedLayers := replicate numLayers None in
  ls ← fill_hops path numLayers lenOverhead (seq 0 (length path - 1)) constructedLayers;
  p1 ← index path 1;
  p0 ← index path 0;
  let ls := ls ++ [Some (LIPv4 (buildUDPLayer p1 p0
               (uint16 (ipHeaderLen + udpHeaderLen + Z.of_nat (length payload)))))] in
  Ok (ls ++ [Some (LPayload payload)]).

(** [func CreateRoundTripPacketForPath(path Path, payload []byte, buf gopacket.SerializeBuffer) error].
    [Ok bytes] is a nil error with [bytes] left in [buf]. *)
Definition CreateRoundTripPacketForPath (path : Path) (payload : list Z)
    : outcome (list Z) :=
  if decide (length path < 2) then Err "Path must have atleast 2 hops"
  else
    ls ← roundTripLayers path payload;
    SerializeLayers ls.

(** *** The layout the specification describes *)

(** Hop [i] of a path, for the indices the specification uses. *)
Definition hop (P : Path) (i : nat) : IP := nth i P [].

(** The [Length] the specification gives the [i]-th outgoing header:
    [iphdr*(2(n-1)-i) + udphdr + iphdr + |payload|]. *)
Definition spec_out_len (n i : nat) (payload : list Z) : Z :=
  (ipHeaderLen * (2 * (Z.of_nat n - 1) - Z.of_nat i)
   + udpHeaderLen + ipHeaderLen + Z.of_nat (length payload))%Z.

(** The [Length] the specification gives the returning header that
    mirrors the [i]-th outgoing one: [iphdr*(i+1) + udphdr + iphdr + |payload|]. *)
Definition spec_ret_len (i : nat) (payload : list Z) : Z :=
  (ipHeaderLen * (Z.of_nat i + 1)
   + udpHeaderLen + ipHeaderLen + Z.of_nat (length payload))%Z.

Definition out_header (P : Path) (payload : list Z) (i : nat) : IPv4 :=
  buildIPIPLayer (hop P i) (hop P (i + 1))
    (uint16 (spec_out_len (length P) i payload)).

Definition ret_header (P : Path) (payload : list Z) (i : nat) : IPv4 :=
  buildIPIPLayer (hop P (i + 1)) (hop P i) (uint16 (spec_ret_len i payload)).

Definition udp_header (P : Path) (payload : list Z) : IPv4 :=
  buildUDPLayer (hop P 1) (hop P 0)
    (uint16 (ipHeaderLen + udpHeaderLen + Z.of_nat (length payload))).

(** Outgoing headers for [i = 0 .. n-2], the returning headers in reverse
    order, then the header that announces UDP. *)
Definition spec_headers (P : Path) (payload : list Z) : list IPv4 :=
  (out_header P payload <$> seq 0 (length P - 1))
    ++ (ret_header P payload <$> reverse (seq 0 (length P - 1)))
    ++ [udp_header P payload].

(** An address that has a 4-byte form. *)
Definition is_IPv4 (ip : IP) : Prop := is_Some (IP_To4 ip).

(** The packet as it reads on the wire: the [k]-th 20-byte header of a
    packet, and the fields of a header at their offsets. *)
Definition header_at (bytes : list Z) (k : nat) : list Z :=
  take 20 (drop (20 * k) bytes).
Definition wire_len (hdr : list Z) : Z := (256 * nth 2 hdr 0 + nth 3 hdr 0)%Z.
Definition wire_proto (hdr : list Z) : Z := nth 9 hdr 0%Z.
Definition wire_src (hdr : list Z) : list Z := take 4 (drop 12 hdr).
Definition wire_dst (hdr : list Z) : list Z := take 4 (drop 16 hdr).

(** The number of bytes from the start of the [k]-th header to the end of
    the packet. *)
Definition bytes_from_header (bytes : list Z) (k : nat) : Z :=
  Z.of_nat (length (drop (20 * k) bytes)).

(** The builder scenario of the specification. *)
Definition scenario_path : Path :=
  [[10; 0; 0; 1]; [10; 0; 0; 2]; [10; 0; 0; 3]]%Z.
Definition scenario_payload : list Z := [120%Z].

(** A payload that does not fit the 16-bit [Length] field of a header. *)
Definition oversized_payload : list Z := replicate (Z.to_nat 65536) 0%Z.

(** ** Go channels

    The state of a channel, after the [hchan] of the Go runtime: the
    capacity given to [make], the values buffered, whether the channel has
    been closed, and how many goroutines are parked in a receive on it. *)

Record hchan (A : Type) : Type := mkChan {
  dataqsiz : nat;
  qbuf : list A;
  closed : bool;
  recvq : nat
}.

Arguments mkChan {A} _ _ _ _.
Arguments dataqsiz {A} _.
Arguments qbuf {A} _.
Arguments closed {A} _.
Arguments recvq {A} _.

(** The channels of one element type, by address. *)
Abbreviation heap A := (gmap nat (hchan A)).

(** [make(chan A, size)]: a fresh channel, on which no goroutine waits. *)
Definition make_chan {A} (size : nat) (h : heap A) : nat * heap A :=
  let c := fresh (dom h) in
  (c, <[c := mkChan size [] false 0]> h).

(** [c <- v] as the sending goroutine sees it: a send on a closed channel
    panics; a parked receiver takes the value at once; otherwise the value
    is buffered if there is room, and the sender blocks if there is none
    (always so on an unbuffered channel). A nil channel blocks forever. *)
Definition chan_send {A} (c : nat) (v : A) (h : heap A) : outcome (heap A) :=
  match h !! c with
  | None => Blocked "send on nil channel"
  | Some ch =>
      if closed ch then Panic "send on closed channel"
      else if decide (0 < recvq ch) then
        Ok (<[c := mkChan (dataqsiz ch) (qbuf ch) false (recvq ch - 1)]> h)
      else if decide (length (qbuf ch) < dataqsiz ch) then
        Ok (<[c := mkChan (dataqsiz ch) (qbuf ch ++ [v]) false 0]> h)
      else Blocked "chan send"
  end.

(** [close(c)] *)
Definition chan_close {A} (c : nat) (h : heap A) : outcome (heap A) :=
  match h !! c with
  | None => Panic "close of nil channel"
  | Some ch =>
      if closed ch then Panic "close of closed channel"
      else Ok (<[c := mkChan (dataqsiz ch) (qbuf ch) true (recvq ch)]> h)
  end.

(** ** Packets as the package reads them

    The fields of a captured [gopacket.Packet] that hash.go and traffic.go
    read, for a packet in which the decoder found the layers they are read
    from: the addresses of the IPv4 layer, the type and code of the ICMPv4
    layer, the payload of the UDP layer and the payload of the application
    layer ([None] when the packet has no application layer). The packets
    that the capture goroutines of path.go read, in which the ICMPv4 or the
    IPv4 layer may be missing, are the [Captured] packets of the section on
    path.go. *)
Record Packet : Type := mkPacket {
  ip4_SrcIP : IP;
  ip4_DstIP : IP;
  icmp_TypeCode : Z;
  udp_Payload : list Z;
  app_Payload : option (list Z)
}.

(** [string(bytes)] *)
Definition go_string (bytes : list Z) : string :=
  String.string_of_list_ascii ((fun b => Ascii.ascii_of_N (Z.to_N b)) <$> bytes).

(** [strings.HasPrefix] and [strings.Contains] *)
Fixpoint HasPrefix (s prefix : string) : bool :=
  match prefix, s with
  | EmptyString, _ => true
  | String a prefix', String b s' =>
      if Ascii.eqb a b then HasPrefix s' prefix' else false
  | String _ _, EmptyString => false
  end.

Fixpoint Contains (s substr : string) : bool :=
  HasPrefix s substr ||
  match s with
  | EmptyString => false
  | String _ s' => Contains s' substr
  end.

(** ** hash.go *)

(** [type PacketHasher func(gopacket.Packet) (string, error)] *)
Definition PacketHasher := Packet -> outcome string.

(** [func BoomerangPacketHasher(p gopacket.Packet) (string, error)] *)
Definition BoomerangPacketHasher : PacketHasher := fun p =>
  match app_Payload p with
  | None => Err "packet didn't have an application layer or payload was less than 20 bytes"
  | Some payload =>
      if decide (length payload < 20)
      then Err "packet didn't have an application layer or payload was less than 20 bytes"
      else Ok (go_string (take 20 payload))
  end.

(** [type packetHashMap struct]: the embedded mutex ([true] when held),
    the map from hashes to packet channels, and the attached hashers. *)
Record packetHashMap : Type := mkPHM {
  phm_locked : bool;
  phm_m : gmap string nat;
  phm_hashers : list PacketHasher
}.

(** [func NewPacketHashMap() *packetHashMap] *)
Definition NewPacketHashMap : packetHashMap := mkPHM false ∅ [].

(** [AttachHasher] *)
Definition AttachHasher (phm : packetHashMap) (hasher : PacketHasher) : packetHashMap :=
  mkPHM (phm_locked phm) (phm_m phm) (phm_hashers phm ++ [hasher]).

(** The first loop of [run]: the hashes of the hashers that did not fail. *)
Fixpoint computeHashes (hashers : list PacketHasher) (p : Packet) : list string :=
  match hashers with
  | [] => []
  | hasher :: rest =>
      match hasher p with
      | Ok computedHash => computedHash :: computeHashes rest p
      | _ => computeHashes rest p
      end
  end.

(** The second loop of [run], under the mutex:
    [if packetMatchChannel, ok := phm.m[computedHash]; ok { packetMatchChannel <- p }].
    The heap is returned as it stands where the loop stops. *)
Fixpoint deliver (m : gmap string nat) (p : Packet) (computedHashSlice : list string)
    (h : heap Packet) : outcome unit * heap Packet :=
  match computedHashSlice with
  | [] => (Ok (), h)
  | computedHash :: rest =>
      match m !! computedHash with
      | Some packetMatchChannel =>
          match chan_send packetMatchChannel p h with
          | Ok h' => deliver m p rest h'
          | Err e => (Err e, h)
          | Panic msg => (Panic msg, h)
          | Blocked site => (Blocked site, h)
          end
      | None => deliver m p rest h
      end
  end.

(** [func (phm *packetHashMap) run(p gopacket.Packet)]. The deferred
    [Unlock] runs when the function returns or panics; it does not run
    while the goroutine is parked in a send. *)
Definition run (phm : packetHashMap) (p : Packet) (h : heap Packet)
    : outcome unit * (packetHashMap * heap Packet) :=
  let computedHashSlice := computeHashes (phm_hashers phm) p in
  if phm_locked phm then (Blocked "phm.Lock", (phm, h))
  else
    let held := mkPHM true (phm_m phm) (phm_hashers phm) in
    let released := mkPHM false (phm_m phm) (phm_hashers phm) in
    match deliver (phm_m phm) p computedHashSlice h with
    | (Blocked site, h') => (Blocked site, (held, h'))
    | (r, h') => (r, (released, h'))
    end.

(** [func (phm *packetHashMap) store(hash string) chan gopacket.Packet] *)
Definition store (phm : packetHashMap) (hash : string) (h : heap Packet)
    : outcome nat * (packetHashMap * heap Packet) :=
  if phm_locked phm then (Blocked "phm.Lock", (phm, h))
  else
    let '(packetMatchChannel, h') := make_chan 1 h in
    (Ok packetMatchChannel,
     (mkPHM false (<[hash := packetMatchChannel]> (phm_m phm)) (phm_hashers phm), h')).

(** [func (phm *packetHashMap) del(hash string) bool] *)
Definition del (phm : packetHashMap) (hash : string) (h : heap Packet)
    : outcome bool * (packetHashMap * heap Packet) :=
  if phm_locked phm then (Blocked "phm.Lock", (phm, h))
  else
    match phm_m phm !! hash with
    | Some packetMatchChannel =>
        match chan_close packetMatchChannel h with
        | Ok h' => (Ok true, (mkPHM false (delete hash (phm_m phm)) (phm_hashers phm), h'))
        | Err e => (Err e, (phm, h))
        | Panic msg => (Panic msg, (phm, h))
        | Blocked site => (Blocked site, (phm, h))
        end
    | None => (Ok false, (phm, h))
    end.

(** What [run] does to the heap when no send has to wait: each hash that
    is registered gets the packet, in the order of the hashers. *)
Definition enqueue (c : nat) (p : Packet) (h : heap Packet) : heap Packet :=
  match h !! c with
  | Some ch =>
      if decide (0 < recvq ch)
      then <[c := mkChan (dataqsiz ch) (qbuf ch) false (recvq ch - 1)]> h
      else <[c := mkChan (dataqsiz ch) (qbuf ch ++ [p]) false 0]> h
  | None => h
  end.

Definition hits (m : gmap string nat) (computedHashSlice : list string) : list nat :=
  omap (fun k => m !! k) computedHashSlice.

(** ** transport.go *)

(** Modelled from the spec: the listener table of listener.go, which is not
    part of the sources at hand. A listener pairs a predicate with a
    delivery queue of capacity 1; the table keeps the listeners in insertion
    order. [lm_entries] maps the identity of a registered listener to its
    queue. *)
Record ListenerMap : Type := mkLM {
  lm_entries : list (nat * nat);
  lm_next : nat
}.

(** [type TransportChannel struct], with the objects it points to: the
    tables, the packet channels the tables hand out, and the raw sockets.
    [tc_filter] is the field [filter].
    [tc_sendto] stands for the answer of [unix.Sendto] ([None]: sent),
    [tc_wire] records the datagrams the sockets accepted, and the two
    failure queues record the descriptors handed to the repair tasks. *)
Record TransportChannel : Type := mkTC {
  tc_filter : string;
  socketFD : Z;
  socket6FD : Z;
  packetHashes : packetHashMap;
  listenerMap : ListenerMap;
  tc_chans : heap Packet;
  tc_sendto : Z -> list Z -> IP -> option string;
  tc_wire : list (Z * IP * list Z);
  socketFailureMsgQueue : list Z;
  socket6FailureMsgQueue : list Z
}.

Definition set_listeners (tc : TransportChannel) (lm : ListenerMap) (h : heap Packet)
    : TransportChannel :=
  mkTC (tc_filter tc) (socketFD tc) (socket6FD tc) (packetHashes tc) lm h
       (tc_sendto tc) (tc_wire tc) (socketFailureMsgQueue tc)
       (socket6FailureMsgQueue tc).

Definition set_wire (tc : TransportChannel) (wire : list (Z * IP * list Z))
    (failures failures6 : list Z) : TransportChannel :=
  mkTC (tc_filter tc) (socketFD tc) (socket6FD tc) (packetHashes tc) (listenerMap tc)
       (tc_chans tc) (tc_sendto tc) wire failures failures6.

(** [ip.To16()] *)
Definition IP_To16 (ip : IP) : option IP :=
  if decide (length ip = 4) then Some (v4InV6Prefix ++ ip)
  else if decide (length ip = 16) then Some ip
  else None.

(** [func (tc *TransportChannel) SendTo(packetData []byte, destAddr net.IP) error].
    A failed send hands the descriptor to the repair queue of its socket. *)
Definition SendTo (tc : TransportChannel) (packetData : list Z) (destAddr : IP)
    : outcome unit * TransportChannel :=
  match IP_To4 destAddr with
  | None =>
      match IP_To16 destAddr with
      | None => (Panic "slice bounds out of range", tc)
      | Some destAddr16 =>
          let fd6Int := socket6FD tc in
          match tc_sendto tc fd6Int packetData destAddr16 with
          | Some err =>
              (Err ("Failed to send packetData to socket6FD: " +:+ err),
               set_wire tc (tc_wire tc) (socketFailureMsgQueue tc)
                 (socket6FailureMsgQueue tc ++ [fd6Int]))
          | None =>
              (Ok (), set_wire tc (tc_wire tc ++ [(fd6Int, destAddr16, packetData)])
                        (socketFailureMsgQueue tc) (socket6FailureMsgQueue tc))
          end
      end
  | Some destAddr4 =>
      let fdInt := socketFD tc in
      match tc_sendto tc fdInt packetData destAddr4 with
      | Some err =>
          (Err ("Failed to send packetData to socketFD: " +:+ err),
           set_wire tc (tc_wire tc) (socketFailureMsgQueue tc ++ [fdInt])
             (socket6FailureMsgQueue tc))
      | None =>
          (Ok (), set_wire tc (tc_wire tc ++ [(fdInt, destAddr4, packetData)])
                    (socketFailureMsgQueue tc) (socket6FailureMsgQueue tc))
      end
  end.

(** [func (tc *TransportChannel) SendToPath(packetData []byte, path Path) error] *)
Definition SendToPath (tc : TransportChannel) (packetData : list Z) (path : Path)
    : outcome unit * TransportChannel :=
  if decide (length path < 1) then (Err "path must be non-empty", tc)
  else
    match index path 1 with
    | Ok hop1 => SendTo tc packetData hop1
    | Err e => (Err e, tc)
    | Panic msg => (Panic msg, tc)
    | Blocked site => (Blocked site, tc)
    end.

(** Modelled from the spec: [NewListener], [RegisterListener] and
    [UnregisterListener] of listener.go. Registration allocates a queue of
    capacity 1 and inserts the entry; unregistration checks presence,
    removes the entry and closes its queue. *)
Definition NewListener (tc : TransportChannel) : nat * TransportChannel :=
  let lm := listenerMap tc in
  (lm_next lm, set_listeners tc (mkLM (lm_entries lm) (S (lm_next lm))) (tc_chans tc)).

Definition RegisterListener (tc : TransportChannel) (listener : nat)
    : nat * TransportChannel :=
  let '(queue, h) := make_chan 1 (tc_chans tc) in
  let lm := listenerMap tc in
  (queue, set_listeners tc (mkLM (lm_entries lm ++ [(listener, queue)]) (lm_next lm)) h).

Fixpoint lookup_listener (entries : list (nat * nat)) (listener : nat) : option nat :=
  match entries with
  | [] => None
  | (l, queue) :: rest =>
      if decide (l = listener) then Some queue else lookup_listener rest listener
  end.

Definition listener_queue (tc : TransportChannel) (listener : nat) : option nat :=
  lookup_listener (lm_entries (listenerMap tc)) listener.

Definition UnregisterListener (tc : TransportChannel) (listener : nat)
    : bool * TransportChannel :=
  match listener_queue tc listener with
  | Some queue =>
      let lm := listenerMap tc in
      let entries := filter (fun e => e.1 <> listener) (lm_entries lm) in
      let h := match chan_close queue (tc_chans tc) with
               | Ok h' => h'
               | _ => tc_chans tc
               end in
      (true, set_listeners tc (mkLM entries (lm_next lm)) h)
  | None => (false, tc)
  end.

(** A listener is registered when the table has an entry for it. *)
Definition registered (tc : TransportChannel) (listener : nat) : Prop :=
  is_Some (listener_queue tc listener).

(** The queue a listener was given has been closed. *)
Definition queue_closed (tc : TransportChannel) (queue : nat) : Prop :=
  exists ch, tc_chans tc !! queue = Some ch /\ closed ch = true.

(** ** traffic.go *)

(** [type BoomerangPayload struct]; timestamps are instants on a clock. *)
Record BoomerangPayload : Type := mkPayload {
  DestIP : IP;
  ID : string;
  TxTimestamp : Z;
  RxTimestamp : Z
}.

(** The zero value of the struct. *)
Definition zeroPayload : BoomerangPayload := mkPayload [] "" 0%Z 0%Z.

(** [func NewBoomerangPayload(destIP net.IP, id string) *BoomerangPayload] *)
Definition NewBoomerangPayload (destIP : IP) (id : string) : BoomerangPayload :=
  mkPayload destIP id 0%Z 0%Z.

(** [type BoomerangErrorType int] and its constants, numbered by [iota]. *)
Definition BoomerangErrorType := Z.
Definition timedOut : BoomerangErrorType := 0%Z.
Definition fatal : BoomerangErrorType := 1%Z.
Definition sendError : BoomerangErrorType := 2%Z.

(** [type BoomerangResult struct]; [Err] is [None] for a nil error, and a
    field a composite literal leaves out has its zero value. *)
Record BoomerangResult : Type := mkResult {
  Err_ : option string;
  ErrorType : BoomerangErrorType;
  Payload : BoomerangPayload
}.

(** [func (b *BoomerangResult) IsFatal() bool] *)
Definition IsFatal (b : BoomerangResult) : bool := bool_decide (ErrorType b = fatal).

(** The goroutines that the functions of traffic.go start with [go]. *)
Inductive goroutine : Type :=
| GoProbe (path : Path) (numPackets timeout : Z) (resultChan : nat)
| GoSyncRounds (path : Path) (numPackets timeout : Z) (resultChan : nat)
| GoDrain (c resultChannel : nat)
| GoCloseWhenDrained (inputs : nat) (resultChannel : nat).

(** The result channels and the goroutines started so far. *)
Record Runtime : Type := mkRT {
  rt_chans : heap BoomerangResult;
  rt_spawned : list goroutine
}.

Definition filterErrMsg (tc : TransportChannel) : string :=
  "The supplied TransportChannel must have a BPFFilter containing ip proto 4. The supplied filter was: "
    +:+ tc_filter tc.

(** The branch that both [ProbeEachHopOfPath] and [ProbeEachHopOfPathSync]
    take when the filter does not contain ["ip proto 4"]:
    [resultChan := make(chan BoomerangResult)], then
    [resultChan <- BoomerangResult{Err: ..., ErrorType: fatal}], then
    [return resultChan]. *)
Definition emitFatal (tc : TransportChannel) (rt : Runtime) : outcome (nat * Runtime) :=
  let '(resultChan, h) := make_chan 0 (rt_chans rt) in
  h' ← chan_send resultChan (mkResult (Some (filterErrMsg tc)) fatal zeroPayload) h;
  Ok (resultChan, mkRT h' (rt_spawned rt)).

(** [func (tc *TransportChannel) Probe(path Path, numPackets int, timeout int) chan BoomerangResult] *)
Definition Probe (path : Path) (numPackets timeout : Z) (rt : Runtime) : nat * Runtime :=
  let '(resultChan, h) := make_chan 0 (rt_chans rt) in
  (resultChan, mkRT h (rt_spawned rt ++ [GoProbe path numPackets timeout resultChan])).

(** Modelled from the spec: [merge] of the package is not part of the
    sources at hand; the specification has it merge all result streams into
    a single output, as the [merge] of the spray command does: one draining
    goroutine per input, and one that closes the output when all are done. *)
Definition merge (resultChannels : list nat) (rt : Runtime) : nat * Runtime :=
  let '(resultChannel, h) := make_chan 0 (rt_chans rt) in
  (resultChannel,
   mkRT h (rt_spawned rt
           ++ ((fun c => GoDrain c resultChannel) <$> resultChannels)
           ++ [GoCloseWhenDrained (length resultChannels) resultChannel])).

(** The loop [for i := 2; i <= len(path); i++ { resultChannels[i-2] = tc.Probe(path[0:i], ...) }]. *)
Fixpoint probePrefixes (path : Path) (numPackets timeout : Z) (idxs : list nat)
    (rt : Runtime) : list nat * Runtime :=
  match idxs with
  | [] => ([], rt)
  | i :: rest =>
      let '(c, rt1) := Probe (take i path) numPackets timeout rt in
      let '(cs, rt2) := probePrefixes path numPackets timeout rest rt1 in
      (c :: cs, rt2)
  end.

(** [func (tc *TransportChannel) ProbeEachHopOfPath(path Path, numPackets int, timeout int) <-chan BoomerangResult] *)
Definition ProbeEachHopOfPath (tc : TransportChannel) (path : Path)
    (numPackets timeout : Z) (rt : Runtime) : outcome (nat * Runtime) :=
  if negb (Contains (tc_filter tc) "ip proto 4") then emitFatal tc rt
  else if decide (length path = 0) then Panic "makeslice: len out of range"
  else
    let '(resultChannels, rt1) :=
      probePrefixes path numPackets timeout (seq 2 (length path - 1)) rt in
    Ok (merge resultChannels rt1).

(** [func (tc *TransportChannel) ProbeEachHopOfPathSync(path Path, numPackets int, timeout int) <-chan BoomerangResult] *)
Definition ProbeEachHopOfPathSync (tc : TransportChannel) (path : Path)
    (numPackets timeout : Z) (rt : Runtime) : outcome (nat * Runtime) :=
  if negb (Contains (tc_filter tc) "ip proto 4") then emitFatal tc rt
  else
    let '(resultChan, h) := make_chan 0 (rt_chans rt) in
    Ok (resultChan,
        mkRT h (rt_spawned rt ++ [GoSyncRounds path numPackets timeout resultChan])).

(** *** Boomerang *)

(** What one run of [Boomerang] meets outside the program: the UUID drawn,
    the clock when the packet is sent, the packets captured (each with the
    clock at its delivery) between the registration of the listener and
    the firing of the timer, and the clock when the timer branch runs. *)
Record BoomerangEnv : Type := mkEnv {
  env_uuid : string;
  env_txTime : Z;
  env_captured : list (Packet * Z);
  env_timerTime : Z
}.

Section Boomerang.
(** [json.Marshal] (the bytes, or an error), [json.Unmarshal] ([None]: an
    error, the target is left as it was) and [net.IP.String]. *)
Variable json_Marshal : BoomerangPayload -> list Z + string.
Variable json_Unmarshal : list Z -> option BoomerangPayload.
Variable IP_String : IP -> string.

(** The closure [criteria] of [Boomerang]. *)
Definition criteria (path : Path) (id : string)
    (packet : Packet) (payload : BoomerangPayload) : bool :=
  if IP_Equal (ip4_DstIP packet) (hop path 0) && IP_Equal (ip4_SrcIP packet) (hop path 1)
  then if String.eqb (ID payload) id then true else false
  else false.

(** Modelled from the spec: the dispatch of listener.go hands a packet to
    a Boomerang listener when its payload decodes and the predicate holds
    of the packet and the decoded payload; a payload that does not decode
    is not delivered. *)
Definition delivered (path : Path) (id : string) (captured : Packet * Z) : bool :=
  match json_Unmarshal (udp_Payload captured.1) with
  | Some payload => criteria path id captured.1 payload
  | None => false
  end.

(** The result the listener goroutine builds from the packet it receives,
    with the [TxTimestamp] the sending goroutine adds. *)
Definition seenResult (packet : Packet) (rxTime txTime : Z) : BoomerangResult :=
  let unmarshalledPayload := default zeroPayload (json_Unmarshal (udp_Payload packet)) in
  mkResult None 0%Z
    (mkPayload (DestIP unmarshalledPayload) (ID unmarshalledPayload) txTime rxTime).

Definition timedOutResult (destHop : IP) (txTime now : Z) : BoomerangResult :=
  mkResult (Some ("timed out waiting for packet from " +:+ IP_String destHop))
    timedOut (mkPayload destHop "" txTime now).

Definition sendErrorResult (err : string) (destHop : IP) : BoomerangResult :=
  mkResult (Some err) sendError (mkPayload destHop "" 0%Z 0%Z).

Definition fatalResult (err : string) : BoomerangResult :=
  mkResult (Some err) fatal zeroPayload.

(** [func (tc *TransportChannel) Boomerang(path Path, timeout int) BoomerangResult].
    The [select] of the sending goroutine takes the branch of [seen] when
    a packet was delivered to the listener before the timer fired, and the
    branch of the timer otherwise. *)
Definition Boomerang (tc : TransportChannel) (path : Path) (timeout : Z)
    (env : BoomerangEnv) : outcome (BoomerangResult * TransportChannel) :=
  if decide (length path = 0) then Panic "index out of range"
  else
    destHop ← index path (length path - 1);
    let id := env_uuid env in
    match json_Marshal (NewBoomerangPayload destHop id) with
    | inr err => Ok (fatalResult err, tc)
    | inl payload =>
        match CreateRoundTripPacketForPath path payload with
        | Err err => Ok (fatalResult err, tc)
        | Panic msg => Panic msg
        | Blocked site => Blocked site
        | Ok bytes =>
            let '(listener, tc1) := NewListener tc in
            let '(packetMatchChan, tc2) := RegisterListener tc1 listener in
            let txTime := env_txTime env in
            match SendToPath tc2 bytes path with
            | (Err err, tc3) => Ok (sendErrorResult err destHop, tc3)
            | (Panic msg, _) => Panic msg
            | (Blocked site, _) => Blocked site
            | (Ok _, tc3) =>
                match find (delivered path id) (env_captured env) with
                | Some (packet, rxTime) => Ok (seenResult packet rxTime txTime, tc3)
                | None =>
                    let '(_, tc4) := UnregisterListener tc3 listener in
                    Ok (timedOutResult destHop txTime (env_timerTime env), tc4)
                end
            end
        end
    end.
End Boomerang.

(** The channel after [Boomerang] has registered its listener and sent
    the packet [bytes] to the 4-byte form [a4] of [path[1]]. *)
Definition after_send (tc : TransportChannel) (a4 : IP) (bytes : list Z)
    : TransportChannel :=
  mkTC (tc_filter tc) (socketFD tc) (socket6FD tc) (packetHashes tc)
       (mkLM (lm_entries (listenerMap tc)
              ++ [(lm_next (listenerMap tc), fresh (dom (tc_chans tc)))])
             (S (lm_next (listenerMap tc))))
       (<[fresh (dom (tc_chans tc)) := mkChan 1 [] false 0]> (tc_chans tc))
       (tc_sendto tc) (tc_wire tc ++ [(socketFD tc, a4, bytes)])
       (socketFailureMsgQueue tc) (socket6FailureMsgQueue tc).

(** The identities of the registered listeners are older than the next
    one [NewListener] hands out. *)
Definition listeners_fresh (tc : TransportChannel) : Prop :=
  Forall (fun e => e.1 < lm_next (listenerMap tc)) (lm_entries (listenerMap tc)).

(** ** path.go: path discovery from the local host *)

(** [type PathChannelParams struct]; a nil [overrideSourceIP] is [None]. *)
Record PathChannelParams : Type := mkParams {
  destIP : IP;
  overrideSourceIP : option IP;
  timeoutMs : Z
}.

(** Modelled from the spec: the ICMP type/code constants are declared in a
    file that is not part of the sources at hand. The glossary gives
    TTL-exceeded as ICMP type 11; port-unreachable is type 3, code 3.
    gopacket packs type and code as [type << 8 | code]. *)
Definition icmpTTLExceeded : Z := 2816.
Definition icmpPortUnreachable : Z := 771.

(** A packet as the capture goroutines of path.go read it: the pointers
    [icmp] and [ip4] that they get from [packet.Layer(layers.LayerTypeICMPv4)]
    and [packet.Layer(layers.LayerTypeIPv4)] by a type assertion.
    [Layer] returns nil for a layer the decoder did not find, and the type
    assertion then leaves a nil pointer: [None] here. The filter "icmp"
    passes every IPv4 packet whose protocol is ICMP, so also a later
    fragment or a truncated packet, in which there is no ICMPv4 layer.
    [cap_icmp] is [icmp.TypeCode] and [cap_ip4] is [(ip4.SrcIP, ip4.DstIP)]. *)
Record Captured : Type := mkCaptured {
  cap_icmp : option Z;
  cap_ip4 : option (IP * IP)
}.

(** The packet has both layers. *)
Definition has_layers (packet : Captured) : Prop :=
  is_Some (cap_icmp packet) /\ is_Some (cap_ip4 packet).

(** What a capture goroutine of path.go does with a packet: it sends an
    address on [found] and goes on; it sends the last address and ends the
    discovery; it goes on to the next packet; or it dereferences a nil
    layer pointer, which panics. *)
Inductive classified : Type :=
| Hop (ip : IP)
| Last (ip : IP)
| Ignore
| NilDeref.

(** The body of the loop of the capture goroutine of [GetPathChannelTo]
    after the ready signal: the [fmt.Printf] evaluates [ip4.SrcIP],
    [ip4.DstIP] and [icmp.TypeCode], whatever the packet is; then comes the
    [if ... else if ...]. *)
Definition classify (sourceIP : IP) (packet : Captured) : classified :=
  match cap_ip4 packet, cap_icmp packet with
  | Some (src, dst), Some typeCode =>
      if bool_decide (typeCode = icmpTTLExceeded) && IP_Equal dst sourceIP
      then Hop src
      else if bool_decide (typeCode = icmpPortUnreachable)
              && negb (IP_Equal src [127; 0; 0; 1]%Z)
      then Last src
      else Ignore
  | _, _ => NilDeref
  end.

(** Whether [tc.SendTo(packetData, destAddr)] panics: it does for an
    address that has neither a 4-byte nor a 16-byte form, whatever the
    channel and the bytes ([SendTo_panics_spec]). *)
Definition SendTo_panics (destAddr : IP) : bool :=
  match IP_To4 destAddr, IP_To16 destAddr with
  | None, None => true
  | _, _ => false
  end.

(** Where the capture goroutine stands: waiting for the next packet of
    [tc.rx()]; in [listenerReady <- true] with a packet in hand; in one of its
    sends on [found] ([ip4.SrcIP] of a TTL-exceeded packet, [ip4.SrcIP] of a
    port-unreachable packet, then [params.destIP]); in [done <- nil];
    returned; or at the dereference of a nil layer pointer. *)
Inductive capture_pc : Type :=
| CapRecv
| CapSignal (packet : Captured)
| CapSendHop (ip : IP)
| CapSendLast (ip : IP)
| CapSendDest
| CapSendDone
| CapExit
| CapNilDeref.

(** Where the probing goroutine stands: in [<-listenerReady]; in the
    [select] of the round for [ttl]; in the send [pathChan <- hop] of that
    round; returned, with [pathChan] closed by the deferred call; in a
    send [done <- err] that nothing will ever receive; or panicked in
    [SendTo]. *)
Inductive driver_pc : Type :=
| DrvWaitReady
| DrvSelect (ttl : nat)
| DrvEmit (ttl : nat) (hop : option IP)
| DrvClosed
| DrvStuck
| DrvPanic.

(** The two goroutines, the packets that [tc.rx()] has yet to deliver, the
    flag [listenerReadySignalSent], the TTLs of the probes built and handed
    to [SendTo] that it has returned from, what the reader of [pathChan]
    has received ([None] is a nil hop), whether [pathChan] is closed, and
    the panic that has ended the program, if one has: a panic in either
    goroutine ends both. *)
Record probe_state : Type := mkProbe {
  ps_rx : list Captured;
  ps_cap : capture_pc;
  ps_readySent : bool;
  ps_drv : driver_pc;
  ps_sent : list nat;
  ps_out : list (option IP);
  ps_closed : bool;
  ps_panic : option string
}.

(** The program after a panic with [msg] in one of its goroutines. *)
Definition panicked (s : probe_state) (msg : string) : probe_state :=
  mkProbe (ps_rx s) (ps_cap s) (ps_readySent s) (ps_drv s) (ps_sent s) (ps_out s)
    (ps_closed s) (Some msg).

Section GetPathChannelTo.
(** Modelled from the spec: [buildUDPTraceroutePacket] is not part of the
    sources at hand; [build_fails ttl] tells whether it returns an error
    for that TTL. *)
Variable build_fails : nat -> bool.
Variable sourceIP : IP.
Variable params : PathChannelParams.

(** After the ready signal, the capture goroutine goes on to classify the
    packet it holds. *)
Definition after_classify (packet : Captured) : capture_pc :=
  match classify sourceIP packet with
  | Hop ip => CapSendHop ip
  | Last ip => CapSendLast ip
  | Ignore => CapRecv
  | NilDeref => CapNilDeref
  end.

(** The head of the probing loop for [ttl]: the probe is built and sent,
    and the goroutine enters the [select]; a build error sends it into
    [done <- err]; a panic of [SendTo] runs the deferred [close(pathChan)]
    and ends the program. *)
Definition enter_round (ttl : nat) (s : probe_state) : probe_state :=
  if build_fails ttl
  then mkProbe (ps_rx s) (ps_cap s) (ps_readySent s) DrvStuck (ps_sent s)
         (ps_out s) (ps_closed s) (ps_panic s)
  else if SendTo_panics (destIP params)
  then mkProbe (ps_rx s) (ps_cap s) (ps_readySent s) DrvPanic (ps_sent s)
         (ps_out s) true (Some "slice bounds out of range")
  else mkProbe (ps_rx s) (ps_cap s) (ps_readySent s) (DrvSelect ttl)
         (ps_sent s ++ [ttl]) (ps_out s) (ps_closed s) (ps_panic s).

(** The end of a round: [ttl++], and either the next round or the return
    from the goroutine, which closes [pathChan]. *)
Definition next_round (ttl : nat) (s : probe_state) : probe_state :=
  if decide (ttl + 1 <= 32) then enter_round (ttl + 1) s
  else mkProbe (ps_rx s) (ps_cap s) (ps_readySent s) DrvClosed (ps_sent s)
         (ps_out s) true (ps_panic s).

Definition with_cap (s : probe_state) (cap : capture_pc) : probe_state :=
  mkProbe (ps_rx s) cap (ps_readySent s) (ps_drv s) (ps_sent s) (ps_out s)
    (ps_closed s) (ps_panic s).

Definition with_drv (s : probe_state) (drv : driver_pc) : probe_state :=
  mkProbe (ps_rx s) (ps_cap s) (ps_readySent s) drv (ps_sent s) (ps_out s)
    (ps_closed s) (ps_panic s).

(** The state when [GetPathChannelTo] returns: the warm-up probe with TTL 2
    has been built and sent, the probing goroutine waits for the ready
    signal and the capture goroutine for its first packet. A build error
    leaves the probing goroutine in [done <- err]; a panic of [SendTo],
    before the deferred [close] is set up, ends the program. *)
Definition probe_init (rx : list Captured) : probe_state :=
  if build_fails 2 then mkProbe rx CapRecv false DrvStuck [] [] false None
  else if SendTo_panics (destIP params)
  then mkProbe rx CapRecv false DrvPanic [] [] false (Some "slice bounds out of range")
  else mkProbe rx CapRecv false DrvWaitReady [2] [] false None.

(** The steps of the two goroutines, as long as the program has not
    panicked. A send on an unbuffered channel and the matching receive are
    one step. The reader of [pathChan] takes every hop offered to it. *)
Inductive probe_step : probe_state -> probe_state -> Prop :=
| step_capture (s : probe_state) (packet : Captured) (rx : list Captured) :
    ps_panic s = None ->
    ps_cap s = CapRecv -> ps_rx s = packet :: rx ->
    probe_step s
      (mkProbe rx
         (if ps_readySent s then after_classify packet else CapSignal packet)
         (ps_readySent s) (ps_drv s) (ps_sent s) (ps_out s) (ps_closed s)
         (ps_panic s))
| step_ready (s : probe_state) (packet : Captured) :
    ps_panic s = None ->
    ps_cap s = CapSignal packet -> ps_drv s = DrvWaitReady ->
    probe_step s
      (enter_round 1
         (mkProbe (ps_rx s) (after_classify packet) true (ps_drv s) (ps_sent s)
            (ps_out s) (ps_closed s) (ps_panic s)))
| step_nil_deref (s : probe_state) :
    ps_panic s = None ->
    ps_cap s = CapNilDeref ->
    probe_step s (panicked s "invalid memory address or nil pointer dereference")
| step_found_hop (s : probe_state) (ip : IP) (ttl : nat) :
    ps_panic s = None ->
    ps_cap s = CapSendHop ip -> ps_drv s = DrvSelect ttl ->
    probe_step s (with_drv (with_cap s CapRecv) (DrvEmit ttl (Some ip)))
| step_found_last (s : probe_state) (ip : IP) (ttl : nat) :
    ps_panic s = None ->
    ps_cap s = CapSendLast ip -> ps_drv s = DrvSelect ttl ->
    probe_step s (with_drv (with_cap s CapSendDest) (DrvEmit ttl (Some ip)))
| step_found_dest (s : probe_state) (ttl : nat) :
    ps_panic s = None ->
    ps_cap s = CapSendDest -> ps_drv s = DrvSelect ttl ->
    probe_step s
      (with_drv (with_cap s CapSendDone) (DrvEmit ttl (Some (destIP params))))
| step_done (s : probe_state) (ttl : nat) :
    ps_panic s = None ->
    ps_cap s = CapSendDone -> ps_drv s = DrvSelect ttl ->
    probe_step s
      (mkProbe (ps_rx s) CapExit (ps_readySent s) DrvClosed (ps_sent s) (ps_out s) true
         (ps_panic s))
| step_timeout (s : probe_state) (ttl : nat) :
    ps_panic s = None ->
    ps_drv s = DrvSelect ttl ->
    probe_step s (with_drv s (DrvEmit ttl None))
| step_emit (s : probe_state) (ttl : nat) (hop : option IP) :
    ps_panic s = None ->
    ps_drv s = DrvEmit ttl hop ->
    probe_step s
      (next_round ttl
         (mkProbe (ps_rx s) (ps_cap s) (ps_readySent s) (ps_drv s) (ps_sent s)
            (ps_out s ++ [hop]) (ps_closed s) (ps_panic s))).

(** How far a state is from the end of every run. *)
Definition driver_fuel (drv : driver_pc) : nat :=
  match drv with
  | DrvWaitReady => 2 * 33 + 3
  | DrvSelect ttl => 2 * (33 - ttl) + 2
  | DrvEmit ttl _ => 2 * (33 - ttl) + 1
  | DrvClosed => 0
  | DrvStuck => 0
  | DrvPanic => 0
  end.

Definition capture_fuel (cap : capture_pc) : nat :=
  match cap with
  | CapRecv => 0
  | CapSignal _ => 4
  | CapSendHop _ => 1
  | CapSendLast _ => 3
  | CapSendDest => 2
  | CapSendDone => 1
  | CapExit => 0
  | CapNilDeref => 0
  end.

Definition panic_fuel (panic : option string) : nat :=
  match panic with
  | None => 1
  | Some _ => 0
  end.

Definition probe_fuel (s : probe_state) : nat :=
  5 * length (ps_rx s) + capture_fuel (ps_cap s) + driver_fuel (ps_drv s)
  + panic_fuel (ps_panic s).
End GetPathChannelTo.

(** [func (tc *TransportChannel) GetPathChannelTo(params PathChannelParams) (PathChannel, error)]:
    the checks made before the goroutines start. [findSource] is the answer
    of [tc.FindSourceIPForDest(params.destIP)] and [rx] the packets that
    [tc.rx()] will deliver. The result is the source address the capture
    goroutine compares with, and the state of the two goroutines when the
    function returns the channel. *)
Definition GetPathChannelTo (build_fails : nat -> bool) (tc : TransportChannel)
    (params : PathChannelParams) (findSource : outcome IP) (rx : list Captured)
    : outcome (IP * probe_state) :=
  if decide (tc_filter tc <> "icmp")
  then Err ("BPF filter must be icmp: got " +:+ tc_filter tc +:+ " instead")
  else
    sourceIP ← findSource;
    Ok (default sourceIP (overrideSourceIP params), probe_init build_fails params rx).

(** What holds of every state of a run in which the packets captured are
    all ignored by the capture goroutine: the probing goroutine has
    emitted one nil hop per round completed, and nothing else. [rx0] is the
    list of packets at the start. *)
Definition quiet_inv (sourceIP : IP) (rx0 : list Captured) (s : probe_state) : Prop :=
  Forall (fun packet => classify sourceIP packet = Ignore) (ps_rx s)
  /\ ps_panic s = None
  /\ match ps_drv s with
     | DrvWaitReady =>
         ps_readySent s = false /\ ps_out s = [] /\ ps_sent s = [2]
         /\ ps_closed s = false
         /\ ((ps_cap s = CapRecv /\ ps_rx s = rx0)
             \/ (exists packet, ps_cap s = CapSignal packet
                                /\ classify sourceIP packet = Ignore))
     | DrvSelect ttl | DrvEmit ttl None =>
         1 <= ttl <= 32 /\ ps_readySent s = true /\ ps_cap s = CapRecv
         /\ ps_out s = replicate (ttl - 1) None
         /\ ps_sent s = 2 :: seq 1 ttl
         /\ ps_closed s = false
     | DrvEmit _ (Some _) => False
     | DrvClosed =>
         ps_readySent s = true /\ ps_cap s = CapRecv
         /\ ps_out s = replicate 32 None
         /\ ps_sent s = 2 :: seq 1 32
         /\ ps_closed s = true
     | DrvStuck => False
     | DrvPanic => False
     end.

(** ** traffic.go: the goroutines of ProbeEachHopOfPathSync *)

(** Where the goroutine that [ProbeEachHopOfPathSync] starts stands: at the
    head of the loop over [packetCount]; in [wg.Wait()]; in [time.Sleep];
    returned, with [resultChan] closed by the deferred call; or stopped by
    the panic of [wg.Add] on a negative count. *)
Inductive rounds_pc : Type :=
| RoundsLoopHead
| RoundsWaiting
| RoundsSleeping
| RoundsClosed
| RoundsPanicked.

(** A result received from [resultChan], with the round ([packetCount]) and
    the prefix length [idx] of the worker that sent it. *)
Record emission : Type := mkEmission {
  em_round : Z;
  em_idx : nat;
  em_result : BoomerangResult
}.

(** The loop goroutine and the workers [go func(idx int) {...}(i)] it has
    started: those still inside [tc.Boomerang], those in
    [resultChan <- result], and those that have sent and not yet called
    [wg.Done()]; the counter of the [WaitGroup]; the channel the probes
    share; what the reader of [resultChan] has received so far; and whether
    [resultChan] is closed. *)
Record sync_state : Type := mkSync {
  ss_packetCount : Z;
  ss_pc : rounds_pc;
  ss_wg : Z;
  ss_probing : list nat;
  ss_sending : list (nat * BoomerangResult);
  ss_sent : list nat;
  ss_tc : TransportChannel;
  ss_out : list emission;
  ss_closed : bool
}.

Section SyncRounds.
Variable json_Marshal : BoomerangPayload -> list Z + string.
Variable json_Unmarshal : list Z -> option BoomerangPayload.
Variable IP_String : IP -> string.
Variable path : Path.
Variable numPackets timeout : Z.

(** The state when [ProbeEachHopOfPathSync] returns [resultChan]. *)
Definition sync_init (tc : TransportChannel) : sync_state :=
  mkSync 1 RoundsLoopHead 0 [] [] [] tc [] false.

(** The steps of the goroutines. The reader of [resultChan] takes every
    result offered to it; a send and its receipt are one step. *)
Inductive sync_step : sync_state -> sync_state -> Prop :=
| sync_start (s : sync_state) :
    ss_pc s = RoundsLoopHead -> (ss_packetCount s <= numPackets)%Z ->
    1 <= length path ->
    sync_step s
      (mkSync (ss_packetCount s) RoundsWaiting (Z.of_nat (length path) - 1)
         (ss_probing s ++ seq 2 (length path - 1)) (ss_sending s) (ss_sent s)
         (ss_tc s) (ss_out s) (ss_closed s))
| sync_start_panic (s : sync_state) :
    ss_pc s = RoundsLoopHead -> (ss_packetCount s <= numPackets)%Z ->
    length path = 0 ->
    sync_step s
      (mkSync (ss_packetCount s) RoundsPanicked (ss_wg s)
         (ss_probing s) (ss_sending s) (ss_sent s)
         (ss_tc s) (ss_out s) (ss_closed s))
| sync_exit (s : sync_state) :
    ss_pc s = RoundsLoopHead -> (numPackets < ss_packetCount s)%Z ->
    sync_step s
      (mkSync (ss_packetCount s) RoundsClosed (ss_wg s)
         (ss_probing s) (ss_sending s) (ss_sent s)
         (ss_tc s) (ss_out s) true)
| sync_probe (s : sync_state) (l1 l2 : list nat) (idx : nat)
    (env : BoomerangEnv) (result : BoomerangResult) (tc' : TransportChannel) :
    ss_probing s = l1 ++ idx :: l2 ->
    Boomerang json_Marshal json_Unmarshal IP_String (ss_tc s) (take idx path)
      timeout env = Ok (result, tc') ->
    sync_step s
      (mkSync (ss_packetCount s) (ss_pc s) (ss_wg s)
         (l1 ++ l2) (ss_sending s ++ [(idx, result)]) (ss_sent s)
         tc' (ss_out s) (ss_closed s))
| sync_send (s : sync_state) (l1 l2 : list (nat * BoomerangResult)) (idx : nat)
    (result : BoomerangResult) :
    ss_sending s = l1 ++ (idx, result) :: l2 -> ss_closed s = false ->
    sync_step s
      (mkSync (ss_packetCount s) (ss_pc s) (ss_wg s)
         (ss_probing s) (l1 ++ l2) (ss_sent s ++ [idx])
         (ss_tc s) (ss_out s ++ [mkEmission (ss_packetCount s) idx result])
         (ss_closed s))
| sync_done (s : sync_state) (l1 l2 : list nat) (idx : nat) :
    ss_sent s = l1 ++ idx :: l2 ->
    sync_step s
      (mkSync (ss_packetCount s) (ss_pc s) (ss_wg s - 1)
         (ss_probing s) (ss_sending s) (l1 ++ l2)
         (ss_tc s) (ss_out s) (ss_closed s))
| sync_wait (s : sync_state) :
    ss_pc s = RoundsWaiting -> ss_wg s = 0%Z ->
    sync_step s
      (mkSync (ss_packetCount s) RoundsSleeping (ss_wg s)
         (ss_probing s) (ss_sending s) (ss_sent s)
         (ss_tc s) (ss_out s) (ss_closed s))
| sync_wake (s : sync_state) :
    ss_pc s = RoundsSleeping ->
    sync_step s
      (mkSync (ss_packetCount s + 1) RoundsLoopHead (ss_wg s)
         (ss_probing s) (ss_sending s) (ss_sent s)
         (ss_tc s) (ss_out s) (ss_closed s)).

(** [result] is what some run of [Boomerang] over [prefix] returns. *)
Definition Boomerang_result_of (prefix : Path) (result : BoomerangResult) : Prop :=
  exists tc env tc',
    Boomerang json_Marshal json_Unmarshal IP_String tc prefix timeout env
      = Ok (result, tc').

(** The emissions of round [k]: one result of [Boomerang] per prefix
    [path[0:idx]], [idx] from 2 to [len(path)], in some order. *)
Definition round_ok (k : nat) (round : list emission) : Prop :=
  em_idx <$> round ≡ₚ seq 2 (length path - 1)
  /\ Forall (fun e => em_round e = Z.of_nat k
                      /\ Boomerang_result_of (take (em_idx e) path) (em_result e))
       round.

(** [out] is the emissions of rounds 1 to [k], round after round. *)
Inductive rounds_done : nat -> list emission -> Prop :=
| rounds_done_O : rounds_done 0 []
| rounds_done_S (k : nat) (out round : list emission) :
    rounds_done k out -> round_ok (S k) round -> rounds_done (S k) (out ++ round).

(** How far a state is from the end of every run. *)
Definition workers_fuel (s : sync_state) : nat :=
  3 * length (ss_probing s) + 2 * length (ss_sending s) + length (ss_sent s).

Definition rounds_left (s : sync_state) : nat :=
  Z.to_nat (numPackets + 1 - ss_packetCount s).

Definition sync_fuel (s : sync_state) : nat :=
  let round_cost := 3 * (length path - 1) + 3 in
  workers_fuel s +
  match ss_pc s with
  | RoundsLoopHead => rounds_left s * round_cost + 1
  | RoundsWaiting => (rounds_left s - 1) * round_cost + 3
  | RoundsSleeping => (rounds_left s - 1) * round_cost + 2
  | RoundsClosed => 0
  | RoundsPanicked => 0
  end.

(** What holds of every state of a run. *)
Definition sync_inv (s : sync_state) : Prop :=
  (1 <= ss_packetCount s <= numPackets + 1)%Z
  /\ match ss_pc s with
     | RoundsLoopHead =>
         ss_probing s = [] /\ ss_sending s = [] /\ ss_sent s = []
         /\ ss_closed s = false
         /\ rounds_done (Z.to_nat (ss_packetCount s - 1)) (ss_out s)
     | RoundsWaiting =>
         (ss_packetCount s <= numPackets)%Z /\ ss_closed s = false
         /\ ss_wg s = Z.of_nat (length (ss_probing s) + length (ss_sending s)
                                + length (ss_sent s))
         /\ Forall (fun w => Boomerang_result_of (take w.1 path) w.2) (ss_sending s)
         /\ exists full cur,
              ss_out s = full ++ cur
              /\ rounds_done (Z.to_nat (ss_packetCount s - 1)) full
              /\ Forall (fun e => em_round e = ss_packetCount s
                                  /\ Boomerang_result_of (take (em_idx e) path)
                                       (em_result e)) cur
              /\ ss_probing s ++ (ss_sending s).*1 ++ (em_idx <$> cur)
                   ≡ₚ seq 2 (length path - 1)
     | RoundsSleeping =>
         (ss_packetCount s <= numPackets)%Z
         /\ ss_probing s = [] /\ ss_sending s = [] /\ ss_sent s = []
         /\ ss_closed s = false
         /\ rounds_done (Z.to_nat (ss_packetCount s)) (ss_out s)
     | RoundsClosed =>
         ss_packetCount s = (numPackets + 1)%Z
         /\ ss_probing s = [] /\ ss_sending s = [] /\ ss_sent s = []
         /\ ss_closed s = true
         /\ rounds_done (Z.to_nat numPackets) (ss_out s)
     | RoundsPanicked => False
     end.
End SyncRounds.

(** ** Concrete inputs used in the examples *)

(** A channel with empty tables whose sockets accept every datagram. *)
Definition example_tc (flt : string) : TransportChannel :=
  mkTC flt 3 4 NewPacketHashMap (mkLM [] 0) ∅ (fun _ _ _ => None) [] [] [].

Definition example_rt : Runtime := mkRT ∅ [].

(** A stand-in for the JSON codec in the examples: the payload bytes are
    the characters of the [ID]. *)
Definition example_Marshal (p : BoomerangPayload) : list Z + string :=
  inl ((fun a => Z.of_N (Ascii.N_of_ascii a)) <$> String.list_ascii_of_string (ID p)).

Definition example_Unmarshal (bytes : list Z) : option BoomerangPayload :=
  Some (mkPayload [] (go_string bytes) 0 0).

Definition example_IP_String (ip : IP) : string := "<ip>".

(** The path of a probe from 10.0.0.1 over 10.0.0.2 and the reply to it: a
    packet from 10.0.0.2 to 10.0.0.1 that carries the payload of the probe
    whose UUID is ["id-1"]. *)
Definition example_path : Path := [[10; 0; 0; 1]; [10; 0; 0; 2]]%Z.

Definition example_reply : Packet :=
  mkPacket [10; 0; 0; 2]%Z [10; 0; 0; 1]%Z 0 [105; 100; 45; 49]%Z (Some [105; 100; 45; 49]%Z).

Definition example_env_reply : BoomerangEnv :=
  mkEnv "id-1" 1000 [(example_reply, 1050%Z)] 4000.

Definition example_env_silent : BoomerangEnv :=
  mkEnv "id-1" 1000 [] 4000.

(** A packet whose application payload starts with ["moby"] and a 16-byte
    UUID, and the hash table of a channel on which that fingerprint is
    registered with a queue that still holds an earlier packet. *)
Definition moby_payload : list Z :=
  [109; 111; 98; 121; 1; 2; 3; 4; 5; 6; 7; 8; 9; 10; 11; 12; 13; 14; 15; 16; 0; 0]%Z.

Definition moby_packet : Packet :=
  mkPacket [10; 0; 0; 2]%Z [10; 0; 0; 1]%Z 0 moby_payload (Some moby_payload).

Definition moby_phm : packetHashMap :=
  mkPHM false {[ go_string (take 20 moby_payload) := 0 ]} [BoomerangPacketHasher].

Definition full_queue_heap : heap Packet :=
  {[ 0 := mkChan 1 [moby_packet] false 0 ]}.

Definition empty_queue_heap : heap Packet :=
  {[ 0 := mkChan 1 [] false 0 ]}.

(** A run of path discovery towards 10.0.0.9 from 10.0.0.1. *)
Definition example_params : PathChannelParams := mkParams [10; 0; 0; 9]%Z None 100.

(** An ICMP echo request from a neighbour: captured, and neither a
    TTL-exceeded nor a port-unreachable answer. *)
Definition unrelated_packet : Captured :=
  mkCaptured (Some 2048%Z) (Some ([10; 0; 0; 7]%Z, [10; 0; 0; 1]%Z)).

(** ** Further definitions: addresses and paths *)

(** The form of an address that [net.IP.Equal] compares: the 4 bytes of an
    IPv4 address, whichever way it is written, and the bytes themselves of
    any other address. *)
Definition IP_canon (ip : IP) : IP := default ip (IP_To4 ip).

(** [a] is a prefix of [b], as slices of the same path. *)
Definition is_prefix (a b : Path) : Prop := exists rest, b = a ++ rest.

(** ** Further definitions: builder.go, the traceroute packets *)

(** An address whose bytes are bytes. *)
Definition byte_valued (ip : IP) : Prop := Forall (fun b => (0 <= b < 256)%Z) ip.

(** The header checksum of a received IPv4 header verifies: the one's
    complement sum of its 16-bit words, the checksum among them, is
    [0xffff]. *)
Definition checksum_verifies (hdr : list Z) : Prop :=
  fold_carry 2 (sum16 hdr) = 65535%Z.

(** The fields of gopacket's [layers.ICMPv4]. *)
Record ICMPv4 : Type := mkICMPv4 {
  TypeCode : Z;
  icmp_Checksum : Z;
  icmp_Id : Z;
  Seq : Z
}.

(** [layers.CreateICMPv4TypeCode(typ, code)] and [layers.ICMPv4TypeEchoRequest]. *)
Definition CreateICMPv4TypeCode (typ code : Z) : Z :=
  uint16 (Z.lor (Z.shiftl typ 8) code).
Definition ICMPv4TypeEchoRequest : Z := 8.

(** The layers handed to [gopacket.SerializeLayers] by the traceroute
    builders. *)
Inductive TLayer : Type :=
| TIPv4 (h : IPv4)
| TICMPv4 (i : ICMPv4)
| TPayload (data : list Z).

(** The words summed by gopacket's [tcpipChecksum]: a last odd byte counts
    as the high byte of a word. *)
Fixpoint sum16_odd (data : list Z) : Z :=
  match data with
  | hi :: lo :: rest => (Z.shiftl hi 8 + lo + sum16_odd rest)%Z
  | [hi] => Z.shiftl hi 8
  | [] => 0%Z
  end.

(** gopacket's [tcpipChecksum(data, 0)]: the sum is kept in a [uint32]. *)
Definition tcpipChecksum (data : list Z) : Z :=
  Z.lxor (fold_carry 2 (sum16_odd data mod 2 ^ 32)) 65535.

(** [SerializeTo] of [layers.ICMPv4] with [ComputeChecksums] set: the 8
    bytes of the header are put before the bytes already in the buffer, and
    the checksum is taken over the header and those bytes. *)
Definition serializeICMPv4 (i : ICMPv4) (buf : list Z) : list Z :=
  let csum :=
    tcpipChecksum (be16 (TypeCode i) ++ [0; 0]%Z ++ be16 (icmp_Id i)
                     ++ be16 (Seq i) ++ buf) in
  be16 (TypeCode i) ++ be16 csum ++ be16 (icmp_Id i) ++ be16 (Seq i) ++ buf.

(** [layer.SerializeTo(w, opts)] on the buffer [buf]. *)
Definition SerializeToBuf (l : TLayer) (buf : list Z) : outcome (list Z) :=
  match l with
  | TIPv4 h => hdr ← serializeIPv4 h; Ok (hdr ++ buf)
  | TICMPv4 i => Ok (serializeICMPv4 i buf)
  | TPayload data => Ok (data ++ buf)
  end.

(** [gopacket.SerializeLayers] over these layers: from the last layer to
    the first, each one prepended to the buffer. *)
Fixpoint SerializeTLayers (layers : list TLayer) : outcome (list Z) :=
  match layers with
  | [] => Ok []
  | l :: rest => buf ← SerializeTLayers rest; SerializeToBuf l buf
  end.

Section Traceroute.
(** The constant [icmpHeaderLen] is declared in a file that is not part of
    the sources at hand; the builders are read with any value of it. *)
Variable icmpHeaderLen : Z.

(** The literal [&layers.ICMPv4{TypeCode: ..., Seq: 1}] of both builders. *)
Definition echoRequestLayer : ICMPv4 :=
  mkICMPv4 (CreateICMPv4TypeCode ICMPv4TypeEchoRequest 0) 0 0 1.

(** [func buildICMPTraceroutePacket(sourceIP, destIP net.IP, ttl uint8, payload []byte, buf gopacket.SerializeBuffer) error] *)
Definition buildICMPTraceroutePacket (sourceIP destIP : IP) (ttl : Z)
    (payload : list Z) : outcome (list Z) :=
  let ipLength := uint16 (ipHeaderLen + icmpHeaderLen + Z.of_nat (length payload)) in
  let ipLayer := buildIPv4ICMPLayer sourceIP destIP ipLength ttl in
  SerializeTLayers [TIPv4 ipLayer; TICMPv4 echoRequestLayer; TPayload payload].

(** [func buildEncapTraceroutePacket(outerSourceIP, outerDestIP, innerSourceIP, innerDestIP net.IP, ttl uint8, payload []byte, buf gopacket.SerializeBuffer) error] *)
Definition buildEncapTraceroutePacket (outerSourceIP outerDestIP innerSourceIP
    innerDestIP : IP) (ttl : Z) (payload : list Z) : outcome (list Z) :=
  let ipipLength :=
    uint16 (ipHeaderLen + ipHeaderLen + icmpHeaderLen + Z.of_nat (length payload)) in
  let ipipLayer := buildIPIPLayer outerSourceIP outerDestIP ipipLength in
  let ipLength := uint16 (ipHeaderLen + icmpHeaderLen + Z.of_nat (length payload)) in
  let ipLayer := buildIPv4ICMPLayer innerSourceIP innerDestIP ipLength ttl in
  SerializeTLayers
    [TIPv4 ipipLayer; TIPv4 ipLayer; TICMPv4 echoRequestLayer; TPayload payload].
End Traceroute.

(** ** Further definitions: hash.go *)

(** A channel of the heap that has not been closed. *)
Definition open_in (h : heap Packet) (c : nat) : Prop :=
  exists ch, h !! c = Some ch /\ closed ch = false.

(** What the operations of hash.go keep true of the map and the channels:
    every channel of the map is a channel of the heap that has not been
    closed, and no two hashes share a channel. *)
Definition phm_wf (phm : packetHashMap) (h : heap Packet) : Prop :=
  (forall k c, phm_m phm !! k = Some c -> open_in h c)
  /\ (forall k1 k2 c,
        phm_m phm !! k1 = Some c -> phm_m phm !! k2 = Some c -> k1 = k2).

(** A call that ends in a panic or in an error. *)
Definition fails {A} (r : outcome A) : Prop :=
  match r with
  | Panic _ | Err _ => True
  | _ => False
  end.

(** ** Further definitions: traffic.go *)

(** A channel with empty tables whose sockets refuse every datagram. *)
Definition refusing_tc (flt : string) : TransportChannel :=
  mkTC flt 3 4 NewPacketHashMap (mkLM [] 0) ∅
       (fun _ _ _ => Some "operation not permitted") [] [] [].

Section ProbeRounds.
Variable json_Marshal : BoomerangPayload -> list Z + string.
Variable json_Unmarshal : list Z -> option BoomerangPayload.
Variable IP_String : IP -> string.

(** The calls of [Boomerang] that the goroutine of [Probe] makes one after
    the other, each with what it meets outside the program, and the
    results it sends on [resultChan]. *)
Fixpoint Probe_rounds (tc : TransportChannel) (path : Path) (timeout : Z)
    (envs : list BoomerangEnv) : outcome (list BoomerangResult * TransportChannel) :=
  match envs with
  | [] => Ok ([], tc)
  | env :: rest =>
      match Boomerang json_Marshal json_Unmarshal IP_String tc path timeout env with
      | Ok (result, tc1) =>
          match Probe_rounds tc1 path timeout rest with
          | Ok (results, tc2) => Ok (result :: results, tc2)
          | Err e => Err e
          | Panic msg => Panic msg
          | Blocked site => Blocked site
          end
      | Err e => Err e
      | Panic msg => Panic msg
      | Blocked site => Blocked site
      end
  end.

(** The goroutine of [Probe]:
    [for i := 1; i <= numPackets; i++ { result := tc.Boomerang(path, timeout); resultChan <- result }],
    then [close(resultChan)]. [env i] is what the call of iteration [i]
    meets; the result is what a reader of [resultChan] receives before the
    channel is closed, and the transport channel as the goroutine leaves
    it. *)
Definition Probe_goroutine (tc : TransportChannel) (path : Path)
    (numPackets timeout : Z) (env : Z -> BoomerangEnv)
    : outcome (list BoomerangResult * TransportChannel) :=
  Probe_rounds tc path timeout
    ((fun i => env (Z.of_nat i)) <$> seq 1 (Z.to_nat numPackets)).
End ProbeRounds.

(** A result of [Boomerang] whose listener was not unregistered: the reply
    was seen, or the packet could not be sent. *)
Definition leaves_listener (r : BoomerangResult) : bool :=
  bool_decide (Err_ r = None) || bool_decide (ErrorType r = sendError).

(** ** Further definitions: path.go, path discovery with any capture *)

Section FoundStream.
Variable sourceIP : IP.
Variable params : PathChannelParams.

(** The addresses that the capture goroutine of [GetPathChannelTo] sends
    on [found] for the packets it reads, in order: the source of each
    TTL-exceeded answer and, for the first port-unreachable answer, its
    source and then [params.destIP], after which the goroutine returns.
    A packet that lacks a layer ends the sequence with a panic. *)
Fixpoint found_stream (rx : list Captured) : list IP :=
  match rx with
  | [] => []
  | packet :: rest =>
      match classify sourceIP packet with
      | Hop ip => ip :: found_stream rest
      | Last ip => [ip; destIP params]
      | Ignore => found_stream rest
      | NilDeref => []
      end
  end.

(** What the capture goroutine has yet to send on [found], from where it
    stands. *)
Definition pending (s : probe_state) : list IP :=
  match ps_cap s with
  | CapRecv => found_stream (ps_rx s)
  | CapSignal packet => found_stream (packet :: ps_rx s)
  | CapSendHop ip => ip :: found_stream (ps_rx s)
  | CapSendLast ip => [ip; destIP params]
  | CapSendDest => [destIP params]
  | CapSendDone => []
  | CapExit => []
  | CapNilDeref => []
  end.

(** The capture goroutine has seen the port-unreachable answer. *)
Definition reached (cap : capture_pc) : bool :=
  match cap with
  | CapSendLast _ | CapSendDest | CapSendDone | CapExit => true
  | _ => false
  end.
End FoundStream.

(** The address the probing goroutine has taken from [found] and not yet
    sent on [pathChan]. *)
Definition inflight (drv : driver_pc) : list IP :=
  match drv with
  | DrvEmit _ (Some ip) => [ip]
  | _ => []
  end.

(** The hops received from [pathChan] that are not nil. *)
Definition hops_of (out : list (option IP)) : list IP := omap id out.

(** What holds of every state of every run of the two goroutines of
    [GetPathChannelTo]: the addresses sent on [found] reach the reader in
    the order of the capture, the probing goroutine counts its rounds, a
    call of [SendTo] that has returned once does not panic later, and a
    panic is one of the capture goroutine at a nil layer or one of
    [SendTo]. [rx0] is the list of packets at the start. *)
Definition discovery_inv (sourceIP : IP) (params : PathChannelParams)
    (rx0 : list Captured) (s : probe_state) : Prop :=
  found_stream sourceIP params rx0
    = hops_of (ps_out s) ++ inflight (ps_drv s) ++ pending sourceIP params s
  /\ (reached (ps_cap s) = true ->
      last (found_stream sourceIP params rx0) = Some (destIP params))
  /\ (ps_sent s <> [] -> SendTo_panics (destIP params) = false)
  /\ (is_Some (ps_panic s) -> ps_cap s = CapNilDeref \/ ps_drv s = DrvPanic)
  /\ match ps_drv s with
     | DrvWaitReady =>
         ps_out s = [] /\ ps_sent s = [2] /\ ps_closed s = false
         /\ ps_readySent s = false
         /\ ((ps_cap s = CapRecv /\ ps_rx s = rx0)
             \/ (exists packet, ps_cap s = CapSignal packet))
     | DrvSelect ttl | DrvEmit ttl _ =>
         1 <= ttl <= 32 /\ length (ps_out s) = ttl - 1
         /\ ps_sent s = 2 :: seq 1 ttl /\ ps_closed s = false
     | DrvClosed =>
         ps_closed s = true
         /\ ((length (ps_out s) = 32 /\ ps_sent s = 2 :: seq 1 32)
             \/ (ps_cap s = CapExit /\ length (ps_out s) < 32
                 /\ ps_sent s = 2 :: seq 1 (S (length (ps_out s)))))
     | DrvStuck =>
         ps_closed s = false /\ length (ps_out s) < 32
         /\ ((ps_sent s = [] /\ ps_out s = [])
             \/ ps_sent s = 2 :: seq 1 (length (ps_out s)))
     | DrvPanic =>
         ps_closed s = false /\ ps_sent s = [] /\ ps_out s = []
         /\ is_Some (ps_panic s) /\ SendTo_panics (destIP params) = true
     end.

(** [func (tc *TransportChannel) GetPathTo(destIP net.IP, timeout int) (Path, error)]:
    the hops received from the channel until it is closed, a nil hop being
    the nil [net.IP]. The function returns [result] when the checks of
    [GetPathChannelTo] fail, or when some run of the two goroutines closes
    the channel after the reader has received the hops of [result]. *)
Definition GetPathTo_returns (build_fails : nat -> bool) (tc : TransportChannel)
    (dest : IP) (timeout : Z) (findSource : outcome IP) (rx : list Captured)
    (result : Path * option string) : Prop :=
  match GetPathChannelTo build_fails tc (mkParams dest None timeout) findSource rx with
  | Ok (sourceIP, s0) =>
      exists s,
        rtc (probe_step build_fails sourceIP (mkParams dest None timeout)) s0 s
        /\ ps_closed s = true
        /\ result = (default [] <$> ps_out s, None)
  | Err e => result = ([], Some e)
  | Panic _ => False
  | Blocked _ => False
  end.

(** A run of path discovery that finds 10.0.0.9 behind one router. *)
Definition ttl_exceeded_packet : Captured :=
  mkCaptured (Some 2816%Z) (Some ([10; 0; 0; 5]%Z, [10; 0; 0; 1]%Z)).
Definition port_unreachable_packet : Captured :=
  mkCaptured (Some 771%Z) (Some ([10; 0; 0; 9]%Z, [10; 0; 0; 1]%Z)).

(** A later fragment of an ICMP packet: it passes the filter and has no
    ICMPv4 layer. *)
Definition fragment_packet : Captured :=
  mkCaptured None (Some ([10; 0; 0; 5]%Z, [10; 0; 0; 1]%Z)).

(** ** Further definitions: path.go, path discovery through a remote host *)

(** Modelled from the spec: the ICMP type/code constants are declared in a
    file that is not part of the sources at hand. The dispatch rules name
    the echo request (ICMP type 8, code 0) and the echo reply (type 0,
    code 0); gopacket packs type and code as [type << 8 | code]. *)
Definition icmpEchoRequest : Z := 2048.
Definition icmpEchoReply : Z := 0.

(** The [if ... else if ...] of the capture goroutine of
    [GetPathChannelFrom]: [Last ip] stands for [found <- ip; done <- nil; return].
    Both conditions read [icmp.TypeCode] first, and [ip4] only when the
    type and code are the ones looked for ([&&] does not evaluate its
    second operand otherwise). *)
Definition classify_from (localIP dest : IP) (packet : Captured) : classified :=
  match cap_icmp packet with
  | None => NilDeref
  | Some typeCode =>
      match cap_ip4 packet with
      | Some (src, dst) =>
          if bool_decide (typeCode = icmpTTLExceeded) && IP_Equal dst localIP
          then Hop src
          else if bool_decide (typeCode = icmpEchoRequest) && IP_Equal src dest
          then Last dst
          else Ignore
      | None =>
          if bool_decide (typeCode = icmpTTLExceeded)
             || bool_decide (typeCode = icmpEchoRequest)
          then NilDeref
          else Ignore
      end
  end.

(** The same of [GetPathChannelFromSourceToDest]. *)
Definition classify_between (localIP dest : IP) (packet : Captured) : classified :=
  match cap_icmp packet with
  | None => NilDeref
  | Some typeCode =>
      match cap_ip4 packet with
      | Some (src, dst) =>
          if bool_decide (typeCode = icmpTTLExceeded) && IP_Equal dst localIP
          then Hop src
          else if bool_decide (typeCode = icmpEchoReply) && IP_Equal src dest
          then Last src
          else Ignore
      | None =>
          if bool_decide (typeCode = icmpTTLExceeded)
             || bool_decide (typeCode = icmpEchoReply)
          then NilDeref
          else Ignore
      end
  end.

(** [[]byte("Hello")] *)
Definition hello : list Z := [72; 101; 108; 108; 111]%Z.

(** The two builds at the head of a round of [GetPathChannelFrom]:
    [buildEncapTraceroutePacket(localIP, destIP, localIP, localIP, ttl, ...)] and
    [buildEncapTraceroutePacket(localIP, destIP, destIP, localIP, ttl+1, ...)].
    After an error of either the goroutine is in [done <- err]. *)
Definition from_builds (icmpHeaderLen : Z) (localIP dest : IP) (ttl : nat) : bool :=
  match buildEncapTraceroutePacket icmpHeaderLen localIP dest localIP localIP
          (Z.of_nat ttl) hello with
  | Ok _ =>
      match buildEncapTraceroutePacket icmpHeaderLen localIP dest dest localIP
              (uint8 (Z.of_nat ttl + 1)) hello with
      | Ok _ => true
      | _ => false
      end
  | _ => false
  end.

Section Relay.
(** The two goroutines of [GetPathChannelFrom] and of
    [GetPathChannelFromSourceToDest] differ in the packets the capture
    goroutine answers to ([relay_classify]), in whether a round can stop at
    a build error ([relay_builds]), in the probes of a round
    ([relay_probes], by TTL) and in the address they are handed to [SendTo]
    with ([relay_dest]). Neither waits for a ready signal, and both set up
    the deferred [close(pathChan)] before the first round. *)
Variable relay_classify : Captured -> classified.
Variable relay_builds : nat -> bool.
Variable relay_probes : nat -> list nat.
Variable relay_dest : IP.

Definition relay_after (packet : Captured) : capture_pc :=
  match relay_classify packet with
  | Hop ip => CapSendHop ip
  | Last ip => CapSendLast ip
  | Ignore => CapRecv
  | NilDeref => CapNilDeref
  end.

(** The head of the loop for [ttl]: after a build error the goroutine is
    in [done <- err]; a panic of [SendTo] runs the deferred
    [close(pathChan)] and ends the program. *)
Definition relay_enter (ttl : nat) (s : probe_state) : probe_state :=
  if relay_builds ttl
  then
    if SendTo_panics relay_dest
    then mkProbe (ps_rx s) (ps_cap s) (ps_readySent s) DrvPanic (ps_sent s)
           (ps_out s) true (Some "slice bounds out of range")
    else mkProbe (ps_rx s) (ps_cap s) (ps_readySent s) (DrvSelect ttl)
           (ps_sent s ++ relay_probes ttl) (ps_out s) (ps_closed s) (ps_panic s)
  else mkProbe (ps_rx s) (ps_cap s) (ps_readySent s) DrvStuck (ps_sent s)
         (ps_out s) (ps_closed s) (ps_panic s).

(** [ttl++], then the next round or the return that closes [pathChan]. *)
Definition relay_next (ttl : nat) (s : probe_state) : probe_state :=
  if decide (ttl + 1 <= 32) then relay_enter (ttl + 1) s
  else mkProbe (ps_rx s) (ps_cap s) (ps_readySent s) DrvClosed (ps_sent s)
         (ps_out s) true (ps_panic s).

(** The state when the function returns the channel: the probing
    goroutine is at the head of its first round. *)
Definition relay_init (rx : list Captured) : probe_state :=
  relay_enter 1 (mkProbe rx CapRecv false DrvWaitReady [] [] false None).

(** The steps of the two goroutines, as long as the program has not
    panicked. *)
Inductive relay_step : probe_state -> probe_state -> Prop :=
| relay_capture (s : probe_state) (packet : Captured) (rx : list Captured) :
    ps_panic s = None ->
    ps_cap s = CapRecv -> ps_rx s = packet :: rx ->
    relay_step s
      (mkProbe rx (relay_after packet) (ps_readySent s) (ps_drv s) (ps_sent s)
         (ps_out s) (ps_closed s) (ps_panic s))
| relay_nil_deref (s : probe_state) :
    ps_panic s = None ->
    ps_cap s = CapNilDeref ->
    relay_step s (panicked s "invalid memory address or nil pointer dereference")
| relay_found_hop (s : probe_state) (ip : IP) (ttl : nat) :
    ps_panic s = None ->
    ps_cap s = CapSendHop ip -> ps_drv s = DrvSelect ttl ->
    relay_step s (with_drv (with_cap s CapRecv) (DrvEmit ttl (Some ip)))
| relay_found_last (s : probe_state) (ip : IP) (ttl : nat) :
    ps_panic s = None ->
    ps_cap s = CapSendLast ip -> ps_drv s = DrvSelect ttl ->
    relay_step s (with_drv (with_cap s CapSendDone) (DrvEmit ttl (Some ip)))
| relay_done (s : probe_state) (ttl : nat) :
    ps_panic s = None ->
    ps_cap s = CapSendDone -> ps_drv s = DrvSelect ttl ->
    relay_step s
      (mkProbe (ps_rx s) CapExit (ps_readySent s) DrvClosed (ps_sent s) (ps_out s) true
         (ps_panic s))
| relay_timeout (s : probe_state) (ttl : nat) :
    ps_panic s = None ->
    ps_drv s = DrvSelect ttl ->
    relay_step s (with_drv s (DrvEmit ttl None))
| relay_emit (s : probe_state) (ttl : nat) (hop : option IP) :
    ps_panic s = None ->
    ps_drv s = DrvEmit ttl hop ->
    relay_step s
      (relay_next ttl
         (mkProbe (ps_rx s) (ps_cap s) (ps_readySent s) (ps_drv s) (ps_sent s)
            (ps_out s ++ [hop]) (ps_closed s) (ps_panic s))).

(** The addresses the capture goroutine sends on [found], in order; a
    nil dereference ends the sequence with a panic. *)
Fixpoint relay_stream (rx : list Captured) : list IP :=
  match rx with
  | [] => []
  | packet :: rest =>
      match relay_classify packet with
      | Hop ip => ip :: relay_stream rest
      | Last ip => [ip]
      | Ignore => relay_stream rest
      | NilDeref => []
      end
  end.

Definition relay_pending (s : probe_state) : list IP :=
  match ps_cap s with
  | CapRecv => relay_stream (ps_rx s)
  | CapSendHop ip => ip :: relay_stream (ps_rx s)
  | CapSendLast ip => [ip]
  | _ => []
  end.

Definition relay_fuel (s : probe_state) : nat :=
  3 * length (ps_rx s)
  + match ps_cap s with
    | CapSendHop _ => 1
    | CapSendLast _ => 2
    | CapSendDone => 1
    | _ => 0
    end
  + driver_fuel (ps_drv s)
  + panic_fuel (ps_panic s).

(** What holds of every state of every run. *)
Definition relay_inv (rx0 : list Captured) (s : probe_state) : Prop :=
  relay_stream rx0 = hops_of (ps_out s) ++ inflight (ps_drv s) ++ relay_pending s
  /\ match ps_cap s with
     | CapSignal _ | CapSendDest => False
     | _ => True
     end
  /\ (is_Some (ps_panic s) -> ps_cap s = CapNilDeref \/ ps_drv s = DrvPanic)
  /\ match ps_drv s with
     | DrvWaitReady => False
     | DrvSelect ttl | DrvEmit ttl _ =>
         1 <= ttl <= 32 /\ length (ps_out s) = ttl - 1 /\ ps_closed s = false
     | DrvClosed =>
         ps_closed s = true
         /\ (length (ps_out s) = 32 \/ (ps_cap s = CapExit /\ length (ps_out s) < 32))
     | DrvStuck => ps_closed s = false /\ length (ps_out s) < 32
     | DrvPanic =>
         ps_closed s = true /\ length (ps_out s) < 32 /\ is_Some (ps_panic s)
         /\ SendTo_panics relay_dest = true
     end.
End Relay.

(** [func (tc *TransportChannel) GetPathChannelFrom(destIP net.IP, timeout int) (PathChannel, error)]:
    the checks made before the goroutines start. [findLocal] is the answer
    of [tc.FindLocalIP()] and [rx] the packets that [tc.rx()] will deliver.
    The result is the local address and the state of the two goroutines
    when the function returns the channel. With addresses that build, the
    probes of a round go to [SendTo] with a destination that has a 4-byte
    form, whose errors the loop ignores. *)
Definition GetPathChannelFrom (icmpHeaderLen : Z) (tc : TransportChannel)
    (dest : IP) (timeout : Z) (findLocal : outcome IP) (rx : list Captured)
    : outcome (IP * probe_state) :=
  if decide (tc_filter tc <> "icmp")
  then Err ("BPF filter must be icmp: got " +:+ tc_filter tc +:+ " instead")
  else
    localIP ← findLocal;
    Ok (localIP,
        relay_init (from_builds icmpHeaderLen localIP dest)
          (fun ttl => [ttl; ttl + 1]) dest rx).

(** Which pair of goroutines [GetPathChannelFromSourceToDest] has started. *)
Inductive between_started : Type :=
| StartedTo (sourceIP : IP) (s0 : probe_state)
| StartedRelay (localIP : IP) (s0 : probe_state).

(** [func (tc *TransportChannel) GetPathChannelFromSourceToDest(sourceIP, destIP net.IP, timeout int) (PathChannel, error)].
    When the source is the local address the call is handed to
    [GetPathChannelTo]; otherwise the probing goroutine sends one
    encapsulated probe per round, to the source address, and goes on
    whatever the builder returns. *)
Definition GetPathChannelFromSourceToDest (build_fails : nat -> bool)
    (tc : TransportChannel) (sourceIP dest : IP) (timeout : Z)
    (findLocal findSource : outcome IP) (rx : list Captured)
    : outcome between_started :=
  if decide (tc_filter tc <> "icmp")
  then Err ("BPF filter must be icmp: got " +:+ tc_filter tc +:+ " instead")
  else
    localIP ← findLocal;
    if IP_Equal sourceIP localIP
    then
      '(src, s0) ← GetPathChannelTo build_fails tc (mkParams dest None timeout)
                     findSource rx;
      Ok (StartedTo src s0)
    else
      Ok (StartedRelay localIP
            (relay_init (fun _ => true) (fun ttl => [ttl]) sourceIP rx)).

(** [func (tc *TransportChannel) GetPathFrom(destIP net.IP, timeout int) (Path, error)]:
    the hops received from the channel of [GetPathChannelFrom] until it is
    closed, a nil hop being the nil [net.IP]. The function returns [result]
    when the checks of [GetPathChannelFrom] fail, or when some run of the
    two goroutines closes the channel after the reader has received the
    hops of [result]. *)
Definition GetPathFrom_returns (icmpHeaderLen : Z) (tc : TransportChannel)
    (dest : IP) (timeout : Z) (findLocal : outcome IP) (rx : list Captured)
    (result : Path * option string) : Prop :=
  match GetPathChannelFrom icmpHeaderLen tc dest timeout findLocal rx with
  | Ok (localIP, s0) =>
      exists s,
        rtc (relay_step (classify_from localIP dest)
               (from_builds icmpHeaderLen localIP dest) (fun ttl => [ttl; ttl + 1])
               dest) s0 s
        /\ ps_closed s = true
        /\ result = (default [] <$> ps_out s, None)
  | Err e => result = ([], Some e)
  | Panic _ => False
  | Blocked _ => False
  end.

(** ** Further definitions: transport.go, the local address and the sockets *)

(** The fields of [pcap.Interface] that [FindLocalIP] reads. *)
Record Interface : Type := mkInterface {
  Name : string;
  Addresses : list IP
}.

(** [fmt.Sprintf("%s", names)] for a slice of strings. *)
Fixpoint join_names (names : list string) : string :=
  match names with
  | [] => ""
  | [name] => name
  | name :: rest => name +:+ " " +:+ join_names rest
  end.
Definition show_names (names : list string) : string := "[" +:+ join_names names +:+ "]".

(** The loop of [FindLocalIP]:
    [for _, device := range devices { if device.Name == tc.deviceNames[0] { deviceFound = true; eth0Device = device } }].
    The state is the device found so far. *)
Fixpoint find_device (deviceNames : list string) (devices : list Interface)
    (eth0Device : option Interface) : outcome (option Interface) :=
  match devices with
  | [] => Ok eth0Device
  | device :: rest =>
      name ← index deviceNames 0;
      if decide (Name device = name)
      then find_device deviceNames rest (Some device)
      else find_device deviceNames rest eth0Device
  end.

(** [func (tc *TransportChannel) FindLocalIP() (net.IP, error)];
    [deviceNames] is the field of the channel and [findAllDevs] the answer
    of [pcap.FindAllDevs()]. *)
Definition FindLocalIP (deviceNames : list string)
    (findAllDevs : outcome (list Interface)) : outcome IP :=
  devices ← findAllDevs;
  found ← find_device deviceNames devices None;
  match found with
  | None =>
      Err ("Couldn't find a device named " +:+ show_names deviceNames
           +:+ ", or it did not have any addresses assigned to it")
  | Some eth0Device => index (Addresses eth0Device) 0
  end.

(** The last device of a list that has a given name. *)
Definition last_named (name : string) (devices : list Interface) : option Interface :=
  last (filter (fun device => Name device = name) devices).

(** The field [socketFD] of the channel, the raw IPv4 sockets that the
    channel has opened and not closed, and the descriptors handed to
    [unix.Close], in order. *)
Record sock_state : Type := mkSock {
  sk_fd : Z;
  sk_open : gset Z;
  sk_closed : list Z
}.

(** One turn of the loop of [renewSocketFD] (and of [renewSocket6FD], which
    is the same on the IPv6 fields): [brokenFD] is the descriptor received
    from the failure queue and [fd] what [unix.Socket] returns if it is
    called, which is -1 with an error. *)
Definition renewSocketFD_turn (s : sock_state) (brokenFD fd : Z) : sock_state :=
  if decide (brokenFD <> sk_fd s) then s
  else
    let opened := if decide (0 <= fd)%Z then {[fd]} ∪ sk_open s else sk_open s in
    if decide (brokenFD <> fd)
    then mkSock fd (opened ∖ {[brokenFD]}) (sk_closed s ++ [brokenFD])
    else mkSock fd opened (sk_closed s).

(** What the kernel returns for a new socket: an error, or a descriptor
    that is not open. *)
Definition kernel_socket (s : sock_state) (fd : Z) : Prop :=
  fd = (-1)%Z \/ ((0 <= fd)%Z /\ fd ∉ sk_open s).

(** The turns of the loop, for any descriptors received and any answers of
    the kernel. *)
Definition renew_step (s s' : sock_state) : Prop :=
  exists brokenFD fd, kernel_socket s fd /\ s' = renewSocketFD_turn s brokenFD fd.

(** The channel holds exactly the socket of [socketFD], or none when the
    last [unix.Socket] failed. *)
Definition one_socket (s : sock_state) : Prop :=
  sk_open s = if decide (0 <= sk_fd s)%Z then {[sk_fd s]} else ∅.

(** * Properties *)

(** ** path.go *)

Lemma bytes_eqb_refl (a : list Z) : bytes_eqb a a = true.
Proof. unfold bytes_eqb. by apply bool_decide_eq_true. Qed.

Lemma IP_Equal_refl (x : IP) : IP_Equal x x = true.
Proof. unfold IP_Equal. rewrite decide_True by done. apply bytes_eqb_refl. Qed.

(** The loop of [SubPath] stops at the first hop equal to [lastHop]. *)
Lemma SubPath_loop_first_index (p : Path) (x : IP) (rest : Path) (idx : nat) :
  SubPath_loop p x idx rest =
    match first_index x rest with
    | Some j => take (idx + j + 1) p
    | None => []
    end.
Proof.
  revert idx. induction rest as [|ip rest IH]; intros idx; simpl; [done|].
  destruct (IP_Equal x ip).
  - by rewrite Nat.add_0_r.
  - rewrite IH. destruct (first_index x rest) as [j|]; simpl; [|done].
    f_equal. lia.
Qed.

Lemma SubPath_first_index (p : Path) (x : IP) :
  SubPath p x =
    match first_index x p with
    | Some j => take (j + 1) p
    | None => []
    end.
Proof. unfold SubPath. by rewrite SubPath_loop_first_index. Qed.

Lemma first_index_None (x : IP) (p : Path) :
  (forall y, y ∈ p -> IP_Equal x y = false) -> first_index x p = None.
Proof.
  induction p as [|ip p IH]; intros H; simpl; [done|].
  rewrite (H ip) by set_solver.
  rewrite IH; [done|]. intros y Hy. apply H. set_solver.
Qed.

Lemma first_index_le (x : IP) (p : Path) (k : nat) :
  p !! k = Some x -> exists j, j <= k /\ first_index x p = Some j.
Proof.
  revert k. induction p as [|ip p IH]; intros k Hk; [done|]. simpl.
  destruct (IP_Equal x ip) eqn:E.
  - exists 0. split; [lia|done].
  - destruct k as [|k]; simpl in Hk.
    + injection Hk as ->. by rewrite IP_Equal_refl in E.
    + destruct (IH k Hk) as (j & Hj & ->). exists (S j). split; [lia|done].
Qed.

Lemma first_index_exact (x : IP) (p : Path) (k : nat) :
  p !! k = Some x ->
  (forall i y, i < k -> p !! i = Some y -> IP_Equal x y = false) ->
  first_index x p = Some k.
Proof.
  revert k. induction p as [|ip p IH]; intros k Hk Hno; [done|]. simpl.
  destruct k as [|k]; simpl in Hk.
  - injection Hk as ->. by rewrite IP_Equal_refl.
  - rewrite (Hno 0 ip) by (done || lia).
    rewrite (IH k); [done|done|].
    intros i y Hi Hy. apply (Hno (S i) y); [lia|done].
Qed.

(** C6, as the claim states it, fails on a path that visits a hop twice:
    for [P = [10.0.0.1, 10.0.0.2, 10.0.0.1]] and [k = 2], [SubPath(P, P[2])]
    stops at index 0 and is not the prefix [P[0..2]]. *)
Lemma SubPath_repeated_hop :
  ([[10; 0; 0; 1]; [10; 0; 0; 2]; [10; 0; 0; 1]]%Z : Path) !! 2 = Some [10; 0; 0; 1]%Z
  /\ SubPath [[10; 0; 0; 1]; [10; 0; 0; 2]; [10; 0; 0; 1]]%Z [10; 0; 0; 1]%Z
       = [[10; 0; 0; 1]%Z]
  /\ SubPath [[10; 0; 0; 1]; [10; 0; 0; 2]; [10; 0; 0; 1]]%Z [10; 0; 0; 1]%Z
       <> take (2 + 1) ([[10; 0; 0; 1]; [10; 0; 0; 2]; [10; 0; 0; 1]]%Z : Path).
Proof. split; [reflexivity|]. split; [reflexivity|]. vm_compute. discriminate. Qed.

(** C6 (amended): for [k < |P|], [SubPath(P, P[k])] is the prefix of [P]
    that ends at the first index [j <= k] whose hop equals [P[k]] (the
    minimal prefix ending at that IP); it is the prefix [P[0..k]] inclusive
    when [P[k]] does not occur before index [k]; and for an IP [X] equal to
    no hop of [P], [SubPath(P, X)] is the empty path. *)
Theorem SubPath_minimal_prefix (P : Path) (k : nat) (x X : IP) :
  P !! k = Some x ->
  (exists j, j <= k /\ first_index x P = Some j /\ SubPath P x = take (j + 1) P)
  /\ ((forall i y, i < k -> P !! i = Some y -> IP_Equal x y = false) ->
      SubPath P x = take (k + 1) P)
  /\ ((forall y, y ∈ P -> IP_Equal X y = false) -> SubPath P X = []).
Proof.
  intros Hk. repeat split.
  - destruct (first_index_le x P k Hk) as (j & Hj & E).
    exists j. rewrite SubPath_first_index, E. done.
  - intros Hno. by rewrite SubPath_first_index, (first_index_exact x P k).
  - intros Habs. by rewrite SubPath_first_index, first_index_None.
Qed.

Lemma SubPath_minimal_prefix_witness :
  scenario_path !! 1 = Some [10; 0; 0; 2]%Z
  /\ SubPath scenario_path [10; 0; 0; 2]%Z = take (1 + 1) scenario_path
  /\ SubPath scenario_path [10; 0; 0; 9]%Z = [].
Proof.
  split; [reflexivity|].
  destruct (SubPath_minimal_prefix scenario_path 1 [10; 0; 0; 2]%Z [10; 0; 0; 9]%Z eq_refl)
    as (_ & Hexact & Habsent).
  split.
  - apply Hexact. intros i y Hi Hy.
    destruct i as [|i]; [|lia]. injection Hy as <-. reflexivity.
  - apply Habsent. intros y Hy.
    repeat (apply elem_of_cons in Hy as [->|Hy]; [reflexivity|]).
    by apply elem_of_nil in Hy.
Defined.

(** ** builder.go *)

Lemma obind_Ok {A B} (a : A) (k : A -> outcome B) : (Ok a ≫= k) = k a.
Proof. reflexivity. Qed.

Lemma index_lookup {A} (s : list A) (i : nat) (x : A) :
  s !! i = Some x -> index s i = Ok x.
Proof. unfold index. by intros ->. Qed.

Lemma index_hop (P : Path) (i : nat) : i < length P -> index P i = Ok (hop P i).
Proof.
  intros Hi. apply index_lookup. unfold hop.
  destruct (lookup_lt_is_Some_2 P i Hi) as [x Hx].
  rewrite Hx. f_equal. symmetry. by apply nth_lookup_Some with (d := []) in Hx.
Qed.

Lemma slice_set_lt {A} (s : list A) (i : nat) (x : A) :
  i < length s -> slice_set s i x = Ok (<[i:=x]> s).
Proof. intros Hi. unfold slice_set. by rewrite decide_True. Qed.

Section RoundTrip.
Variable P : Path.
Variable payload : list Z.

Let n := length P.
Let numLayers := 2 * (n - 1).
Let lenOverhead := (Z.of_nat (length payload) + udpHeaderLen + ipHeaderLen)%Z.

Let out (i : nat) : option Layer := Some (LIPv4 (out_header P payload i)).
Let ret (i : nat) : option Layer := Some (LIPv4 (ret_header P payload i)).

(** One round of the loop writes the outgoing header at [idx] and the
    returning header at the mirrored index. *)
Lemma fill_hop_writes (idx : nat) (ls : list (option Layer)) :
  idx < n - 1 -> length ls = numLayers ->
  fill_hop P numLayers lenOverhead idx ls
    = Ok (<[numLayers - idx - 1 := ret idx]> (<[idx := out idx]> ls)).
Proof.
  intros Hidx Hlen. unfold fill_hop.
  rewrite (index_hop P idx) by (fold n; lia). rewrite obind_Ok.
  rewrite (index_hop P (idx + 1)) by (fold n; lia). rewrite obind_Ok.
  rewrite slice_set_lt by (rewrite Hlen; unfold numLayers; lia).
  rewrite obind_Ok.
  rewrite slice_set_lt by (rewrite length_insert, Hlen; unfold numLayers; lia).
  assert (E1 : (ipHeaderLen * (Z.of_nat numLayers - Z.of_nat idx) + lenOverhead
                = spec_out_len n idx payload)%Z).
  { unfold spec_out_len, lenOverhead, numLayers, ipHeaderLen, udpHeaderLen. lia. }
  assert (E2 : (ipHeaderLen * (Z.of_nat idx + 1) + lenOverhead
                = spec_ret_len idx payload)%Z).
  { unfold spec_ret_len, lenOverhead, ipHeaderLen, udpHeaderLen. lia. }
  rewrite E1, E2. reflexivity.
Qed.

(** What the slice holds after the loop has run over the indices [idxs]. *)
Lemma fill_hops_lookup (idxs : list nat) (ls : list (option Layer)) :
  (forall i, i ∈ idxs -> i < n - 1) -> length ls = numLayers ->
  exists ls',
    fill_hops P numLayers lenOverhead idxs ls = Ok ls'
    /\ length ls' = numLayers
    /\ forall j,
         ls' !! j =
           if decide (j ∈ idxs) then Some (out j)
           else if decide (j < numLayers /\ (numLayers - j - 1) ∈ idxs)
                then Some (ret (numLayers - j - 1))
                else ls !! j.
Proof.
  revert ls. induction idxs as [|idx idxs IH]; intros ls Hin Hlen.
  - exists ls. repeat split; [done|]. intros j.
    rewrite decide_False by set_solver.
    rewrite decide_False; [done|]. intros [_ H]. set_solver.
  - simpl. rewrite fill_hop_writes by (done || apply Hin; set_solver).
    rewrite obind_Ok.
    assert (Hidx : idx < n - 1) by (apply Hin; set_solver).
    destruct (IH (<[numLayers - idx - 1 := ret idx]> (<[idx := out idx]> ls)))
      as (ls' & Hrun & Hlen' & Hlook).
    { intros i Hi. apply Hin. set_solver. }
    { by rewrite !length_insert. }
    exists ls'. repeat split; [done|done|]. intros j. rewrite Hlook.
    destruct (decide (j ∈ idxs)) as [Hj|Hj].
    { rewrite decide_True by set_solver. done. }
    destruct (decide (j < numLayers /\ numLayers - j - 1 ∈ idxs)) as [[Hjl Hj']|Hj'].
    { assert (numLayers - j - 1 < n - 1) by (apply Hin; set_solver).
      rewrite decide_False.
      2:{ intros Hc. apply elem_of_cons in Hc as [->|Hc];
          [unfold numLayers in *; lia|done]. }
      rewrite decide_True; [done|]. set_solver. }
    destruct (decide (j = idx)) as [->|Hne].
    { rewrite decide_True by set_solver.
      rewrite list_lookup_insert_ne by (unfold numLayers; lia).
      rewrite list_lookup_insert_eq; [done|]. rewrite Hlen. unfold numLayers. lia. }
    rewrite decide_False
      by (intros Hc; apply elem_of_cons in Hc as [Hc|Hc]; done).
    destruct (decide (j = numLayers - idx - 1)) as [->|Hne'].
    { rewrite decide_True.
      2:{ split; [unfold numLayers; lia|].
          replace (numLayers - (numLayers - idx - 1) - 1) with idx
            by (unfold numLayers; lia). set_solver. }
      rewrite list_lookup_insert_eq.
      2:{ rewrite length_insert, Hlen. unfold numLayers. lia. }
      do 2 f_equal. unfold numLayers. lia. }
    rewrite decide_False.
    2:{ intros [Hjl [E|?]%elem_of_cons]; [|by apply Hj'].
        apply Hne'. unfold numLayers in *. lia. }
    rewrite list_lookup_insert_ne by done.
    by rewrite list_lookup_insert_ne by done.
Qed.

(** The loop over [0 .. n-2] fills every slot of the slice: the outgoing
    headers in order, then the returning headers in reverse order. *)
Lemma fill_hops_all :
  fill_hops P numLayers lenOverhead (seq 0 (n - 1)) (replicate numLayers None)
    = Ok ((out <$> seq 0 (n - 1)) ++ (ret <$> reverse (seq 0 (n - 1)))).
Proof.
  destruct (fill_hops_lookup (seq 0 (n - 1)) (replicate numLayers None))
    as (ls' & -> & Hlen & Hlook).
  { intros i Hi. apply elem_of_seq in Hi. lia. }
  { apply length_replicate. }
  f_equal. apply list_eq. intros j. rewrite Hlook.
  destruct (decide (j ∈ seq 0 (n - 1))) as [Hj|Hj].
  { apply elem_of_seq in Hj.
    rewrite lookup_app_l by (rewrite length_fmap, length_seq; lia).
    rewrite list_lookup_fmap, lookup_seq_lt by lia. done. }
  rewrite elem_of_seq in Hj.
  destruct (decide (j < numLayers /\ numLayers - j - 1 ∈ seq 0 (n - 1))) as [[Hjl Hj']|Hj'].
  { rewrite lookup_app_r by (rewrite length_fmap, length_seq; lia).
    rewrite length_fmap, length_seq, list_lookup_fmap.
    rewrite reverse_lookup by (rewrite length_seq; unfold numLayers in *; lia).
    rewrite length_seq, lookup_seq_lt by (unfold numLayers in *; lia).
    simpl. do 2 f_equal. unfold numLayers in *. lia. }
  assert (Hge : numLayers <= j).
  { destruct (decide (j < numLayers)); [|lia]. exfalso. apply Hj'.
    split; [done|]. apply elem_of_seq. unfold numLayers in *. lia. }
  transitivity (@None (option Layer)); [by apply lookup_replicate_None|].
  symmetry. apply lookup_ge_None.
  rewrite length_app, !length_fmap, length_reverse, !length_seq.
  unfold numLayers in *. lia.
Qed.

(** The slice handed to the serializer holds the headers of the
    specification, each wrapped as a layer, then the payload. *)
Lemma roundTripLayers_spec :
  2 <= n ->
  roundTripLayers P payload
    = Ok ((Some ∘ LIPv4 <$> spec_headers P payload) ++ [Some (LPayload payload)]).
Proof.
  intros Hn. unfold roundTripLayers. fold n. fold numLayers. fold lenOverhead.
  rewrite fill_hops_all, obind_Ok.
  rewrite (index_hop P 1), obind_Ok by (fold n; lia).
  rewrite (index_hop P 0), obind_Ok by (fold n; lia).
  unfold spec_headers. fold n.
  rewrite !fmap_app, <- !list_fmap_compose. simpl.
  rewrite <- !(assoc_L (++)). done.
Qed.
End RoundTrip.

(** [addressTo4] succeeds exactly for an address with a 4-byte form. *)
Lemma addressTo4_Some (which : string) (ip a : IP) :
  IP_To4 ip = Some a -> addressTo4 which ip = Ok a.
Proof. intros H. unfold addressTo4, checkIPv4Address. by rewrite H. Qed.

Lemma addressTo4_None (which : string) (ip : IP) :
  IP_To4 ip = None -> exists e, addressTo4 which ip = Err e.
Proof.
  intros H. unfold addressTo4, checkIPv4Address. rewrite H.
  destruct (decide (length ip = 16)); by eexists.
Qed.

(** *** Serialization *)

Lemma IP_To4_length (ip a : IP) : IP_To4 ip = Some a -> length a = 4.
Proof.
  unfold IP_To4. intros H.
  destruct (decide (length ip = 4)); [by injection H as <-|].
  destruct (decide (length ip = 16)); [|done].
  destruct (bytes_eqb _ _); [|done]. injection H as <-.
  rewrite length_drop. lia.
Qed.

Lemma serializeIPv4_Ok (h : IPv4) (s d : IP) :
  IP_To4 (SrcIP h) = Some s -> IP_To4 (DstIP h) = Some d ->
  exists c1 c2,
    serializeIPv4 h =
      Ok ([uint8 (Z.lor (Z.shiftl (Version h) 4) (IHL h)); TOS h;
           (Z.shiftr (Length h) 8 mod 256)%Z; (Length h mod 256)%Z]
          ++ be16 (Id h) ++ be16 (flagsfrags h) ++ [TTL h; Protocol h; c1; c2]
          ++ s ++ d).
Proof.
  intros Hs Hd. unfold serializeIPv4, addressTo4, checkIPv4Address. rewrite Hs, Hd. simpl.
  eexists _, _. reflexivity.
Qed.

(** A serialized header is 20 bytes long and carries the fields of the
    layer at the offsets of an IPv4 header. *)
Lemma serializeIPv4_wire (h : IPv4) (b : list Z) :
  serializeIPv4 h = Ok b ->
  length b = 20
  /\ wire_proto b = Protocol h
  /\ IP_To4 (SrcIP h) = Some (wire_src b)
  /\ IP_To4 (DstIP h) = Some (wire_dst b)
  /\ ((0 <= Length h < 65536)%Z -> wire_len b = Length h).
Proof.
  intros Hb.
  destruct (IP_To4 (SrcIP h)) as [s|] eqn:Hs;
    [|unfold serializeIPv4, addressTo4, checkIPv4Address in Hb; rewrite Hs in Hb;
     simpl in Hb; by repeat case_decide].
  destruct (IP_To4 (DstIP h)) as [d|] eqn:Hd;
    [|unfold serializeIPv4, addressTo4, checkIPv4Address in Hb; rewrite Hs, Hd in Hb;
     simpl in Hb; by repeat case_decide].
  destruct (serializeIPv4_Ok h s d Hs Hd) as (c1 & c2 & E).
  rewrite E in Hb. injection Hb as <-.
  pose proof (IP_To4_length _ _ Hs) as Ls.
  pose proof (IP_To4_length _ _ Hd) as Ld.
  destruct s as [|s0 [|s1 [|s2 [|s3 [|]]]]]; try discriminate Ls.
  destruct d as [|d0 [|d1 [|d2 [|d3 [|]]]]]; try discriminate Ld.
  repeat split.
  intros Hrange. unfold wire_len. simpl.
  rewrite Z.shiftr_div_pow2 by lia. change (2 ^ 8)%Z with 256%Z.
  assert (0 <= Z.div (Length h) 256 < 256)%Z as Hdiv.
  { split; [apply Z.div_pos; lia|apply Z.div_lt_upper_bound; lia]. }
  rewrite (Z.mod_small (Z.div (Length h) 256) 256) by done.
  pose proof (Z.div_mod (Length h) 256). lia.
Qed.

Lemma serializeIPv4_is_IPv4 (h : IPv4) :
  is_IPv4 (SrcIP h) -> is_IPv4 (DstIP h) -> exists b, serializeIPv4 h = Ok b.
Proof.
  intros [s Hs] [d Hd]. destruct (serializeIPv4_Ok h s d Hs Hd) as (c1 & c2 & E).
  eauto.
Qed.

Lemma SerializeLayers_cons (l : option Layer) (rest : list (option Layer)) :
  SerializeLayers (l :: rest)
    = (tail ← SerializeLayers rest; head ← SerializeTo l; Ok (head ++ tail)).
Proof. reflexivity. Qed.

(** Headers followed by the payload serialize to the headers' bytes in
    order, followed by the payload bytes. *)
Lemma SerializeLayers_headers (hs : list IPv4) (bs : list (list Z)) (payload : list Z) :
  Forall2 (fun h b => serializeIPv4 h = Ok b) hs bs ->
  SerializeLayers ((Some ∘ LIPv4 <$> hs) ++ [Some (LPayload payload)])
    = Ok (concat bs ++ payload).
Proof.
  induction 1 as [|h b hs bs Hh _ IH].
  - simpl. by rewrite app_nil_r.
  - rewrite fmap_cons, <- app_comm_cons, SerializeLayers_cons, IH, obind_Ok.
    change (SerializeTo ((Some ∘ LIPv4) h)) with (serializeIPv4 h).
    rewrite Hh, obind_Ok. simpl. by rewrite <- (assoc_L (++)).
Qed.

Lemma header_at_concat (bs : list (list Z)) (rest b : list Z) (k : nat) :
  Forall (fun b => length b = 20) bs -> bs !! k = Some b ->
  header_at (concat bs ++ rest) k = b.
Proof.
  unfold header_at. intros Hall. revert k.
  induction Hall as [|b0 bs Hb0 _ IH]; intros k Hk; [done|].
  change (concat (b0 :: bs)) with (b0 ++ concat bs).
  rewrite <- (assoc_L (++)).
  destruct k as [|k].
  - injection Hk as ->. change (20 * 0) with 0. rewrite drop_0.
    by rewrite take_app_length'.
  - replace (20 * S k) with (length b0 + 20 * k) by lia.
    rewrite drop_app_add. by apply IH.
Qed.

Lemma drop_concat_all (bs : list (list Z)) (rest : list Z) :
  Forall (fun b => length b = 20) bs ->
  drop (20 * length bs) (concat bs ++ rest) = rest.
Proof.
  induction 1 as [|b0 bs Hb0 _ IH]; [done|].
  change (concat (b0 :: bs)) with (b0 ++ concat bs).
  rewrite <- (assoc_L (++)).
  replace (20 * length (b0 :: bs)) with (length b0 + 20 * length bs)
    by (simpl length; lia).
  by rewrite drop_app_add.
Qed.

Lemma length_concat_all (bs : list (list Z)) :
  Forall (fun b => length b = 20) bs -> length (concat bs) = 20 * length bs.
Proof.
  induction 1 as [|b0 bs Hb0 _ IH]; [done|].
  change (concat (b0 :: bs)) with (b0 ++ concat bs).
  rewrite length_app. simpl length. lia.
Qed.

Lemma Forall2_serialize (hs : list IPv4) :
  Forall (fun h => exists b, serializeIPv4 h = Ok b) hs ->
  exists bs, Forall2 (fun h b => serializeIPv4 h = Ok b) hs bs.
Proof.
  induction 1 as [|h hs [b Hb] _ [bs IH]].
  - exists []. constructor.
  - exists (b :: bs). by constructor.
Qed.

Lemma is_IPv4_hop (P : Path) (i : nat) :
  Forall is_IPv4 P -> i < length P -> is_IPv4 (hop P i).
Proof.
  intros HP Hi. destruct (lookup_lt_is_Some_2 P i Hi) as [x Hx].
  unfold hop. rewrite (nth_lookup_Some P i ([] : IP) x Hx).
  by eapply Forall_lookup_1.
Qed.

(** *** The headers of the specification, by position *)

Section SpecHeaders.
Variable P : Path.
Variable payload : list Z.
Let n := length P.

Lemma length_spec_headers : length (spec_headers P payload) = 2 * (n - 1) + 1.
Proof.
  unfold spec_headers.
  rewrite !length_app, !length_fmap, length_reverse, !length_seq. simpl. fold n. lia.
Qed.

Lemma spec_headers_out (i : nat) :
  i < n - 1 -> spec_headers P payload !! i = Some (out_header P payload i).
Proof.
  intros Hi. unfold spec_headers. fold n.
  rewrite lookup_app_l by (rewrite length_fmap, length_seq; lia).
  by rewrite list_lookup_fmap, lookup_seq_lt.
Qed.

Lemma spec_headers_ret (i : nat) :
  i < n - 1 ->
  spec_headers P payload !! (2 * (n - 1) - 1 - i) = Some (ret_header P payload i).
Proof.
  intros Hi. unfold spec_headers. fold n.
  rewrite lookup_app_r by (rewrite length_fmap, length_seq; lia).
  rewrite length_fmap, length_seq.
  rewrite lookup_app_l by (rewrite length_fmap, length_reverse, length_seq; lia).
  rewrite list_lookup_fmap, reverse_lookup by (rewrite length_seq; lia).
  rewrite length_seq, lookup_seq_lt by lia. simpl. do 2 f_equal. lia.
Qed.

Lemma spec_headers_udp :
  spec_headers P payload !! (2 * (n - 1)) = Some (udp_header P payload).
Proof.
  unfold spec_headers. fold n.
  rewrite lookup_app_r by (rewrite length_fmap, length_seq; lia).
  rewrite length_fmap, length_seq.
  rewrite lookup_app_r by (rewrite length_fmap, length_reverse, length_seq; lia).
  rewrite length_fmap, length_reverse, length_seq.
  by replace (2 * (n - 1) - (n - 1) - (n - 1)) with 0 by lia.
Qed.

Lemma spec_headers_serializable :
  2 <= n -> Forall is_IPv4 P ->
  Forall (fun h => exists b, serializeIPv4 h = Ok b) (spec_headers P payload).
Proof.
  intros Hn HP. unfold spec_headers. fold n.
  rewrite !Forall_app, !Forall_fmap. repeat split.
  - apply Forall_forall. intros i Hi%elem_of_seq. simpl.
    apply serializeIPv4_is_IPv4; simpl; apply is_IPv4_hop; (done || fold n; lia).
  - apply Forall_forall. intros i Hi%elem_of_reverse%elem_of_seq. simpl.
    apply serializeIPv4_is_IPv4; simpl; apply is_IPv4_hop; (done || fold n; lia).
  - apply Forall_singleton.
    apply serializeIPv4_is_IPv4; simpl; apply is_IPv4_hop; (done || fold n; lia).
Qed.

(** The packet is the serialized headers of the specification, in
    order, followed by the payload. *)
Lemma CreateRoundTripPacketForPath_bytes :
  2 <= n -> Forall is_IPv4 P ->
  exists bs,
    CreateRoundTripPacketForPath P payload = Ok (concat bs ++ payload)
    /\ Forall2 (fun h b => serializeIPv4 h = Ok b) (spec_headers P payload) bs
    /\ Forall (fun b => length b = 20) bs.
Proof.
  intros Hn HP.
  destruct (Forall2_serialize _ (spec_headers_serializable Hn HP)) as [bs Hbs].
  exists bs. repeat split; [|done|].
  - unfold CreateRoundTripPacketForPath. rewrite decide_False by (fold n; lia).
    rewrite roundTripLayers_spec, obind_Ok by done.
    by apply SerializeLayers_headers.
  - apply Forall_forall. intros b Hb.
    apply list_elem_of_lookup in Hb as [k Hk].
    destruct (Forall2_lookup_r _ _ _ _ _ Hbs Hk) as (h & _ & Hh).
    by apply serializeIPv4_wire in Hh as [? _].
Qed.

(** The [k]-th header of the packet is the serialization of the [k]-th
    header of the specification. *)
Lemma header_at_spec (bs : list (list Z)) (k : nat) (h : IPv4) :
  Forall2 (fun h b => serializeIPv4 h = Ok b) (spec_headers P payload) bs ->
  Forall (fun b => length b = 20) bs ->
  spec_headers P payload !! k = Some h ->
  serializeIPv4 h = Ok (header_at (concat bs ++ payload) k).
Proof.
  intros Hbs Hlen Hk.
  destruct (Forall2_lookup_l _ _ _ _ _ Hbs Hk) as (b & Hb & Hh).
  by rewrite (header_at_concat bs payload b k).
Qed.
End SpecHeaders.

Lemma uint16_range (x : Z) : (0 <= uint16 x < 65536)%Z.
Proof. unfold uint16. apply Z.mod_pos_bound. lia. Qed.

(** Two rounds of the carry loop are enough for any 32-bit sum: the
    checksum of the model is the checksum of the unbounded loop. *)
Lemma fold_carry_bound (csum : Z) :
  (0 <= csum < 2 ^ 32)%Z -> (0 <= fold_carry 2 csum <= 65535)%Z.
Proof.
  intros H. simpl. unfold uint16.
  assert (0 <= Z.shiftr csum 16 < 65536)%Z as H1.
  { rewrite Z.shiftr_div_pow2 by lia.
    split; [apply Z.div_pos; lia|apply Z.div_lt_upper_bound; lia]. }
  pose proof (Z.mod_pos_bound csum 65536 ltac:(lia)) as H2.
  destruct (decide (csum <= 65535)%Z); [lia|].
  set (c1 := (Z.shiftr csum 16 + csum mod 65536)%Z) in *.
  destruct (decide (c1 <= 65535)%Z); [lia|].
  assert (Z.shiftr c1 16 = 1)%Z as E.
  { rewrite Z.shiftr_div_pow2 by lia. change (2 ^ 16)%Z with 65536%Z.
    symmetry. apply (Z.div_unique c1 65536 1 (c1 - 65536)); lia. }
  assert (c1 mod 65536 = c1 - 65536)%Z as E'.
  { symmetry. apply (Z.mod_unique c1 65536 1 (c1 - 65536)); lia. }
  rewrite E, E'. lia.
Qed.

(** The packet built for a path of two or more IPv4 hops, header by
    header: the outgoing header of hop [i] at position [i], the returning
    header that mirrors it at position [2(n-1)-1-i], the header announcing
    UDP at position [2(n-1)], and the payload after it. *)
Lemma roundTrip_packet_headers (P : Path) (payload : list Z) :
  2 <= length P -> Forall is_IPv4 P ->
  exists bytes,
    CreateRoundTripPacketForPath P payload = Ok bytes
    /\ (forall i, i <= length P - 2 ->
          serializeIPv4 (out_header P payload i) = Ok (header_at bytes i)
          /\ serializeIPv4 (ret_header P payload i)
               = Ok (header_at bytes (2 * (length P - 1) - 1 - i)))
    /\ serializeIPv4 (udp_header P payload) = Ok (header_at bytes (2 * (length P - 1)))
    /\ drop (20 * (2 * (length P - 1) + 1)) bytes = payload.
Proof.
  intros Hn HP.
  destruct (CreateRoundTripPacketForPath_bytes P payload Hn HP) as (bs & Hrun & Hbs & Hlen).
  exists (concat bs ++ payload). split; [done|]. repeat split.
  - apply (header_at_spec P payload bs i _ Hbs Hlen). apply spec_headers_out. lia.
  - apply (header_at_spec P payload bs _ _ Hbs Hlen). apply spec_headers_ret. lia.
  - apply (header_at_spec P payload bs _ _ Hbs Hlen). apply spec_headers_udp.
  - rewrite <- (length_spec_headers P payload), (Forall2_length _ _ _ Hbs).
    by apply drop_concat_all.
Qed.

(** The packet has no UDP header: its size is that of the [2(n-1)]
    IP-in-IP headers, of the header announcing UDP and of the payload. *)
Lemma CreateRoundTripPacketForPath_size (P : Path) (payload bytes : list Z) :
  2 <= length P -> Forall is_IPv4 P ->
  CreateRoundTripPacketForPath P payload = Ok bytes ->
  length bytes = 20 * (2 * (length P - 1) + 1) + length payload.
Proof.
  intros Hn HP Hrun.
  destruct (CreateRoundTripPacketForPath_bytes P payload Hn HP) as (bs & Hrun' & Hbs & Hlen).
  rewrite Hrun' in Hrun. injection Hrun as <-.
  rewrite length_app, (length_concat_all bs Hlen).
  by rewrite <- (Forall2_length _ _ _ Hbs), length_spec_headers.
Qed.

(** C1 (the code at the failing input): for a path [P] of [n >= 2] IPv4
    hops and any payload, [CreateRoundTripPacketForPath] succeeds and the
    buffer starts with the [2(n-1)] IP-in-IP headers of the claim: for each
    [i] in [0, n-2] the [i]-th header is the outgoing one with src [P[i]],
    dst [P[i+1]], and the header at the mirrored position [2(n-1)-1-i] is
    the returning one with src [P[i+1]], dst [P[i]]. What follows is not a
    UDP segment. It is one more IPv4 header, with src [P[1]], dst [P[0]],
    whose protocol field announces UDP and whose [Length] counts the 8
    bytes of a UDP header, and right after it the payload: the layer
    [layers.UDP] with the ports 62003 and 62002 is commented out in the
    builder, so the packet has no UDP header, the bytes from that last
    header to the end are 8 fewer than its [Length] says, and the packet
    is [20 * (2(n-1) + 1) + |payload|] bytes long. *)
Theorem CreateRoundTripPacketForPath_no_UDP_header (P : Path) (payload : list Z) :
  2 <= length P -> Forall is_IPv4 P ->
  exists bytes,
    CreateRoundTripPacketForPath P payload = Ok bytes
    /\ (forall i, i <= length P - 2 ->
          serializeIPv4 (out_header P payload i) = Ok (header_at bytes i)
          /\ wire_proto (header_at bytes i) = IPProtocolIPv4
          /\ IP_To4 (hop P i) = Some (wire_src (header_at bytes i))
          /\ IP_To4 (hop P (i + 1)) = Some (wire_dst (header_at bytes i))
          /\ serializeIPv4 (ret_header P payload i)
               = Ok (header_at bytes (2 * (length P - 1) - 1 - i))
          /\ wire_proto (header_at bytes (2 * (length P - 1) - 1 - i)) = IPProtocolIPv4
          /\ IP_To4 (hop P (i + 1))
               = Some (wire_src (header_at bytes (2 * (length P - 1) - 1 - i)))
          /\ IP_To4 (hop P i)
               = Some (wire_dst (header_at bytes (2 * (length P - 1) - 1 - i))))
    /\ serializeIPv4 (udp_header P payload) = Ok (header_at bytes (2 * (length P - 1)))
    /\ wire_proto (header_at bytes (2 * (length P - 1))) = IPProtocolUDP
    /\ IP_To4 (hop P 1) = Some (wire_src (header_at bytes (2 * (length P - 1))))
    /\ IP_To4 (hop P 0) = Some (wire_dst (header_at bytes (2 * (length P - 1))))
    /\ wire_len (header_at bytes (2 * (length P - 1)))
       = uint16 (ipHeaderLen + udpHeaderLen + Z.of_nat (length payload))
    /\ drop (20 * (2 * (length P - 1) + 1)) bytes = payload
    /\ bytes_from_header bytes (2 * (length P - 1))
       = (ipHeaderLen + Z.of_nat (length payload))%Z
    /\ length bytes = 20 * (2 * (length P - 1) + 1) + length payload.
Proof.
  intros Hn HP.
  destruct (roundTrip_packet_headers P payload Hn HP)
    as (bytes & Hrun & Hhdrs & Hudp & Hpay).
  pose proof (CreateRoundTripPacketForPath_size P payload bytes Hn HP Hrun) as Hsz.
  exists bytes. split; [done|]. split.
  { intros i Hi. destruct (Hhdrs i Hi) as [Hout Hret].
    destruct (serializeIPv4_wire _ _ Hout) as (_ & ? & ? & ? & _).
    destruct (serializeIPv4_wire _ _ Hret) as (_ & ? & ? & ? & _).
    repeat split; done. }
  destruct (serializeIPv4_wire _ _ Hudp) as (_ & ? & ? & ? & Hlen).
  split_and!; try done.
  - apply Hlen. apply uint16_range.
  - unfold bytes_from_header, ipHeaderLen. rewrite length_drop, Hsz. lia.
Qed.

Lemma CreateRoundTripPacketForPath_no_UDP_header_witness :
  exists bytes,
    CreateRoundTripPacketForPath scenario_path scenario_payload = Ok bytes
    /\ wire_src (header_at bytes 0) = [10; 0; 0; 1]%Z
    /\ wire_dst (header_at bytes 0) = [10; 0; 0; 2]%Z
    /\ wire_src (header_at bytes 4) = [10; 0; 0; 2]%Z
    /\ wire_dst (header_at bytes 4) = [10; 0; 0; 1]%Z
    /\ wire_proto (header_at bytes 4) = 17%Z
    /\ wire_len (header_at bytes 4) = 29%Z
    /\ bytes_from_header bytes 4 = 21%Z
    /\ drop 100 bytes = scenario_payload
    /\ length bytes = 101.
Proof.
  destruct (CreateRoundTripPacketForPath_no_UDP_header scenario_path scenario_payload)
    as (bytes & Hrun & Hs0 & _ & Hproto & Hs4 & Hd4 & Hlen & Hpay & Hfrom & Hsz).
  - simpl. lia.
  - repeat constructor; by eexists.
  - exists bytes. split; [done|].
    destruct (Hs0 0 ltac:(simpl; lia)) as (_ & _ & Hsrc & Hdst & _).
    injection Hs4 as <-. injection Hd4 as <-.
    injection Hsrc as <-. injection Hdst as <-.
    done.
Defined.

(** C2, as the claim states it, fails. On the builder scenario the
    outermost header carries [Length = 109] while only 101 bytes run from
    that header to the end of the packet (no UDP header is serialized);
    and with a payload of 65536 bytes the [Length] of the outermost header
    is 108, not the value [65644] of the formula, because the field is a
    [uint16]. *)
Lemma roundTrip_length_not_total_bytes :
  (exists bytes,
     CreateRoundTripPacketForPath scenario_path scenario_payload = Ok bytes
     /\ wire_len (header_at bytes 0) = 109%Z
     /\ bytes_from_header bytes 0 = 101%Z)
  /\ (exists ls h,
        roundTripLayers scenario_path (oversized_payload) = Ok ls
        /\ ls !! 0 = Some (Some (LIPv4 h))
        /\ Length h = 108%Z
        /\ spec_out_len 3 0 (oversized_payload) = 65644%Z).
Proof.
  split.
  - eexists. split; [vm_compute; reflexivity|]. split; reflexivity.
  - rewrite roundTripLayers_spec by (simpl; lia).
    eexists _, _. split; [reflexivity|]. split; [reflexivity|].
    split; vm_compute; reflexivity.
Qed.

(** C2 (amended): in the packet built for a path of [n >= 2] IPv4 hops,
    the [i]-th outgoing header carries
    [Length = (iphdr*(2(n-1)-i) + udphdr + iphdr + |payload|) mod 2^16] and
    the returning header that mirrors it carries
    [Length = (iphdr*(i+1) + udphdr + iphdr + |payload|) mod 2^16]; the
    reduction is the identity whenever the value fits the 16-bit field; for
    the 3-hop path of the builder scenario with its 1-byte payload the
    outermost [Length] is 109. *)
Theorem roundTrip_header_lengths (P : Path) (payload : list Z) :
  2 <= length P -> Forall is_IPv4 P ->
  exists bytes,
    CreateRoundTripPacketForPath P payload = Ok bytes
    /\ (forall i, i <= length P - 2 ->
          wire_len (header_at bytes i) = uint16 (spec_out_len (length P) i payload)
          /\ wire_len (header_at bytes (2 * (length P - 1) - 1 - i))
               = uint16 (spec_ret_len i payload)
          /\ ((spec_out_len (length P) i payload < 65536)%Z ->
              wire_len (header_at bytes i) = spec_out_len (length P) i payload
              /\ wire_len (header_at bytes (2 * (length P - 1) - 1 - i))
                   = spec_ret_len i payload))
    /\ (P = scenario_path -> payload = scenario_payload ->
        wire_len (header_at bytes 0) = 109%Z).
Proof.
  intros Hn HP.
  destruct (roundTrip_packet_headers P payload Hn HP)
    as (bytes & Hrun & Hhdrs & _).
  exists bytes. split; [done|].
  assert (Hlens : forall i, i <= length P - 2 ->
            wire_len (header_at bytes i) = uint16 (spec_out_len (length P) i payload)
            /\ wire_len (header_at bytes (2 * (length P - 1) - 1 - i))
                 = uint16 (spec_ret_len i payload)).
  { intros i Hi. destruct (Hhdrs i Hi) as [Hout Hret].
    apply serializeIPv4_wire in Hout as (_ & _ & _ & _ & Hout).
    apply serializeIPv4_wire in Hret as (_ & _ & _ & _ & Hret).
    split; [apply Hout|apply Hret]; apply uint16_range. }
  split.
  - intros i Hi. destruct (Hlens i Hi) as [Ho Hr]. repeat split; [done|done| |].
    + rewrite Ho. apply Z.mod_small.
      unfold spec_out_len, ipHeaderLen, udpHeaderLen in *. lia.
    + rewrite Hr. apply Z.mod_small.
      unfold spec_out_len, spec_ret_len, ipHeaderLen, udpHeaderLen in *. lia.
  - intros -> ->. destruct (Hlens 0) as [Ho _]; [simpl; lia|]. by rewrite Ho.
Qed.

Lemma roundTrip_header_lengths_witness :
  exists bytes,
    CreateRoundTripPacketForPath scenario_path scenario_payload = Ok bytes
    /\ wire_len (header_at bytes 0) = 109%Z
    /\ wire_len (header_at bytes 1) = 89%Z
    /\ wire_len (header_at bytes 2) = 69%Z
    /\ wire_len (header_at bytes 3) = 49%Z.
Proof.
  destruct (roundTrip_header_lengths scenario_path scenario_payload)
    as (bytes & Hrun & Hlens & Hscen).
  - simpl. lia.
  - repeat constructor; by eexists.
  - exists bytes. split; [done|]. split; [by apply Hscen|].
    destruct (Hlens 0) as (_ & H3 & _); [simpl; lia|].
    destruct (Hlens 1) as (H1 & H2 & _); [simpl; lia|].
    repeat split; [apply H1|apply H2|apply H3].
Defined.

(** What the [Length] fields measure instead: the bytes from the header
    to the end of the packet plus the length of the UDP header that the
    builder accounts for and does not serialize. *)
Lemma roundTrip_length_overcount (P : Path) (payload bytes : list Z) (i : nat) :
  2 <= length P -> Forall is_IPv4 P ->
  CreateRoundTripPacketForPath P payload = Ok bytes ->
  i <= length P - 2 ->
  spec_out_len (length P) i payload = (bytes_from_header bytes i + udpHeaderLen)%Z
  /\ spec_ret_len i payload
       = (bytes_from_header bytes (2 * (length P - 1) - 1 - i) + udpHeaderLen)%Z.
Proof.
  intros Hn HP Hrun Hi.
  pose proof (CreateRoundTripPacketForPath_size P payload bytes Hn HP Hrun) as Hsz.
  unfold bytes_from_header. rewrite !length_drop, Hsz.
  unfold spec_out_len, spec_ret_len, ipHeaderLen, udpHeaderLen. lia.
Qed.

(** The serializer returns the bytes or an error; it neither panics nor
    waits. *)
Lemma serializeIPv4_Ok_or_Err (h : IPv4) :
  (exists b, serializeIPv4 h = Ok b) \/ (exists e, serializeIPv4 h = Err e).
Proof.
  unfold serializeIPv4.
  destruct (IP_To4 (SrcIP h)) as [s|] eqn:Hs.
  2: { destruct (addressTo4_None "source" _ Hs) as [e ->]. right. by eexists. }
  rewrite (addressTo4_Some "source" _ _ Hs).
  destruct (IP_To4 (DstIP h)) as [d|] eqn:Hd.
  2: { destruct (addressTo4_None "destination" _ Hd) as [e ->]. right. by eexists. }
  rewrite (addressTo4_Some "destination" _ _ Hd). left. by eexists.
Qed.

Lemma SerializeLayers_headers_Ok_or_Err (hs : list IPv4) (payload : list Z) :
  (exists bs,
     SerializeLayers ((Some ∘ LIPv4 <$> hs) ++ [Some (LPayload payload)])
       = Ok (concat bs ++ payload)
     /\ Forall2 (fun h b => serializeIPv4 h = Ok b) hs bs)
  \/ (exists e,
        SerializeLayers ((Some ∘ LIPv4 <$> hs) ++ [Some (LPayload payload)]) = Err e).
Proof.
  induction hs as [|h hs IH].
  - left. exists []. split; [|constructor]. simpl. by rewrite app_nil_r.
  - rewrite fmap_cons, <- app_comm_cons, SerializeLayers_cons.
    destruct IH as [(bs & -> & Hbs)|[e ->]]; [|right; by eexists].
    rewrite obind_Ok.
    change (SerializeTo ((Some ∘ LIPv4) h)) with (serializeIPv4 h).
    destruct (serializeIPv4_Ok_or_Err h) as [[b Hb]|[e He]].
    + left. exists (b :: bs). rewrite Hb, obind_Ok. simpl.
      split; [by rewrite <- (assoc_L (++))|by constructor].
    + right. exists e. by rewrite He.
Qed.

(** On a path of two or more hops the builder returns the packet or an
    error, and when it returns the packet the hop it is sent to, [path[1]],
    has a 4-byte form. *)
Lemma CreateRoundTripPacketForPath_Ok_or_Err (P : Path) (payload : list Z) :
  2 <= length P ->
  (exists bytes, CreateRoundTripPacketForPath P payload = Ok bytes /\ is_IPv4 (hop P 1))
  \/ (exists e, CreateRoundTripPacketForPath P payload = Err e).
Proof.
  intros Hn. unfold CreateRoundTripPacketForPath. rewrite decide_False by lia.
  rewrite roundTripLayers_spec, obind_Ok by done.
  destruct (SerializeLayers_headers_Ok_or_Err (spec_headers P payload) payload)
    as [(bs & -> & Hbs)|[e ->]]; [|right; by eexists].
  left. eexists. split; [done|].
  destruct (Forall2_lookup_l _ _ _ _ _ Hbs (spec_headers_udp P payload))
    as (b & _ & Hb).
  apply serializeIPv4_wire in Hb as (_ & _ & Hsrc & _). by eexists.
Qed.

(** The builder scenario, header by header: [(1->2, 2->3, 3->2, 2->1)] as
    IP-in-IP, then the header announcing UDP [(2->1)], then ["x"]; 101 bytes
    in all. *)
Example scenario_layout :
  exists bytes,
    CreateRoundTripPacketForPath scenario_path scenario_payload = Ok bytes
    /\ (fun k => (wire_proto (header_at bytes k), wire_src (header_at bytes k),
                  wire_dst (header_at bytes k), wire_len (header_at bytes k)))
         <$> seq 0 5
       = [(4, [10; 0; 0; 1], [10; 0; 0; 2], 109);
          (4, [10; 0; 0; 2], [10; 0; 0; 3], 89);
          (4, [10; 0; 0; 3], [10; 0; 0; 2], 69);
          (4, [10; 0; 0; 2], [10; 0; 0; 1], 49);
          (17, [10; 0; 0; 2], [10; 0; 0; 1], 29)]%Z
    /\ drop 100 bytes = [120%Z]
    /\ length bytes = 101.
Proof. eexists. split; [vm_compute; reflexivity|]. repeat split. Qed.

(** ** transport.go *)

Lemma SendToPath_empty (tc : TransportChannel) (packetData : list Z) :
  SendToPath tc packetData [] = (Err "path must be non-empty", tc).
Proof. reflexivity. Qed.

(** With two hops or more the packet goes to [path[1]] and the result is
    that of the send. *)
Lemma SendToPath_sends_to_hop1 (tc : TransportChannel) (packetData : list Z) (path : Path) :
  2 <= length path ->
  SendToPath tc packetData path = SendTo tc packetData (hop path 1).
Proof.
  intros Hlen. unfold SendToPath.
  rewrite decide_False by lia. by rewrite index_hop by lia.
Qed.

(** C3 (the code at the failing input): a path of exactly one hop passes
    the guard [len(path) < 1] and the index expression [path[1]] panics;
    nothing is sent and no error is returned. *)
Theorem SendToPath_single_hop_panics (tc : TransportChannel) (packetData : list Z) (ip : IP) :
  SendToPath tc packetData [ip] = (Panic "index out of range", tc).
Proof. reflexivity. Qed.

(** ** hash.go *)

(** A send that does not wait does what [enqueue] does. *)
Lemma chan_send_Ok_enqueue (c : nat) (p : Packet) (h h' : heap Packet) :
  chan_send c p h = Ok h' -> h' = enqueue c p h.
Proof.
  unfold chan_send, enqueue. destruct (h !! c) as [ch|]; [|done].
  destruct (closed ch); [done|].
  destruct (decide (0 < recvq ch)); [by intros [= <-]|].
  destruct (decide (length (qbuf ch) < dataqsiz ch)); [by intros [= <-]|done].
Qed.

(** A send on an open channel whose buffer is full and on which no
    receiver waits does not complete. *)
Lemma chan_send_full (c : nat) (p : Packet) (h : heap Packet) (ch : hchan Packet) :
  h !! c = Some ch -> closed ch = false -> recvq ch = 0 ->
  dataqsiz ch <= length (qbuf ch) ->
  chan_send c p h = Blocked "chan send".
Proof.
  intros Hc Hopen Hrecv Hfull. unfold chan_send. rewrite Hc, Hopen, Hrecv.
  rewrite decide_False by lia. by rewrite decide_False by lia.
Qed.

(** When the second loop of [run] completes, no packet has been dropped:
    every registered hash got the packet. *)
Lemma deliver_Ok_no_drop (m : gmap string nat) (p : Packet) (ks : list string)
    (h h' : heap Packet) :
  deliver m p ks h = (Ok (), h') ->
  h' = foldl (fun h c => enqueue c p h) h (hits m ks).
Proof.
  revert h. induction ks as [|k ks IH]; intros h; simpl.
  - by intros [= <-].
  - unfold hits. simpl. destruct (m !! k) as [c|] eqn:Hk; simpl; [|apply IH].
    destruct (chan_send c p h) as [h1| | |] eqn:Hsend; try done.
    intros Hrest. apply chan_send_Ok_enqueue in Hsend as ->. by apply IH.
Qed.

(** The second loop of [run] stops at a registered hash whose queue is full:
    it neither skips it nor goes on to the hashes after it. *)
Lemma deliver_blocks_at_full (m : gmap string nat) (p : Packet) (k : string)
    (rest : list string) (c : nat) (ch : hchan Packet) (h : heap Packet) :
  m !! k = Some c -> h !! c = Some ch -> closed ch = false -> recvq ch = 0 ->
  dataqsiz ch <= length (qbuf ch) ->
  deliver m p (k :: rest) h = (Blocked "chan send", h).
Proof.
  intros Hk Hc Hopen Hrecv Hfull. simpl. rewrite Hk.
  by rewrite (chan_send_full c p h ch).
Qed.

Lemma deliver_misses (m : gmap string nat) (p : Packet) (ks1 ks2 : list string)
    (h : heap Packet) :
  (forall k, k ∈ ks1 -> m !! k = None) ->
  deliver m p (ks1 ++ ks2) h = deliver m p ks2 h.
Proof.
  induction ks1 as [|k ks1 IH]; intros Hmiss; simpl; [done|].
  rewrite (Hmiss k) by set_solver. apply IH. intros k' Hk'. apply Hmiss. set_solver.
Qed.

(** A send on an open channel that has a waiting receiver or a free slot
    completes, and does what [enqueue] does. *)
Lemma chan_send_room (c : nat) (p : Packet) (h : heap Packet) (ch : hchan Packet) :
  h !! c = Some ch -> closed ch = false ->
  0 < recvq ch \/ length (qbuf ch) < dataqsiz ch ->
  chan_send c p h = Ok (enqueue c p h).
Proof.
  intros Hc Hopen Hroom. unfold chan_send, enqueue. rewrite Hc, Hopen.
  destruct (decide (0 < recvq ch)); [done|].
  destruct Hroom as [?|?]; [lia|]. by rewrite decide_True.
Qed.

Lemma enqueue_other (c c' : nat) (p : Packet) (h : heap Packet) :
  c <> c' -> enqueue c p h !! c' = h !! c'.
Proof.
  intros Hne. unfold enqueue. destruct (h !! c) as [ch|]; [|done].
  destruct (decide (0 < recvq ch)); by rewrite lookup_insert_ne.
Qed.

Lemma enqueue_same (c : nat) (p : Packet) (h : heap Packet) :
  enqueue c p h !! c
  = (fun ch => if decide (0 < recvq ch)
               then mkChan (dataqsiz ch) (qbuf ch) false (recvq ch - 1)
               else mkChan (dataqsiz ch) (qbuf ch ++ [p]) false 0) <$> h !! c.
Proof.
  unfold enqueue. destruct (h !! c) as [ch|] eqn:Hc; simpl; [|by rewrite Hc].
  destruct (decide (0 < recvq ch)); by rewrite lookup_insert_eq.
Qed.

(** What the deliveries of [run] do to the heap when no queue is hit
    twice: each queue hit takes the packet once, the others are as they
    were. *)
Lemma foldl_enqueue_lookup (p : Packet) (cs : list nat) (h : heap Packet) (c : nat) :
  NoDup cs ->
  foldl (fun h c => enqueue c p h) h cs !! c
  = if decide (c ∈ cs) then enqueue c p h !! c else h !! c.
Proof.
  revert h. induction cs as [|c0 cs IH]; intros h Hnd; simpl.
  { done. }
  apply NoDup_cons in Hnd as [Hnotin Hnd]. rewrite IH by done.
  destruct (decide (c = c0)) as [->|Hne].
  - rewrite decide_False by done. rewrite decide_True; [done|]. apply list_elem_of_here.
  - destruct (decide (c ∈ cs)) as [Hin|Hout].
    + rewrite decide_True by (by apply list_elem_of_further).
      rewrite !enqueue_same. by rewrite enqueue_other.
    + rewrite enqueue_other by done.
      rewrite decide_False; [done|]. intros [?|?]%elem_of_cons; done.
Qed.

(** The second loop of [run] completes when every queue it hits is open
    and has a waiting receiver or a free slot, and no queue is hit twice. *)
Lemma deliver_room (m : gmap string nat) (p : Packet) (ks : list string)
    (h : heap Packet) :
  NoDup (hits m ks) ->
  (forall c, c ∈ hits m ks ->
     exists ch, h !! c = Some ch /\ closed ch = false
                /\ (0 < recvq ch \/ length (qbuf ch) < dataqsiz ch)) ->
  deliver m p ks h = (Ok (), foldl (fun h c => enqueue c p h) h (hits m ks)).
Proof.
  revert h. induction ks as [|k ks IH]; intros h Hnd Hroom; [done|].
  unfold hits in *. simpl in *. destruct (m !! k) as [c|] eqn:Hk; simpl in *.
  - apply NoDup_cons in Hnd as [Hnotin Hnd].
    destruct (Hroom c) as (ch & Hc & Hopen & Hr); [apply list_elem_of_here|].
    rewrite (chan_send_room c p h ch Hc Hopen Hr). apply IH; [done|].
    intros c' Hin. destruct (Hroom c') as (ch' & Hc' & ?); [by apply list_elem_of_further|].
    exists ch'. split; [|done]. rewrite enqueue_other; [done|].
    intros ->. done.
  - by apply IH.
Qed.

(** C7, as the claim states it, fails: with the fingerprint of a packet
    registered and its capacity-1 queue still holding an earlier packet,
    [run] does not drop the new packet and return; it stops in the send,
    the mutex held and the queue as it was. *)
Lemma run_waits_on_full_queue :
  (run moby_phm moby_packet full_queue_heap).1 = Blocked "chan send"
  /\ phm_locked (run moby_phm moby_packet full_queue_heap).2.1 = true
  /\ (run moby_phm moby_packet full_queue_heap).2.2 = full_queue_heap
  /\ (run moby_phm moby_packet full_queue_heap).1 <> Ok ().
Proof. vm_compute. repeat split. discriminate. Qed.

(** C7 (amended): [run] looks up, under the mutex, each hash produced by
    the attached hashers and delivers the packet to the queue of each hash
    that is registered with a plain, blocking send. When every queue hit
    is open and has a free slot or a waiting receiver, and no queue is hit
    twice, [run] returns: the mutex is released, the table is as it was,
    and each queue hit has taken the packet, at the end of its buffer or
    through its waiting receiver, while every other queue is untouched.
    Whenever [run] returns, every queue hit has been given the packet
    (none is dropped) and the mutex is released. When the first registered
    hash has a queue that is full, with no receiver waiting on it, [run]
    does not return: it waits in the send, the mutex stays held and the
    queue is unchanged. *)
Theorem run_delivers_or_waits (phm : packetHashMap) (p : Packet) (h : heap Packet) :
  phm_locked phm = false ->
  (NoDup (hits (phm_m phm) (computeHashes (phm_hashers phm) p)) ->
   (forall c, c ∈ hits (phm_m phm) (computeHashes (phm_hashers phm) p) ->
      exists ch, h !! c = Some ch /\ closed ch = false
                 /\ (0 < recvq ch \/ length (qbuf ch) < dataqsiz ch)) ->
   exists h',
     run phm p h = (Ok (), (mkPHM false (phm_m phm) (phm_hashers phm), h'))
     /\ (forall c ch,
           c ∈ hits (phm_m phm) (computeHashes (phm_hashers phm) p) ->
           h !! c = Some ch ->
           h' !! c
           = Some (if decide (0 < recvq ch)
                   then mkChan (dataqsiz ch) (qbuf ch) false (recvq ch - 1)
                   else mkChan (dataqsiz ch) (qbuf ch ++ [p]) false 0))
     /\ (forall c,
           c ∉ hits (phm_m phm) (computeHashes (phm_hashers phm) p) ->
           h' !! c = h !! c))
  /\ (forall st, run phm p h = (Ok (), st) ->
        phm_locked st.1 = false
        /\ phm_m st.1 = phm_m phm
        /\ st.2 = foldl (fun h c => enqueue c p h) h
                    (hits (phm_m phm) (computeHashes (phm_hashers phm) p)))
  /\ (forall ks1 k ks2 c ch,
        computeHashes (phm_hashers phm) p = ks1 ++ k :: ks2 ->
        (forall k', k' ∈ ks1 -> phm_m phm !! k' = None) ->
        phm_m phm !! k = Some c ->
        h !! c = Some ch -> closed ch = false -> recvq ch = 0 ->
        dataqsiz ch <= length (qbuf ch) ->
        run phm p h
          = (Blocked "chan send", (mkPHM true (phm_m phm) (phm_hashers phm), h))).
Proof.
  intros Hfree. split_and!.
  - intros Hnd Hroom. eexists. split; [|split].
    + unfold run. rewrite Hfree. by rewrite (deliver_room _ _ _ _ Hnd Hroom).
    + intros c ch Hin Hc. rewrite foldl_enqueue_lookup by done.
      rewrite decide_True by done. by rewrite enqueue_same, Hc.
    + intros c Hout. rewrite foldl_enqueue_lookup by done.
      by rewrite decide_False.
  - intros st. unfold run. rewrite Hfree.
    destruct (deliver _ _ _ _) as [r h'] eqn:Hd.
    destruct r as [[]| | |]; intros [= <-]; simpl.
    repeat split. by apply deliver_Ok_no_drop.
  - intros ks1 k ks2 c ch Hks Hmiss Hk Hc Hopen Hrecv Hfull.
    unfold run. rewrite Hfree, Hks, deliver_misses by done.
    by rewrite (deliver_blocks_at_full _ _ _ _ c ch).
Qed.

Lemma run_delivers_or_waits_witness :
  run moby_phm moby_packet full_queue_heap
    = (Blocked "chan send",
       (mkPHM true (phm_m moby_phm) (phm_hashers moby_phm), full_queue_heap))
  /\ run moby_phm moby_packet empty_queue_heap
     = (Ok (), (mkPHM false (phm_m moby_phm) (phm_hashers moby_phm),
                {[ 0 := mkChan 1 [moby_packet] false 0 ]})).
Proof.
  destruct (run_delivers_or_waits moby_phm moby_packet full_queue_heap eq_refl)
    as (_ & _ & Hwait).
  destruct (run_delivers_or_waits moby_phm moby_packet empty_queue_heap eq_refl)
    as (Hdone & Hheap & _).
  split.
  - apply (Hwait [] (go_string (take 20 moby_payload)) [] 0
             (mkChan 1 [moby_packet] false 0)); try reflexivity;
      try (intros k' Hk'; by apply elem_of_nil in Hk'); try (simpl; lia).
  - destruct Hdone as (h' & Hrun & _).
    + vm_compute. repeat constructor. by intros ?%elem_of_nil.
    + intros c Hin. vm_compute in Hin. apply list_elem_of_singleton in Hin as ->.
      eexists. split; [reflexivity|]. split; [reflexivity|]. right. simpl. lia.
    + rewrite Hrun. destruct (Hheap _ Hrun) as (_ & _ & Hh'). simpl in Hh'.
      rewrite Hh'. vm_compute. reflexivity.
Defined.

(** ** traffic.go *)

(** A send on a channel that was just made without a buffer cannot
    complete: no goroutine can be waiting on a channel that has not left
    the function yet. *)
Lemma emitFatal_blocks (tc : TransportChannel) (rt : Runtime) :
  emitFatal tc rt = Blocked "chan send".
Proof.
  unfold emitFatal, make_chan, chan_send. rewrite lookup_insert_eq. reflexivity.
Qed.

(** C5 (the code on the failing inputs): when the filter of the channel
    does not contain ["ip proto 4"], [ProbeEachHopOfPath] and
    [ProbeEachHopOfPathSync] make an unbuffered channel and send the fatal
    result on it before returning it; the send never completes, so neither
    function returns a channel and no caller receives the result. *)
Theorem ProbeEachHopOfPath_bad_filter_blocks (tc : TransportChannel) (path : Path)
    (numPackets timeout : Z) (rt : Runtime) :
  Contains (tc_filter tc) "ip proto 4" = false ->
  ProbeEachHopOfPath tc path numPackets timeout rt = Blocked "chan send"
  /\ ProbeEachHopOfPathSync tc path numPackets timeout rt = Blocked "chan send".
Proof.
  intros Hf. unfold ProbeEachHopOfPath, ProbeEachHopOfPathSync. rewrite Hf. simpl.
  split; apply emitFatal_blocks.
Qed.

Lemma ProbeEachHopOfPath_bad_filter_blocks_witness :
  Contains "icmp" "ip proto 4" = false
  /\ ProbeEachHopOfPath (example_tc "icmp") scenario_path 1 1 example_rt
       = Blocked "chan send"
  /\ ProbeEachHopOfPathSync (example_tc "icmp") scenario_path 1 1 example_rt
       = Blocked "chan send".
Proof.
  split; [reflexivity|].
  apply (ProbeEachHopOfPath_bad_filter_blocks (example_tc "icmp") scenario_path 1 1 example_rt).
  reflexivity.
Defined.

(** With the required filter both functions return a channel at once. *)
Lemma ProbeEachHopOfPathSync_good_filter (tc : TransportChannel) (path : Path)
    (numPackets timeout : Z) (rt : Runtime) :
  Contains (tc_filter tc) "ip proto 4" = true ->
  ProbeEachHopOfPathSync tc path numPackets timeout rt
    = Ok (fresh (dom (rt_chans rt)),
          mkRT (<[fresh (dom (rt_chans rt)) := mkChan 0 [] false 0]> (rt_chans rt))
               (rt_spawned rt
                ++ [GoSyncRounds path numPackets timeout (fresh (dom (rt_chans rt)))])).
Proof. intros Hf. unfold ProbeEachHopOfPathSync. by rewrite Hf. Qed.

Lemma errorTypes_distinct :
  timedOut <> fatal /\ timedOut <> sendError /\ fatal <> sendError.
Proof. repeat split; discriminate. Qed.

Lemma lookup_listener_fresh (entries : list (nat * nat)) (l q : nat) :
  Forall (fun e => e.1 < l) entries ->
  lookup_listener (entries ++ [(l, q)]) l = Some q.
Proof.
  induction 1 as [|[l' q'] entries Hlt _ IH]; simpl.
  - by rewrite decide_True.
  - simpl in Hlt. by rewrite decide_False by lia.
Qed.

Section BoomerangProps.
Variable json_Marshal : BoomerangPayload -> list Z + string.
Variable json_Unmarshal : list Z -> option BoomerangPayload.
Variable IP_String : IP -> string.

(** [Boomerang] on a path of two or more IPv4 hops, when the payload
    marshals and the socket takes the packet: the result depends only on
    whether a matching packet is delivered before the timer fires. *)
Lemma Boomerang_after_send (tc : TransportChannel) (path : Path) (timeout : Z)
    (env : BoomerangEnv) (payload : list Z) :
  2 <= length path -> Forall is_IPv4 path ->
  json_Marshal (NewBoomerangPayload (hop path (length path - 1)) (env_uuid env))
    = inl payload ->
  (forall fd data addr, tc_sendto tc fd data addr = None) ->
  exists bytes a4,
    CreateRoundTripPacketForPath path payload = Ok bytes
    /\ IP_To4 (hop path 1) = Some a4
    /\ Boomerang json_Marshal json_Unmarshal IP_String tc path timeout env =
         match find (delivered json_Unmarshal path (env_uuid env)) (env_captured env) with
         | Some (packet, rxTime) =>
             Ok (seenResult json_Unmarshal packet rxTime (env_txTime env),
                 after_send tc a4 bytes)
         | None =>
             Ok (timedOutResult IP_String (hop path (length path - 1))
                   (env_txTime env) (env_timerTime env),
                 (UnregisterListener (after_send tc a4 bytes)
                    (lm_next (listenerMap tc))).2)
         end.
Proof.
  intros Hlen HP Hm Hsend.
  destruct (CreateRoundTripPacketForPath_bytes path payload Hlen HP) as (bs & Hrun & _).
  destruct (is_IPv4_hop path 1 HP ltac:(lia)) as [a4 Ha4].
  exists (concat bs ++ payload), a4. split; [done|]. split; [done|].
  unfold Boomerang. rewrite decide_False by lia.
  rewrite (index_hop path (length path - 1)) by lia. rewrite obind_Ok.
  rewrite Hm, Hrun.
  unfold NewListener, RegisterListener, make_chan. simpl.
  rewrite SendToPath_sends_to_hop1 by done.
  unfold SendTo. simpl. rewrite Ha4, Hsend.
  destruct (find _ _) as [[packet rxTime]|]; [done|].
  by destruct (UnregisterListener _ _).
Qed.

(** On a path of two or more hops [Boomerang] always returns a result: a
    fatal one when the payload does not marshal or the packet cannot be
    built, a send error when the socket refuses the packet, and otherwise
    the result of the reply or of the timer. *)
Lemma Boomerang_total (tc : TransportChannel) (path : Path) (timeout : Z)
    (env : BoomerangEnv) :
  2 <= length path ->
  exists result tc',
    Boomerang json_Marshal json_Unmarshal IP_String tc path timeout env
      = Ok (result, tc').
Proof.
  intros Hlen. unfold Boomerang. rewrite decide_False by lia.
  rewrite (index_hop path (length path - 1)) by lia. rewrite obind_Ok.
  destruct (json_Marshal _) as [payload|err]; [|by eexists _, _].
  destruct (CreateRoundTripPacketForPath_Ok_or_Err path payload Hlen)
    as [(bytes & -> & [a4 Ha4])|[e ->]]; [|by eexists _, _].
  unfold NewListener, RegisterListener, make_chan. simpl.
  rewrite SendToPath_sends_to_hop1 by done.
  unfold SendTo. simpl. rewrite Ha4.
  destruct (tc_sendto tc _ _ _); [by eexists _, _|].
  destruct (find _ _) as [[packet rxTime]|]; [by eexists _, _|].
  destruct (UnregisterListener _ _). by eexists _, _.
Qed.
End BoomerangProps.

(** C4, as the claim states it, fails: the enumeration has no value [ok].
    A probe whose reply arrives before the timer returns a result whose
    [ErrorType] is the zero value, which is the value of [timedOut]; no
    value distinct from [timedOut] is carried. *)
Lemma Boomerang_reply_carries_timedOut_value :
  exists r tc',
    Boomerang example_Marshal example_Unmarshal example_IP_String
      (example_tc "ip proto 4") example_path 3 example_env_reply = Ok (r, tc')
    /\ Err_ r = None
    /\ ErrorType r = timedOut
    /\ ~ (exists ok : BoomerangErrorType, ErrorType r = ok /\ ok <> timedOut).
Proof.
  eexists _, _. split; [vm_compute; reflexivity|]. simpl.
  split; [done|]. split; [done|]. intros (ok & <- & Hne). by apply Hne.
Qed.

Section BoomerangClaims.
Variable json_Marshal : BoomerangPayload -> list Z + string.
Variable json_Unmarshal : list Z -> option BoomerangPayload.
Variable IP_String : IP -> string.

(** C4 (amended): whenever a Boomerang probe receives a matching reply
    before its timer fires, the returned [BoomerangResult] carries a nil
    [Err] and the zero [ErrorType], with the timestamps of the send and of
    the receipt; the enumeration has the three pairwise-distinct values
    [timedOut = 0], [fatal = 1] and [sendError = 2] and no value [ok], so
    the [ErrorType] of a successful result equals [timedOut] and success
    is told by the nil [Err]. *)
Theorem Boomerang_reply_result (tc : TransportChannel) (path : Path) (timeout : Z)
    (env : BoomerangEnv) (payload : list Z) (packet : Packet) (rxTime : Z) :
  2 <= length path -> Forall is_IPv4 path ->
  json_Marshal (NewBoomerangPayload (hop path (length path - 1)) (env_uuid env))
    = inl payload ->
  (forall fd data addr, tc_sendto tc fd data addr = None) ->
  find (delivered json_Unmarshal path (env_uuid env)) (env_captured env)
    = Some (packet, rxTime) ->
  exists r tc',
    Boomerang json_Marshal json_Unmarshal IP_String tc path timeout env = Ok (r, tc')
    /\ Err_ r = None
    /\ ErrorType r = 0%Z
    /\ ErrorType r = timedOut
    /\ TxTimestamp (Payload r) = env_txTime env
    /\ RxTimestamp (Payload r) = rxTime
    /\ timedOut = 0%Z /\ fatal = 1%Z /\ sendError = 2%Z
    /\ timedOut <> fatal /\ timedOut <> sendError /\ fatal <> sendError.
Proof.
  intros Hlen HP Hm Hsend Hfind.
  destruct (Boomerang_after_send json_Marshal json_Unmarshal IP_String
              tc path timeout env payload Hlen HP Hm Hsend)
    as (bytes & a4 & _ & _ & ->).
  rewrite Hfind. eexists _, _. split; [reflexivity|].
  simpl. repeat split; discriminate.
Qed.

(** C8 (the code on the failing inputs): when the reply arrives before
    the timer, [Boomerang] returns without unregistering its listener: the
    entry it inserted is still in the table and the queue it was given is
    still open. *)
Theorem Boomerang_reply_leaves_listener (tc : TransportChannel) (path : Path)
    (timeout : Z) (env : BoomerangEnv) (payload : list Z) (packet : Packet)
    (rxTime : Z) :
  2 <= length path -> Forall is_IPv4 path ->
  json_Marshal (NewBoomerangPayload (hop path (length path - 1)) (env_uuid env))
    = inl payload ->
  (forall fd data addr, tc_sendto tc fd data addr = None) ->
  find (delivered json_Unmarshal path (env_uuid env)) (env_captured env)
    = Some (packet, rxTime) ->
  exists r tc',
    Boomerang json_Marshal json_Unmarshal IP_String tc path timeout env = Ok (r, tc')
    /\ Err_ r = None
    /\ (lm_next (listenerMap tc), fresh (dom (tc_chans tc)))
         ∈ lm_entries (listenerMap tc')
    /\ registered tc' (lm_next (listenerMap tc))
    /\ tc_chans tc' !! fresh (dom (tc_chans tc)) = Some (mkChan 1 [] false 0)
    /\ ~ queue_closed tc' (fresh (dom (tc_chans tc))).
Proof.
  intros Hlen HP Hm Hsend Hfind.
  destruct (Boomerang_after_send json_Marshal json_Unmarshal IP_String
              tc path timeout env payload Hlen HP Hm Hsend)
    as (bytes & a4 & _ & _ & ->).
  rewrite Hfind. eexists _, _. split; [reflexivity|]. simpl.
  split; [done|]. split; [set_solver|]. split.
  - unfold registered, listener_queue. simpl.
    generalize (lm_entries (listenerMap tc)). intros entries.
    induction entries as [|[l q] entries IH]; simpl.
    + rewrite decide_True by done. by eexists.
    + destruct (decide (l = lm_next (listenerMap tc))); [by eexists|done].
  - split; [by rewrite lookup_insert_eq|].
    intros (ch & Hch & Hclosed). simpl in Hch.
    rewrite lookup_insert_eq in Hch. injection Hch as <-. done.
Qed.

(** The branch of the timer does unregister: the entry is gone from the
    table and the queue is closed when the result is returned. *)
Lemma Boomerang_timeout_unregisters (tc : TransportChannel) (path : Path)
    (timeout : Z) (env : BoomerangEnv) (payload : list Z) :
  2 <= length path -> Forall is_IPv4 path ->
  json_Marshal (NewBoomerangPayload (hop path (length path - 1)) (env_uuid env))
    = inl payload ->
  (forall fd data addr, tc_sendto tc fd data addr = None) ->
  listeners_fresh tc ->
  find (delivered json_Unmarshal path (env_uuid env)) (env_captured env) = None ->
  exists r tc',
    Boomerang json_Marshal json_Unmarshal IP_String tc path timeout env = Ok (r, tc')
    /\ ErrorType r = timedOut
    /\ DestIP (Payload r) = hop path (length path - 1)
    /\ ~ registered tc' (lm_next (listenerMap tc))
    /\ queue_closed tc' (fresh (dom (tc_chans tc))).
Proof.
  intros Hlen HP Hm Hsend Hfresh Hfind.
  destruct (Boomerang_after_send json_Marshal json_Unmarshal IP_String
              tc path timeout env payload Hlen HP Hm Hsend)
    as (bytes & a4 & _ & _ & ->).
  rewrite Hfind. eexists _, _. split; [reflexivity|]. simpl.
  split; [done|]. split; [done|].
  unfold UnregisterListener, listener_queue. simpl.
  rewrite lookup_listener_fresh by done.
  unfold chan_close. rewrite lookup_insert_eq. simpl. split.
  - unfold registered, listener_queue. simpl.
    generalize (lm_entries (listenerMap tc) ++
                [(lm_next (listenerMap tc), fresh (dom (tc_chans tc)))]).
    intros entries [q Hq].
    induction entries as [|[l' q'] entries IH]; [done|].
    rewrite filter_cons in Hq. simpl in Hq. case_decide as Hl.
    + simpl in Hq. rewrite decide_False in Hq by done. by apply IH.
    + by apply IH.
  - eexists. split; [simpl; by rewrite lookup_insert_eq|done].
Qed.
End BoomerangClaims.

Lemma Boomerang_reply_result_witness :
  exists r tc',
    Boomerang example_Marshal example_Unmarshal example_IP_String
      (example_tc "ip proto 4") example_path 3 example_env_reply = Ok (r, tc')
    /\ Err_ r = None /\ ErrorType r = 0%Z /\ RxTimestamp (Payload r) = 1050%Z.
Proof.
  destruct (Boomerang_reply_result example_Marshal example_Unmarshal example_IP_String
              (example_tc "ip proto 4") example_path 3 example_env_reply
              [105; 100; 45; 49]%Z example_reply 1050%Z)
    as (r & tc' & Hrun & Herr & Hty & _ & _ & Hrx & _).
  - simpl. lia.
  - repeat constructor; by eexists.
  - reflexivity.
  - reflexivity.
  - reflexivity.
  - by exists r, tc'.
Defined.

Lemma Boomerang_reply_leaves_listener_witness :
  exists r tc',
    Boomerang example_Marshal example_Unmarshal example_IP_String
      (example_tc "ip proto 4") example_path 3 example_env_reply = Ok (r, tc')
    /\ Err_ r = None
    /\ registered tc' 0
    /\ tc_chans tc' !! 0 = Some (mkChan 1 [] false 0).
Proof.
  destruct (Boomerang_reply_leaves_listener example_Marshal example_Unmarshal
              example_IP_String (example_tc "ip proto 4") example_path 3
              example_env_reply [105; 100; 45; 49]%Z example_reply 1050%Z)
    as (r & tc' & Hrun & Herr & _ & Hreg & Hopen & _).
  - simpl. lia.
  - repeat constructor; by eexists.
  - reflexivity.
  - reflexivity.
  - reflexivity.
  - by exists r, tc'.
Defined.

(** ** path.go: path discovery *)

Section QuietDiscovery.
Variable build_fails : nat -> bool.
Variable sourceIP : IP.
Variable params : PathChannelParams.

Abbreviation step := (probe_step build_fails sourceIP params).

Lemma capture_fuel_after_classify (packet : Captured) :
  capture_fuel (after_classify sourceIP packet) <= 3.
Proof. unfold after_classify. destruct (classify _ _); simpl; lia. Qed.

Lemma driver_fuel_enter_round (ttl : nat) (s : probe_state) :
  1 <= ttl ->
  driver_fuel (ps_drv (enter_round build_fails params ttl s))
  + panic_fuel (ps_panic (enter_round build_fails params ttl s))
  <= 2 * (33 - ttl) + 2 + panic_fuel (ps_panic s).
Proof.
  intros Httl. unfold enter_round.
  destruct (build_fails ttl); [simpl; lia|].
  destruct (SendTo_panics (destIP params)); simpl; lia.
Qed.

Lemma enter_round_rx_cap (ttl : nat) (s : probe_state) :
  ps_rx (enter_round build_fails params ttl s) = ps_rx s
  /\ ps_cap (enter_round build_fails params ttl s) = ps_cap s.
Proof.
  unfold enter_round. destruct (build_fails ttl); [done|].
  by destruct (SendTo_panics (destIP params)).
Qed.

(** Every step uses up fuel: no run of the two goroutines is infinite. *)
Lemma probe_step_fuel (s s' : probe_state) :
  step s s' -> probe_fuel s' < probe_fuel s.
Proof.
  destruct 1 as [s packet rx Hp Hcap Hrx|s packet Hp Hcap Hdrv|s Hp Hcap
                |s ip ttl Hp Hcap Hdrv|s ip ttl Hp Hcap Hdrv|s ttl Hp Hcap Hdrv
                |s ttl Hp Hcap Hdrv|s ttl Hp Hdrv|s ttl hop Hp Hdrv];
    unfold probe_fuel.
  - rewrite Hcap, Hrx. simpl.
    pose proof (capture_fuel_after_classify packet).
    destruct (ps_readySent s); simpl; lia.
  - rewrite Hcap. simpl.
    match goal with
    | |- context [enter_round _ _ 1 ?x] =>
        pose proof (driver_fuel_enter_round 1 x ltac:(lia));
        destruct (enter_round_rx_cap 1 x) as [-> ->]
    end.
    pose proof (capture_fuel_after_classify packet).
    rewrite Hdrv in H |- *. simpl in *. lia.
  - rewrite Hp. simpl. lia.
  - rewrite Hcap, Hdrv. simpl. lia.
  - rewrite Hcap, Hdrv. simpl. lia.
  - rewrite Hcap, Hdrv. simpl. lia.
  - rewrite Hcap, Hdrv. simpl. lia.
  - rewrite Hdrv. simpl. lia.
  - rewrite Hdrv. unfold next_round. destruct (decide (ttl + 1 <= 32)).
    + match goal with
      | |- context [enter_round _ _ (ttl + 1) ?x] =>
          pose proof (driver_fuel_enter_round (ttl + 1) x ltac:(lia));
          destruct (enter_round_rx_cap (ttl + 1) x) as [-> ->]
      end.
      simpl in *. lia.
    + simpl. lia.
Qed.

Lemma probe_sn (s : probe_state) : sn step s.
Proof.
  assert (forall n s, probe_fuel s < n -> sn step s) as H.
  { induction n as [|n IH]; intros s0 Hlt; [lia|].
    constructor. intros s' Hstep. apply probe_step_fuel in Hstep.
    apply IH. lia. }
  apply (H (S (probe_fuel s))). lia.
Qed.

(** With nothing to capture, no goroutine of [GetPathChannelTo] can take a
    step from the state in which the function returns the channel. *)
Lemma probe_init_silent_nf : nf step (probe_init build_fails params []).
Proof.
  intros [s' Hstep]. unfold probe_init in Hstep.
  destruct (build_fails 2); [inversion Hstep; simpl in *; congruence|].
  destruct (SendTo_panics (destIP params)); inversion Hstep; simpl in *; congruence.
Qed.

Hypothesis build_ok : forall ttl, build_fails ttl = false.
Hypothesis dest_ok : SendTo_panics (destIP params) = false.
Variable rx0 : list Captured.

Lemma quiet_inv_init :
  Forall (fun packet => classify sourceIP packet = Ignore) rx0 ->
  quiet_inv sourceIP rx0 (probe_init build_fails params rx0).
Proof.
  intros Hrx. unfold probe_init. rewrite build_ok, dest_ok. split; [done|]. simpl.
  repeat split. by left.
Qed.

Lemma after_classify_Ignore (packet : Captured) :
  classify sourceIP packet = Ignore -> after_classify sourceIP packet = CapRecv.
Proof. unfold after_classify. by intros ->. Qed.

(** The invariant is kept by every step. *)
Lemma quiet_inv_step (s s' : probe_state) :
  quiet_inv sourceIP rx0 s -> step s s' -> quiet_inv sourceIP rx0 s'.
Proof.
  intros (Hrx & Hpanic & Hdrv) Hstep.
  destruct Hstep as [s packet rx Hp Hc Hr|s packet Hp Hc Hd|s Hp Hc
                    |s ip ttl Hp Hc Hd|s ip ttl Hp Hc Hd|s ttl Hp Hc Hd
                    |s ttl Hp Hc Hd|s ttl Hp Hd|s ttl hop Hp Hd].
  - rewrite Hr in Hrx. apply Forall_cons in Hrx as [Hpk Hrx].
    split; [done|]. split; [done|]. simpl.
    destruct (ps_drv s) as [|ttl|ttl [ip|]| | |]; try done.
    + destruct Hdrv as (Hready & ? & ? & ? & _). rewrite Hready.
      repeat split; try done. right. by exists packet.
    + destruct Hdrv as (? & Hready & ? & ? & ? & ?). rewrite Hready.
      by rewrite after_classify_Ignore.
    + destruct Hdrv as (? & Hready & ? & ? & ? & ?). rewrite Hready.
      by rewrite after_classify_Ignore.
    + destruct Hdrv as (Hready & ? & ? & ? & ?). rewrite Hready.
      by rewrite after_classify_Ignore.
  - rewrite Hd in Hdrv. destruct Hdrv as (_ & Hout & Hsent & Hclosed & Hcap).
    destruct Hcap as [[Hcap _]|(packet' & Hcap & Hign)]; [congruence|].
    assert (packet' = packet) as -> by congruence.
    unfold enter_round. rewrite build_ok, dest_ok. split; [done|]. split; [done|].
    simpl. rewrite Hout, Hsent. repeat split; try done; try lia.
    by apply after_classify_Ignore.
  - exfalso. destruct (ps_drv s) as [|ttl|ttl [ip|]| | |]; try done.
    + destruct Hdrv as (_ & _ & _ & _ & [[? _]|(? & ? & _)]); congruence.
    + destruct Hdrv as (_ & _ & ? & _). congruence.
    + destruct Hdrv as (_ & _ & ? & _). congruence.
    + destruct Hdrv as (_ & ? & _). congruence.
  - rewrite Hd in Hdrv. destruct Hdrv as (_ & _ & Hcap & _). congruence.
  - rewrite Hd in Hdrv. destruct Hdrv as (_ & _ & Hcap & _). congruence.
  - rewrite Hd in Hdrv. destruct Hdrv as (_ & _ & Hcap & _). congruence.
  - rewrite Hd in Hdrv. destruct Hdrv as (_ & _ & Hcap & _). congruence.
  - rewrite Hd in Hdrv. split; [done|]. split; [done|]. simpl. done.
  - rewrite Hd in Hdrv. destruct hop as [ip|]; [done|].
    destruct Hdrv as (Httl & Hready & Hcap & Hout & Hsent & Hclosed).
    unfold next_round. destruct (decide (ttl + 1 <= 32)) as [Hle|Hgt].
    + unfold enter_round. rewrite build_ok, dest_ok. split; [done|]. split; [done|].
      simpl. rewrite Hout, Hsent. repeat split; try done; try lia.
      * replace (ttl + 1 - 1) with (S (ttl - 1)) by lia.
        by rewrite replicate_S_end.
      * replace (ttl + 1) with (S ttl) by lia. rewrite seq_S. done.
    + assert (ttl = 32) as -> by lia. split; [done|]. split; [done|]. simpl.
      rewrite Hout, Hsent. repeat split; try done.
Qed.

Lemma quiet_inv_reachable (s : probe_state) :
  Forall (fun packet => classify sourceIP packet = Ignore) rx0 ->
  rtc step (probe_init build_fails params rx0) s -> quiet_inv sourceIP rx0 s.
Proof.
  intros Hrx Hreach. revert s Hreach. apply rtc_ind_r.
  - by apply quiet_inv_init.
  - intros y z _ Hstep Hy. by apply (quiet_inv_step y z).
Qed.

(** A state of a quiet run in which neither goroutine can move, when at
    least one packet is captured: the probing goroutine has returned. *)
Lemma quiet_inv_nf (s : probe_state) :
  rx0 <> [] -> quiet_inv sourceIP rx0 s -> nf step s -> ps_drv s = DrvClosed.
Proof.
  intros Hne (Hrx & Hpanic & Hdrv) Hnf.
  destruct (ps_drv s) as [|ttl|ttl hop| | |] eqn:Hd; try done; exfalso; apply Hnf.
  - destruct Hdrv as (_ & _ & _ & _ & [[Hcap Hrx0]|(packet & Hcap & _)]).
    + destruct rx0 as [|packet rx]; [done|].
      eexists. by apply (step_capture _ _ _ s packet rx).
    + eexists. by apply (step_ready _ _ _ s packet).
  - eexists. by apply (step_timeout _ _ _ s ttl).
  - eexists. by apply (step_emit _ _ _ s ttl hop).
Qed.
End QuietDiscovery.

(** C10 (the code at the failing input): when nothing at all is captured,
    the path discovery that [GetPathChannelTo] starts emits no hop and
    never closes its channel, whatever the parameters, although every
    per-TTL wait would time out. The probing goroutine waits in
    [<-listenerReady] for a signal that the capture goroutine sends only
    once it has taken a packet from [tc.rx()]: neither goroutine can take a
    step from the state in which the function returns the channel, so the
    loop over the TTLs never starts, no nil hop is emitted (let alone 32),
    and the deferred [close(pathChan)] is never reached. When the warm-up
    probe builds and its destination is one [SendTo] accepts, the probing
    goroutine is in that wait with only the warm-up probe sent. *)
Theorem silent_discovery_hangs (build_fails : nat -> bool) (tc : TransportChannel)
    (params : PathChannelParams) (findSource : outcome IP) (src : IP)
    (s0 : probe_state) :
  GetPathChannelTo build_fails tc params findSource [] = Ok (src, s0) ->
  nf (probe_step build_fails src params) s0
  /\ (forall s,
        rtc (probe_step build_fails src params) s0 s ->
        s = s0 /\ ps_out s = [] /\ ps_closed s = false
        /\ ps_out s <> replicate 32 None /\ ps_drv s <> DrvClosed)
  /\ (build_fails 2 = false -> SendTo_panics (destIP params) = false ->
      ps_drv s0 = DrvWaitReady /\ ps_cap s0 = CapRecv /\ ps_rx s0 = []
      /\ ps_readySent s0 = false /\ ps_sent s0 = [2] /\ ps_panic s0 = None).
Proof.
  unfold GetPathChannelTo. case_decide as Hf; [done|].
  destruct findSource as [found| | |]; try done.
  rewrite obind_Ok. intros [= <- <-].
  pose proof (probe_init_silent_nf build_fails (default found (overrideSourceIP params))
                params) as Hnf.
  split; [exact Hnf|]. split.
  - intros s Hreach. apply rtc_nf in Hreach; [|done]. subst s.
    unfold probe_init. destruct (build_fails 2); [done|].
    by destruct (SendTo_panics (destIP params)).
  - intros Hb Hd. unfold probe_init. by rewrite Hb, Hd.
Qed.

Lemma silent_discovery_hangs_witness :
  GetPathChannelTo (fun _ => false) (example_tc "icmp") example_params
    (Ok [10; 0; 0; 1]%Z) []
    = Ok ([10; 0; 0; 1]%Z,
          mkProbe [] CapRecv false DrvWaitReady [2] [] false None)
  /\ forall s,
       rtc (probe_step (fun _ => false) [10; 0; 0; 1]%Z example_params)
         (mkProbe [] CapRecv false DrvWaitReady [2] [] false None) s ->
       ps_out s = [] /\ ps_closed s = false /\ ps_out s <> replicate 32 None.
Proof.
  split; [reflexivity|]. intros s Hreach.
  destruct (silent_discovery_hangs (fun _ => false) (example_tc "icmp") example_params
              (Ok [10; 0; 0; 1]%Z) [10; 0; 0; 1]%Z
              (mkProbe [] CapRecv false DrvWaitReady [2] [] false None) eq_refl)
    as (_ & Hall & _).
  destruct (Hall s Hreach) as (_ & ? & ? & ? & _). done.
Defined.

(** Once a packet has been captured the loop does run: when every probe
    builds, the destination is one [SendTo] accepts, at least one packet
    is captured and every captured packet is ignored by the capture
    goroutine, every per-TTL wait times out: the run is finite, every hop
    emitted is nil, no probe is sent with a TTL above 32, and when the run
    ends the hop channel has emitted exactly 32 nil entries, one for each
    TTL from 1 through 32, and is closed. *)
Lemma quiet_discovery_emits_32_nils (build_fails : nat -> bool)
    (tc : TransportChannel) (params : PathChannelParams) (src : IP)
    (rx : list Captured) :
  (forall ttl, build_fails ttl = false) ->
  SendTo_panics (destIP params) = false ->
  tc_filter tc = "icmp" ->
  Forall (fun packet => classify (default src (overrideSourceIP params)) packet = Ignore) rx ->
  rx <> [] ->
  GetPathChannelTo build_fails tc params (Ok src) rx
    = Ok (default src (overrideSourceIP params), probe_init build_fails params rx)
  /\ sn (probe_step build_fails (default src (overrideSourceIP params)) params)
       (probe_init build_fails params rx)
  /\ forall s,
       rtc (probe_step build_fails (default src (overrideSourceIP params)) params)
         (probe_init build_fails params rx) s ->
       (exists k, k <= 32 /\ ps_out s = replicate k None)
       /\ (forall ttl, ttl ∈ ps_sent s -> ttl <= 32)
       /\ (ps_closed s = true -> ps_out s = replicate 32 None)
       /\ ps_panic s = None
       /\ (nf (probe_step build_fails (default src (overrideSourceIP params)) params) s ->
           ps_closed s = true
           /\ ps_out s = replicate 32 None
           /\ ps_sent s = 2 :: seq 1 32).
Proof.
  intros Hbuild Hdest Hfilter Hrx Hne. split.
  { unfold GetPathChannelTo.
    rewrite decide_False by (rewrite Hfilter; intros Hc; by apply Hc). done. }
  split; [apply probe_sn|].
  intros s Hreach.
  pose proof (quiet_inv_reachable build_fails _ params Hbuild Hdest rx s Hrx Hreach) as Hinv.
  assert (Hsent : forall t ttl, t <= 32 -> ttl ∈ 2 :: seq 1 t -> ttl <= 32).
  { intros t ttl Ht Hin. apply elem_of_cons in Hin as [->|Hin]; [lia|].
    apply elem_of_seq in Hin. lia. }
  split_and!.
  - destruct Hinv as (_ & _ & Hdrv).
    destruct (ps_drv s) as [|ttl|ttl [ip|]| | |]; try done.
    + exists 0. split; [lia|]. by destruct Hdrv as (_ & -> & _).
    + exists (ttl - 1). split; [lia|]. by destruct Hdrv as (_ & _ & _ & -> & _).
    + exists (ttl - 1). split; [lia|]. by destruct Hdrv as (_ & _ & _ & -> & _).
    + exists 32. split; [lia|]. by destruct Hdrv as (_ & _ & -> & _).
  - destruct Hinv as (_ & _ & Hdrv). intros ttl Hin.
    destruct (ps_drv s) as [|t|t [ip|]| | |]; try done.
    + destruct Hdrv as (_ & _ & Hs & _). rewrite Hs in Hin.
      apply list_elem_of_singleton in Hin. lia.
    + destruct Hdrv as (? & _ & _ & _ & Hs & _). rewrite Hs in Hin.
      apply (Hsent t); [lia|done].
    + destruct Hdrv as (? & _ & _ & _ & Hs & _). rewrite Hs in Hin.
      apply (Hsent t); [lia|done].
    + destruct Hdrv as (_ & _ & _ & Hs & _). rewrite Hs in Hin.
      apply (Hsent 32); [lia|done].
  - destruct Hinv as (_ & _ & Hdrv). intros Hclosed.
    destruct (ps_drv s) as [|t|t [ip|]| | |]; try done.
    + destruct Hdrv as (_ & _ & _ & ? & _). congruence.
    + destruct Hdrv as (_ & _ & _ & _ & _ & ?). congruence.
    + destruct Hdrv as (_ & _ & _ & _ & _ & ?). congruence.
    + by destruct Hdrv as (_ & _ & -> & _).
  - by destruct Hinv as (_ & ? & _).
  - intros Hnf.
    pose proof (quiet_inv_nf build_fails _ params rx s Hne Hinv Hnf) as Hd.
    destruct Hinv as (_ & _ & Hdrv). rewrite Hd in Hdrv.
    by destruct Hdrv as (_ & _ & -> & -> & ->).
Qed.

(** ** traffic.go: the rounds of ProbeEachHopOfPathSync *)

(** Outside [wg.Wait()] no worker is alive: a step of a worker contradicts
    the invariant there. *)
Ltac no_worker :=
  exfalso;
  match goal with
  | H1 : ?l = ?a ++ ?x :: ?b, H2 : ?l = [] |- _ =>
      rewrite H1 in H2; by destruct a
  end.

Section SyncRoundsProps.
Variable json_Marshal : BoomerangPayload -> list Z + string.
Variable json_Unmarshal : list Z -> option BoomerangPayload.
Variable IP_String : IP -> string.
Variable path : Path.
Variable numPackets timeout : Z.

Abbreviation step := (sync_step json_Marshal json_Unmarshal IP_String path numPackets timeout).
Abbreviation inv := (sync_inv json_Marshal json_Unmarshal IP_String path numPackets timeout).
Abbreviation result_of := (Boomerang_result_of json_Marshal json_Unmarshal IP_String timeout).
Abbreviation done_rounds := (rounds_done json_Marshal json_Unmarshal IP_String path timeout).

(** Every step uses up fuel: no run of the goroutines is infinite. *)
Lemma sync_step_fuel (s s' : sync_state) :
  step s s' -> sync_fuel path numPackets s' < sync_fuel path numPackets s.
Proof.
  destruct 1 as [s Hpc Hk Hlen|s Hpc Hk Hlen|s Hpc Hk|s l1 l2 idx env r tc' Hp Hb
                |s l1 l2 idx r Hs Hc|s l1 l2 idx Hs|s Hpc Hwg|s Hpc];
    unfold sync_fuel, workers_fuel, rounds_left; simpl.
  - rewrite Hpc, length_app, length_seq.
    assert (exists R, Z.to_nat (numPackets + 1 - ss_packetCount s) = S R) as [R ->].
    { exists (Z.to_nat (numPackets - ss_packetCount s)). lia. }
    simpl. nia.
  - rewrite Hpc. lia.
  - rewrite Hpc. lia.
  - rewrite Hp, !length_app. simpl. lia.
  - rewrite Hs, !length_app. simpl. lia.
  - rewrite Hs, !length_app. simpl. lia.
  - rewrite Hpc. lia.
  - rewrite Hpc.
    destruct (Z.to_nat (numPackets + 1 - ss_packetCount s)) as [|R] eqn:ER.
    + replace (Z.to_nat (numPackets + 1 - (ss_packetCount s + 1))) with 0 by lia.
      simpl. lia.
    + replace (Z.to_nat (numPackets + 1 - (ss_packetCount s + 1))) with R by lia.
      simpl. nia.
Qed.

Lemma sync_sn (s : sync_state) : sn step s.
Proof.
  assert (forall n s, sync_fuel path numPackets s < n -> sn step s) as H.
  { induction n as [|n IH]; intros s0 Hlt; [lia|].
    constructor. intros s' Hstep. apply sync_step_fuel in Hstep.
    apply IH. lia. }
  apply (H (S (sync_fuel path numPackets s))). lia.
Qed.

Lemma rounds_done_length (k : nat) (out : list emission) :
  done_rounds k out -> length out = k * (length path - 1).
Proof.
  induction 1 as [|k out round _ IH [Hperm _]]; [done|].
  rewrite length_app, IH.
  apply Permutation_length in Hperm. rewrite length_fmap, length_seq in Hperm. lia.
Qed.

Lemma perm_probe_to_sending (l1 l2 q c : list nat) (x : nat) :
  (l1 ++ l2) ++ (q ++ [x]) ++ c ≡ₚ (l1 ++ x :: l2) ++ q ++ c.
Proof. solve_Permutation. Qed.

Lemma perm_sending_to_out (p q1 q2 c : list nat) (x : nat) :
  p ++ (q1 ++ q2) ++ (c ++ [x]) ≡ₚ p ++ (q1 ++ x :: q2) ++ c.
Proof. solve_Permutation. Qed.

Hypothesis numPackets_nonneg : (0 <= numPackets)%Z.
Hypothesis path_hops : 1 <= length path.

Lemma sync_inv_init (tc : TransportChannel) : inv (sync_init tc).
Proof. split; [simpl; lia|]. simpl. repeat split. constructor. Qed.

(** The invariant is kept by every step. *)
Lemma sync_inv_step (s s' : sync_state) : inv s -> step s s' -> inv s'.
Proof.
  intros [Hk Hinv] Hstep.
  destruct Hstep as [s Hpc Hle Hlen|s Hpc Hle Hlen|s Hpc Hlt|s l1 l2 idx env r tc' Hp Hb
                    |s l1 l2 idx r Hs Hc|s l1 l2 idx Hs|s Hpc Hwg|s Hpc].
  - rewrite Hpc in Hinv. destruct Hinv as (Hp & Hs & Hd & Hc & Hout).
    split; [done|]. simpl. rewrite Hp, Hs, Hd. simpl. rewrite length_seq.
    repeat split; try done; try lia.
    exists (ss_out s), []. rewrite !app_nil_r. repeat split; try done.
  - lia.
  - rewrite Hpc in Hinv. destruct Hinv as (Hp & Hs & Hd & Hc & Hout).
    split; [done|]. simpl.
    assert (ss_packetCount s = numPackets + 1)%Z as Heq by lia.
    repeat split; try done.
    by replace (Z.to_nat numPackets) with (Z.to_nat (ss_packetCount s - 1)) by lia.
  - split; [done|]. simpl.
    destruct (ss_pc s); try done;
      try (destruct_and!; no_worker).
    destruct Hinv as (Hle & Hc & Hwg & Hres & full & cur & Hout & Hfull & Hcur & Hperm).
    repeat split; try done.
    + rewrite Hwg, Hp, !length_app. simpl. lia.
    + apply Forall_app. split; [done|]. apply Forall_singleton. simpl.
      by exists (ss_tc s), env, tc'.
    + exists full, cur. repeat split; try done.
      rewrite fmap_app. simpl. rewrite <- Hperm, Hp. apply perm_probe_to_sending.
  - split; [done|]. simpl.
    destruct (ss_pc s); try done;
      try (destruct_and!; no_worker).
    destruct Hinv as (Hle & _ & Hwg & Hres & full & cur & Hout & Hfull & Hcur & Hperm).
    rewrite Hs in Hres. apply Forall_app in Hres as [Hres1 Hres2].
    apply Forall_cons in Hres2 as [Hr Hres2].
    repeat split; try done.
    + rewrite Hwg, Hs, !length_app. simpl. lia.
    + by apply Forall_app.
    + exists full, (cur ++ [mkEmission (ss_packetCount s) idx r]).
      repeat split; try done.
      * by rewrite Hout, (assoc_L (++)).
      * apply Forall_app. split; [done|]. by apply Forall_singleton.
      * rewrite !fmap_app. simpl. rewrite <- Hperm, Hs, fmap_app. simpl.
        apply perm_sending_to_out.
  - split; [done|]. simpl.
    destruct (ss_pc s); try done;
      try (destruct_and!; no_worker).
    destruct Hinv as (Hle & Hc & Hwg & Hres & Hrest).
    repeat split; try done.
    rewrite Hwg, Hs, !length_app. simpl. lia.
  - rewrite Hpc in Hinv.
    destruct Hinv as (Hle & Hc & Hwg' & Hres & full & cur & Hout & Hfull & Hcur & Hperm).
    split; [done|]. simpl.
    assert (ss_probing s = [] /\ ss_sending s = [] /\ ss_sent s = []) as (Hp & Hs & Hd).
    { rewrite Hwg in Hwg'.
      destruct (ss_probing s), (ss_sending s), (ss_sent s); simpl in Hwg'; try lia.
      done. }
    repeat split; try done.
    rewrite Hp, Hs in Hperm. simpl in Hperm. rewrite Hout.
    replace (Z.to_nat (ss_packetCount s)) with (S (Z.to_nat (ss_packetCount s - 1))) by lia.
    constructor; [done|]. split; [done|].
    eapply Forall_impl; [exact Hcur|]. intros e [He ?]. split; [|done].
    rewrite He. lia.
  - rewrite Hpc in Hinv. destruct Hinv as (Hle & Hp & Hs & Hd & Hc & Hout).
    split; [simpl; lia|]. simpl. repeat split; try done.
    by replace (ss_packetCount s + 1 - 1)%Z with (ss_packetCount s) by lia.
Qed.

Lemma sync_inv_reachable (tc : TransportChannel) (s : sync_state) :
  rtc step (sync_init tc) s -> inv s.
Proof.
  revert s. apply rtc_ind_r.
  - apply sync_inv_init.
  - intros y z _ Hstep Hy. by apply (sync_inv_step y z).
Qed.

Hypothesis path_two_hops : 2 <= length path.

(** A state in which no goroutine can move is one in which the loop
    goroutine has returned: [Boomerang] always returns, the reader takes
    every result, and [wg.Wait()] is released by the last [wg.Done()]. *)
Lemma sync_inv_nf (s : sync_state) : inv s -> nf step s -> ss_pc s = RoundsClosed.
Proof.
  intros [Hk Hinv] Hnf.
  destruct (ss_pc s) eqn:Hpc; try done; exfalso; apply Hnf.
  - destruct (decide (ss_packetCount s <= numPackets)%Z).
    + eexists. by apply sync_start.
    + eexists. apply sync_exit; [done|lia].
  - destruct Hinv as (Hle & Hc & Hwg & Hres & full & cur & Hout & Hfull & Hcur & Hperm).
    destruct (ss_probing s) as [|idx probing] eqn:Hp.
    + destruct (ss_sending s) as [|[idx r] sending] eqn:Hs.
      * destruct (ss_sent s) as [|idx sent] eqn:Hd.
        -- eexists. by apply sync_wait.
        -- eexists. by apply (sync_done _ _ _ _ _ _ s [] sent idx).
      * eexists. by apply (sync_send _ _ _ _ _ _ s [] sending idx r).
    + assert (idx ∈ seq 2 (length path - 1)) as Hidx.
      { rewrite <- Hperm. apply elem_of_cons. by left. }
      apply elem_of_seq in Hidx.
      destruct (Boomerang_total json_Marshal json_Unmarshal IP_String (ss_tc s)
                  (take idx path) timeout (mkEnv "" 0 [] 0)) as (r & tc' & Hb).
      { rewrite length_take. lia. }
      eexists.
      by apply (sync_probe _ _ _ _ _ _ s [] probing idx (mkEnv "" 0 [] 0) r tc').
  - eexists. by apply sync_wake.
Qed.
End SyncRoundsProps.

(** C9: for a path [P] of two or more hops, [numPackets >= 0] and a
    channel whose filter contains ["ip proto 4"], [ProbeEachHopOfPathSync]
    returns its result channel at once, and the goroutines it starts always
    come to an end, at which point the channel has emitted exactly
    [numPackets * (|P| - 1)] results and is closed. The results come round
    after round: each round holds one result of [Boomerang] per prefix
    [P[0..i]], [i] from 2 to [|P|], in some order, and whenever the loop
    stands at the head of a round the rounds before it have been emitted in
    full. *)
Theorem ProbeEachHopOfPathSync_emits
    (json_Marshal : BoomerangPayload -> list Z + string)
    (json_Unmarshal : list Z -> option BoomerangPayload)
    (IP_String : IP -> string)
    (tc : TransportChannel) (path : Path) (numPackets timeout : Z) (rt : Runtime) :
  2 <= length path -> (0 <= numPackets)%Z ->
  Contains (tc_filter tc) "ip proto 4" = true ->
  (exists resultChan rt',
     ProbeEachHopOfPathSync tc path numPackets timeout rt = Ok (resultChan, rt')
     /\ rt_spawned rt'
          = rt_spawned rt ++ [GoSyncRounds path numPackets timeout resultChan])
  /\ sn (sync_step json_Marshal json_Unmarshal IP_String path numPackets timeout)
       (sync_init tc)
  /\ forall s,
       rtc (sync_step json_Marshal json_Unmarshal IP_String path numPackets timeout)
         (sync_init tc) s ->
       (ss_pc s = RoundsLoopHead ->
        rounds_done json_Marshal json_Unmarshal IP_String path timeout
          (Z.to_nat (ss_packetCount s - 1)) (ss_out s))
       /\ (ss_closed s = true ->
           rounds_done json_Marshal json_Unmarshal IP_String path timeout
             (Z.to_nat numPackets) (ss_out s))
       /\ (nf (sync_step json_Marshal json_Unmarshal IP_String path numPackets timeout) s ->
           ss_closed s = true
           /\ rounds_done json_Marshal json_Unmarshal IP_String path timeout
                (Z.to_nat numPackets) (ss_out s)
           /\ length (ss_out s) = Z.to_nat numPackets * (length path - 1)).
Proof.
  intros Hlen Hn Hfilter. split.
  { rewrite ProbeEachHopOfPathSync_good_filter by done. by eexists _, _. }
  split; [apply sync_sn|].
  intros s Hreach.
  pose proof (sync_inv_reachable json_Marshal json_Unmarshal IP_String path
                numPackets timeout Hn ltac:(lia) tc s Hreach) as Hinv.
  split; [|split].
  - intros Hpc. destruct Hinv as [_ Hinv]. rewrite Hpc in Hinv.
    by destruct Hinv as (_ & _ & _ & _ & ?).
  - intros Hclosed. destruct Hinv as [_ Hinv].
    destruct (ss_pc s); try done.
    + destruct Hinv as (_ & _ & _ & ? & _). congruence.
    + destruct Hinv as (_ & ? & _). congruence.
    + destruct Hinv as (_ & _ & _ & _ & ? & _). congruence.
    + by destruct Hinv as (_ & _ & _ & _ & _ & ?).
  - intros Hnf.
    assert (ss_pc s = RoundsClosed) as Hpc.
    { eapply sync_inv_nf; [..|exact Hinv|exact Hnf]; (done || lia). }
    destruct Hinv as [_ Hinv]. rewrite Hpc in Hinv.
    destruct Hinv as (_ & _ & _ & _ & Hclosed & Hdone).
    repeat split; [done|done|].
    by apply (rounds_done_length json_Marshal json_Unmarshal IP_String path timeout).
Qed.

Lemma ProbeEachHopOfPathSync_emits_witness :
  sn (sync_step example_Marshal example_Unmarshal example_IP_String
        scenario_path 3 1) (sync_init (example_tc "ip proto 4"))
  /\ forall s,
       rtc (sync_step example_Marshal example_Unmarshal example_IP_String
              scenario_path 3 1) (sync_init (example_tc "ip proto 4")) s ->
       nf (sync_step example_Marshal example_Unmarshal example_IP_String
             scenario_path 3 1) s ->
       ss_closed s = true /\ length (ss_out s) = 6.
Proof.
  destruct (ProbeEachHopOfPathSync_emits example_Marshal example_Unmarshal
              example_IP_String (example_tc "ip proto 4") scenario_path 3 1 example_rt)
    as (_ & Hsn & Hruns).
  - simpl. lia.
  - lia.
  - reflexivity.
  - split; [exact Hsn|]. intros s Hreach Hnf.
    destruct (Hruns s Hreach) as (_ & _ & Hend).
    destruct (Hend Hnf) as (? & _ & ?). done.
Defined.

(** * Further properties *)

(** ** path.go: equality of paths and prefixes *)

Lemma bytes_eqb_eq (a b : list Z) : bytes_eqb a b = true <-> a = b.
Proof. unfold bytes_eqb. apply bool_decide_eq_true. Qed.

Lemma take_drop_12 (ip : IP) : take 12 ip ++ drop 12 ip = ip.
Proof. apply take_drop. Qed.

(** [Equal] compares the canonical forms of two addresses. *)
Lemma IP_Equal_canon (ip x : IP) : IP_Equal ip x = true <-> IP_canon ip = IP_canon x.
Proof.
  unfold IP_Equal, IP_canon, IP_To4.
  destruct (decide (length ip = length x)) as [Hl|Hl].
  - rewrite bytes_eqb_eq. split; [by intros ->|].
    destruct (decide (length ip = 4)) as [H4|H4].
    { rewrite decide_True by lia. done. }
    rewrite (decide_False (P := length x = 4)) by lia.
    destruct (decide (length ip = 16)) as [H16|H16].
    + rewrite decide_True by lia.
      destruct (bytes_eqb (take 12 ip) v4InV6Prefix) eqn:Ei;
        destruct (bytes_eqb (take 12 x) v4InV6Prefix) eqn:Ex; simpl.
      * apply bytes_eqb_eq in Ei, Ex. intros Hd.
        rewrite <- (take_drop_12 ip), <- (take_drop_12 x). by rewrite Ei, Ex, Hd.
      * intros Hc. apply (f_equal length) in Hc. rewrite length_drop in Hc. lia.
      * intros Hc. apply (f_equal length) in Hc. rewrite length_drop in Hc. lia.
      * done.
    + rewrite decide_False by lia. done.
  - destruct (decide (length ip = 4 /\ length x = 16)) as [[H4 H16]|Hn1].
    { rewrite decide_True by done. rewrite decide_False by lia.
      rewrite decide_True by done. rewrite andb_true_iff, !bytes_eqb_eq.
      destruct (bytes_eqb (take 12 x) v4InV6Prefix) eqn:Ex; simpl.
      - apply bytes_eqb_eq in Ex. tauto.
      - split; [intros [Hc _]; apply bytes_eqb_eq in Hc; congruence|].
        intros Hc. apply (f_equal length) in Hc. lia. }
    destruct (decide (length ip = 16 /\ length x = 4)) as [[H16 H4]|Hn2].
    { rewrite decide_False by lia. rewrite decide_True by done.
      rewrite (decide_True (P := length x = 4)) by done.
      rewrite andb_true_iff, !bytes_eqb_eq.
      destruct (bytes_eqb (take 12 ip) v4InV6Prefix) eqn:Ei; simpl.
      - apply bytes_eqb_eq in Ei. tauto.
      - split; [intros [Hc _]; apply bytes_eqb_eq in Hc; congruence|].
        intros Hc. apply (f_equal length) in Hc. lia. }
    split; [done|]. intros Hc. exfalso. apply (f_equal length) in Hc.
    repeat (case_decide || destruct (bytes_eqb _ _)); simpl in Hc;
      rewrite ?length_drop in Hc; lia.
Qed.

Lemma IP_Equal_eqb (x y z : IP) :
  IP_canon x = IP_canon y -> IP_Equal z x = IP_Equal z y.
Proof.
  intros Hxy. apply eq_true_iff_eq. rewrite !IP_Equal_canon. by rewrite Hxy.
Qed.

Lemma IP_Equal_sym (x y : IP) : IP_Equal x y = IP_Equal y x.
Proof. apply eq_true_iff_eq. rewrite !IP_Equal_canon. naive_solver. Qed.

(** Two paths are [Equal] exactly when their hops have the same canonical
    forms, position by position. *)
Lemma Path_Equal_canon (p q : Path) :
  Path_Equal p q = true <-> IP_canon <$> p = IP_canon <$> q.
Proof.
  unfold Path_Equal. destruct (decide (length p = length q)) as [Hl|Hl].
  - revert q Hl. induction p as [|a p IH]; intros [|b q] Hl; try done.
    rewrite !fmap_cons. cbn [Path_Equal_loop]. destruct (IP_Equal a b) eqn:E.
    + apply IP_Equal_canon in E. rewrite IH by (simpl in Hl; lia).
      rewrite E. split; [by intros ->|by intros [= ?]].
    + split; [done|]. intros [= Hc _].
      apply IP_Equal_canon in Hc. congruence.
  - split; [done|]. intros Hc. apply (f_equal length) in Hc.
    rewrite !length_fmap in Hc. done.
Qed.

(** X1: [Path.Equal] answers true exactly when the two paths have the same
    length and, at every index, hops that [net.IP.Equal] holds of; in
    particular a path written with 4-byte addresses equals the same path
    written with the 16-byte forms of those addresses. *)
Theorem Path_Equal_elementwise (p q : Path) :
  (Path_Equal p q = true <->
   length p = length q
   /\ forall i a b, p !! i = Some a -> q !! i = Some b -> IP_Equal a b = true)
  /\ (Forall (fun a => length a = 4) p ->
      Path_Equal p ((fun a => v4InV6Prefix ++ a) <$> p) = true).
Proof.
  split.
  - rewrite Path_Equal_canon. split.
    + intros Hc. split.
      { apply (f_equal length) in Hc. by rewrite !length_fmap in Hc. }
      intros i a b Ha Hb. apply IP_Equal_canon. unfold Path in *.
      apply (f_equal (fun l => l !! i)) in Hc.
      cbv beta in Hc. rewrite !list_lookup_fmap, Ha, Hb in Hc. by injection Hc.
    + intros [Hl Hall]. unfold Path in *. apply list_eq. intros i.
      rewrite !list_lookup_fmap.
      destruct (p !! i) as [a|] eqn:Ha, (q !! i) as [b|] eqn:Hb; simpl.
      * f_equal. apply IP_Equal_canon. by apply (Hall i).
      * apply lookup_lt_Some in Ha. apply lookup_ge_None in Hb. lia.
      * apply lookup_lt_Some in Hb. apply lookup_ge_None in Ha. lia.
      * done.
  - intros Hall. apply Path_Equal_canon.
    induction Hall as [|a p Ha _ IH]; [done|]. rewrite !fmap_cons, IH. f_equal.
    unfold IP_canon, IP_To4. rewrite decide_True by done.
    rewrite decide_False by (rewrite length_app; simpl; lia).
    rewrite decide_True by (rewrite length_app; simpl; lia).
    change (take 12 (v4InV6Prefix ++ a)) with (take (length v4InV6Prefix) (v4InV6Prefix ++ a)).
    rewrite take_app_length.
    change (drop 12 (v4InV6Prefix ++ a)) with (drop (length v4InV6Prefix) (v4InV6Prefix ++ a)).
    rewrite drop_app_length. by rewrite bytes_eqb_refl.
Qed.

Lemma Path_Equal_elementwise_witness :
  Path_Equal scenario_path ((fun a => v4InV6Prefix ++ a) <$> scenario_path) = true.
Proof.
  apply (Path_Equal_elementwise scenario_path scenario_path).
  repeat constructor.
Defined.

(** X2: [Path.Equal] is an equivalence: every path equals itself, the
    answer does not depend on which path is the receiver, and two paths
    equal to a third are equal. *)
Theorem Path_Equal_equivalence (p q r : Path) :
  Path_Equal p p = true
  /\ Path_Equal p q = Path_Equal q p
  /\ (Path_Equal p q = true -> Path_Equal q r = true -> Path_Equal p r = true).
Proof.
  split; [by apply Path_Equal_canon|]. split.
  - apply eq_true_iff_eq. rewrite !Path_Equal_canon. naive_solver.
  - rewrite !Path_Equal_canon. congruence.
Qed.

Lemma Path_Equal_equivalence_witness :
  Path_Equal scenario_path ((fun a => v4InV6Prefix ++ a) <$> scenario_path)
    = Path_Equal ((fun a => v4InV6Prefix ++ a) <$> scenario_path) scenario_path
  /\ Path_Equal scenario_path scenario_path = true.
Proof.
  destruct (Path_Equal_equivalence scenario_path
              ((fun a => v4InV6Prefix ++ a) <$> scenario_path) scenario_path)
    as (Hrefl & Hsym & Htrans).
  split; [exact Hsym|]. apply Htrans; reflexivity.
Defined.

Lemma first_index_Some (x : IP) (p : Path) (j : nat) :
  first_index x p = Some j ->
  exists y, p !! j = Some y /\ IP_Equal x y = true
            /\ forall i z, i < j -> p !! i = Some z -> IP_Equal x z = false.
Proof.
  revert j. induction p as [|ip p IH]; intros j; simpl; [done|].
  destruct (IP_Equal x ip) eqn:E.
  - intros [= <-]. exists ip. repeat split; [done|]. intros i z Hi. lia.
  - destruct (first_index x p) as [j'|]; simpl; [|done]. intros [= <-].
    destruct (IH j' eq_refl) as (y & Hy & Hxy & Hbefore).
    exists y. repeat split; [done|done|].
    intros [|i] z Hi Hz; simpl in Hz.
    + by injection Hz as <-.
    + apply (Hbefore i z); [lia|done].
Qed.

Lemma first_index_None_inv (x : IP) (p : Path) :
  first_index x p = None -> forall y, y ∈ p -> IP_Equal x y = false.
Proof.
  induction p as [|ip p IH]; simpl; intros Hn y Hy; [by apply elem_of_nil in Hy|].
  destruct (IP_Equal x ip) eqn:E; [done|].
  destruct (first_index x p); [done|].
  apply elem_of_cons in Hy as [->|Hy]; [done|]. by apply IH.
Qed.

(** X3: [SubPath] always returns a prefix of the path. The prefix is empty
    exactly when no hop equals [lastHop]; otherwise it ends with a hop equal
    to [lastHop] and no hop before that one equals [lastHop]. *)
Theorem SubPath_prefix_ends_at_hop (p : Path) (lastHop : IP) :
  is_prefix (SubPath p lastHop) p
  /\ (SubPath p lastHop = [] <-> forall y, y ∈ p -> IP_Equal lastHop y = false)
  /\ (forall y, last (SubPath p lastHop) = Some y -> IP_Equal lastHop y = true)
  /\ (forall i z, i + 1 < length (SubPath p lastHop) ->
        SubPath p lastHop !! i = Some z -> IP_Equal lastHop z = false).
Proof.
  rewrite SubPath_first_index. unfold Path in *.
  destruct (first_index lastHop p) as [j|] eqn:Hj.
  - destruct (first_index_Some _ _ _ Hj) as (y & Hy & Hxy & Hbefore).
    unfold Path in *.
    assert (j < length p) as Hlt by (by eapply lookup_lt_Some).
    repeat split.
    + exists (drop (j + 1) p). by rewrite take_drop.
    + intros Hnil. apply (f_equal length) in Hnil. rewrite length_take in Hnil.
      simpl in Hnil. lia.
    + intros Hall. rewrite (Hall y) in Hxy; [done|]. by eapply list_elem_of_lookup_2.
    + intros y' Hlast. rewrite last_lookup, length_take in Hlast.
      rewrite lookup_take_lt in Hlast by lia. unfold Path in *.
      replace (Init.Nat.pred ((j + 1) `min` length p)) with j in Hlast by lia.
      congruence.
    + intros i z Hi Hz. rewrite length_take in Hi.
      rewrite lookup_take_lt in Hz by lia. apply (Hbefore i z); [lia|done].
  - repeat split; try done.
    + exists p. by rewrite app_nil_l.
    + intros _. by apply first_index_None_inv.
Qed.

Lemma first_index_ext (x y : IP) (p : Path) :
  IP_canon x = IP_canon y -> first_index x p = first_index y p.
Proof.
  intros Hxy. induction p as [|ip p IH]; simpl; [done|].
  rewrite IH. rewrite (IP_Equal_sym x ip), (IP_Equal_sym y ip).
  by rewrite (IP_Equal_eqb x y ip).
Qed.

Lemma first_index_canon (x : IP) (p q : Path) :
  IP_canon <$> p = IP_canon <$> q -> first_index x p = first_index x q.
Proof.
  revert q. induction p as [|a p IH]; intros [|b q]; try done.
  rewrite !fmap_cons. intros [= Hab Hpq]. simpl.
  by rewrite (IP_Equal_eqb a b x Hab), (IH q Hpq).
Qed.

Lemma first_index_take (x : IP) (p : Path) (j : nat) :
  first_index x p = Some j -> first_index x (take (j + 1) p) = Some j.
Proof.
  revert j. induction p as [|ip p IH]; intros j; simpl; [done|].
  destruct (IP_Equal x ip) eqn:E.
  - intros [= <-]. simpl. by rewrite E.
  - destruct (first_index x p) as [j'|] eqn:Hj'; simpl; [|done].
    intros [= <-]. simpl. rewrite E. by rewrite (IH j' eq_refl).
Qed.

(** X4: [SubPath] takes its argument up to [net.IP.Equal]: two addresses
    that are equal cut the path at the same hop. Cutting twice at the same
    address changes nothing, and cutting two paths that are [Equal] gives
    prefixes that are [Equal]. *)
Theorem SubPath_respects_Equal (p q : Path) (x y : IP) :
  (IP_Equal x y = true -> SubPath p x = SubPath p y)
  /\ SubPath (SubPath p x) x = SubPath p x
  /\ (Path_Equal p q = true -> Path_Equal (SubPath p x) (SubPath q x) = true).
Proof.
  repeat split.
  - intros Hxy. apply IP_Equal_canon in Hxy.
    by rewrite !SubPath_first_index, (first_index_ext x y p Hxy).
  - rewrite (SubPath_first_index p x).
    destruct (first_index x p) as [j|] eqn:Hj; [|done].
    rewrite SubPath_first_index, (first_index_take x p j Hj).
    rewrite take_take. f_equal. lia.
  - intros Hpq. apply Path_Equal_canon in Hpq. apply Path_Equal_canon.
    rewrite !SubPath_first_index, (first_index_canon x p q Hpq).
    destruct (first_index x q); [|done]. by rewrite !fmap_take, Hpq.
Qed.

Lemma SubPath_respects_Equal_witness :
  SubPath scenario_path [10; 0; 0; 2]%Z
    = SubPath scenario_path (v4InV6Prefix ++ [10; 0; 0; 2]%Z)
  /\ Path_Equal (SubPath scenario_path [10; 0; 0; 2]%Z)
       (SubPath ((fun a => v4InV6Prefix ++ a) <$> scenario_path) [10; 0; 0; 2]%Z) = true.
Proof.
  destruct (SubPath_respects_Equal scenario_path
              ((fun a => v4InV6Prefix ++ a) <$> scenario_path)
              [10; 0; 0; 2]%Z (v4InV6Prefix ++ [10; 0; 0; 2]%Z)) as (Hx & _ & Hp).
  split; [by apply Hx|by apply Hp].
Defined.

(** ** builder.go: when the round-trip builder succeeds, and what every
    header carries *)

Lemma CreateRoundTripPacketForPath_short (P : Path) (payload : list Z) :
  length P < 2 ->
  CreateRoundTripPacketForPath P payload = Err "Path must have atleast 2 hops".
Proof. intros Hlt. unfold CreateRoundTripPacketForPath. by rewrite decide_True. Qed.

Lemma CreateRoundTripPacketForPath_cases (P : Path) (payload : list Z) :
  2 <= length P ->
  (exists bs, CreateRoundTripPacketForPath P payload = Ok (concat bs ++ payload)
     /\ Forall2 (fun h b => serializeIPv4 h = Ok b) (spec_headers P payload) bs)
  \/ (exists e, CreateRoundTripPacketForPath P payload = Err e).
Proof.
  intros Hn. unfold CreateRoundTripPacketForPath. rewrite decide_False by lia.
  rewrite roundTripLayers_spec, obind_Ok by done.
  apply SerializeLayers_headers_Ok_or_Err.
Qed.

(** A packet comes back only for a path of two hops or more whose hops all
    have a 4-byte form. *)
Lemma CreateRoundTripPacketForPath_Ok_inv (P : Path) (payload bytes : list Z) :
  CreateRoundTripPacketForPath P payload = Ok bytes ->
  2 <= length P /\ Forall is_IPv4 P.
Proof.
  intros Hrun.
  destruct (decide (length P < 2)) as [Hlt|Hge].
  { rewrite (CreateRoundTripPacketForPath_short P payload Hlt) in Hrun. done. }
  split; [lia|].
  destruct (CreateRoundTripPacketForPath_cases P payload ltac:(lia))
    as [(bs & _ & Hbs)|[e He]]; [|congruence].
  apply Forall_lookup. intros i x Hx.
  assert (i < length P) as Hi by (by eapply lookup_lt_Some).
  assert (hop P i = x) as <- by (by apply nth_lookup_Some).
  destruct (decide (i <= length P - 2)) as [Hle|Hlast].
  - destruct (Forall2_lookup_l _ _ _ _ _ Hbs
                (spec_headers_out P payload i ltac:(lia))) as (b & _ & Hb).
    apply serializeIPv4_wire in Hb as (_ & _ & Hsrc & _). by eexists.
  - destruct (Forall2_lookup_l _ _ _ _ _ Hbs
                (spec_headers_out P payload (length P - 2) ltac:(lia)))
      as (b & _ & Hb).
    apply serializeIPv4_wire in Hb as (_ & _ & _ & Hdst & _).
    simpl in Hdst. replace (length P - 2 + 1) with i in Hdst by lia. by eexists.
Qed.

(** X5: [CreateRoundTripPacketForPath] returns the packet exactly when the
    path has two hops or more and every hop has a 4-byte form; in every
    other case it returns an error. It never panics: the indices the loop
    writes are all inside the slice it made. *)
Theorem CreateRoundTripPacketForPath_succeeds_iff (P : Path) (payload : list Z) :
  ((exists bytes, CreateRoundTripPacketForPath P payload = Ok bytes)
   <-> 2 <= length P /\ Forall is_IPv4 P)
  /\ ((exists bytes, CreateRoundTripPacketForPath P payload = Ok bytes)
      \/ (exists e, CreateRoundTripPacketForPath P payload = Err e))
  /\ (length P < 2 ->
      CreateRoundTripPacketForPath P payload = Err "Path must have atleast 2 hops").
Proof.
  split; [|split; [|apply CreateRoundTripPacketForPath_short]].
  - split.
    + intros [bytes Hrun]. by eapply CreateRoundTripPacketForPath_Ok_inv.
    + intros [Hn HP].
      destruct (CreateRoundTripPacketForPath_bytes P payload Hn HP) as (bs & Hrun & _).
      by eexists.
  - destruct (decide (length P < 2)) as [Hlt|Hge].
    + right. eexists. by apply CreateRoundTripPacketForPath_short.
    + destruct (CreateRoundTripPacketForPath_cases P payload ltac:(lia))
        as [(bs & Hrun & _)|[e He]]; [left|right]; by eexists.
Qed.

Lemma CreateRoundTripPacketForPath_succeeds_iff_witness :
  (exists bytes, CreateRoundTripPacketForPath scenario_path scenario_payload = Ok bytes)
  /\ CreateRoundTripPacketForPath [[10; 0; 0; 1]%Z] scenario_payload
       = Err "Path must have atleast 2 hops".
Proof.
  destruct (CreateRoundTripPacketForPath_succeeds_iff scenario_path scenario_payload)
    as (Hiff & _ & _).
  destruct (CreateRoundTripPacketForPath_succeeds_iff [[10; 0; 0; 1]%Z] scenario_payload)
    as (_ & _ & Hshort).
  split.
  - apply Hiff. split; [simpl; lia|]. repeat constructor; by eexists.
  - apply Hshort. simpl. lia.
Defined.

(** *** The header checksum *)

Lemma lxor_ones16 (x : Z) : (0 <= x <= 65535)%Z -> Z.lxor x 65535 = (65535 - x)%Z.
Proof.
  intros Hx. change 65535%Z with (Z.ones 16).
  rewrite (Z.sub_nocarry_ldiff (Z.ones 16) x).
  - apply Z.bits_inj'. intros n Hn.
    rewrite Z.lxor_spec, Z.ldiff_spec.
    destruct (decide (n < 16)%Z) as [Hlt|Hge].
    + rewrite Z.ones_spec_low by lia. by destruct (Z.testbit x n).
    + rewrite Z.ones_spec_high by lia.
      rewrite (Z.bits_above_log2 x n); [done|lia|].
      destruct (decide (x = 0%Z)) as [->|Hne]; [simpl; lia|].
      assert (Z.log2 x < 16)%Z; [|lia].
      apply Z.log2_lt_pow2; lia.
  - apply Z.bits_inj'. intros n Hn.
    rewrite Z.ldiff_spec, Z.bits_0.
    destruct (decide (n < 16)%Z) as [Hlt|Hge].
    + rewrite Z.ones_spec_low by lia. by destruct (Z.testbit x n).
    + rewrite (Z.bits_above_log2 x n); [done|lia|].
      destruct (decide (x = 0%Z)) as [->|Hne]; [simpl; lia|].
      assert (Z.log2 x < 16)%Z; [|lia].
      apply Z.log2_lt_pow2; lia.
Qed.

(** One round of the carry loop takes a multiple of [0xffff] off the sum and
    leaves a positive sum positive. *)
Lemma carry_round (x : Z) :
  (0 <= x)%Z ->
  exists k, (0 <= k)%Z /\ (Z.shiftr x 16 + uint16 x = x - 65535 * k)%Z
            /\ (0 <= Z.shiftr x 16 + uint16 x)%Z
            /\ (0 < x -> 0 < Z.shiftr x 16 + uint16 x)%Z.
Proof.
  intros Hx. unfold uint16. rewrite Z.shiftr_div_pow2 by lia.
  change (2 ^ 16)%Z with 65536%Z.
  pose proof (Z.div_mod x 65536 ltac:(lia)) as Hdm.
  pose proof (Z.mod_pos_bound x 65536 ltac:(lia)) as Hm.
  assert (0 <= x / 65536)%Z as Hq by (apply Z.div_pos; lia).
  exists (x / 65536)%Z. repeat split; lia.
Qed.

Lemma fold_carry_2_spec (x : Z) :
  (0 <= x < 2 ^ 32)%Z ->
  exists k, (0 <= k)%Z /\ fold_carry 2 x = (x - 65535 * k)%Z
            /\ (0 <= fold_carry 2 x <= 65535)%Z
            /\ (0 < x -> 0 < fold_carry 2 x)%Z.
Proof.
  intros Hx. pose proof (fold_carry_bound x Hx) as Hb.
  simpl in *. destruct (decide (x <= 65535)%Z) as [Hs|Hl].
  { exists 0%Z. repeat split; lia. }
  destruct (carry_round x ltac:(lia)) as (k1 & Hk1 & E1 & Hp1 & Hpos1).
  destruct (decide (Z.shiftr x 16 + uint16 x <= 65535)%Z) as [Hs1|Hl1].
  { exists k1. repeat split; lia. }
  destruct (carry_round (Z.shiftr x 16 + uint16 x) Hp1) as (k2 & Hk2 & E2 & Hp2 & Hpos2).
  exists (k1 + k2)%Z. repeat split; lia.
Qed.

(** A sum completed with the complement of its folded value folds to
    [0xffff]. *)
Lemma checksum_complement (S : Z) :
  (0 <= S < 2 ^ 31)%Z ->
  (0 <= Z.lxor (fold_carry 2 S) 65535 <= 65535)%Z
  /\ fold_carry 2 (S + Z.lxor (fold_carry 2 S) 65535) = 65535%Z.
Proof.
  intros HS.
  destruct (fold_carry_2_spec S ltac:(lia)) as (k & Hk & Ef & Hf & Hpos).
  rewrite (lxor_ones16 _ Hf). split; [lia|].
  destruct (fold_carry_2_spec (S + (65535 - fold_carry 2 S)) ltac:(lia))
    as (k' & Hk' & Ef' & Hf' & Hpos').
  lia.
Qed.

Lemma sum16_app_pair (a b : Z) (l : list Z) :
  sum16 (a :: b :: l) = (Z.shiftl a 8 + b + sum16 l)%Z.
Proof. reflexivity. Qed.

Lemma be16_bytes (v : Z) : Forall (fun b => (0 <= b < 256)%Z) (be16 v).
Proof. unfold be16. repeat constructor; apply Z.mod_pos_bound; lia. Qed.

Lemma be16_value (v : Z) :
  (0 <= v < 65536)%Z ->
  (Z.shiftl (Z.shiftr v 8 mod 256) 8 + v mod 256 = v)%Z.
Proof.
  intros Hv. rewrite Z.shiftl_mul_pow2, Z.shiftr_div_pow2 by lia.
  change (2 ^ 8)%Z with 256%Z.
  assert (0 <= v / 256 < 256)%Z as Hdiv.
  { split; [apply Z.div_pos; lia|apply Z.div_lt_upper_bound; lia]. }
  rewrite (Z.mod_small (v / 256) 256) by done.
  pose proof (Z.div_mod v 256). lia.
Qed.

Lemma IP_To4_byte_valued (ip a : IP) :
  IP_To4 ip = Some a -> byte_valued ip -> byte_valued a.
Proof.
  unfold IP_To4, byte_valued. intros H Hb.
  destruct (decide (length ip = 4)); [by injection H as <-|].
  destruct (decide (length ip = 16)); [|done].
  destruct (bytes_eqb _ _); [|done]. injection H as <-. by apply Forall_drop.
Qed.

(** The checksum that the serializer writes into an IPv4 header verifies,
    whenever the fields that fill one byte hold a byte. *)
Lemma serializeIPv4_checksum (h : IPv4) (b : list Z) :
  serializeIPv4 h = Ok b ->
  (0 <= TOS h < 256)%Z -> (0 <= TTL h < 256)%Z -> (0 <= Protocol h < 256)%Z ->
  byte_valued (SrcIP h) -> byte_valued (DstIP h) ->
  checksum_verifies b.
Proof.
  intros Hb Htos Httl Hproto Hsrc Hdst.
  destruct (IP_To4 (SrcIP h)) as [s|] eqn:Hs;
    [|unfold serializeIPv4, addressTo4, checkIPv4Address in Hb; rewrite Hs in Hb;
     simpl in Hb; by repeat case_decide].
  destruct (IP_To4 (DstIP h)) as [d|] eqn:Hd;
    [|unfold serializeIPv4, addressTo4, checkIPv4Address in Hb; rewrite Hs, Hd in Hb;
     simpl in Hb; by repeat case_decide].
  pose proof (IP_To4_length _ _ Hs) as Ls.
  pose proof (IP_To4_length _ _ Hd) as Ld.
  pose proof (IP_To4_byte_valued _ _ Hs Hsrc) as Bs.
  pose proof (IP_To4_byte_valued _ _ Hd Hdst) as Bd.
  destruct s as [|s0 [|s1 [|s2 [|s3 [|]]]]]; try discriminate Ls.
  destruct d as [|d0 [|d1 [|d2 [|d3 [|]]]]]; try discriminate Ld.
  unfold serializeIPv4, addressTo4, checkIPv4Address in Hb. rewrite Hs, Hd in Hb.
  rewrite !obind_Ok in Hb. injection Hb as <-.
  unfold byte_valued in Bs, Bd. rewrite !Forall_cons in Bs, Bd.
  destruct Bs as (? & ? & ? & ? & _). destruct Bd as (? & ? & ? & ? & _).
  pose proof (Z.mod_pos_bound (Z.lor (Z.shiftl (Version h) 4) (IHL h)) 256 ltac:(lia)).
  pose proof (be16_bytes (Length h)) as BL.
  pose proof (be16_bytes (Id h)) as BI.
  pose proof (be16_bytes (flagsfrags h)) as BF.
  unfold be16 in BL, BI, BF. rewrite !Forall_cons in BL, BI, BF.
  destruct BL as (? & ? & _). destruct BI as (? & ? & _). destruct BF as (? & ? & _).
  unfold checksum_verifies, checksum.
  match goal with
  | |- context [Z.lxor (fold_carry 2 (sum16 ?l)) 65535] => set (S := sum16 l)
  end.
  assert (0 <= S < 2 ^ 31)%Z as HS.
  { subst S. unfold uint8, be16. simpl.
    rewrite !Z.shiftl_mul_pow2 in * by lia. lia. }
  destruct (checksum_complement S HS) as [Hc Hfold].
  set (c := Z.lxor (fold_carry 2 S) 65535) in *.
  replace (sum16 _) with (S + c)%Z; [done|].
  pose proof (be16_value c ltac:(lia)) as Hval.
  subst S. unfold be16, uint8 in *. simpl.
  rewrite !Z.shiftl_mul_pow2 in * by lia. lia.
Qed.

(** The byte-valued hops of a path stay byte-valued by position. *)
Lemma byte_valued_hop (P : Path) (i : nat) :
  Forall byte_valued P -> byte_valued (hop P i).
Proof.
  intros HP. unfold hop.
  destruct (P !! i) as [x|] eqn:Hx.
  - rewrite (nth_lookup_Some P i ([] : IP) x Hx). by eapply Forall_lookup_1.
  - rewrite (nth_overflow P ([] : IP)); [constructor|].
    apply lookup_ge_None in Hx. lia.
Qed.

(** Every header of the round-trip packet is the serialization of one of
    the three kinds of header the builder makes. *)
Lemma roundTrip_header_cases (P : Path) (payload bytes : list Z) (k : nat) :
  CreateRoundTripPacketForPath P payload = Ok bytes ->
  k <= 2 * (length P - 1) ->
  exists src dst len proto,
    (proto = IPProtocolIPv4 \/ proto = IPProtocolUDP)
    /\ (exists i j, src = hop P i /\ dst = hop P j)
    /\ serializeIPv4
         {| Version := 4; IHL := 5; TOS := 0; Length := len; Id := 0;
            Flags := IPv4DontFragment; FragOffset := 0; TTL := 255;
            Protocol := proto; Checksum := 0; SrcIP := src; DstIP := dst |}
       = Ok (header_at bytes k).
Proof.
  intros Hrun Hk.
  destruct (CreateRoundTripPacketForPath_Ok_inv P payload bytes Hrun) as [Hn HP].
  destruct (CreateRoundTripPacketForPath_bytes P payload Hn HP) as (bs & Hrun' & Hbs & Hlen).
  rewrite Hrun' in Hrun. injection Hrun as <-.
  destruct (decide (k < length P - 1)) as [Hout|Hge].
  { eexists _, _, _, _. split; [by left|]. split; [by eexists _, _|].
    apply (header_at_spec P payload bs k _ Hbs Hlen).
    by apply spec_headers_out. }
  destruct (decide (k = 2 * (length P - 1))) as [->|Hne].
  { eexists _, _, _, _. split; [by right|]. split; [by eexists _, _|].
    apply (header_at_spec P payload bs _ _ Hbs Hlen).
    by apply spec_headers_udp. }
  eexists _, _, _, _. split; [by left|]. split; [by eexists _, _|].
  apply (header_at_spec P payload bs k _ Hbs Hlen).
  replace k with (2 * (length P - 1) - 1 - (2 * (length P - 1) - 1 - k)) at 1 by lia.
  apply spec_headers_ret. lia.
Qed.

(** X6: every one of the [2(n-1)+1] headers of a packet that
    [CreateRoundTripPacketForPath] returns carries a header checksum that
    verifies at a receiver (the one's complement sum of the ten 16-bit
    words of the header is [0xffff]), when the hops of the path hold
    bytes. *)
Theorem roundTrip_checksums_verify (P : Path) (payload bytes : list Z) (k : nat) :
  Forall byte_valued P ->
  CreateRoundTripPacketForPath P payload = Ok bytes ->
  k <= 2 * (length P - 1) ->
  checksum_verifies (header_at bytes k).
Proof.
  intros HB Hrun Hk.
  destruct (roundTrip_header_cases P payload bytes k Hrun Hk)
    as (src & dst & len & proto & Hproto & (i & j & -> & ->) & Hser).
  apply (serializeIPv4_checksum _ _ Hser); simpl; try lia.
  - destruct Hproto as [->| ->]; unfold IPProtocolIPv4, IPProtocolUDP; lia.
  - by apply byte_valued_hop.
  - by apply byte_valued_hop.
Qed.

Lemma roundTrip_checksums_verify_witness :
  exists bytes,
    CreateRoundTripPacketForPath scenario_path scenario_payload = Ok bytes
    /\ checksum_verifies (header_at bytes 0)
    /\ checksum_verifies (header_at bytes 3)
    /\ checksum_verifies (header_at bytes 4).
Proof.
  eexists. split; [vm_compute; reflexivity|].
  assert (Forall byte_valued scenario_path) as HB.
  { repeat constructor; lia. }
  split_and!;
    (eapply (roundTrip_checksums_verify scenario_path scenario_payload);
     [exact HB|vm_compute; reflexivity|simpl; lia]).
Defined.

(** X7: every header of the round-trip packet starts with [0x45]
    (version 4, five 32-bit words), has type of service 0, identification
    0, the don't-fragment flag alone with fragment offset 0, and a time to
    live of 255; its protocol byte is 4 (IP in IP) or 17 (UDP). *)
Theorem roundTrip_fixed_fields (P : Path) (payload bytes : list Z) (k : nat) :
  CreateRoundTripPacketForPath P payload = Ok bytes ->
  k <= 2 * (length P - 1) ->
  exists len c src dst,
    header_at bytes k
    = [69; 0]%Z ++ len ++ [0; 0; 64; 0; 255]%Z
        ++ [if decide (k = 2 * (length P - 1))%nat then 17 else 4]%Z
        ++ c ++ src ++ dst
    /\ length len = 2 /\ length c = 2 /\ length src = 4 /\ length dst = 4.
Proof.
  intros Hrun Hk.
  destruct (CreateRoundTripPacketForPath_Ok_inv P payload bytes Hrun) as [Hn HP].
  destruct (CreateRoundTripPacketForPath_bytes P payload Hn HP) as (bs & Hrun' & Hbs & Hlen).
  rewrite Hrun' in Hrun. injection Hrun as <-.
  assert (exists h, spec_headers P payload !! k = Some h
            /\ Version h = 4%Z /\ IHL h = 5%Z /\ TOS h = 0%Z /\ Id h = 0%Z
            /\ Flags h = IPv4DontFragment /\ FragOffset h = 0%Z /\ TTL h = 255%Z
            /\ Protocol h = (if decide (k = 2 * (length P - 1))%nat then 17 else 4)%Z)
    as (h & Hh & Hv & Hihl & Htos & Hid & Hfl & Hfo & Httl & Hpr).
  { destruct (decide (k < length P - 1)) as [Hout|Hge].
    { eexists. split; [by apply spec_headers_out|].
      rewrite decide_False by lia. by repeat split. }
    destruct (decide (k = 2 * (length P - 1))) as [->|Hne].
    { eexists. split; [by apply spec_headers_udp|]. by repeat split. }
    eexists. split.
    { replace k with (2 * (length P - 1) - 1 - (2 * (length P - 1) - 1 - k)) at 1 by lia.
      apply spec_headers_ret. lia. }
    by repeat split. }
  pose proof (header_at_spec P payload bs k h Hbs Hlen Hh) as Hser.
  destruct (IP_To4 (SrcIP h)) as [s|] eqn:Hs;
    [|unfold serializeIPv4, addressTo4, checkIPv4Address in Hser; rewrite Hs in Hser;
     simpl in Hser; by repeat case_decide].
  destruct (IP_To4 (DstIP h)) as [d|] eqn:Hd;
    [|unfold serializeIPv4, addressTo4, checkIPv4Address in Hser; rewrite Hs, Hd in Hser;
     simpl in Hser; by repeat case_decide].
  unfold serializeIPv4, addressTo4, checkIPv4Address in Hser. rewrite Hs, Hd in Hser.
  rewrite !obind_Ok in Hser. injection Hser as <-.
  unfold flagsfrags. rewrite Hv, Hihl, Htos, Hid, Hfl, Hfo, Httl, Hpr.
  exists (be16 (Length h)), (be16 (checksum
    ([uint8 (Z.lor (Z.shiftl 4 4) 5); 0%Z] ++ be16 (Length h) ++ be16 0
       ++ be16 (Z.lor (uint16 (Z.shiftl IPv4DontFragment 13)) 0)
       ++ [255%Z; (if decide (k = 2 * (length P - 1))%nat then 17 else 4)%Z]
       ++ [0; 0]%Z ++ s ++ d))), s, d.
  split; [reflexivity|].
  repeat split; [by eapply IP_To4_length..].
Qed.

Lemma roundTrip_fixed_fields_witness :
  exists bytes len c src dst,
    CreateRoundTripPacketForPath scenario_path scenario_payload = Ok bytes
    /\ header_at bytes 4
       = [69; 0]%Z ++ len ++ [0; 0; 64; 0; 255; 17]%Z ++ c ++ src ++ dst.
Proof.
  destruct (roundTrip_fixed_fields scenario_path scenario_payload
              (default [] (match CreateRoundTripPacketForPath scenario_path scenario_payload
                           with Ok b => Some b | _ => None end)) 4)
    as (len & c & src & dst & E & _); [vm_compute; reflexivity|simpl; lia|].
  eexists _, len, c, src, dst. split; [vm_compute; reflexivity|]. exact E.
Defined.

(** *** The traceroute packets *)

Lemma serializeIPv4_ttl (h : IPv4) (b : list Z) :
  serializeIPv4 h = Ok b -> nth 8 b 0%Z = TTL h.
Proof.
  intros Hb.
  destruct (IP_To4 (SrcIP h)) as [s|] eqn:Hs;
    [|unfold serializeIPv4, addressTo4, checkIPv4Address in Hb; rewrite Hs in Hb;
     simpl in Hb; by repeat case_decide].
  destruct (IP_To4 (DstIP h)) as [d|] eqn:Hd;
    [|unfold serializeIPv4, addressTo4, checkIPv4Address in Hb; rewrite Hs, Hd in Hb;
     simpl in Hb; by repeat case_decide].
  destruct (serializeIPv4_Ok h s d Hs Hd) as (c1 & c2 & E).
  rewrite E in Hb. by injection Hb as <-.
Qed.

Lemma header_at_0_app (b rest : list Z) :
  length b = 20 -> header_at (b ++ rest) 0 = b /\ drop 20 (b ++ rest) = rest.
Proof.
  intros Hlen. unfold header_at. change (20 * 0) with 0. rewrite drop_0.
  split.
  - by rewrite take_app_length'.
  - by rewrite drop_app_length'.
Qed.

Lemma SerializeTLayers_cons (l : TLayer) (rest : list TLayer) :
  SerializeTLayers (l :: rest)
    = (buf ← SerializeTLayers rest; SerializeToBuf l buf).
Proof. reflexivity. Qed.

(** What [buildICMPTraceroutePacket] hands to the serializer comes back as
    the IPv4 header followed by the echo request. *)
Lemma buildICMPTraceroutePacket_bytes (icmpHeaderLen : Z) (src dst : IP) (ttl : Z)
    (payload : list Z) :
  buildICMPTraceroutePacket icmpHeaderLen src dst ttl payload
  = (hdr ← serializeIPv4
             (buildIPv4ICMPLayer src dst
                (uint16 (ipHeaderLen + icmpHeaderLen + Z.of_nat (length payload))) ttl);
     Ok (hdr ++ serializeICMPv4 echoRequestLayer payload)).
Proof.
  unfold buildICMPTraceroutePacket.
  rewrite !SerializeTLayers_cons. simpl SerializeTLayers.
  rewrite !obind_Ok. simpl SerializeToBuf. rewrite obind_Ok.
  by rewrite app_nil_r.
Qed.

(** X8: a packet that [buildICMPTraceroutePacket] returns is a 20-byte
    IPv4 header that carries the given time to live, protocol 1 (ICMP) and
    the 4-byte forms of the two addresses, followed by an 8-byte ICMP echo
    request (type 8, code 0, identifier 0, sequence number 1) and the
    payload. The builder returns a packet exactly when both addresses have
    a 4-byte form. When [icmpHeaderLen] is the 8 bytes the serializer
    writes and the packet fits 16 bits, the [Length] of the header is the
    size of the packet. *)
Theorem buildICMPTraceroutePacket_layout (icmpHeaderLen : Z) (src dst : IP) (ttl : Z)
    (payload : list Z) :
  ((exists bytes, buildICMPTraceroutePacket icmpHeaderLen src dst ttl payload = Ok bytes)
   <-> is_IPv4 src /\ is_IPv4 dst)
  /\ forall bytes,
       buildICMPTraceroutePacket icmpHeaderLen src dst ttl payload = Ok bytes ->
       length bytes = 28 + length payload
       /\ nth 8 bytes 0%Z = ttl
       /\ wire_proto (header_at bytes 0) = 1%Z
       /\ IP_To4 src = Some (wire_src (header_at bytes 0))
       /\ IP_To4 dst = Some (wire_dst (header_at bytes 0))
       /\ (exists c1 c2, drop 20 bytes = [8; 0; c1; c2; 0; 0; 0; 1]%Z ++ payload)
       /\ (icmpHeaderLen = 8%Z -> (28 + Z.of_nat (length payload) < 65536)%Z ->
           wire_len (header_at bytes 0) = Z.of_nat (length bytes)).
Proof.
  rewrite buildICMPTraceroutePacket_bytes. split.
  - split.
    + intros [bytes Hrun].
      destruct (serializeIPv4 _) as [hdr| | |] eqn:Hser; try done.
      apply serializeIPv4_wire in Hser as (_ & _ & Hs & Hd & _).
      split; by eexists.
    + intros [Hs Hd].
      destruct (serializeIPv4_is_IPv4
                  (buildIPv4ICMPLayer src dst
                     (uint16 (ipHeaderLen + icmpHeaderLen + Z.of_nat (length payload))) ttl)
                  Hs Hd) as [hdr ->].
      rewrite obind_Ok. by eexists.
  - intros bytes Hrun.
    destruct (serializeIPv4 _) as [hdr| | |] eqn:Hser; try done.
    rewrite obind_Ok in Hrun. injection Hrun as <-.
    pose proof (serializeIPv4_ttl _ _ Hser) as Httl.
    apply serializeIPv4_wire in Hser as (Hlen & Hproto & Hs & Hd & Hl).
    destruct (header_at_0_app hdr (serializeICMPv4 echoRequestLayer payload) Hlen)
      as [-> ->].
    split_and!; try done.
    + rewrite length_app, Hlen. unfold serializeICMPv4, be16.
      rewrite !length_app. simpl. lia.
    + rewrite app_nth1 by lia. exact Httl.
    + unfold serializeICMPv4. by eexists _, _.
    + intros -> Hfit. simpl Length in Hl.
      assert (uint16 (ipHeaderLen + 8 + Z.of_nat (length payload))
              = (28 + Z.of_nat (length payload))%Z) as E.
      { unfold uint16, ipHeaderLen. rewrite Z.mod_small; lia. }
      rewrite Hl by (rewrite E; lia).
      rewrite E, length_app, Hlen. unfold serializeICMPv4, be16.
      rewrite !length_app. simpl. lia.
Qed.

Lemma buildICMPTraceroutePacket_layout_witness :
  exists bytes,
    buildICMPTraceroutePacket 8 [10; 0; 0; 1]%Z [10; 0; 0; 9]%Z 3 [72; 101; 108; 108; 111]%Z
      = Ok bytes
    /\ length bytes = 33
    /\ wire_len (header_at bytes 0) = 33%Z.
Proof.
  destruct (buildICMPTraceroutePacket_layout 8 [10; 0; 0; 1]%Z [10; 0; 0; 9]%Z 3
              [72; 101; 108; 108; 111]%Z) as [[_ Hok] Hlay].
  destruct Hok as [bytes Hrun]; [split; by eexists|].
  destruct (Hlay bytes Hrun) as (Hlen & _ & _ & _ & _ & _ & Hl).
  exists bytes. split; [done|]. split; [done|].
  rewrite Hl, Hlen; [done|done|simpl; lia].
Defined.

(** X9: a packet that [buildEncapTraceroutePacket] returns is one 20-byte
    IP-in-IP header (protocol 4, time to live 255 whatever [ttl] is, the
    4-byte forms of the outer addresses) followed by exactly the packet
    that [buildICMPTraceroutePacket] returns for the inner addresses, the
    same [ttl] and the same payload. The builder returns a packet exactly
    when the four addresses have a 4-byte form. When [icmpHeaderLen] is 8
    and the packet fits 16 bits, the [Length] of the outer header is the
    size of the packet. *)
Theorem buildEncapTraceroutePacket_wraps (icmpHeaderLen : Z)
    (outerSourceIP outerDestIP innerSourceIP innerDestIP : IP) (ttl : Z)
    (payload : list Z) :
  ((exists bytes,
      buildEncapTraceroutePacket icmpHeaderLen outerSourceIP outerDestIP
        innerSourceIP innerDestIP ttl payload = Ok bytes)
   <-> is_IPv4 outerSourceIP /\ is_IPv4 outerDestIP
       /\ is_IPv4 innerSourceIP /\ is_IPv4 innerDestIP)
  /\ forall bytes,
       buildEncapTraceroutePacket icmpHeaderLen outerSourceIP outerDestIP
         innerSourceIP innerDestIP ttl payload = Ok bytes ->
       buildICMPTraceroutePacket icmpHeaderLen innerSourceIP innerDestIP ttl payload
         = Ok (drop 20 bytes)
       /\ length bytes = 48 + length payload
       /\ nth 8 bytes 0%Z = 255%Z
       /\ wire_proto (header_at bytes 0) = 4%Z
       /\ IP_To4 outerSourceIP = Some (wire_src (header_at bytes 0))
       /\ IP_To4 outerDestIP = Some (wire_dst (header_at bytes 0))
       /\ (icmpHeaderLen = 8%Z -> (48 + Z.of_nat (length payload) < 65536)%Z ->
           wire_len (header_at bytes 0) = Z.of_nat (length bytes)).
Proof.
  assert (buildEncapTraceroutePacket icmpHeaderLen outerSourceIP outerDestIP
            innerSourceIP innerDestIP ttl payload
          = (inner ← buildICMPTraceroutePacket icmpHeaderLen innerSourceIP
                       innerDestIP ttl payload;
             hdr ← serializeIPv4
                     (buildIPIPLayer outerSourceIP outerDestIP
                        (uint16 (ipHeaderLen + ipHeaderLen + icmpHeaderLen
                                 + Z.of_nat (length payload))));
             Ok (hdr ++ inner))) as ->.
  { unfold buildEncapTraceroutePacket, buildICMPTraceroutePacket.
    by rewrite (SerializeTLayers_cons (TIPv4 _) (TIPv4 _ :: _)). }
  split.
  - split.
    + intros [bytes Hrun].
      destruct (buildICMPTraceroutePacket _ _ _ _ _) as [inner| | |] eqn:Hin; try done.
      rewrite obind_Ok in Hrun.
      destruct (serializeIPv4 _) as [hdr| | |] eqn:Hser; try done.
      apply serializeIPv4_wire in Hser as (_ & _ & Hs & Hd & _).
      rewrite buildICMPTraceroutePacket_bytes in Hin.
      destruct (serializeIPv4 _) as [hdr'| | |] eqn:Hser'; try done.
      apply serializeIPv4_wire in Hser' as (_ & _ & Hs' & Hd' & _).
      split_and!; by eexists.
    + intros (Hos & Hod & His & Hid).
      rewrite buildICMPTraceroutePacket_bytes.
      destruct (serializeIPv4_is_IPv4
                  (buildIPv4ICMPLayer innerSourceIP innerDestIP
                     (uint16 (ipHeaderLen + icmpHeaderLen + Z.of_nat (length payload))) ttl)
                  His Hid) as [hdr' ->].
      rewrite !obind_Ok.
      destruct (serializeIPv4_is_IPv4
                  (buildIPIPLayer outerSourceIP outerDestIP
                     (uint16 (ipHeaderLen + ipHeaderLen + icmpHeaderLen
                              + Z.of_nat (length payload))))
                  Hos Hod) as [hdr ->].
      rewrite obind_Ok. by eexists.
  - intros bytes Hrun.
    destruct (buildICMPTraceroutePacket _ _ _ _ _) as [inner| | |] eqn:Hin; try done.
    rewrite obind_Ok in Hrun.
    destruct (serializeIPv4 _) as [hdr| | |] eqn:Hser; try done.
    rewrite obind_Ok in Hrun. injection Hrun as <-.
    pose proof (serializeIPv4_ttl _ _ Hser) as Httl.
    apply serializeIPv4_wire in Hser as (Hlen & Hproto & Hs & Hd & Hl).
    destruct (header_at_0_app hdr inner Hlen) as [-> ->].
    assert (length inner = 28 + length payload) as Hinner.
    { rewrite buildICMPTraceroutePacket_bytes in Hin.
      destruct (serializeIPv4 _) as [hdr'| | |] eqn:Hser'; try done.
      rewrite obind_Ok in Hin. injection Hin as <-.
      apply serializeIPv4_wire in Hser' as (Hlen' & _).
      rewrite length_app, Hlen'. unfold serializeICMPv4, be16.
      rewrite !length_app. simpl. lia. }
    split_and!; try done.
    + rewrite length_app, Hlen, Hinner. lia.
    + rewrite app_nth1 by lia. exact Httl.
    + intros -> Hfit. simpl Length in Hl.
      assert (uint16 (ipHeaderLen + ipHeaderLen + 8 + Z.of_nat (length payload))
              = (48 + Z.of_nat (length payload))%Z) as E.
      { unfold uint16, ipHeaderLen. rewrite Z.mod_small; lia. }
      rewrite Hl by (rewrite E; lia).
      rewrite E, length_app, Hlen, Hinner. lia.
Qed.

Lemma buildEncapTraceroutePacket_wraps_witness :
  exists bytes,
    buildEncapTraceroutePacket 8 [10; 0; 0; 1]%Z [10; 0; 0; 9]%Z [10; 0; 0; 9]%Z
      [10; 0; 0; 1]%Z 3 [72; 101; 108; 108; 111]%Z = Ok bytes
    /\ buildICMPTraceroutePacket 8 [10; 0; 0; 9]%Z [10; 0; 0; 1]%Z 3
         [72; 101; 108; 108; 111]%Z = Ok (drop 20 bytes)
    /\ wire_len (header_at bytes 0) = 53%Z.
Proof.
  destruct (buildEncapTraceroutePacket_wraps 8 [10; 0; 0; 1]%Z [10; 0; 0; 9]%Z
              [10; 0; 0; 9]%Z [10; 0; 0; 1]%Z 3 [72; 101; 108; 108; 111]%Z)
    as [[_ Hok] Hlay].
  destruct Hok as [bytes Hrun]; [split_and!; by eexists|].
  destruct (Hlay bytes Hrun) as (Hin & Hlen & _ & _ & _ & _ & Hl).
  exists bytes. split; [done|]. split; [done|].
  rewrite Hl, Hlen; [done|done|simpl; lia].
Defined.

Lemma serializeIPv4_Ok_iff (h : IPv4) :
  (exists b, serializeIPv4 h = Ok b) <-> is_IPv4 (SrcIP h) /\ is_IPv4 (DstIP h).
Proof.
  split.
  - intros [b Hb]. apply serializeIPv4_wire in Hb as (_ & _ & Hs & Hd & _).
    split; by eexists.
  - intros [Hs Hd]. by apply serializeIPv4_is_IPv4.
Qed.

(** The encapsulating builder succeeds exactly when the four addresses
    have a 4-byte form. *)
Lemma buildEncapTraceroutePacket_Ok_iff (icmpHeaderLen : Z)
    (outerSourceIP outerDestIP innerSourceIP innerDestIP : IP) (ttl : Z)
    (payload : list Z) :
  (exists bytes,
     buildEncapTraceroutePacket icmpHeaderLen outerSourceIP outerDestIP
       innerSourceIP innerDestIP ttl payload = Ok bytes)
  <-> is_IPv4 outerSourceIP /\ is_IPv4 outerDestIP
      /\ is_IPv4 innerSourceIP /\ is_IPv4 innerDestIP.
Proof.
  unfold buildEncapTraceroutePacket.
  rewrite !SerializeTLayers_cons. simpl SerializeTLayers.
  rewrite !obind_Ok. simpl SerializeToBuf. rewrite obind_Ok.
  set (inner := buildIPv4ICMPLayer innerSourceIP innerDestIP _ ttl).
  set (outer := buildIPIPLayer outerSourceIP outerDestIP _).
  pose proof (serializeIPv4_Ok_iff inner) as Hin.
  pose proof (serializeIPv4_Ok_iff outer) as Hout.
  simpl in Hin, Hout. split.
  - intros [bytes Hrun].
    destruct (serializeIPv4 inner) as [b1| | |]; try done.
    rewrite obind_Ok in Hrun. simpl in Hrun.
    destruct (serializeIPv4 outer) as [b2| | |]; try done.
    destruct (proj1 Hin) as [? ?]; [by eexists|].
    destruct (proj1 Hout) as [? ?]; [by eexists|]. done.
  - intros (Hos & Hod & His & Hid).
    destruct (proj2 Hin (conj His Hid)) as [b1 ->].
    destruct (proj2 Hout (conj Hos Hod)) as [b2 ->].
    rewrite !obind_Ok. by eexists.
Qed.

(** The errors of the IPv4 serializer are those of gopacket's
    [AddressTo4]: the source address is checked first, then the
    destination; a 16-byte address without a 4-byte form is reported as
    IPv6, any other one by its length. *)
Lemma serializeIPv4_error_text (h : IPv4) :
  (IP_To4 (SrcIP h) = None ->
   serializeIPv4 h
   = Err ("Invalid source IPv4 address ("
          +:+ (if decide (length (SrcIP h) = 16) then "address is IPv6"
               else "wrong length of " +:+ pretty (length (SrcIP h))
                    +:+ " bytes instead of 4")
          +:+ ")"))
  /\ (forall s, IP_To4 (SrcIP h) = Some s -> IP_To4 (DstIP h) = None ->
        serializeIPv4 h
        = Err ("Invalid destination IPv4 address ("
               +:+ (if decide (length (DstIP h) = 16) then "address is IPv6"
                    else "wrong length of " +:+ pretty (length (DstIP h))
                         +:+ " bytes instead of 4")
               +:+ ")")).
Proof.
  split.
  - intros Hs. unfold serializeIPv4, addressTo4, checkIPv4Address. rewrite Hs.
    by destruct (decide (length (SrcIP h) = 16)).
  - intros s Hs Hd. unfold serializeIPv4.
    rewrite (addressTo4_Some "source" _ _ Hs).
    unfold addressTo4, checkIPv4Address. rewrite Hd.
    by destruct (decide (length (DstIP h) = 16)).
Qed.

(** A path with a hop of five bytes: the innermost header, from [P[1]]
    to [P[0]], is serialized first and its destination is refused. *)
Lemma CreateRoundTripPacketForPath_bad_hop_error :
  CreateRoundTripPacketForPath [[10; 0; 0; 1; 9]; [10; 0; 0; 2]]%Z [120]%Z
  = Err "Invalid destination IPv4 address (wrong length of 5 bytes instead of 4)".
Proof. vm_compute. reflexivity. Qed.

(** ** hash.go: the hasher, and the map of hashes *)

Lemma go_string_inj (a b : list Z) :
  byte_valued a -> byte_valued b -> go_string a = go_string b -> a = b.
Proof.
  unfold go_string, byte_valued. intros Ha Hb E.
  apply (f_equal String.list_ascii_of_string) in E.
  rewrite !String.list_ascii_of_string_of_list_ascii in E.
  revert b Hb E. induction Ha as [|x a Hx Ha IH]; intros [|y b] Hb E; try done.
  apply Forall_cons in Hb as [Hy Hb]. simpl in E. injection E as Exy E.
  f_equal; [|by apply IH].
  apply (f_equal Ascii.N_of_ascii) in Exy.
  rewrite !Ascii.N_ascii_embedding in Exy by lia.
  lia.
Qed.

Lemma BoomerangPacketHasher_Some (p : Packet) (a : list Z) :
  app_Payload p = Some a -> 20 <= length a ->
  BoomerangPacketHasher p = Ok (go_string (take 20 a)).
Proof.
  intros Ha Hlen. unfold BoomerangPacketHasher. rewrite Ha.
  by rewrite decide_False by lia.
Qed.

(** X10: [BoomerangPacketHasher] returns a hash exactly for a packet with
    an application layer of 20 bytes or more, and the hash is a function
    of the first 20 bytes of that payload alone: two such packets get the
    same hash exactly when their payloads agree on the first 20 bytes,
    whatever follows them and whatever the other layers hold. *)
Theorem BoomerangPacketHasher_first_20_bytes (p q : Packet) :
  ((exists hash, BoomerangPacketHasher p = Ok hash)
   <-> exists a, app_Payload p = Some a /\ 20 <= length a)
  /\ forall a b,
       app_Payload p = Some a -> app_Payload q = Some b ->
       20 <= length a -> 20 <= length b ->
       byte_valued a -> byte_valued b ->
       (BoomerangPacketHasher p = BoomerangPacketHasher q <-> take 20 a = take 20 b).
Proof.
  split.
  - split.
    + intros [hash Hp]. unfold BoomerangPacketHasher in Hp.
      destruct (app_Payload p) as [a|]; [|done].
      destruct (decide (length a < 20)); [done|].
      exists a. split; [done|lia].
    + intros (a & Ha & Hlen). rewrite (BoomerangPacketHasher_Some p a Ha Hlen).
      by eexists.
  - intros a b Ha Hb La Lb Ba Bb.
    rewrite (BoomerangPacketHasher_Some p a Ha La).
    rewrite (BoomerangPacketHasher_Some q b Hb Lb).
    split.
    + intros [= E]. apply go_string_inj; [by apply Forall_take..|done].
    + by intros ->.
Qed.

Lemma BoomerangPacketHasher_first_20_bytes_witness :
  BoomerangPacketHasher moby_packet
  = BoomerangPacketHasher
      (mkPacket [] [] 0 [] (Some (take 20 moby_payload ++ [1; 2; 3]%Z))).
Proof.
  destruct (BoomerangPacketHasher_first_20_bytes moby_packet
              (mkPacket [] [] 0 [] (Some (take 20 moby_payload ++ [1; 2; 3]%Z))))
    as [_ H].
  apply (H moby_payload (take 20 moby_payload ++ [1; 2; 3]%Z)).
  - reflexivity.
  - reflexivity.
  - vm_compute. lia.
  - vm_compute. lia.
  - unfold byte_valued, moby_payload. repeat constructor; lia.
  - unfold byte_valued, moby_payload. simpl. repeat constructor; lia.
  - reflexivity.
Defined.

(** *** The channels of the map stay open *)

Lemma make_chan_fresh (size : nat) (h : heap Packet) :
  h !! (make_chan size h).1 = None
  /\ (make_chan size h).2 = <[(make_chan size h).1 := mkChan size [] false 0]> h.
Proof.
  unfold make_chan. simpl. split; [|done].
  apply not_elem_of_dom. apply is_fresh.
Qed.

Lemma open_in_insert_ne (h : heap Packet) (c c' : nat) (ch : hchan Packet) :
  c <> c' -> open_in h c' -> open_in (<[c := ch]> h) c'.
Proof.
  intros Hne (ch' & Hc' & Hopen). exists ch'. by rewrite lookup_insert_ne.
Qed.

Lemma open_in_insert_open (h : heap Packet) (c c' : nat) (ch : hchan Packet) :
  closed ch = false -> open_in h c' -> open_in (<[c := ch]> h) c'.
Proof.
  intros Hch Hc'. destruct (decide (c = c')) as [<-|Hne].
  - exists ch. by rewrite lookup_insert_eq.
  - by apply open_in_insert_ne.
Qed.

(** A send on an open channel completes or waits; either way every open
    channel stays open. *)
Lemma chan_send_open (c : nat) (p : Packet) (h : heap Packet) :
  open_in h c ->
  (exists h', chan_send c p h = Ok h' /\ forall c', open_in h c' -> open_in h' c')
  \/ chan_send c p h = Blocked "chan send".
Proof.
  intros (ch & Hc & Hopen). unfold chan_send. rewrite Hc, Hopen.
  destruct (decide (0 < recvq ch)).
  { left. eexists. split; [done|]. intros c'. by apply open_in_insert_open. }
  destruct (decide (length (qbuf ch) < dataqsiz ch)); [|by right].
  left. eexists. split; [done|]. intros c'. by apply open_in_insert_open.
Qed.

Lemma deliver_open (m : gmap string nat) (p : Packet) (ks : list string)
    (h : heap Packet) :
  (forall k c, m !! k = Some c -> open_in h c) ->
  ~ fails (deliver m p ks h).1
  /\ forall c, open_in h c -> open_in (deliver m p ks h).2 c.
Proof.
  revert h. induction ks as [|k ks IH]; intros h Hm; simpl; [split; [tauto|done]|].
  destruct (m !! k) as [c|] eqn:Hk; [|by apply IH].
  destruct (chan_send_open c p h (Hm k c Hk)) as [(h' & -> & Hkeep)| ->];
    [|split; simpl; [tauto|done]].
  destruct (IH h') as [Hr Hopen]; [by eauto|].
  split; [done|]. by eauto.
Qed.

(** X11: the operations of hash.go keep every channel of the map open and
    owned by one hash. The map of [NewPacketHashMap] is in that state, and
    from such a state [store], [del], [run] and [AttachHasher] lead to such
    a state again; none of the four ends in a panic or an error: [run]
    never sends on a closed channel and [del] never closes a channel
    twice. *)
Theorem hash_map_channels_stay_open :
  (forall h, phm_wf NewPacketHashMap h)
  /\ forall phm h,
       phm_wf phm h ->
       (forall hash,
          phm_wf (store phm hash h).2.1 (store phm hash h).2.2
          /\ ~ fails (store phm hash h).1)
       /\ (forall hash,
             phm_wf (del phm hash h).2.1 (del phm hash h).2.2
             /\ ~ fails (del phm hash h).1)
       /\ (forall p,
             phm_wf (run phm p h).2.1 (run phm p h).2.2
             /\ ~ fails (run phm p h).1)
       /\ (forall hasher, phm_wf (AttachHasher phm hasher) h).
Proof.
  split.
  { intros h. split; intros ?; simpl; intros; by simplify_map_eq. }
  intros phm h Hwf. pose proof Hwf as [Hopen Hinj]. split_and!.
  - intros hash. unfold store. destruct (phm_locked phm); [simpl; split; [done|tauto]|].
    destruct (make_chan_fresh 1 h) as [Hfresh Hheap].
    destruct (make_chan 1 h) as [c h'] eqn:Hmk. simpl in *. subst h'.
    assert (forall k, phm_m phm !! k <> Some c) as Hnew.
    { intros k Hk. destruct (Hopen k c Hk) as (ch & Hc & _). congruence. }
    split; [|simpl; tauto]. split; simpl.
    + intros k c' Hk. destruct (decide (hash = k)) as [<-|Hne].
      * rewrite lookup_insert_eq in Hk. injection Hk as <-.
        eexists. by rewrite lookup_insert_eq.
      * rewrite lookup_insert_ne in Hk by done.
        apply open_in_insert_open; [done|]. by eapply Hopen.
    + intros k1 k2 c' Hk1 Hk2.
      destruct (decide (hash = k1)) as [<-|Hne1];
        destruct (decide (hash = k2)) as [<-|Hne2]; [done|..].
      * rewrite lookup_insert_eq in Hk1. injection Hk1 as <-.
        rewrite lookup_insert_ne in Hk2 by done. by destruct (Hnew k2).
      * rewrite lookup_insert_eq in Hk2. injection Hk2 as <-.
        rewrite lookup_insert_ne in Hk1 by done. by destruct (Hnew k1).
      * rewrite lookup_insert_ne in Hk1, Hk2 by done. by eapply Hinj.
  - intros hash. unfold del. destruct (phm_locked phm); [simpl; split; [done|tauto]|].
    destruct (phm_m phm !! hash) as [c|] eqn:Hhash; [|simpl; split; [done|tauto]].
    destruct (Hopen hash c Hhash) as (ch & Hc & Hch).
    unfold chan_close. rewrite Hc, Hch. split; [|simpl; tauto]. split; simpl.
    + intros k c' Hk. apply lookup_delete_Some in Hk as [Hne Hk].
      apply open_in_insert_ne; [|by eapply Hopen].
      intros <-. by destruct Hne; eapply Hinj.
    + intros k1 k2 c' Hk1%lookup_delete_Some Hk2%lookup_delete_Some.
      eapply Hinj; [apply Hk1|apply Hk2].
  - intros p. unfold run. destruct (phm_locked phm); [simpl; split; [done|tauto]|].
    destruct (deliver_open (phm_m phm) p (computeHashes (phm_hashers phm) p) h Hopen)
      as [Hr Hkeep].
    destruct (deliver _ _ _ _) as [r h'] eqn:Hd. simpl in *.
    assert (phm_wf (mkPHM true (phm_m phm) (phm_hashers phm)) h'
            /\ phm_wf (mkPHM false (phm_m phm) (phm_hashers phm)) h') as [? ?].
    { split; (split; simpl; [by eauto|done]). }
    by destruct r.
  - intros hasher. by split.
Qed.

Lemma moby_phm_wf : phm_wf moby_phm empty_queue_heap.
Proof.
  split.
  - intros k c Hk. unfold moby_phm in Hk. simpl in Hk.
    apply lookup_singleton_Some in Hk as [_ <-].
    eexists. split; [apply lookup_singleton_eq|done].
  - intros k1 k2 c Hk1 Hk2. unfold moby_phm in *. simpl in *.
    apply lookup_singleton_Some in Hk1 as [<- _].
    by apply lookup_singleton_Some in Hk2 as [<- _].
Qed.

Lemma hash_map_channels_stay_open_witness :
  phm_wf (run moby_phm moby_packet empty_queue_heap).2.1
         (run moby_phm moby_packet empty_queue_heap).2.2
  /\ ~ fails (del moby_phm (go_string (take 20 moby_payload)) empty_queue_heap).1.
Proof.
  destruct hash_map_channels_stay_open as [_ H].
  destruct (H moby_phm empty_queue_heap moby_phm_wf) as (_ & Hdel & Hrun & _).
  split; [apply Hrun|apply Hdel].
Defined.

(** *** Registering and unregistering a hash *)

(** X12: [RegisterHash] followed by [UnregisterHash]. With the mutex
    free, [store] returns a channel that did not exist before, of capacity
    1, empty and open, and maps the hash to it; [del] of the same hash then
    returns true, closes that channel and takes the hash out of the map,
    every other hash keeping its channel; a second [del] returns false and
    changes nothing. *)
Theorem store_then_del (phm : packetHashMap) (hash : string) (h : heap Packet) :
  phm_locked phm = false ->
  exists c,
    (store phm hash h).1 = Ok c
    /\ h !! c = None
    /\ (store phm hash h).2.2 = <[c := mkChan 1 [] false 0]> h
    /\ phm_m (store phm hash h).2.1 = <[hash := c]> (phm_m phm)
    /\ del (store phm hash h).2.1 hash (store phm hash h).2.2
       = (Ok true,
          (mkPHM false (delete hash (phm_m phm)) (phm_hashers phm),
           <[c := mkChan 1 [] true 0]> h))
    /\ del (mkPHM false (delete hash (phm_m phm)) (phm_hashers phm)) hash
         (<[c := mkChan 1 [] true 0]> h)
       = (Ok false,
          (mkPHM false (delete hash (phm_m phm)) (phm_hashers phm),
           <[c := mkChan 1 [] true 0]> h)).
Proof.
  intros Hfree.
  destruct (make_chan_fresh 1 h) as [Hfresh Hheap].
  unfold store. rewrite Hfree.
  destruct (make_chan 1 h) as [c h'] eqn:Hmk. simpl in *. subst h'.
  exists c. split_and!; try done.
  - unfold del. simpl. rewrite lookup_insert_eq.
    unfold chan_close. rewrite lookup_insert_eq. simpl.
    by rewrite delete_insert_eq, insert_insert_eq.
  - unfold del. simpl. by rewrite lookup_delete_eq.
Qed.

Lemma store_then_del_witness :
  exists c,
    (store NewPacketHashMap "k" ∅).1 = Ok c
    /\ (del (store NewPacketHashMap "k" ∅).2.1 "k" (store NewPacketHashMap "k" ∅).2.2).1
       = Ok true.
Proof.
  destruct (store_then_del NewPacketHashMap "k" ∅ eq_refl)
    as (c & Hc & _ & _ & _ & Hdel & _).
  exists c. split; [done|]. by rewrite Hdel.
Defined.

Lemma chan_send_other (c old : nat) (p : Packet) (h h' : heap Packet) :
  c <> old -> chan_send c p h = Ok h' -> h' !! old = h !! old.
Proof.
  intros Hne Hsend. apply chan_send_Ok_enqueue in Hsend as ->.
  unfold enqueue. destruct (h !! c) as [ch|]; [|done].
  destruct (decide (0 < recvq ch)); by rewrite lookup_insert_ne.
Qed.

(** The second loop of [run] leaves alone a channel that no hash leads
    to. *)
Lemma deliver_untouched (m : gmap string nat) (p : Packet) (ks : list string)
    (h : heap Packet) (old : nat) :
  (forall k, m !! k <> Some old) ->
  (deliver m p ks h).2 !! old = h !! old.
Proof.
  intros Hm. revert h. induction ks as [|k ks IH]; intros h; simpl; [done|].
  destruct (m !! k) as [c|] eqn:Hk; [|apply IH].
  destruct (chan_send c p h) as [h1| | |] eqn:Hsend; try done.
  rewrite IH. apply (chan_send_other c old p h h1); [|done].
  intros ->. by destruct (Hm k).
Qed.

(** X13: registering a hash that is registered already. [store] overwrites
    the entry of the map and does not close the channel it held: that
    channel stays open, with what it buffers, and no hash leads to it any
    more, so that no later [del] closes it and no later [run] sends on
    it. A goroutine that receives on it is never woken. *)
Theorem store_overwrites_without_closing (phm : packetHashMap) (hash : string)
    (old : nat) (h : heap Packet) :
  phm_locked phm = false -> phm_wf phm h ->
  phm_m phm !! hash = Some old ->
  (store phm hash h).1 <> Ok old
  /\ (store phm hash h).2.2 !! old = h !! old
  /\ open_in (store phm hash h).2.2 old
  /\ (forall k, phm_m (store phm hash h).2.1 !! k <> Some old)
  /\ (forall k, (del (store phm hash h).2.1 k (store phm hash h).2.2).2.2 !! old
                = h !! old)
  /\ (forall p, (run (store phm hash h).2.1 p (store phm hash h).2.2).2.2 !! old
                = h !! old).
Proof.
  intros Hfree [Hopen Hinj] Hold.
  destruct (make_chan_fresh 1 h) as [Hfresh Hheap].
  unfold store. rewrite Hfree.
  destruct (make_chan 1 h) as [c h'] eqn:Hmk. simpl in *. subst h'.
  pose proof (Hopen hash old Hold) as Hopen_old.
  assert (c <> old) as Hne.
  { intros ->. destruct Hopen_old as (ch & Hc & _). congruence. }
  assert (forall k, <[hash := c]> (phm_m phm) !! k <> Some old) as Hgone.
  { intros k Hk. destruct (decide (hash = k)) as [<-|Hk'].
    - rewrite lookup_insert_eq in Hk. congruence.
    - rewrite lookup_insert_ne in Hk by done. by destruct Hk'; eapply Hinj. }
  assert (<[c := mkChan 1 [] false 0]> h !! old = h !! old) as Hsame.
  { by rewrite lookup_insert_ne. }
  split_and!; try done.
  - congruence.
  - by apply open_in_insert_ne.
  - intros k. unfold del. simpl.
    destruct (<[hash := c]> (phm_m phm) !! k) as [c'|] eqn:Hk; [|done].
    assert (c' <> old) as Hne' by (intros ->; by destruct (Hgone k)).
    unfold chan_close.
    destruct (<[c := mkChan 1 [] false 0]> h !! c') as [ch|]; [|done].
    destruct (closed ch); [done|]. simpl. by rewrite lookup_insert_ne.
  - intros p. unfold run. simpl.
    pose proof (deliver_untouched (<[hash := c]> (phm_m phm)) p
                  (computeHashes (phm_hashers phm) p)
                  (<[c := mkChan 1 [] false 0]> h) old Hgone) as Hd.
    destruct (deliver _ _ _ _) as [r h'] eqn:E. simpl in Hd.
    destruct r; simpl; congruence.
Qed.

Lemma store_overwrites_without_closing_witness :
  open_in (store moby_phm (go_string (take 20 moby_payload)) full_queue_heap).2.2 0
  /\ forall k,
       phm_m (store moby_phm (go_string (take 20 moby_payload)) full_queue_heap).2.1 !! k
       <> Some 0.
Proof.
  destruct (store_overwrites_without_closing moby_phm
              (go_string (take 20 moby_payload)) 0 full_queue_heap)
    as (_ & _ & Hopen & Hgone & _).
  - reflexivity.
  - split.
    + intros k c Hk. unfold moby_phm in Hk. simpl in Hk.
      apply lookup_singleton_Some in Hk as [_ <-].
      eexists. split; [apply lookup_singleton_eq|done].
    + intros k1 k2 c Hk1 Hk2. unfold moby_phm in *. simpl in *.
      apply lookup_singleton_Some in Hk1 as [<- _].
      by apply lookup_singleton_Some in Hk2 as [<- _].
  - apply lookup_singleton_eq.
  - by split.
Defined.

(** ** traffic.go: the other results of [Boomerang] *)

Lemma CreateRoundTripPacketForPath_total (P : Path) (payload : list Z) :
  (exists bytes, CreateRoundTripPacketForPath P payload = Ok bytes
                 /\ 2 <= length P /\ Forall is_IPv4 P)
  \/ (exists e, CreateRoundTripPacketForPath P payload = Err e
                /\ (length P < 2 \/ ~ Forall is_IPv4 P)).
Proof.
  destruct (decide (length P < 2)) as [Hlt|Hge].
  { right. eexists. split; [by apply CreateRoundTripPacketForPath_short|by left]. }
  destruct (CreateRoundTripPacketForPath_cases P payload ltac:(lia))
    as [(bs & Hrun & _)|[e He]].
  - left. eexists. split; [done|].
    by apply (CreateRoundTripPacketForPath_Ok_inv P payload _ Hrun).
  - right. exists e. split; [done|]. right. intros HP.
    destruct (CreateRoundTripPacketForPath_bytes P payload ltac:(lia) HP)
      as (bs & Hrun & _).
    congruence.
Qed.

Lemma lookup_listener_app_ne (entries : list (nat * nat)) (l l' q : nat) :
  l <> l' -> lookup_listener (entries ++ [(l', q)]) l = lookup_listener entries l.
Proof.
  intros Hne. induction entries as [|[l0 q0] entries IH]; simpl.
  - by rewrite decide_False.
  - by rewrite IH.
Qed.

Lemma lookup_listener_app_is_Some (entries : list (nat * nat)) (l q : nat) :
  is_Some (lookup_listener (entries ++ [(l, q)]) l).
Proof.
  induction entries as [|[l0 q0] entries IH]; simpl.
  - rewrite decide_True by done. by eexists.
  - case_decide; [by eexists|done].
Qed.

Lemma lookup_listener_filter_ne (entries : list (nat * nat)) (l l' : nat) :
  l <> l' ->
  lookup_listener (filter (fun e => e.1 <> l') entries) l = lookup_listener entries l.
Proof.
  intros Hne. induction entries as [|[l0 q0] entries IH]; [done|].
  rewrite filter_cons. simpl. case_decide as Hl0; simpl.
  - by rewrite IH.
  - rewrite IH. rewrite decide_False; [done|]. intros ->. tauto.
Qed.

Section BoomerangMore.
Variable json_Marshal : BoomerangPayload -> list Z + string.
Variable json_Unmarshal : list Z -> option BoomerangPayload.
Variable IP_String : IP -> string.

(** X14: [Boomerang] on a path that is not empty always returns a result;
    the result is fatal exactly when the payload does not marshal, or the
    path has fewer than two hops, or a hop has no 4-byte form. A fatal
    result carries an error and leaves the transport channel as it was: no
    listener has been registered and nothing has been sent. The indexing
    [path[1]] of [SendToPath] is therefore never reached with a one-hop
    path. On the empty path the first indexing of [Boomerang] panics. *)
Theorem Boomerang_fatal_iff (tc : TransportChannel) (path : Path) (timeout : Z)
    (env : BoomerangEnv) :
  (path <> [] ->
   exists r tc',
     Boomerang json_Marshal json_Unmarshal IP_String tc path timeout env = Ok (r, tc')
     /\ (IsFatal r = true <->
         (exists err,
            json_Marshal (NewBoomerangPayload (hop path (length path - 1)) (env_uuid env))
            = inr err)
         \/ length path < 2 \/ ~ Forall is_IPv4 path)
     /\ (IsFatal r = true -> tc' = tc /\ is_Some (Err_ r)))
  /\ (path = [] ->
      Boomerang json_Marshal json_Unmarshal IP_String tc path timeout env
      = Panic "index out of range").
Proof.
  split; [|by intros ->].
  intros Hne. assert (1 <= length path) as Hlen by (destruct path; [done|simpl; lia]).
  unfold Boomerang. rewrite decide_False by lia.
  rewrite (index_hop path (length path - 1)) by lia. rewrite obind_Ok.
  destruct (json_Marshal _) as [payload|err] eqn:Hm.
  2:{ eexists _, _. split; [done|]. split; [|by intros _; split; [|eexists]].
      split; [intros _; left; by eexists|done]. }
  destruct (CreateRoundTripPacketForPath_total path payload)
    as [(bytes & -> & Hn & HP)|(e & -> & Hbad)].
  2:{ eexists _, _. split; [done|]. split; [|by intros _; split; [|eexists]].
      split; [intros _; by right|done]. }
  destruct (is_IPv4_hop path 1 HP ltac:(lia)) as [a4 Ha4].
  unfold NewListener, RegisterListener, make_chan. simpl.
  rewrite SendToPath_sends_to_hop1 by done.
  unfold SendTo. simpl. rewrite Ha4.
  assert (forall r : BoomerangResult,
            ErrorType r <> fatal ->
            (IsFatal r = true <->
             (exists err : string, inl payload = inr err :> list Z + string)
             \/ length path < 2 \/ ~ Forall is_IPv4 path)
            /\ (IsFatal r = true -> False)) as Hnot.
  { intros r Hr. unfold IsFatal. rewrite bool_decide_eq_true. split; [|done].
    split; [done|]. intros [[err Herr]|[Hlt|Hno]]; [done|lia|done]. }
  destruct (tc_sendto tc _ _ _) as [err|].
  { eexists _, _. split; [done|].
    destruct (Hnot (sendErrorResult ("Failed to send packetData to socketFD: " +:+ err)
                      (hop path (length path - 1)))) as [H1 H2]; [done|].
    split; [exact H1|]. intros Hf. by destruct (H2 Hf). }
  destruct (find _ _) as [[packet rxTime]|].
  { eexists _, _. split; [done|].
    destruct (Hnot (seenResult json_Unmarshal packet rxTime (env_txTime env)))
      as [H1 H2]; [done|].
    split; [exact H1|]. intros Hf. by destruct (H2 Hf). }
  destruct (UnregisterListener _ _) as [b tc4].
  eexists _, _. split; [done|].
  destruct (Hnot (timedOutResult IP_String (hop path (length path - 1))
                    (env_txTime env) (env_timerTime env))) as [H1 H2]; [done|].
  split; [exact H1|]. intros Hf. by destruct (H2 Hf).
Qed.

(** X15: when the socket refuses the packet, [Boomerang] returns a result
    of type [sendError] whose error is that of [SendTo] and whose payload
    names the last hop of the path, with no timestamps. Nothing is recorded
    as sent, the descriptor of the IPv4 socket is handed to the repair
    queue, and the listener registered before the send stays in the table
    with its queue open: this return path does not unregister it. *)
Theorem Boomerang_send_error (tc : TransportChannel) (path : Path) (timeout : Z)
    (env : BoomerangEnv) (payload : list Z) (err : string) :
  2 <= length path -> Forall is_IPv4 path ->
  json_Marshal (NewBoomerangPayload (hop path (length path - 1)) (env_uuid env))
    = inl payload ->
  (forall fd data addr, tc_sendto tc fd data addr = Some err) ->
  exists tc',
    Boomerang json_Marshal json_Unmarshal IP_String tc path timeout env
      = Ok (mkResult (Some ("Failed to send packetData to socketFD: " +:+ err))
              sendError (mkPayload (hop path (length path - 1)) "" 0 0), tc')
    /\ registered tc' (lm_next (listenerMap tc))
    /\ tc_chans tc' !! fresh (dom (tc_chans tc)) = Some (mkChan 1 [] false 0)
    /\ tc_wire tc' = tc_wire tc
    /\ socketFailureMsgQueue tc' = socketFailureMsgQueue tc ++ [socketFD tc]
    /\ socket6FailureMsgQueue tc' = socket6FailureMsgQueue tc.
Proof.
  intros Hlen HP Hm Hsend.
  destruct (CreateRoundTripPacketForPath_bytes path payload Hlen HP) as (bs & Hrun & _).
  destruct (is_IPv4_hop path 1 HP ltac:(lia)) as [a4 Ha4].
  unfold Boomerang. rewrite decide_False by lia.
  rewrite (index_hop path (length path - 1)) by lia. rewrite obind_Ok.
  rewrite Hm, Hrun.
  unfold NewListener, RegisterListener, make_chan. simpl.
  rewrite SendToPath_sends_to_hop1 by done.
  unfold SendTo. simpl. rewrite Ha4, Hsend.
  eexists. split; [reflexivity|]. simpl. split_and!; try done.
  - unfold registered, listener_queue. simpl. apply lookup_listener_app_is_Some.
  - by rewrite lookup_insert_eq.
Qed.

(** X16: a run of [Boomerang] leaves the other listeners alone. Whatever
    the result, every listener registered before the call keeps its queue,
    every channel that existed before the call is as it was, the hash
    table, the filter and the descriptors are unchanged, and the
    identities of the registered listeners stay below the next identity,
    which grows by one at most. *)
Theorem Boomerang_keeps_other_listeners (tc tc' : TransportChannel) (path : Path)
    (timeout : Z) (env : BoomerangEnv) (r : BoomerangResult) :
  listeners_fresh tc ->
  Boomerang json_Marshal json_Unmarshal IP_String tc path timeout env = Ok (r, tc') ->
  listeners_fresh tc'
  /\ lm_next (listenerMap tc) <= lm_next (listenerMap tc') <= lm_next (listenerMap tc) + 1
  /\ (forall l, l < lm_next (listenerMap tc) ->
        listener_queue tc' l = listener_queue tc l)
  /\ (forall c, c ∈ dom (tc_chans tc) -> tc_chans tc' !! c = tc_chans tc !! c)
  /\ packetHashes tc' = packetHashes tc
  /\ tc_filter tc' = tc_filter tc
  /\ socketFD tc' = socketFD tc
  /\ socket6FD tc' = socket6FD tc.
Proof.
  intros Hfresh Hrun.
  assert (listeners_fresh tc
          /\ lm_next (listenerMap tc) <= lm_next (listenerMap tc)
             <= lm_next (listenerMap tc) + 1
          /\ (forall l, l < lm_next (listenerMap tc) ->
                listener_queue tc l = listener_queue tc l)
          /\ (forall c, c ∈ dom (tc_chans tc) -> tc_chans tc !! c = tc_chans tc !! c)
          /\ packetHashes tc = packetHashes tc
          /\ tc_filter tc = tc_filter tc
          /\ socketFD tc = socketFD tc
          /\ socket6FD tc = socket6FD tc) as Hsame.
  { split_and!; (done || lia). }
  unfold Boomerang in Hrun.
  destruct (decide (length path = 0)); [done|].
  rewrite (index_hop path (length path - 1)) in Hrun by lia.
  rewrite obind_Ok in Hrun.
  destruct (json_Marshal _) as [payload|err]; [|by injection Hrun as <- <-].
  destruct (CreateRoundTripPacketForPath path payload) as [bytes|e| |];
    [|by injection Hrun as <- <-|done..].
  unfold NewListener, RegisterListener, make_chan in Hrun. simpl in Hrun.
  set (l := lm_next (listenerMap tc)) in *.
  set (q := fresh (dom (tc_chans tc))) in *.
  assert (tc_chans tc !! q = None) as Hq.
  { apply not_elem_of_dom. apply is_fresh. }
  assert (forall c ch, c ∈ dom (tc_chans tc) ->
            <[q := ch]> (tc_chans tc) !! c = tc_chans tc !! c) as Hframe.
  { intros c ch Hc. apply lookup_insert_ne. intros <-.
    apply elem_of_dom in Hc as [? ?]. congruence. }
  assert (Forall (fun e : nat * nat => e.1 < S l)
            (lm_entries (listenerMap tc) ++ [(l, q)])) as Hfresh1.
  { apply Forall_app. split.
    - eapply Forall_impl; [exact Hfresh|]. simpl. intros e He. fold l in He. lia.
    - apply Forall_singleton. simpl. lia. }
  assert (forall tc3 rs,
            SendToPath
              (set_listeners
                 (set_listeners tc (mkLM (lm_entries (listenerMap tc)) (S l)) (tc_chans tc))
                 (mkLM (lm_entries (listenerMap tc) ++ [(l, q)]) (S l))
                 (<[q := mkChan 1 [] false 0]> (tc_chans tc)))
              bytes path = (rs, tc3) ->
            listenerMap tc3 = mkLM (lm_entries (listenerMap tc) ++ [(l, q)]) (S l)
            /\ tc_chans tc3 = <[q := mkChan 1 [] false 0]> (tc_chans tc)
            /\ packetHashes tc3 = packetHashes tc
            /\ tc_filter tc3 = tc_filter tc
            /\ socketFD tc3 = socketFD tc
            /\ socket6FD tc3 = socket6FD tc) as Hsent.
  { intros tc3 rs. unfold SendToPath. case_decide; [by intros [= <- <-]|].
    destruct (index path 1) as [hop1| | |]; try by intros [= <- <-].
    unfold SendTo. simpl.
    destruct (IP_To4 hop1).
    - destruct (tc_sendto tc _ _ _); by intros [= <- <-].
    - destruct (IP_To16 hop1); [|by intros [= <- <-]].
      destruct (tc_sendto tc _ _ _); by intros [= <- <-]. }
  destruct (SendToPath _ bytes path) as [rs tc3] eqn:Hsp.
  destruct (Hsent tc3 rs eq_refl) as (Hlm & Hch & Hph & Hfl & Hfd & Hfd6).
  assert (listeners_fresh tc3
          /\ lm_next (listenerMap tc) <= lm_next (listenerMap tc3)
             <= lm_next (listenerMap tc) + 1
          /\ (forall l0, l0 < lm_next (listenerMap tc) ->
                listener_queue tc3 l0 = listener_queue tc l0)
          /\ (forall c, c ∈ dom (tc_chans tc) -> tc_chans tc3 !! c = tc_chans tc !! c)
          /\ packetHashes tc3 = packetHashes tc
          /\ tc_filter tc3 = tc_filter tc
          /\ socketFD tc3 = socketFD tc
          /\ socket6FD tc3 = socket6FD tc) as Hkept.
  { unfold listeners_fresh, listener_queue. rewrite Hlm, Hch. simpl. fold l.
    split_and!; try done; try lia.
    - intros l0 Hl0. apply lookup_listener_app_ne. lia.
    - intros c Hc. by apply Hframe. }
  destruct rs as [[]|e| |]; [|by injection Hrun as <- <-|done..].
  destruct (find _ _) as [[packet rxTime]|]; [by injection Hrun as <- <-|].
  destruct (UnregisterListener tc3 l) as [b tc4] eqn:Hun.
  injection Hrun as <- <-.
  unfold UnregisterListener, listener_queue in Hun. rewrite Hlm in Hun. simpl in Hun.
  rewrite lookup_listener_fresh in Hun by done.
  injection Hun as <- <-.
  unfold listeners_fresh, listener_queue. simpl. rewrite ?Hlm, ?Hch. simpl. fold l.
  split_and!; try done; try lia.
  - apply Forall_forall. intros e He%list_elem_of_filter.
    destruct He as [_ He]. by apply (proj1 (Forall_forall _ _) Hfresh1).
  - intros l0 Hl0. rewrite lookup_listener_filter_ne by lia.
    apply lookup_listener_app_ne. lia.
  - intros c Hc. unfold chan_close. rewrite lookup_insert_eq. simpl.
    rewrite insert_insert_eq. by apply Hframe.
Qed.
End BoomerangMore.

Lemma Boomerang_fatal_iff_witness :
  exists r,
    Boomerang example_Marshal example_Unmarshal example_IP_String
      (example_tc "ip proto 4") [[10; 0; 0; 1]%Z] 3 example_env_reply
    = Ok (r, example_tc "ip proto 4")
    /\ IsFatal r = true.
Proof.
  destruct (Boomerang_fatal_iff example_Marshal example_Unmarshal example_IP_String
              (example_tc "ip proto 4") [[10; 0; 0; 1]%Z] 3 example_env_reply)
    as [Hrun _].
  destruct Hrun as (r & tc' & Hrun & Hiff & Hsame); [done|].
  assert (IsFatal r = true) as Hf.
  { apply Hiff. right. left. simpl. lia. }
  destruct (Hsame Hf) as [-> _]. by exists r.
Defined.

Lemma Boomerang_send_error_witness :
  exists tc',
    Boomerang example_Marshal example_Unmarshal example_IP_String
      (refusing_tc "ip proto 4") example_path 3 example_env_reply
    = Ok (mkResult
            (Some "Failed to send packetData to socketFD: operation not permitted")
            sendError (mkPayload [10; 0; 0; 2]%Z "" 0 0), tc')
    /\ registered tc' 0
    /\ socketFailureMsgQueue tc' = [3%Z].
Proof.
  destruct (Boomerang_send_error example_Marshal example_Unmarshal example_IP_String
              (refusing_tc "ip proto 4") example_path 3 example_env_reply
              [105; 100; 45; 49]%Z "operation not permitted")
    as (tc' & Hrun & Hreg & _ & _ & Hq & _).
  - simpl. lia.
  - repeat constructor; by eexists.
  - reflexivity.
  - reflexivity.
  - by exists tc'.
Defined.

Lemma Boomerang_keeps_other_listeners_witness :
  exists r tc',
    Boomerang example_Marshal example_Unmarshal example_IP_String
      (example_tc "ip proto 4") example_path 3 example_env_silent = Ok (r, tc')
    /\ listeners_fresh tc'
    /\ packetHashes tc' = NewPacketHashMap.
Proof.
  destruct (Boomerang_total example_Marshal example_Unmarshal example_IP_String
              (example_tc "ip proto 4") example_path 3 example_env_silent)
    as (r & tc' & Hrun); [simpl; lia|].
  destruct (Boomerang_keeps_other_listeners example_Marshal example_Unmarshal
              example_IP_String (example_tc "ip proto 4") tc' example_path 3
              example_env_silent r)
    as (Hfresh & _ & _ & _ & Hph & _).
  - constructor.
  - exact Hrun.
  - by exists r, tc'.
Defined.

(** ** transport.go: where [SendTo] sends *)

Lemma IP_To4_None_length (a : IP) :
  length a <> 4 -> length a <> 16 -> IP_To4 a = None /\ IP_To16 a = None.
Proof.
  intros H4 H16. unfold IP_To4, IP_To16.
  by rewrite !decide_False by done.
Qed.

Lemma IP_To16_Some_length (a : IP) :
  length a = 4 \/ length a = 16 -> is_Some (IP_To16 a).
Proof.
  unfold IP_To16. intros [H|H].
  - rewrite decide_True by done. by eexists.
  - destruct (decide (length a = 4)); [by eexists|].
    rewrite decide_True by done. by eexists.
Qed.

Lemma IP_To4_Some_length (a a4 : IP) :
  IP_To4 a = Some a4 -> length a = 4 \/ length a = 16.
Proof.
  unfold IP_To4. destruct (decide (length a = 4)); [by left|].
  destruct (decide (length a = 16)); [by right|done].
Qed.

Lemma IP_To4_idem (a a4 : IP) : IP_To4 a = Some a4 -> IP_To4 a4 = Some a4.
Proof.
  intros H. pose proof (IP_To4_length a a4 H) as Hlen.
  unfold IP_To4. by rewrite decide_True.
Qed.

(** [SendTo] panics exactly for an address that is neither 4 nor 16 bytes
    long. *)
Lemma SendTo_panics_iff (tc : TransportChannel) (packetData : list Z) (destAddr : IP) :
  (exists msg, (SendTo tc packetData destAddr).1 = Panic msg)
  <-> length destAddr <> 4 /\ length destAddr <> 16.
Proof.
  unfold SendTo. split.
  - intros [msg Hp].
    destruct (IP_To4 destAddr) as [a4|] eqn:H4.
    { destruct (tc_sendto tc _ _ _); done. }
    destruct (IP_To16 destAddr) as [a16|] eqn:H16.
    { destruct (tc_sendto tc _ _ _); done. }
    split; intros Hlen.
    + destruct (IP_To16_Some_length destAddr (or_introl Hlen)) as [? ?]. congruence.
    + destruct (IP_To16_Some_length destAddr (or_intror Hlen)) as [? ?]. congruence.
  - intros [H4 H16]. destruct (IP_To4_None_length destAddr H4 H16) as [-> ->].
    by eexists.
Qed.

(** [SendTo_panics] tells when [SendTo] panics. *)
Lemma SendTo_panics_length (destAddr : IP) :
  SendTo_panics destAddr = true <-> length destAddr <> 4 /\ length destAddr <> 16.
Proof.
  unfold SendTo_panics. split.
  - destruct (IP_To4 destAddr) as [a4|] eqn:H4; [done|].
    destruct (IP_To16 destAddr) as [a16|] eqn:H16; [done|]. intros _.
    split; intros Hlen.
    + destruct (IP_To16_Some_length destAddr (or_introl Hlen)) as [? ?]. congruence.
    + destruct (IP_To16_Some_length destAddr (or_intror Hlen)) as [? ?]. congruence.
  - intros [H4 H16]. by destruct (IP_To4_None_length destAddr H4 H16) as [-> ->].
Qed.

Lemma SendTo_panics_spec (tc : TransportChannel) (packetData : list Z) (destAddr : IP) :
  SendTo_panics destAddr = true
  <-> exists msg, (SendTo tc packetData destAddr).1 = Panic msg.
Proof. by rewrite SendTo_panics_length, SendTo_panics_iff. Qed.

Lemma SendTo_accepts_length (destAddr : IP) :
  SendTo_panics destAddr = false <-> length destAddr = 4 \/ length destAddr = 16.
Proof.
  pose proof (SendTo_panics_length destAddr) as H.
  destruct (SendTo_panics destAddr); split; try done.
  - intros Hlen. destruct (proj1 H eq_refl) as [? ?]. by destruct Hlen.
  - intros _. destruct (decide (length destAddr = 4)); [by left|].
    destruct (decide (length destAddr = 16)); [by right|].
    by assert (false = true) by (by apply H).
Qed.

Lemma SendTo_v4 (tc : TransportChannel) (packetData : list Z) (destAddr a4 : IP) :
  IP_To4 destAddr = Some a4 ->
  SendTo tc packetData destAddr
  = match tc_sendto tc (socketFD tc) packetData a4 with
    | Some err =>
        (Err ("Failed to send packetData to socketFD: " +:+ err),
         set_wire tc (tc_wire tc) (socketFailureMsgQueue tc ++ [socketFD tc])
           (socket6FailureMsgQueue tc))
    | None =>
        (Ok (), set_wire tc (tc_wire tc ++ [(socketFD tc, a4, packetData)])
                  (socketFailureMsgQueue tc) (socket6FailureMsgQueue tc))
    end.
Proof. intros H4. unfold SendTo. by rewrite H4. Qed.

(** X17: where [SendTo] sends, and what it returns. The call panics
    exactly for an address that is neither 4 nor 16 bytes long, and then
    nothing has changed. For an address with a 4-byte form [a4], be it
    written on 4 bytes or as the 16-byte IPv4-mapped form, the call is
    one [unix.Sendto] on the descriptor [tc.socketFD] to [a4], and does
    what the call with [a4] itself does: when that [Sendto] succeeds the
    result is nil and exactly the datagram [(tc.socketFD, a4, packetData)]
    has been sent, both repair queues untouched; when it fails with
    [err], nothing has been sent, exactly [tc.socketFD] has been handed
    to the IPv4 repair queue, the IPv6 one is untouched, and the result is
    the error "Failed to send packetData to socketFD: err". For any other
    16-byte address the same holds with [tc.socket6FD], the address as
    it stands, the IPv6 repair queue and the text "... socket6FD: err".
    The descriptors, the filter and the tables are never changed. *)
Theorem SendTo_dispatch (tc : TransportChannel) (packetData : list Z) (destAddr : IP) :
  ((exists msg, (SendTo tc packetData destAddr).1 = Panic msg)
   <-> length destAddr <> 4 /\ length destAddr <> 16)
  /\ (forall msg, (SendTo tc packetData destAddr).1 = Panic msg ->
        (SendTo tc packetData destAddr).2 = tc)
  /\ (forall a4, IP_To4 destAddr = Some a4 ->
        SendTo tc packetData destAddr = SendTo tc packetData a4
        /\ (tc_sendto tc (socketFD tc) packetData a4 = None ->
            (SendTo tc packetData destAddr).1 = Ok ()
            /\ tc_wire (SendTo tc packetData destAddr).2
               = tc_wire tc ++ [(socketFD tc, a4, packetData)]
            /\ socketFailureMsgQueue (SendTo tc packetData destAddr).2
               = socketFailureMsgQueue tc
            /\ socket6FailureMsgQueue (SendTo tc packetData destAddr).2
               = socket6FailureMsgQueue tc)
        /\ (forall err, tc_sendto tc (socketFD tc) packetData a4 = Some err ->
            (SendTo tc packetData destAddr).1
            = Err ("Failed to send packetData to socketFD: " +:+ err)
            /\ tc_wire (SendTo tc packetData destAddr).2 = tc_wire tc
            /\ socketFailureMsgQueue (SendTo tc packetData destAddr).2
               = socketFailureMsgQueue tc ++ [socketFD tc]
            /\ socket6FailureMsgQueue (SendTo tc packetData destAddr).2
               = socket6FailureMsgQueue tc))
  /\ (IP_To4 destAddr = None -> length destAddr = 16 ->
        (tc_sendto tc (socket6FD tc) packetData destAddr = None ->
            (SendTo tc packetData destAddr).1 = Ok ()
            /\ tc_wire (SendTo tc packetData destAddr).2
               = tc_wire tc ++ [(socket6FD tc, destAddr, packetData)]
            /\ socketFailureMsgQueue (SendTo tc packetData destAddr).2
               = socketFailureMsgQueue tc
            /\ socket6FailureMsgQueue (SendTo tc packetData destAddr).2
               = socket6FailureMsgQueue tc)
        /\ (forall err, tc_sendto tc (socket6FD tc) packetData destAddr = Some err ->
            (SendTo tc packetData destAddr).1
            = Err ("Failed to send packetData to socket6FD: " +:+ err)
            /\ tc_wire (SendTo tc packetData destAddr).2 = tc_wire tc
            /\ socketFailureMsgQueue (SendTo tc packetData destAddr).2
               = socketFailureMsgQueue tc
            /\ socket6FailureMsgQueue (SendTo tc packetData destAddr).2
               = socket6FailureMsgQueue tc ++ [socket6FD tc]))
  /\ socketFD (SendTo tc packetData destAddr).2 = socketFD tc
  /\ socket6FD (SendTo tc packetData destAddr).2 = socket6FD tc
  /\ tc_filter (SendTo tc packetData destAddr).2 = tc_filter tc
  /\ listenerMap (SendTo tc packetData destAddr).2 = listenerMap tc
  /\ packetHashes (SendTo tc packetData destAddr).2 = packetHashes tc
  /\ tc_chans (SendTo tc packetData destAddr).2 = tc_chans tc.
Proof.
  split; [apply SendTo_panics_iff|].
  destruct (IP_To4 destAddr) as [a4|] eqn:H4.
  - pose proof (SendTo_v4 tc packetData destAddr a4 H4) as E.
    pose proof (SendTo_v4 tc packetData a4 a4 (IP_To4_idem destAddr a4 H4)) as E4.
    rewrite E.
    destruct (tc_sendto tc (socketFD tc) packetData a4) as [err|] eqn:Hs; simpl.
    + split_and!; try done.
      intros a4' [= <-]. rewrite E4, Hs. split_and!; try done.
      intros err' [= <-]. done.
    + split_and!; try done.
      intros a4' [= <-]. rewrite E4, Hs. split_and!; done.
  - unfold SendTo. rewrite H4.
    destruct (IP_To16 destAddr) as [a16|] eqn:H16; [|split_and!; try done].
    + assert (a16 = destAddr) as ->.
      { unfold IP_To16, IP_To4 in *.
        destruct (decide (length destAddr = 4)); [done|].
        destruct (decide (length destAddr = 16)); [|done]. by injection H16. }
      destruct (tc_sendto tc (socket6FD tc) packetData destAddr) as [err|] eqn:Hs; simpl.
      * split_and!; try done. intros _ _. split; [done|].
        intros err' [= <-]. done.
      * split_and!; try done.
    + intros _ Hlen. destruct (IP_To16_Some_length destAddr (or_intror Hlen)) as [? ?].
      congruence.
Qed.

Lemma SendTo_dispatch_witness :
  SendTo (example_tc "icmp") [1; 2; 3]%Z
    [0; 0; 0; 0; 0; 0; 0; 0; 0; 0; 255; 255; 10; 0; 0; 2]%Z
  = SendTo (example_tc "icmp") [1; 2; 3]%Z [10; 0; 0; 2]%Z
  /\ tc_wire (SendTo (example_tc "icmp") [1; 2; 3]%Z
       [0; 0; 0; 0; 0; 0; 0; 0; 0; 0; 255; 255; 10; 0; 0; 2]%Z).2
     = tc_wire (example_tc "icmp")
       ++ [(socketFD (example_tc "icmp"), [10; 0; 0; 2]%Z, [1; 2; 3]%Z)].
Proof.
  destruct (SendTo_dispatch (example_tc "icmp") [1; 2; 3]%Z
              [0; 0; 0; 0; 0; 0; 0; 0; 0; 0; 255; 255; 10; 0; 0; 2]%Z)
    as (_ & _ & H & _).
  destruct (H [10; 0; 0; 2]%Z eq_refl) as (E & Hok & _).
  split; [exact E|]. by destruct (Hok eq_refl) as (_ & Hw & _).
Defined.

(** ** path.go: path discovery with any capture *)

Section Discovery.
Variable build_fails : nat -> bool.
Variable sourceIP : IP.
Variable params : PathChannelParams.
Variable rx0 : list Captured.

Abbreviation pstep := (probe_step build_fails sourceIP params).
Abbreviation stream := (found_stream sourceIP params).
Abbreviation inv := (discovery_inv sourceIP params rx0).

Lemma hops_of_snoc (out : list (option IP)) (hop : option IP) :
  hops_of (out ++ [hop]) = hops_of out ++ inflight (DrvEmit 0 hop).
Proof.
  unfold hops_of. rewrite omap_app. by destruct hop.
Qed.

Lemma last_app_pair (xs : list IP) (a b : IP) : last (xs ++ [a; b]) = Some b.
Proof. by rewrite (last_app xs [a; b]). Qed.

Lemma discovery_inv_init : inv (probe_init build_fails params rx0).
Proof.
  unfold probe_init. destruct (build_fails 2).
  { split_and!; simpl; try done. split_and!; (done || lia || by left). }
  destruct (SendTo_panics (destIP params)) eqn:Hp.
  - split_and!; simpl; try done. intros _. by right.
  - split_and!; simpl; try done. split_and!; try done. by left.
Qed.

Lemma pending_after_classify (s : probe_state) (packet : Captured) (b : bool)
    (drv : driver_pc) (sent : list nat) (out : list (option IP)) (cl : bool)
    (panic : option string) :
  pending sourceIP params
    (mkProbe (ps_rx s) (after_classify sourceIP packet) b drv sent out cl panic)
  = stream (packet :: ps_rx s).
Proof.
  unfold pending, after_classify. simpl. by destruct (classify sourceIP packet).
Qed.

Lemma reached_after_classify (packet : Captured) (pre : list IP) (rest : list Captured) :
  stream rx0 = pre ++ stream (packet :: rest) ->
  reached (after_classify sourceIP packet) = true ->
  last (stream rx0) = Some (destIP params).
Proof.
  intros E. unfold after_classify. simpl in E.
  destruct (classify sourceIP packet); try done.
  intros _. rewrite E. apply last_app_pair.
Qed.

Lemma seq_snoc_ttl (ttl : nat) : seq 1 ttl ++ [ttl + 1] = seq 1 (ttl + 1).
Proof. replace (ttl + 1) with (S ttl) by lia. by rewrite seq_S. Qed.

Lemma not_is_Some_None (A : Type) (P : Prop) : is_Some (@None A) -> P.
Proof. by intros [? ?]. Qed.

(** The invariant is kept by every step. *)
Lemma discovery_inv_step (s s' : probe_state) : inv s -> pstep s s' -> inv s'.
Proof.
  intros (Hstream & Hreach & Hsendto & Hpanic & Hdrv) Hstep.
  destruct Hstep as [s packet rx Hp Hc Hr|s packet Hp Hc Hd|s Hp Hc
                    |s ip ttl Hp Hc Hd|s ip ttl Hp Hc Hd|s ttl Hp Hc Hd
                    |s ttl Hp Hc Hd|s ttl Hp Hd|s ttl hop Hp Hd].
  - (* a packet is read *)
    unfold pending in Hstream. rewrite Hc, Hr in Hstream.
    split_and!; simpl; try (rewrite Hp; by apply not_is_Some_None); try done.
    + rewrite Hstream. do 2 f_equal.
      destruct (ps_readySent s); [|done].
      unfold pending, after_classify. simpl. by destruct (classify sourceIP packet).
    + destruct (ps_readySent s); [|done].
      intros Hr'. eapply (reached_after_classify packet); [|exact Hr'].
      rewrite app_assoc in Hstream. exact Hstream.
    + destruct (ps_drv s) as [|t|t h| | |]; try done.
      * destruct Hdrv as (? & ? & ? & Hready & _). rewrite Hready.
        split_and!; try done. right. by eexists.
      * destruct Hdrv as (? & [?|(? & _)]); [|congruence]. split; [done|]. by left.
  - (* the ready signal *)
    unfold pending in Hstream. rewrite Hc in Hstream. rewrite Hd in Hstream, Hdrv.
    destruct Hdrv as (Hout & Hsent & Hcl & _).
    assert (SendTo_panics (destIP params) = false) as Hok.
    { apply Hsendto. by rewrite Hsent. }
    unfold enter_round. simpl. rewrite Hok.
    destruct (build_fails 1); split_and!; simpl;
      try (rewrite Hp; by apply not_is_Some_None); try done.
    + rewrite Hstream. do 2 f_equal.
      unfold pending, after_classify. simpl. by destruct (classify sourceIP packet).
    + intros Hr'. eapply (reached_after_classify packet); [|exact Hr'].
      rewrite app_assoc in Hstream. exact Hstream.
    + rewrite Hout, Hsent. split_and!; (done || simpl; lia || by right).
    + rewrite Hstream. do 2 f_equal.
      unfold pending, after_classify. simpl. by destruct (classify sourceIP packet).
    + intros Hr'. eapply (reached_after_classify packet); [|exact Hr'].
      rewrite app_assoc in Hstream. exact Hstream.
    + rewrite Hout, Hsent. split_and!; (done || simpl; lia).
  - (* the nil dereference *)
    unfold pending in Hstream. rewrite Hc in Hstream, Hreach.
    split_and!; simpl; try done.
    + unfold pending. simpl. by rewrite Hc.
    + by rewrite Hc.
    + intros _. by left.
    + destruct (ps_drv s) as [|t|t h| | |]; try done.
      destruct Hdrv as (_ & _ & _ & ? & _). rewrite Hp in *. by eapply not_is_Some_None.
  - (* an address from a TTL-exceeded answer *)
    unfold pending in Hstream. rewrite Hc in Hstream. rewrite Hd in Hstream, Hdrv.
    split_and!; simpl; try (rewrite Hp; by apply not_is_Some_None); try done;
      try (by rewrite Hstream).
  - (* the source of the port-unreachable answer *)
    unfold pending in Hstream. rewrite Hc in Hstream, Hreach. rewrite Hd in Hstream, Hdrv.
    split_and!; simpl; try (rewrite Hp; by apply not_is_Some_None); try done;
      try (by rewrite Hstream); try (by intros _; apply Hreach).
  - (* the destination *)
    unfold pending in Hstream. rewrite Hc in Hstream, Hreach. rewrite Hd in Hstream, Hdrv.
    split_and!; simpl; try (rewrite Hp; by apply not_is_Some_None); try done;
      try (by rewrite Hstream); try (by intros _; apply Hreach).
  - (* done *)
    unfold pending in Hstream. rewrite Hc in Hstream, Hreach. rewrite Hd in Hstream, Hdrv.
    destruct Hdrv as (Httl & Hlen & Hsent & Hcl).
    split_and!; simpl; try (rewrite Hp; by apply not_is_Some_None); try done;
      try (by rewrite Hstream); try (by intros _; apply Hreach).
    split; [done|]. right. split; [done|]. split; [lia|].
      rewrite Hsent, Hlen. destruct ttl as [|t]; [lia|]. simpl. by rewrite Nat.sub_0_r.
  - (* the timer *)
    rewrite Hd in Hstream, Hdrv.
    split_and!; simpl; try (rewrite Hp; by apply not_is_Some_None); try done;
      try (by rewrite Hstream).
  - (* a hop is handed to the reader *)
    rewrite Hd in Hstream, Hdrv. destruct Hdrv as (Httl & Hlen & Hsent & Hcl).
    assert (stream rx0 = hops_of (ps_out s ++ [hop]) ++ pending sourceIP params s) as E.
    { rewrite hops_of_snoc, Hstream. rewrite <- !app_assoc. by destruct hop. }
    assert (SendTo_panics (destIP params) = false) as Hok.
    { apply Hsendto. by rewrite Hsent. }
    unfold next_round, enter_round. simpl. rewrite Hok.
    destruct (decide (ttl + 1 <= 32)) as [Hle|Hgt].
    + destruct (build_fails (ttl + 1)); split_and!; simpl;
        try (rewrite Hp; by apply not_is_Some_None); try done.
      * rewrite length_app, Hlen, Hsent. simpl. split_and!; (done || lia || right).
        by replace (ttl - 1 + 1) with ttl by lia.
      * rewrite length_app, Hlen, Hsent. simpl. split_and!; try (done || lia).
        rewrite app_comm_cons. by rewrite <- seq_snoc_ttl.
    + split_and!; simpl; try (rewrite Hp; by apply not_is_Some_None); try done.
      rewrite length_app, Hlen, Hsent. simpl. split; [done|]. left.
      split; [lia|]. by replace ttl with 32 by lia.
Qed.

Lemma discovery_inv_reachable (s : probe_state) :
  rtc pstep (probe_init build_fails params rx0) s -> inv s.
Proof.
  revert s. apply rtc_ind_r.
  - apply discovery_inv_init.
  - intros y z _ Hstep Hy. by apply (discovery_inv_step y z).
Qed.

(** When every packet to be captured has both layers and [SendTo] accepts
    the destination, no run panics. *)
Definition layered (s : probe_state) : Prop :=
  Forall has_layers (ps_rx s)
  /\ (forall packet, ps_cap s = CapSignal packet -> has_layers packet)
  /\ ps_cap s <> CapNilDeref
  /\ ps_panic s = None.

Lemma has_layers_classify (packet : Captured) :
  has_layers packet -> after_classify sourceIP packet <> CapNilDeref.
Proof.
  intros [[typeCode Hi] [[src dst] H4]]. unfold after_classify, classify.
  rewrite Hi, H4. destruct (_ && _); [done|]. by destruct (_ && _).
Qed.

Lemma after_classify_not_signal (packet packet' : Captured) :
  after_classify sourceIP packet <> CapSignal packet'.
Proof. unfold after_classify. by destruct (classify sourceIP packet). Qed.

Lemma layered_step (s s' : probe_state) :
  SendTo_panics (destIP params) = false ->
  layered s -> pstep s s' -> layered s'.
Proof.
  intros Hok (Hrx & Hsig & Hcap & Hpanic) Hstep.
  assert (forall ttl x, layered x -> layered (enter_round build_fails params ttl x)) as Hen.
  { intros ttl x Hx. unfold enter_round. rewrite Hok. by destruct (build_fails ttl). }
  destruct Hstep as [s packet rx Hp Hc Hr|s packet Hp Hc Hd|s Hp Hc
                    |s ip ttl Hp Hc Hd|s ip ttl Hp Hc Hd|s ttl Hp Hc Hd
                    |s ttl Hp Hc Hd|s ttl Hp Hd|s ttl hop Hp Hd].
  - rewrite Hr in Hrx. apply Forall_cons in Hrx as [Hpk Hrx].
    split_and!; simpl; try done.
    + destruct (ps_readySent s); [|by intros ? [= <-]].
      intros packet' Hc'. by destruct (after_classify_not_signal packet packet').
    + destruct (ps_readySent s); [|done]. by apply has_layers_classify.
  - apply Hen. split_and!; simpl; try done.
    + intros packet' Hc'. by destruct (after_classify_not_signal packet packet').
    + apply has_layers_classify. by apply Hsig.
  - congruence.
  - split_and!; simpl; done.
  - split_and!; simpl; done.
  - split_and!; simpl; done.
  - split_and!; simpl; done.
  - split_and!; simpl; done.
  - unfold next_round. case_decide; [apply Hen|]; split_and!; simpl; done.
Qed.

Lemma layered_reachable (s : probe_state) :
  SendTo_panics (destIP params) = false ->
  Forall has_layers rx0 ->
  rtc pstep (probe_init build_fails params rx0) s -> ps_panic s = None.
Proof.
  intros Hok Hrx Hreach.
  assert (layered s) as (_ & _ & _ & ?); [|done].
  revert s Hreach. apply rtc_ind_r.
  - unfold probe_init. rewrite Hok. by destruct (build_fails 2).
  - intros y z _ Hstep Hy. by apply (layered_step y z).
Qed.
End Discovery.

Lemma found_stream_sources (sourceIP : IP) (params : PathChannelParams)
    (rx : list Captured) (ip : IP) :
  ip ∈ found_stream sourceIP params rx ->
  ip = destIP params
  \/ exists packet dst, packet ∈ rx /\ cap_ip4 packet = Some (ip, dst).
Proof.
  induction rx as [|packet rx IH]; simpl; [by intros ?%elem_of_nil|].
  assert (forall ip', classify sourceIP packet = Hop ip'
                      \/ classify sourceIP packet = Last ip' ->
                      exists dst, cap_ip4 packet = Some (ip', dst)) as Hsrc.
  { intros ip'. unfold classify.
    destruct (cap_ip4 packet) as [[src dst]|]; [|by intros [?|?]].
    destruct (cap_icmp packet) as [typeCode|]; [|by intros [?|?]].
    destruct (_ && _); [intros [[= <-]|?]; [by eexists|done]|].
    destruct (_ && _); [intros [?|[= <-]]; [done|by eexists]|by intros [?|?]]. }
  assert (ip ∈ found_stream sourceIP params rx ->
          ip = destIP params
          \/ exists packet0 dst, packet0 ∈ packet :: rx
                                 /\ cap_ip4 packet0 = Some (ip, dst)) as IH'.
  { intros Hin. destruct (IH Hin) as [?|(p & dst & Hp & ?)]; [by left|].
    right. exists p, dst. split; [by apply list_elem_of_further|done]. }
  destruct (classify sourceIP packet) as [ip'|ip'| |] eqn:Hc; [| |done|].
  - intros [->|Hin]%elem_of_cons; [|by apply IH'].
    destruct (Hsrc ip' (or_introl eq_refl)) as [dst Hdst].
    right. exists packet, dst. split; [apply list_elem_of_here|done].
  - intros [->|Hin]%elem_of_cons.
    + destruct (Hsrc ip' (or_intror eq_refl)) as [dst Hdst].
      right. exists packet, dst. split; [apply list_elem_of_here|done].
    + apply list_elem_of_singleton in Hin. by left.
  - by intros ?%elem_of_nil.
Qed.

Lemma hops_of_elem (out : list (option IP)) (ip : IP) :
  Some ip ∈ out -> ip ∈ hops_of out.
Proof.
  intros Hin. unfold hops_of. apply list_elem_of_omap. by exists (Some ip).
Qed.

Lemma GetPathChannelTo_Ok (build_fails : nat -> bool) (tc : TransportChannel)
    (params : PathChannelParams) (findSource : outcome IP) (rx : list Captured)
    (src : IP) (s0 : probe_state) :
  GetPathChannelTo build_fails tc params findSource rx = Ok (src, s0) ->
  tc_filter tc = "icmp"
  /\ (exists found, findSource = Ok found
                    /\ src = default found (overrideSourceIP params))
  /\ s0 = probe_init build_fails params rx.
Proof.
  unfold GetPathChannelTo. case_decide as Hf; [done|].
  destruct findSource as [found| | |]; try done.
  rewrite obind_Ok. intros [= <- <-]. split_and!; [|by eexists|done].
  by destruct (decide (tc_filter tc = "icmp")).
Qed.

(** X18: in every state of every run of the path discovery that
    [GetPathChannelTo] starts, whatever is captured and whichever probes
    fail to build: the reader has received 32 hops at most; the hops that
    are not nil are, in order, the first addresses of the sequence that the
    capture yields (the source of each TTL-exceeded answer addressed to the
    source address, then the source of the first port-unreachable answer
    and the destination), so that each of them is the destination or the
    source address of a captured packet; the probes handed to the socket
    have the TTLs 2, 1, 2, 3, ... in this order, 32 at most after the
    warm-up probe; the rounds are in step with the hops: either nothing
    has been sent and nothing received, or the probes of the rounds 1 to
    [k] have been sent after the warm-up probe and the reader has received
    [k] or [k - 1] hops, so that the hop of a round is never received
    before the probe of that round is sent, and the probe of a round is
    never sent before the hop of the round before is received; the channel
    is closed exactly when the probing goroutine has returned. *)
Theorem discovery_hops_in_capture_order (build_fails : nat -> bool)
    (tc : TransportChannel) (params : PathChannelParams) (findSource : outcome IP)
    (rx : list Captured) (src : IP) (s0 s : probe_state) :
  GetPathChannelTo build_fails tc params findSource rx = Ok (src, s0) ->
  rtc (probe_step build_fails src params) s0 s ->
  length (ps_out s) <= 32
  /\ hops_of (ps_out s) `prefix_of` found_stream src params rx
  /\ (forall ip, Some ip ∈ ps_out s ->
        ip = destIP params
        \/ exists packet dst, packet ∈ rx /\ cap_ip4 packet = Some (ip, dst))
  /\ ps_sent s `prefix_of` 2 :: seq 1 32
  /\ ((ps_sent s = [] /\ ps_out s = [])
      \/ exists k, k <= 32 /\ ps_sent s = 2 :: seq 1 k
                   /\ length (ps_out s) <= k <= length (ps_out s) + 1)
  /\ (ps_closed s = true <-> ps_drv s = DrvClosed).
Proof.
  intros (_ & _ & ->)%GetPathChannelTo_Ok Hreach.
  apply discovery_inv_reachable in Hreach as (Hstream & _ & _ & _ & Hdrv).
  assert (hops_of (ps_out s) `prefix_of` found_stream src params rx) as Hpre.
  { eexists. exact Hstream. }
  assert (forall k, k <= 32 -> 2 :: seq 1 k `prefix_of` 2 :: seq 1 32) as Hseq.
  { intros k Hk. exists (seq (1 + k) (32 - k)).
    rewrite <- app_comm_cons, <- seq_app. by replace (k + (32 - k)) with 32 by lia. }
  assert ((ps_sent s = [] /\ ps_out s = [])
          \/ exists k, k <= 32 /\ ps_sent s = 2 :: seq 1 k
                       /\ length (ps_out s) <= k <= length (ps_out s) + 1) as Hround.
  { destruct (ps_drv s) as [|ttl|ttl hop| | |].
    - destruct Hdrv as (-> & -> & _). right. exists 0. simpl. split_and!; (done || lia).
    - destruct Hdrv as (? & ? & -> & _). right. exists ttl. split_and!; (done || lia).
    - destruct Hdrv as (? & ? & -> & _). right. exists ttl. split_and!; (done || lia).
    - destruct Hdrv as (_ & [[? ->]|(_ & ? & ->)]); right.
      + exists 32. split_and!; (done || lia).
      + exists (S (length (ps_out s))). split_and!; (done || lia).
    - destruct Hdrv as (_ & ? & [[-> ->]| ->]); [by left|right].
      exists (length (ps_out s)). split_and!; (done || lia).
    - destruct Hdrv as (_ & -> & -> & _). by left. }
  split_and!.
  - destruct Hround as [[_ ->]|(k & ? & _ & ? & _)]; simpl; lia.
  - done.
  - intros ip Hin. apply (found_stream_sources src).
    destruct Hpre as [k ->]. apply elem_of_app. left. by apply hops_of_elem.
  - destruct Hround as [[-> _]|(k & ? & -> & _)]; [apply prefix_nil|by apply Hseq].
  - done.
  - destruct (ps_drv s) as [|ttl|ttl hop| | |]; split; try done.
    + destruct Hdrv as (_ & _ & ? & _). congruence.
    + destruct Hdrv as (_ & _ & _ & ?). congruence.
    + destruct Hdrv as (_ & _ & _ & ?). congruence.
    + by destruct Hdrv as (? & _).
    + destruct Hdrv as (? & _). congruence.
    + destruct Hdrv as (? & _). congruence.
Qed.

Lemma discovery_never_stuck (build_fails : nat -> bool) (src : IP)
    (params : PathChannelParams) (rx : list Captured) (s : probe_state) :
  (forall ttl, build_fails ttl = false) ->
  SendTo_panics (destIP params) = false ->
  rtc (probe_step build_fails src params) (probe_init build_fails params rx) s ->
  ps_drv s <> DrvStuck /\ ps_drv s <> DrvPanic.
Proof.
  intros Hbuild Hok. revert s. apply rtc_ind_r.
  - unfold probe_init. by rewrite Hbuild, Hok.
  - intros y z _ Hstep Hy.
    destruct Hstep as [s packet rx' Hp Hc Hr|s packet Hp Hc Hd|s Hp Hc
                      |s ip ttl Hp Hc Hd|s ip ttl Hp Hc Hd|s ttl Hp Hc Hd
                      |s ttl Hp Hc Hd|s ttl Hp Hd|s ttl hop Hp Hd]; simpl; try done.
    + unfold enter_round. by rewrite Hbuild, Hok.
    + unfold next_round, enter_round. case_decide; [|done]. by rewrite Hbuild, Hok.
Qed.

(** X19: when every probe builds, the destination is 4 or 16 bytes long
    (so that no call of [SendTo] panics) and at least one packet is
    captured, the path discovery of [GetPathChannelTo] ends, however the
    races between answers and timers go: every run is finite. It ends in
    one of two ways. Either the capture goroutine has come to a packet in
    which the ICMPv4 or the IPv4 layer is missing and has panicked at the
    nil pointer, which ends the program with the channel as it stands; a
    run ends so exactly when the capture goroutine has come to such a
    packet, and never when every captured packet has both layers. Or the
    channel is closed, and then either the reader has received a hop for
    each of the 32 rounds, or a port-unreachable answer has ended the
    discovery: in that case the hops received that are not nil are all the
    addresses the capture yields, the last one being the destination. *)
Theorem discovery_closes (build_fails : nat -> bool) (tc : TransportChannel)
    (params : PathChannelParams) (findSource : outcome IP) (rx : list Captured)
    (src : IP) (s0 : probe_state) :
  (forall ttl, build_fails ttl = false) ->
  length (destIP params) = 4 \/ length (destIP params) = 16 ->
  rx <> [] ->
  GetPathChannelTo build_fails tc params findSource rx = Ok (src, s0) ->
  (forall tc' bytes msg, (SendTo tc' bytes (destIP params)).1 <> Panic msg)
  /\ sn (probe_step build_fails src params) s0
  /\ forall s,
       rtc (probe_step build_fails src params) s0 s ->
       nf (probe_step build_fails src params) s ->
       (is_Some (ps_panic s) <-> ps_cap s = CapNilDeref)
       /\ (Forall has_layers rx -> ps_panic s = None)
       /\ (ps_panic s = None ->
           ps_closed s = true
           /\ (length (ps_out s) = 32
               \/ (hops_of (ps_out s) = found_stream src params rx
                   /\ last (hops_of (ps_out s)) = Some (destIP params)))).
Proof.
  intros Hbuild Hdest Hne (_ & _ & ->)%GetPathChannelTo_Ok.
  pose proof (proj2 (SendTo_accepts_length (destIP params)) Hdest) as Hok.
  split.
  { intros tc' bytes msg Hp.
    destruct (proj1 (SendTo_panics_iff tc' bytes (destIP params))) as [H4 H16];
      [by eexists|].
    by destruct Hdest. }
  split; [apply probe_sn|].
  intros s Hreach Hnf.
  pose proof (discovery_never_stuck build_fails src params rx s Hbuild Hok Hreach)
    as [Hstuck Hnopanic].
  pose proof (fun Hrx => layered_reachable build_fails src params rx s Hok Hrx Hreach)
    as Hlayered.
  apply discovery_inv_reachable in Hreach as (Hstream & Hreached & _ & Hpanic & Hdrv).
  split_and!.
  - split.
    + intros Hsome. by destruct (Hpanic Hsome).
    + intros Hc. destruct (ps_panic s) as [msg|] eqn:Hp; [done|].
      exfalso. apply Hnf. eexists. by apply (step_nil_deref _ _ _ s).
  - intros Hrx. by apply Hlayered.
  - intros Hp.
    destruct (ps_drv s) as [|ttl|ttl hop| | |] eqn:Hd; try done.
    + exfalso. apply Hnf.
      destruct Hdrv as (_ & _ & _ & Hready & [[Hc Hr]|[packet Hc]]).
      * destruct rx as [|packet rx']; [done|].
        eexists. by apply (step_capture _ _ _ s packet rx').
      * eexists. by apply (step_ready _ _ _ s packet).
    + exfalso. apply Hnf. eexists. by apply (step_timeout _ _ _ s ttl).
    + exfalso. apply Hnf. eexists. by apply (step_emit _ _ _ s ttl hop).
    + destruct Hdrv as (Hcl & [[Hlen _]|(Hc & _ & _)]); (split; [done|]); [by left|].
      right. unfold pending in Hstream. rewrite Hc in Hstream, Hreached.
      simpl in Hstream. rewrite app_nil_r in Hstream.
      rewrite <- Hstream. split; [done|]. by apply Hreached.
Qed.

Lemma discovery_closes_witness :
  sn (probe_step (fun _ => false) [10; 0; 0; 1]%Z example_params)
    (probe_init (fun _ => false) example_params
       [ttl_exceeded_packet; port_unreachable_packet])
  /\ forall s,
       rtc (probe_step (fun _ => false) [10; 0; 0; 1]%Z example_params)
         (probe_init (fun _ => false) example_params
            [ttl_exceeded_packet; port_unreachable_packet]) s ->
       nf (probe_step (fun _ => false) [10; 0; 0; 1]%Z example_params) s ->
       ps_panic s = None
       /\ ps_closed s = true
       /\ (length (ps_out s) = 32
           \/ hops_of (ps_out s) = [[10; 0; 0; 5]; [10; 0; 0; 9]; [10; 0; 0; 9]]%Z).
Proof.
  destruct (discovery_closes (fun _ => false) (example_tc "icmp") example_params
              (Ok [10; 0; 0; 1]%Z) [ttl_exceeded_packet; port_unreachable_packet]
              [10; 0; 0; 1]%Z
              (probe_init (fun _ => false) example_params
                 [ttl_exceeded_packet; port_unreachable_packet]))
    as (_ & Hsn & Hend); [done|by left|done|reflexivity|].
  split; [exact Hsn|].
  intros s Hreach Hnf. destruct (Hend s Hreach Hnf) as (_ & Hlay & Hcl).
  assert (ps_panic s = None) as Hp.
  { apply Hlay. repeat constructor; by eexists. }
  split; [exact Hp|].
  destruct (Hcl Hp) as [Hc [Hlen|[Hhops _]]].
  - split; [done|by left].
  - split; [done|]. right. exact Hhops.
Defined.

Lemma discovery_hops_in_capture_order_witness :
  GetPathChannelTo (fun _ => false) (example_tc "icmp") example_params
    (Ok [10; 0; 0; 1]%Z) [ttl_exceeded_packet; port_unreachable_packet]
  = Ok ([10; 0; 0; 1]%Z,
        probe_init (fun _ => false) example_params
          [ttl_exceeded_packet; port_unreachable_packet])
  /\ forall s,
       rtc (probe_step (fun _ => false) [10; 0; 0; 1]%Z example_params)
         (probe_init (fun _ => false) example_params
            [ttl_exceeded_packet; port_unreachable_packet]) s ->
       length (ps_out s) <= 32
       /\ hops_of (ps_out s) `prefix_of` [[10; 0; 0; 5]; [10; 0; 0; 9]; [10; 0; 0; 9]]%Z.
Proof.
  split; [reflexivity|]. intros s Hreach.
  destruct (discovery_hops_in_capture_order (fun _ => false) (example_tc "icmp")
              example_params (Ok [10; 0; 0; 1]%Z)
              [ttl_exceeded_packet; port_unreachable_packet] [10; 0; 0; 1]%Z
              (probe_init (fun _ => false) example_params
                 [ttl_exceeded_packet; port_unreachable_packet])
              s eq_refl Hreach)
    as (Hlen & Hpre & _).
  split; [exact Hlen|exact Hpre].
Defined.

(** A capture that delivers one later fragment of an ICMP packet, which
    has no ICMPv4 layer: the capture goroutine sends the ready signal and
    then evaluates [icmp.TypeCode] on the nil pointer. Every run ends in
    that panic. *)
Lemma discovery_panics_at_fragment (s : probe_state) :
  rtc (probe_step (fun _ => false) [10; 0; 0; 1]%Z example_params)
    (probe_init (fun _ => false) example_params [fragment_packet]) s ->
  nf (probe_step (fun _ => false) [10; 0; 0; 1]%Z example_params) s ->
  ps_cap s = CapNilDeref
  /\ ps_panic s = Some "invalid memory address or nil pointer dereference".
Proof.
  intros Hreach Hnf.
  assert ((ps_cap s = CapRecv /\ ps_rx s = [fragment_packet]
           /\ ps_drv s = DrvWaitReady /\ ps_readySent s = false /\ ps_panic s = None)
          \/ (ps_cap s = CapSignal fragment_packet /\ ps_rx s = []
              /\ ps_drv s = DrvWaitReady /\ ps_panic s = None)
          \/ (ps_cap s = CapNilDeref /\ ps_rx s = []
              /\ (ps_panic s = None
                  \/ ps_panic s
                     = Some "invalid memory address or nil pointer dereference")))
    as Hinv.
  { clear Hnf. revert s Hreach. apply rtc_ind_r.
    - left. by split_and!.
    - intros y z _ Hstep Hy.
      destruct Hstep as [s packet rx Hp Hc Hr|s packet Hp Hc Hd|s Hp Hc
                        |s ip ttl Hp Hc Hd|s ip ttl Hp Hc Hd|s ttl Hp Hc Hd
                        |s ttl Hp Hc Hd|s ttl Hp Hd|s ttl hop Hp Hd];
        destruct Hy as [(Hc' & Hr' & Hd' & Hrs & Hp')|[(Hc' & Hr' & Hd' & Hp')
                                                     |(Hc' & Hr' & Hp')]];
        try congruence.
      + right. left. simpl. rewrite Hrs.
        rewrite Hr' in Hr. injection Hr as <- <-. by split_and!.
      + right. right. rewrite Hc' in Hc. injection Hc as <-.
        simpl. split_and!; [done|done|by left].
      + right. right. simpl. split_and!; [done|done|by right].
      + right. right. simpl. split_and!; [done|done|by left].
      + right. right. unfold next_round, enter_round. simpl.
        case_decide; simpl; split_and!; (done || by left). }
  destruct Hinv as [(Hc & Hr & Hd & Hrs & Hp)|[(Hc & Hr & Hd & Hp)|(Hc & Hr & Hp)]].
  - exfalso. apply Hnf. eexists. by apply (step_capture _ _ _ s fragment_packet []).
  - exfalso. apply Hnf. eexists. by apply (step_ready _ _ _ s fragment_packet).
  - split; [done|]. destruct Hp as [Hp|Hp]; [|done].
    exfalso. apply Hnf. eexists. by apply (step_nil_deref _ _ _ s).
Qed.

(** The run in which every round times out reaches the end of the loop. *)
Lemma timeouts_close (build_fails : nat -> bool) (src : IP)
    (params : PathChannelParams) (n ttl : nat) (s : probe_state) :
  (forall t, build_fails t = false) ->
  SendTo_panics (destIP params) = false ->
  ps_panic s = None ->
  ps_drv s = DrvSelect ttl -> ttl + n = 32 ->
  exists s', rtc (probe_step build_fails src params) s s' /\ ps_closed s' = true.
Proof.
  intros Hbuild Hok. revert ttl s. induction n as [|n IH]; intros ttl s Hp Hd Httl.
  - eexists. split; [|shelve].
    eapply rtc_l; [by apply (step_timeout _ _ _ s ttl)|].
    eapply rtc_l; [by apply (step_emit _ _ _ _ ttl None)|].
    apply rtc_refl.
    Unshelve. unfold next_round. by rewrite decide_False by lia.
  - destruct (IH (ttl + 1)
                (next_round build_fails params ttl
                   (mkProbe (ps_rx s) (ps_cap s) (ps_readySent s) (DrvEmit ttl None)
                      (ps_sent s) (ps_out s ++ [None]) (ps_closed s) (ps_panic s))))
      as (s' & Hrun & Hcl); [| |lia|].
    { unfold next_round, enter_round. rewrite decide_True by lia.
      by rewrite Hbuild, Hok. }
    { unfold next_round, enter_round. rewrite decide_True by lia.
      by rewrite Hbuild, Hok. }
    exists s'. split; [|done].
    eapply rtc_l; [by apply (step_timeout _ _ _ s ttl)|].
    eapply rtc_l; [by apply (step_emit _ _ _ _ ttl None)|].
    exact Hrun.
Qed.

(** X20: [GetPathTo] collects the hops of [GetPathChannelTo] until the
    channel is closed. With a filter other than ["icmp"] it returns the
    empty path and the error of the filter, and nothing else; with the
    filter ["icmp"] and no source address for the destination it returns
    the empty path and that error. With the filter ["icmp"] and a source
    address, every path it returns comes with
    a nil error and has 32 entries at most, and it returns only if some
    packet is captured: when nothing is captured the channel is never
    closed and [GetPathTo] does not return. When every probe builds, the
    destination is 4 or 16 bytes long (so that [SendTo] does not panic) and
    a packet is captured, it can return. *)
Theorem GetPathTo_results (build_fails : nat -> bool) (tc : TransportChannel)
    (dest : IP) (timeout : Z) (findSource : outcome IP) (rx : list Captured) :
  (tc_filter tc <> "icmp" ->
   forall result,
     GetPathTo_returns build_fails tc dest timeout findSource rx result
     <-> result = ([], Some ("BPF filter must be icmp: got " +:+ tc_filter tc
                             +:+ " instead")))
  /\ (tc_filter tc = "icmp" ->
      forall e, findSource = Err e ->
        forall result,
          GetPathTo_returns build_fails tc dest timeout findSource rx result
          <-> result = ([], Some e))
  /\ (tc_filter tc = "icmp" ->
      forall src, findSource = Ok src ->
        (forall path err,
           GetPathTo_returns build_fails tc dest timeout findSource rx (path, err) ->
           err = None /\ length path <= 32 /\ rx <> [])
        /\ ((forall ttl, build_fails ttl = false) ->
            length dest = 4 \/ length dest = 16 -> rx <> [] ->
            (forall tc' bytes msg, (SendTo tc' bytes dest).1 <> Panic msg)
            /\ exists path,
                 GetPathTo_returns build_fails tc dest timeout findSource rx
                   (path, None))).
Proof.
  split.
  { intros Hf result. unfold GetPathTo_returns, GetPathChannelTo.
    by rewrite decide_True by done. }
  split.
  { intros Hf e -> result. unfold GetPathTo_returns, GetPathChannelTo.
    by rewrite decide_False by (rewrite Hf; intros Hc; by apply Hc). }
  intros Hf src ->. unfold GetPathTo_returns, GetPathChannelTo.
  rewrite decide_False by (rewrite Hf; intros Hc; by apply Hc).
  rewrite obind_Ok. simpl. split.
  - intros path err (s & Hreach & Hcl & [= -> ->]). split; [done|].
    pose proof (discovery_inv_reachable _ _ _ _ _ Hreach) as (_ & _ & _ & _ & Hdrv).
    assert (length (ps_out s) <= 32) as Hlen.
    { destruct (ps_drv s) as [|ttl|ttl hop| | |].
      - destruct Hdrv as (-> & _). simpl. lia.
      - destruct Hdrv as (? & ? & _). lia.
      - destruct Hdrv as (? & ? & _). lia.
      - destruct Hdrv as (_ & [[? _]|(_ & ? & _)]); lia.
      - destruct Hdrv as (_ & ? & _). lia.
      - destruct Hdrv as (_ & _ & -> & _). simpl. lia. }
    split.
    + rewrite length_fmap. exact Hlen.
    + intros ->.
      pose proof (probe_init_silent_nf build_fails src (mkParams dest None timeout))
        as Hnf.
      apply rtc_nf in Hreach; [|done]. subst s.
      unfold probe_init in Hcl. destruct (build_fails 2); [done|].
      by destruct (SendTo_panics _).
  - intros Hbuild Hdest Hne.
    pose proof (proj2 (SendTo_accepts_length dest) Hdest) as Hok. split.
    { intros tc' bytes msg Hp.
      destruct (proj1 (SendTo_panics_iff tc' bytes dest)) as [H4 H16]; [by eexists|].
      by destruct Hdest. }
    destruct rx as [|packet rx]; [done|].
    destruct (timeouts_close build_fails src (mkParams dest None timeout) 31 1
                (enter_round build_fails (mkParams dest None timeout) 1
                   (mkProbe rx (after_classify src packet) true DrvWaitReady [2] []
                      false None)))
      as (s' & Hrun & Hcl); [done|done| | |done|].
    { unfold enter_round. simpl. by rewrite Hbuild, Hok. }
    { unfold enter_round. simpl. by rewrite Hbuild, Hok. }
    exists (default [] <$> ps_out s'), s'. split; [|done].
    unfold probe_init. rewrite Hbuild. simpl. rewrite Hok.
    eapply rtc_l.
    { by apply (step_capture _ _ _ (mkProbe (packet :: rx) CapRecv false DrvWaitReady
                                      [2] [] false None) packet rx). }
    eapply rtc_l; [|exact Hrun].
    by apply (step_ready _ _ _ (mkProbe rx (CapSignal packet) false DrvWaitReady
                                  [2] [] false None) packet).
Qed.

Lemma GetPathTo_results_witness :
  (forall path err,
     GetPathTo_returns (fun _ => false) (example_tc "icmp") [10; 0; 0; 9]%Z 100
       (Ok [10; 0; 0; 1]%Z) [] (path, err) -> False)
  /\ exists path,
       GetPathTo_returns (fun _ => false) (example_tc "icmp") [10; 0; 0; 9]%Z 100
         (Ok [10; 0; 0; 1]%Z) [unrelated_packet] (path, None).
Proof.
  split.
  - intros path err Hret.
    destruct (GetPathTo_results (fun _ => false) (example_tc "icmp") [10; 0; 0; 9]%Z 100
                (Ok [10; 0; 0; 1]%Z) []) as (_ & _ & H).
    destruct (H eq_refl [10; 0; 0; 1]%Z eq_refl) as [Hall _].
    by destruct (Hall path err Hret) as (_ & _ & Hne).
  - destruct (GetPathTo_results (fun _ => false) (example_tc "icmp") [10; 0; 0; 9]%Z 100
                (Ok [10; 0; 0; 1]%Z) [unrelated_packet]) as (_ & _ & H).
    destruct (H eq_refl [10; 0; 0; 1]%Z eq_refl) as [_ Hex].
    apply Hex; [done|by left|done].
Defined.

(** ** path.go: path discovery through a remote host *)

Lemma hops_of_nil (out : list (option IP)) :
  hops_of out = [] -> out = replicate (length out) None.
Proof.
  unfold hops_of. induction out as [|[ip|] out IH]; simpl; [done|done|].
  intros H. by rewrite <- IH.
Qed.

Lemma relay_stream_no_last (relay_classify : Captured -> classified) (rx : list Captured) :
  Forall (fun packet => relay_classify packet = Ignore) rx ->
  relay_stream relay_classify rx = [].
Proof.
  induction 1 as [|packet rx Hp _ IH]; simpl; [done|]. by rewrite Hp.
Qed.

Section RelayProps.
Variable relay_classify : Captured -> classified.
Variable relay_builds : nat -> bool.
Variable relay_probes : nat -> list nat.
Variable relay_dest : IP.
Variable rx0 : list Captured.

Abbreviation rstep := (relay_step relay_classify relay_builds relay_probes relay_dest).
Abbreviation rstream := (relay_stream relay_classify).
Abbreviation rinv := (relay_inv relay_classify relay_dest rx0).
Abbreviation rinit := (relay_init relay_builds relay_probes relay_dest).

Lemma relay_step_fuel (s s' : probe_state) :
  rstep s s' -> relay_fuel s' < relay_fuel s.
Proof.
  destruct 1 as [s packet rx Hp Hc Hr|s Hp Hc|s ip ttl Hp Hc Hd|s ip ttl Hp Hc Hd
                |s ttl Hp Hc Hd|s ttl Hp Hd|s ttl hop Hp Hd]; unfold relay_fuel; simpl.
  - rewrite Hc, Hr. unfold relay_after. simpl.
    destruct (relay_classify packet); simpl; lia.
  - rewrite Hp. simpl. lia.
  - rewrite Hc, Hd. simpl. lia.
  - rewrite Hc, Hd. simpl. lia.
  - rewrite Hc, Hd. simpl. lia.
  - rewrite Hd. simpl. lia.
  - rewrite Hd. unfold relay_next, relay_enter. simpl.
    case_decide; [|simpl; lia].
    destruct (relay_builds (ttl + 1)); [|simpl; lia].
    destruct (SendTo_panics relay_dest); simpl; lia.
Qed.

(** No run of the two goroutines is infinite. *)
Lemma relay_sn (s : probe_state) : sn rstep s.
Proof.
  assert (forall n s, relay_fuel s < n -> sn rstep s) as H.
  { induction n as [|n IH]; intros s0 Hlt; [lia|].
    constructor. intros s' Hstep. apply relay_step_fuel in Hstep.
    apply IH. simpl in *. lia. }
  apply (H (S (relay_fuel s))). lia.
Qed.

Lemma relay_inv_init : rinv (rinit rx0).
Proof.
  unfold relay_init, relay_enter. simpl.
  destruct (relay_builds 1).
  - destruct (SendTo_panics relay_dest) eqn:Hs; split_and!; simpl; try done.
    + intros _. by right.
    + split_and!; (done || lia).
    + split_and!; (done || lia).
  - split_and!; simpl; try done. split; [done|lia].
Qed.

Lemma relay_inv_step (s s' : probe_state) : rinv s -> rstep s s' -> rinv s'.
Proof.
  intros (Hstream & Hcap & Hpanic & Hdrv) Hstep.
  destruct Hstep as [s packet rx Hp Hc Hr|s Hp Hc|s ip ttl Hp Hc Hd|s ip ttl Hp Hc Hd
                    |s ttl Hp Hc Hd|s ttl Hp Hd|s ttl hop Hp Hd].
  - unfold relay_pending in Hstream. rewrite Hc, Hr in Hstream.
    split_and!; simpl; try (rewrite Hp; by apply not_is_Some_None).
    + rewrite Hstream. do 2 f_equal. unfold relay_pending, relay_after. simpl.
      by destruct (relay_classify packet).
    + unfold relay_after. by destruct (relay_classify packet).
    + destruct (ps_drv s) as [|t|t h| | |]; try done.
      destruct Hdrv as (? & [?|(Hexit & _)]); [|congruence]. split; [done|]. by left.
  - unfold relay_pending in Hstream. rewrite Hc in Hstream.
    split_and!; simpl; try done.
    + unfold relay_pending. simpl. by rewrite Hc.
    + intros _. by left.
    + destruct (ps_drv s) as [|t|t h| | |]; try done.
      destruct Hdrv as (_ & _ & ? & _). rewrite Hp in *. by eapply not_is_Some_None.
  - unfold relay_pending in Hstream. rewrite Hc in Hstream. rewrite Hd in Hstream, Hdrv.
    split_and!; simpl; try (rewrite Hp; by apply not_is_Some_None); try done;
      try (by rewrite Hstream).
  - unfold relay_pending in Hstream. rewrite Hc in Hstream. rewrite Hd in Hstream, Hdrv.
    split_and!; simpl; try (rewrite Hp; by apply not_is_Some_None); try done;
      try (by rewrite Hstream).
  - unfold relay_pending in Hstream. rewrite Hc in Hstream. rewrite Hd in Hstream, Hdrv.
    destruct Hdrv as (Httl & Hlen & Hcl).
    split_and!; simpl; try (rewrite Hp; by apply not_is_Some_None); try done;
      try (by rewrite Hstream).
    split; [done|]. right. split; [done|lia].
  - rewrite Hd in Hstream, Hdrv.
    split_and!; simpl; try (rewrite Hp; by apply not_is_Some_None); try done;
      try (by rewrite Hstream).
  - rewrite Hd in Hstream, Hdrv. destruct Hdrv as (Httl & Hlen & Hcl).
    assert (rstream rx0
            = hops_of (ps_out s ++ [hop]) ++ relay_pending relay_classify s) as E.
    { rewrite hops_of_snoc, Hstream. rewrite <- !app_assoc. by destruct hop. }
    unfold relay_next, relay_enter. simpl.
    destruct (decide (ttl + 1 <= 32)) as [Hle|Hgt].
    + destruct (relay_builds (ttl + 1)).
      * destruct (SendTo_panics relay_dest) eqn:Hs; split_and!; simpl;
          try (rewrite Hp; by apply not_is_Some_None); try done.
        -- intros _. by right.
        -- rewrite length_app, Hlen. simpl. split_and!; (done || lia).
        -- rewrite length_app, Hlen. simpl. split_and!; (done || lia).
      * split_and!; simpl; try (rewrite Hp; by apply not_is_Some_None); try done.
        rewrite length_app, Hlen. simpl. split_and!; (done || lia).
    + split_and!; simpl; try (rewrite Hp; by apply not_is_Some_None); try done.
      rewrite length_app, Hlen. simpl. split; [done|]. left. lia.
Qed.

Lemma relay_inv_reachable (s : probe_state) : rtc rstep (rinit rx0) s -> rinv s.
Proof.
  revert s. apply rtc_ind_r.
  - apply relay_inv_init.
  - intros y z _ Hstep Hy. by apply (relay_inv_step y z).
Qed.

Lemma relay_never_stuck (s : probe_state) :
  (forall ttl, relay_builds ttl = true) ->
  rtc rstep (rinit rx0) s -> ps_drv s <> DrvStuck.
Proof.
  intros Hbuild. revert s. apply rtc_ind_r.
  - unfold relay_init, relay_enter. rewrite Hbuild.
    by destruct (SendTo_panics relay_dest).
  - intros y z _ Hstep Hy.
    destruct Hstep as [s packet rx Hp Hc Hr|s Hp Hc|s ip ttl Hp Hc Hd|s ip ttl Hp Hc Hd
                      |s ttl Hp Hc Hd|s ttl Hp Hd|s ttl hop Hp Hd]; simpl; try done.
    unfold relay_next, relay_enter. case_decide; [|done]. rewrite Hbuild.
    by destruct (SendTo_panics relay_dest).
Qed.

(** When a round cannot be built at the start, nothing ever moves but the
    capture goroutine. *)
Lemma relay_stuck_forever (s : probe_state) :
  relay_builds 1 = false ->
  rtc rstep (rinit rx0) s ->
  ps_drv s = DrvStuck /\ ps_out s = [] /\ ps_sent s = [] /\ ps_closed s = false.
Proof.
  intros Hbuild. revert s. apply rtc_ind_r.
  - unfold relay_init, relay_enter. by rewrite Hbuild.
  - intros y z _ Hstep (Hd' & Hout & Hsent & Hcl).
    destruct Hstep as [s packet rx Hp Hc Hr|s Hp Hc|s ip ttl Hp Hc Hd|s ip ttl Hp Hc Hd
                      |s ttl Hp Hc Hd|s ttl Hp Hd|s ttl hop Hp Hd];
      simpl; try done; congruence.
Qed.

(** When the first call of [SendTo] panics, the program ends there: the
    deferred [close] has run and nothing else happens. *)
Lemma relay_init_panics :
  relay_builds 1 = true -> SendTo_panics relay_dest = true ->
  rinit rx0 = mkProbe rx0 CapRecv false DrvPanic [] [] true
                (Some "slice bounds out of range")
  /\ nf rstep (rinit rx0).
Proof.
  intros Hbuild Hs. unfold relay_init, relay_enter. rewrite Hbuild, Hs. simpl.
  split; [done|]. intros [s' Hstep]. inversion Hstep; simpl in *; congruence.
Qed.

(** Where no goroutine can move, with rounds that build and no panic: the
    channel is closed, after 32 rounds or at the end of the capture's
    addresses. *)
Lemma relay_nf_closed (s : probe_state) :
  (forall ttl, relay_builds ttl = true) ->
  rtc rstep (rinit rx0) s -> nf rstep s ->
  ps_panic s = None ->
  ps_closed s = true
  /\ (length (ps_out s) = 32 \/ hops_of (ps_out s) = rstream rx0).
Proof.
  intros Hbuild Hreach Hnf Hp.
  pose proof (relay_never_stuck s Hbuild Hreach) as Hstuck.
  apply relay_inv_reachable in Hreach as (Hstream & Hcap & Hpanic & Hdrv).
  destruct (ps_drv s) as [|ttl|ttl hop| | |] eqn:Hd; try done.
  - exfalso. apply Hnf. eexists. by apply (relay_timeout _ _ _ _ s ttl).
  - exfalso. apply Hnf. eexists. by apply (relay_emit _ _ _ _ s ttl hop).
  - destruct Hdrv as (Hcl & [Hlen|(Hc & _)]); (split; [done|]); [by left|].
    right. unfold relay_pending in Hstream. rewrite Hc in Hstream.
    simpl in Hstream. by rewrite app_nil_r in Hstream.
  - destruct Hdrv as (_ & _ & ? & _). rewrite Hp in *. by eapply not_is_Some_None.
Qed.

(** Where no goroutine can move, the program has panicked exactly when the
    capture goroutine stands at a nil layer or [SendTo] has panicked. *)
Lemma relay_nf_panic (s : probe_state) :
  rtc rstep (rinit rx0) s -> nf rstep s ->
  is_Some (ps_panic s) <-> ps_cap s = CapNilDeref \/ ps_drv s = DrvPanic.
Proof.
  intros Hreach Hnf.
  apply relay_inv_reachable in Hreach as (_ & _ & Hpanic & Hdrv).
  split; [done|].
  destruct (ps_panic s) as [msg|] eqn:Hp; [done|].
  intros [Hc|Hd]; exfalso.
  - apply Hnf. eexists. by apply (relay_nil_deref _ _ _ _ s).
  - rewrite Hd in Hdrv. destruct Hdrv as (_ & _ & ? & _).
    by eapply not_is_Some_None.
Qed.

Lemma relay_out_bound (s : probe_state) :
  rtc rstep (rinit rx0) s ->
  length (ps_out s) <= 32 /\ hops_of (ps_out s) `prefix_of` rstream rx0.
Proof.
  intros (Hstream & _ & _ & Hdrv)%relay_inv_reachable. split; [|by eexists].
  destruct (ps_drv s) as [|ttl|ttl hop| | |]; try done.
  - destruct Hdrv as (? & ? & _). lia.
  - destruct Hdrv as (? & ? & _). lia.
  - destruct Hdrv as (_ & [?|(_ & ?)]); lia.
  - destruct Hdrv as (_ & ?). lia.
  - destruct Hdrv as (_ & ? & _). lia.
Qed.

(** When no packet to be captured makes the capture goroutine dereference
    a nil layer and [SendTo] accepts the destination, no run panics. *)
Lemma relay_no_panic (s : probe_state) :
  SendTo_panics relay_dest = false ->
  Forall (fun packet => relay_classify packet <> NilDeref) rx0 ->
  rtc rstep (rinit rx0) s -> ps_panic s = None.
Proof.
  intros Hok Hrx Hreach.
  assert (Forall (fun packet => relay_classify packet <> NilDeref) (ps_rx s)
          /\ ps_cap s <> CapNilDeref /\ ps_panic s = None) as (_ & _ & ?); [|done].
  assert (forall ttl x,
            Forall (fun packet => relay_classify packet <> NilDeref) (ps_rx x)
            /\ ps_cap x <> CapNilDeref /\ ps_panic x = None ->
            Forall (fun packet => relay_classify packet <> NilDeref)
              (ps_rx (relay_enter relay_builds relay_probes relay_dest ttl x))
            /\ ps_cap (relay_enter relay_builds relay_probes relay_dest ttl x)
               <> CapNilDeref
            /\ ps_panic (relay_enter relay_builds relay_probes relay_dest ttl x) = None)
    as Hen.
  { intros ttl x Hx. unfold relay_enter. rewrite Hok. by destruct (relay_builds ttl). }
  revert s Hreach. apply rtc_ind_r.
  - apply Hen. by split_and!.
  - intros y z _ Hstep (Hrx' & Hcap & Hpanic).
    destruct Hstep as [s packet rx Hp Hc Hr|s Hp Hc|s ip ttl Hp Hc Hd|s ip ttl Hp Hc Hd
                      |s ttl Hp Hc Hd|s ttl Hp Hd|s ttl hop Hp Hd].
    + rewrite Hr in Hrx'. apply Forall_cons in Hrx' as [Hpk Hrx'].
      split_and!; simpl; try done.
      unfold relay_after. by destruct (relay_classify packet).
    + congruence.
    + by split_and!.
    + by split_and!.
    + by split_and!.
    + by split_and!.
    + unfold relay_next. case_decide; [apply Hen|]; by split_and!.
Qed.
End RelayProps.

Section RelayLast.
Variable relay_classify : Captured -> classified.
Variable relay_builds : nat -> bool.
Variable relay_probes : nat -> list nat.
Variable relay_dest : IP.
Variable rx0 : list Captured.

(** The capture goroutine returns only after a packet that ends the
    discovery. *)
Lemma relay_exit_needs_last (s : probe_state) :
  rtc (relay_step relay_classify relay_builds relay_probes relay_dest)
    (relay_init relay_builds relay_probes relay_dest rx0) s ->
  ps_rx s `suffix_of` rx0
  /\ (reached (ps_cap s) = true ->
      exists packet ip, packet ∈ rx0 /\ relay_classify packet = Last ip).
Proof.
  revert s. apply rtc_ind_r.
  - unfold relay_init, relay_enter. destruct (relay_builds 1); [|done].
    by destruct (SendTo_panics relay_dest).
  - intros y z _ Hstep [Hsuf Hlast].
    destruct Hstep as [s packet rx Hp Hc Hr|s Hp Hc|s ip ttl Hp Hc Hd|s ip ttl Hp Hc Hd
                      |s ttl Hp Hc Hd|s ttl Hp Hd|s ttl hop Hp Hd]; simpl.
    + rewrite Hr in Hsuf. split; [by eapply suffix_cons_l|].
      unfold relay_after. destruct (relay_classify packet) as [ip|ip| |] eqn:Hcl; try done.
      intros _. exists packet, ip. split; [|done].
      destruct Hsuf as [k ->]. apply elem_of_app. right. apply list_elem_of_here.
    + done.
    + done.
    + split; [done|]. intros _. apply Hlast. by rewrite Hc.
    + split; [done|]. intros _. apply Hlast. by rewrite Hc.
    + done.
    + unfold relay_next, relay_enter. simpl.
      case_decide; [|done]. destruct (relay_builds (ttl + 1)); [|done].
      by destruct (SendTo_panics relay_dest).
Qed.

(** The end of a run in which no captured packet is answered to, with
    rounds that build and a destination [SendTo] accepts: no panic, and 32
    nil hops before the channel is closed. *)
Lemma relay_quiet_end (s : probe_state) :
  (forall ttl, relay_builds ttl = true) ->
  SendTo_panics relay_dest = false ->
  Forall (fun packet => relay_classify packet = Ignore) rx0 ->
  rtc (relay_step relay_classify relay_builds relay_probes relay_dest)
    (relay_init relay_builds relay_probes relay_dest rx0) s ->
  ps_panic s = None
  /\ (ps_closed s = true -> ps_out s = replicate 32 None).
Proof.
  intros Hbuild Hok Hquiet Hreach.
  assert (ps_panic s = None) as Hp.
  { eapply relay_no_panic; [done| |exact Hreach].
    eapply Forall_impl; [exact Hquiet|]. by intros packet ->. }
  split; [done|]. intros Hcl.
  destruct (relay_out_bound _ _ _ _ _ s Hreach) as [Hlen Hpre].
  rewrite (relay_stream_no_last _ rx0 Hquiet) in Hpre.
  assert (hops_of (ps_out s) = []) as Hnone.
  { destruct Hpre as [k Hk]. symmetry in Hk. by apply app_eq_nil in Hk as [? _]. }
  assert (length (ps_out s) = 32) as H32.
  { pose proof (relay_inv_reachable _ _ _ _ _ s Hreach) as (_ & _ & _ & Hdrv).
    destruct (relay_exit_needs_last s Hreach) as [_ Hlast].
    destruct (ps_drv s) as [|ttl|ttl hop| | |] eqn:Hd; try done.
    - destruct Hdrv as (_ & _ & ?). congruence.
    - destruct Hdrv as (_ & _ & ?). congruence.
    - destruct Hdrv as (_ & [?|(Hc & _)]); [done|].
      destruct Hlast as (packet & ip & Hin & Hl); [by rewrite Hc|].
      rewrite Forall_forall in Hquiet. rewrite (Hquiet packet Hin) in Hl. done.
    - destruct Hdrv as (? & _). congruence.
    - destruct Hdrv as (_ & _ & ? & _). rewrite Hp in *. by eapply not_is_Some_None. }
  rewrite (hops_of_nil _ Hnone). by rewrite H32.
Qed.
End RelayLast.

Lemma has_layers_classify_from (localIP dest : IP) (packet : Captured) :
  has_layers packet -> classify_from localIP dest packet <> NilDeref.
Proof.
  intros [[typeCode Hi] [[src dst] H4]]. unfold classify_from.
  rewrite Hi, H4. destruct (_ && _); [done|]. by destruct (_ && _).
Qed.

Lemma has_layers_classify_between (localIP dest : IP) (packet : Captured) :
  has_layers packet -> classify_between localIP dest packet <> NilDeref.
Proof.
  intros [[typeCode Hi] [[src dst] H4]]. unfold classify_between.
  rewrite Hi, H4. destruct (_ && _); [done|]. by destruct (_ && _).
Qed.

Lemma from_builds_iff (icmpHeaderLen : Z) (localIP dest : IP) (ttl : nat) :
  from_builds icmpHeaderLen localIP dest ttl = true
  <-> is_IPv4 localIP /\ is_IPv4 dest.
Proof.
  unfold from_builds.
  pose proof (buildEncapTraceroutePacket_Ok_iff icmpHeaderLen localIP dest localIP
                localIP (Z.of_nat ttl) hello) as H1.
  pose proof (buildEncapTraceroutePacket_Ok_iff icmpHeaderLen localIP dest dest
                localIP (uint8 (Z.of_nat ttl + 1)) hello) as H2.
  split.
  - destruct (buildEncapTraceroutePacket _ _ _ _ _ (Z.of_nat ttl) _); try done.
    intros _. destruct (proj1 H1) as (? & ? & _); [by eexists|]. done.
  - intros [Hl Hd].
    destruct (proj2 H1) as [b1 ->]; [done|].
    destruct (proj2 H2) as [b2 ->]; done.
Qed.

Lemma from_builds_accepts (icmpHeaderLen : Z) (localIP dest : IP) (ttl : nat) :
  from_builds icmpHeaderLen localIP dest ttl = true -> SendTo_panics dest = false.
Proof.
  intros (_ & [a4 Ha4])%from_builds_iff. apply SendTo_accepts_length.
  by apply (IP_To4_Some_length dest a4).
Qed.

Lemma GetPathChannelFrom_Ok (icmpHeaderLen : Z) (tc : TransportChannel)
    (dest : IP) (timeout : Z) (findLocal : outcome IP) (rx : list Captured)
    (localIP : IP) (s0 : probe_state) :
  GetPathChannelFrom icmpHeaderLen tc dest timeout findLocal rx = Ok (localIP, s0) ->
  tc_filter tc = "icmp" /\ findLocal = Ok localIP
  /\ s0 = relay_init (from_builds icmpHeaderLen localIP dest)
            (fun ttl => [ttl; ttl + 1]) dest rx.
Proof.
  unfold GetPathChannelFrom. case_decide as Hf; [done|].
  destruct findLocal as [found| | |]; try done.
  rewrite obind_Ok. intros [= <- <-]. split_and!; [|done..].
  by destruct (decide (tc_filter tc = "icmp")).
Qed.

(** X21: the path discovery of [GetPathChannelFrom] between two addresses
    that have a 4-byte form always ends, whatever is captured and even if
    nothing is: every run of the two goroutines is finite; the reader
    receives 32 hops at most, and the hops that are not nil are, in order,
    the first addresses the capture yields (the source of each TTL-exceeded
    answer addressed to the local address, then the destination of the
    first echo request that comes from the remote host). A run ends in one
    of two ways. Either the capture goroutine has come to a packet whose
    missing ICMPv4 or IPv4 layer it dereferences, and has panicked at the
    nil pointer, which ends the program with the channel as it stands; a
    run ends so exactly when the capture goroutine has come to such a
    packet, and never when every captured packet has both layers. Or the
    channel is closed, after 32 rounds or after all the addresses that the
    capture yields. When no captured packet is answered to, the run ends
    without a panic and the reader receives exactly 32 nil hops before the
    channel is closed, also when nothing at all is captured: unlike
    [GetPathChannelTo], this discovery does not wait for a first packet.
    No call of [SendTo] in the loop panics. *)
Theorem GetPathChannelFrom_closes (icmpHeaderLen : Z) (tc : TransportChannel)
    (dest : IP) (timeout : Z) (findLocal : outcome IP) (rx : list Captured)
    (localIP : IP) (s0 : probe_state) :
  is_IPv4 localIP -> is_IPv4 dest ->
  GetPathChannelFrom icmpHeaderLen tc dest timeout findLocal rx = Ok (localIP, s0) ->
  (forall tc' bytes msg, (SendTo tc' bytes dest).1 <> Panic msg)
  /\ sn (relay_step (classify_from localIP dest)
           (from_builds icmpHeaderLen localIP dest) (fun ttl => [ttl; ttl + 1]) dest) s0
  /\ forall s,
       rtc (relay_step (classify_from localIP dest)
              (from_builds icmpHeaderLen localIP dest) (fun ttl => [ttl; ttl + 1]) dest)
         s0 s ->
       length (ps_out s) <= 32
       /\ hops_of (ps_out s) `prefix_of` relay_stream (classify_from localIP dest) rx
       /\ (nf (relay_step (classify_from localIP dest)
                 (from_builds icmpHeaderLen localIP dest) (fun ttl => [ttl; ttl + 1])
                 dest) s ->
           (is_Some (ps_panic s) <-> ps_cap s = CapNilDeref)
           /\ (Forall has_layers rx -> ps_panic s = None)
           /\ (ps_panic s = None ->
               ps_closed s = true
               /\ (length (ps_out s) = 32
                   \/ hops_of (ps_out s) = relay_stream (classify_from localIP dest) rx))
           /\ (Forall (fun packet => classify_from localIP dest packet = Ignore) rx ->
               ps_panic s = None /\ ps_closed s = true
               /\ ps_out s = replicate 32 None)).
Proof.
  intros Hlocal Hdest (_ & _ & ->)%GetPathChannelFrom_Ok.
  assert (forall ttl, from_builds icmpHeaderLen localIP dest ttl = true) as Hbuild.
  { intros ttl. by apply from_builds_iff. }
  pose proof (from_builds_accepts _ _ _ 1 (Hbuild 1)) as Hok.
  split.
  { intros tc' bytes msg Hp. destruct Hdest as [a4 Ha4].
    destruct (proj1 (SendTo_panics_iff tc' bytes dest)) as [H4 H16]; [by eexists|].
    by destruct (IP_To4_Some_length dest a4 Ha4). }
  split; [apply relay_sn|].
  intros s Hreach.
  destruct (relay_out_bound _ _ _ _ _ s Hreach) as [Hlen Hpre].
  split; [done|]. split; [done|]. intros Hnf.
  pose proof (relay_nf_panic _ _ _ _ _ s Hreach Hnf) as Hpanic.
  pose proof (relay_inv_reachable _ _ _ _ _ s Hreach) as (_ & _ & _ & Hdrv).
  assert (ps_drv s <> DrvPanic) as Hnodrv.
  { intros Hd. rewrite Hd in Hdrv. destruct Hdrv as (_ & _ & _ & ?). congruence. }
  split_and!.
  - rewrite Hpanic. split; [by intros [?|?]|by left].
  - intros Hrx. eapply relay_no_panic; [exact Hok| |exact Hreach].
    eapply Forall_impl; [exact Hrx|]. intros packet. apply has_layers_classify_from.
  - intros Hp. by apply (relay_nf_closed _ _ _ _ _ s Hbuild Hreach Hnf).
  - intros Hquiet.
    destruct (relay_quiet_end _ _ _ _ _ s Hbuild Hok Hquiet Hreach) as [Hp Hout].
    destruct (relay_nf_closed _ _ _ _ _ s Hbuild Hreach Hnf Hp) as [Hcl _].
    split; [done|]. split; [done|]. by apply Hout.
Qed.

Lemma GetPathChannelFrom_closes_witness :
  sn (relay_step (classify_from [10; 0; 0; 1]%Z [10; 0; 0; 9]%Z)
        (from_builds 8 [10; 0; 0; 1]%Z [10; 0; 0; 9]%Z) (fun ttl => [ttl; ttl + 1])
        [10; 0; 0; 9]%Z)
    (relay_init (from_builds 8 [10; 0; 0; 1]%Z [10; 0; 0; 9]%Z)
       (fun ttl => [ttl; ttl + 1]) [10; 0; 0; 9]%Z [])
  /\ forall s,
       rtc (relay_step (classify_from [10; 0; 0; 1]%Z [10; 0; 0; 9]%Z)
              (from_builds 8 [10; 0; 0; 1]%Z [10; 0; 0; 9]%Z) (fun ttl => [ttl; ttl + 1])
              [10; 0; 0; 9]%Z)
         (relay_init (from_builds 8 [10; 0; 0; 1]%Z [10; 0; 0; 9]%Z)
            (fun ttl => [ttl; ttl + 1]) [10; 0; 0; 9]%Z []) s ->
       nf (relay_step (classify_from [10; 0; 0; 1]%Z [10; 0; 0; 9]%Z)
             (from_builds 8 [10; 0; 0; 1]%Z [10; 0; 0; 9]%Z)
             (fun ttl => [ttl; ttl + 1]) [10; 0; 0; 9]%Z) s ->
       ps_panic s = None /\ ps_closed s = true /\ ps_out s = replicate 32 None.
Proof.
  destruct (GetPathChannelFrom_closes 8 (example_tc "icmp") [10; 0; 0; 9]%Z 100
              (Ok [10; 0; 0; 1]%Z) [] [10; 0; 0; 1]%Z
              (relay_init (from_builds 8 [10; 0; 0; 1]%Z [10; 0; 0; 9]%Z)
                 (fun ttl => [ttl; ttl + 1]) [10; 0; 0; 9]%Z []))
    as (_ & Hsn & Hruns); [by eexists|by eexists|reflexivity|].
  split; [exact Hsn|]. intros s Hreach Hnf.
  destruct (Hruns s Hreach) as (_ & _ & Hend).
  destruct (Hend Hnf) as (_ & _ & _ & Hquiet).
  by apply Hquiet.
Defined.

(** X22: when the local address or the remote host has no 4-byte form,
    the first build of [GetPathChannelFrom] fails and the probing goroutine
    sends the error on [done], a channel that only its own [select] reads:
    it waits there for ever. No probe is sent, the reader never receives a
    hop, and the channel is never closed: a loop that ranges over the
    channel, as the one of [GetPathFrom], does not end. *)
Theorem GetPathChannelFrom_build_error_hangs (icmpHeaderLen : Z)
    (tc : TransportChannel) (dest : IP) (timeout : Z) (findLocal : outcome IP)
    (rx : list Captured) (localIP : IP) (s0 s : probe_state) :
  ~ (is_IPv4 localIP /\ is_IPv4 dest) ->
  GetPathChannelFrom icmpHeaderLen tc dest timeout findLocal rx = Ok (localIP, s0) ->
  rtc (relay_step (classify_from localIP dest)
         (from_builds icmpHeaderLen localIP dest) (fun ttl => [ttl; ttl + 1]) dest) s0 s ->
  ps_drv s = DrvStuck /\ ps_out s = [] /\ ps_sent s = [] /\ ps_closed s = false.
Proof.
  intros Hbad (_ & _ & ->)%GetPathChannelFrom_Ok Hreach.
  eapply relay_stuck_forever; [|exact Hreach].
  destruct (from_builds icmpHeaderLen localIP dest 1) eqn:Hb; [|done].
  by apply from_builds_iff in Hb.
Qed.

Lemma GetPathChannelFrom_build_error_hangs_witness :
  GetPathChannelFrom 8 (example_tc "icmp") [10; 0; 0; 9; 7]%Z 100 (Ok [10; 0; 0; 1]%Z)
    [unrelated_packet]
  = Ok ([10; 0; 0; 1]%Z,
        relay_init (from_builds 8 [10; 0; 0; 1]%Z [10; 0; 0; 9; 7]%Z)
          (fun ttl => [ttl; ttl + 1]) [10; 0; 0; 9; 7]%Z [unrelated_packet])
  /\ forall s,
       rtc (relay_step (classify_from [10; 0; 0; 1]%Z [10; 0; 0; 9; 7]%Z)
              (from_builds 8 [10; 0; 0; 1]%Z [10; 0; 0; 9; 7]%Z)
              (fun ttl => [ttl; ttl + 1]) [10; 0; 0; 9; 7]%Z)
         (relay_init (from_builds 8 [10; 0; 0; 1]%Z [10; 0; 0; 9; 7]%Z)
            (fun ttl => [ttl; ttl + 1]) [10; 0; 0; 9; 7]%Z [unrelated_packet]) s ->
       ps_out s = [] /\ ps_closed s = false.
Proof.
  split; [reflexivity|]. intros s Hreach.
  destruct (GetPathChannelFrom_build_error_hangs 8 (example_tc "icmp")
              [10; 0; 0; 9; 7]%Z 100 (Ok [10; 0; 0; 1]%Z) [unrelated_packet]
              [10; 0; 0; 1]%Z
              (relay_init (from_builds 8 [10; 0; 0; 1]%Z [10; 0; 0; 9; 7]%Z)
                 (fun ttl => [ttl; ttl + 1]) [10; 0; 0; 9; 7]%Z [unrelated_packet]) s)
    as (_ & Hout & _ & Hcl); [|reflexivity|exact Hreach|done].
  intros [_ [a4 Ha4]]. discriminate Ha4.
Defined.

(** X23: [GetPathChannelFromSourceToDest] with the filter ["icmp"] and a
    local address. When the source is the local address the call is the
    call of [GetPathChannelTo] for the destination, with no override of the
    source address. Otherwise the discovery through the source host starts,
    whatever the builder returns. For a source that is neither 4 nor 16
    bytes long the first call of [SendTo] panics: the deferred [close] runs
    and the program ends before any hop. For a source of 4 or 16 bytes no
    call of [SendTo] panics and every run is finite; the reader receives 32
    hops at most, and the hops that are not nil are in order the first
    addresses the capture yields (the source of each TTL-exceeded answer
    addressed to the local address, then the source of the first echo
    reply of the destination). A run then ends in one of two ways. Either
    the capture goroutine has come to a packet whose missing ICMPv4 or IPv4
    layer it dereferences, and has panicked at the nil pointer, which ends
    the program with the channel as it stands; a run ends so exactly when
    the capture goroutine has come to such a packet, and never when every
    captured packet has both layers. Or the channel is closed, after 32
    rounds or after all the addresses of the capture. With no packet
    answered to, the run ends without a panic and the reader receives
    exactly 32 nil hops before the channel is closed. *)
Theorem GetPathChannelFromSourceToDest_routes (build_fails : nat -> bool)
    (tc : TransportChannel) (sourceIP dest : IP) (timeout : Z)
    (findLocal findSource : outcome IP) (rx : list Captured) (localIP : IP) :
  tc_filter tc = "icmp" -> findLocal = Ok localIP ->
  (IP_Equal sourceIP localIP = true ->
   GetPathChannelFromSourceToDest build_fails tc sourceIP dest timeout findLocal
     findSource rx
   = match GetPathChannelTo build_fails tc (mkParams dest None timeout) findSource rx with
     | Ok (src, s0) => Ok (StartedTo src s0)
     | Err e => Err e
     | Panic msg => Panic msg
     | Blocked site => Blocked site
     end)
  /\ (IP_Equal sourceIP localIP = false ->
      length sourceIP <> 4 -> length sourceIP <> 16 ->
      (forall tc' bytes, exists msg, (SendTo tc' bytes sourceIP).1 = Panic msg)
      /\ GetPathChannelFromSourceToDest build_fails tc sourceIP dest timeout findLocal
           findSource rx
         = Ok (StartedRelay localIP
                 (mkProbe rx CapRecv false DrvPanic [] [] true
                    (Some "slice bounds out of range")))
      /\ nf (relay_step (classify_between localIP dest) (fun _ => true)
               (fun ttl => [ttl]) sourceIP)
           (mkProbe rx CapRecv false DrvPanic [] [] true
              (Some "slice bounds out of range")))
  /\ (IP_Equal sourceIP localIP = false ->
      length sourceIP = 4 \/ length sourceIP = 16 ->
      exists s0,
        GetPathChannelFromSourceToDest build_fails tc sourceIP dest timeout findLocal
          findSource rx = Ok (StartedRelay localIP s0)
        /\ (forall tc' bytes msg, (SendTo tc' bytes sourceIP).1 <> Panic msg)
        /\ sn (relay_step (classify_between localIP dest) (fun _ => true)
                 (fun ttl => [ttl]) sourceIP) s0
        /\ forall s,
             rtc (relay_step (classify_between localIP dest) (fun _ => true)
                    (fun ttl => [ttl]) sourceIP) s0 s ->
             length (ps_out s) <= 32
             /\ hops_of (ps_out s)
                  `prefix_of` relay_stream (classify_between localIP dest) rx
             /\ (nf (relay_step (classify_between localIP dest) (fun _ => true)
                       (fun ttl => [ttl]) sourceIP) s ->
                 (is_Some (ps_panic s) <-> ps_cap s = CapNilDeref)
                 /\ (Forall has_layers rx -> ps_panic s = None)
                 /\ (ps_panic s = None ->
                     ps_closed s = true
                     /\ (length (ps_out s) = 32
                         \/ hops_of (ps_out s)
                            = relay_stream (classify_between localIP dest) rx))
                 /\ (Forall (fun packet =>
                               classify_between localIP dest packet = Ignore) rx ->
                     ps_panic s = None /\ ps_closed s = true
                     /\ ps_out s = replicate 32 None))).
Proof.
  intros Hf ->. unfold GetPathChannelFromSourceToDest.
  rewrite decide_False by (rewrite Hf; intros Hc; by apply Hc).
  rewrite obind_Ok. split.
  { intros ->. by destruct (GetPathChannelTo _ _ _ _ _) as [[src s0]| | |]. }
  split.
  { intros -> H4 H16.
    assert (SendTo_panics sourceIP = true) as Hs by (by apply SendTo_panics_length).
    destruct (relay_init_panics (classify_between localIP dest) (fun _ => true)
                (fun ttl => [ttl]) sourceIP rx eq_refl Hs) as [Hinit Hnf].
    split; [|split].
    - intros tc' bytes. by apply SendTo_panics_iff.
    - by rewrite Hinit.
    - by rewrite <- Hinit. }
  intros -> Hsrc. eexists. split; [reflexivity|].
  pose proof (proj2 (SendTo_accepts_length sourceIP) Hsrc) as Hok.
  split.
  { intros tc' bytes msg Hp.
    destruct (proj1 (SendTo_panics_iff tc' bytes sourceIP)) as [H4 H16]; [by eexists|].
    by destruct Hsrc. }
  split; [apply relay_sn|].
  intros s Hreach.
  destruct (relay_out_bound _ _ _ _ _ s Hreach) as [Hlen Hpre].
  split; [done|]. split; [done|]. intros Hnf.
  pose proof (relay_nf_panic _ _ _ _ _ s Hreach Hnf) as Hpanic.
  pose proof (relay_inv_reachable _ _ _ _ _ s Hreach) as (_ & _ & _ & Hdrv).
  assert (ps_drv s <> DrvPanic) as Hnodrv.
  { intros Hd. rewrite Hd in Hdrv. destruct Hdrv as (_ & _ & _ & ?). congruence. }
  split_and!.
  - rewrite Hpanic. split; [by intros [?|?]|by left].
  - intros Hrx. eapply relay_no_panic; [exact Hok| |exact Hreach].
    eapply Forall_impl; [exact Hrx|]. intros packet. apply has_layers_classify_between.
  - intros Hp. by apply (relay_nf_closed _ _ _ _ _ s (fun _ => eq_refl) Hreach Hnf).
  - intros Hquiet.
    destruct (relay_quiet_end _ _ _ _ _ s (fun _ => eq_refl) Hok Hquiet Hreach)
      as [Hp Hout].
    destruct (relay_nf_closed _ _ _ _ _ s (fun _ => eq_refl) Hreach Hnf Hp) as [Hcl _].
    split; [done|]. split; [done|]. by apply Hout.
Qed.

Lemma GetPathChannelFromSourceToDest_routes_witness :
  GetPathChannelFromSourceToDest (fun _ => false) (example_tc "icmp")
    [10; 0; 0; 1]%Z [10; 0; 0; 9]%Z 100 (Ok [10; 0; 0; 1]%Z) (Ok [10; 0; 0; 1]%Z)
    [unrelated_packet]
  = Ok (StartedTo [10; 0; 0; 1]%Z
          (probe_init (fun _ => false) (mkParams [10; 0; 0; 9]%Z None 100)
             [unrelated_packet]))
  /\ (exists s0,
        GetPathChannelFromSourceToDest (fun _ => false) (example_tc "icmp")
          [10; 0; 0; 5]%Z [10; 0; 0; 9]%Z 100 (Ok [10; 0; 0; 1]%Z) (Ok [10; 0; 0; 1]%Z)
          [unrelated_packet]
        = Ok (StartedRelay [10; 0; 0; 1]%Z s0))
  /\ GetPathChannelFromSourceToDest (fun _ => false) (example_tc "icmp")
       [10; 0; 0; 5; 7]%Z [10; 0; 0; 9]%Z 100 (Ok [10; 0; 0; 1]%Z) (Ok [10; 0; 0; 1]%Z)
       [unrelated_packet]
     = Ok (StartedRelay [10; 0; 0; 1]%Z
             (mkProbe [unrelated_packet] CapRecv false DrvPanic [] [] true
                (Some "slice bounds out of range"))).
Proof.
  split; [|split].
  - destruct (GetPathChannelFromSourceToDest_routes (fun _ => false) (example_tc "icmp")
                [10; 0; 0; 1]%Z [10; 0; 0; 9]%Z 100 (Ok [10; 0; 0; 1]%Z)
                (Ok [10; 0; 0; 1]%Z) [unrelated_packet] [10; 0; 0; 1]%Z eq_refl eq_refl)
      as [Hto _].
    rewrite Hto; reflexivity.
  - destruct (GetPathChannelFromSourceToDest_routes (fun _ => false) (example_tc "icmp")
                [10; 0; 0; 5]%Z [10; 0; 0; 9]%Z 100 (Ok [10; 0; 0; 1]%Z)
                (Ok [10; 0; 0; 1]%Z) [unrelated_packet] [10; 0; 0; 1]%Z eq_refl eq_refl)
      as (_ & _ & Hrelay).
    destruct Hrelay as (s0 & Hrun & _); [reflexivity|by left|].
    by exists s0.
  - destruct (GetPathChannelFromSourceToDest_routes (fun _ => false) (example_tc "icmp")
                [10; 0; 0; 5; 7]%Z [10; 0; 0; 9]%Z 100 (Ok [10; 0; 0; 1]%Z)
                (Ok [10; 0; 0; 1]%Z) [unrelated_packet] [10; 0; 0; 1]%Z eq_refl eq_refl)
      as (_ & Hpanic & _).
    destruct Hpanic as (_ & Hrun & _); [reflexivity|simpl; lia|simpl; lia|].
    exact Hrun.
Defined.

(** The run in which every round times out reaches the end of the loop. *)
Lemma relay_timeouts_close (relay_classify : Captured -> classified)
    (relay_builds : nat -> bool) (relay_probes : nat -> list nat) (relay_dest : IP)
    (n ttl : nat) (s : probe_state) :
  (forall t, relay_builds t = true) ->
  SendTo_panics relay_dest = false ->
  ps_panic s = None ->
  ps_drv s = DrvSelect ttl -> ttl + n = 32 ->
  exists s',
    rtc (relay_step relay_classify relay_builds relay_probes relay_dest) s s'
    /\ ps_closed s' = true.
Proof.
  intros Hbuild Hok. revert ttl s. induction n as [|n IH]; intros ttl s Hp Hd Httl.
  - eexists. split; [|shelve].
    eapply rtc_l; [by apply (relay_timeout _ _ _ _ s ttl)|].
    eapply rtc_l; [by apply (relay_emit _ _ _ _ _ ttl None)|].
    apply rtc_refl.
    Unshelve. unfold relay_next. by rewrite decide_False by lia.
  - destruct (IH (ttl + 1)
                (relay_next relay_builds relay_probes relay_dest ttl
                   (mkProbe (ps_rx s) (ps_cap s) (ps_readySent s) (DrvEmit ttl None)
                      (ps_sent s) (ps_out s ++ [None]) (ps_closed s) (ps_panic s))))
      as (s' & Hrun & Hcl); [| |lia|].
    { unfold relay_next, relay_enter. rewrite decide_True by lia.
      by rewrite Hbuild, Hok. }
    { unfold relay_next, relay_enter. rewrite decide_True by lia.
      by rewrite Hbuild, Hok. }
    exists s'. split; [|done].
    eapply rtc_l; [by apply (relay_timeout _ _ _ _ s ttl)|].
    eapply rtc_l; [by apply (relay_emit _ _ _ _ _ ttl None)|].
    exact Hrun.
Qed.

(** X24: [GetPathFrom] collects the hops of [GetPathChannelFrom] until the
    channel is closed. With a filter other than ["icmp"] it returns the
    empty path and the error of the filter, and nothing else; with the
    filter ["icmp"] and no local address it returns the empty path and the
    error of [FindLocalIP]. With the filter ["icmp"] and a local address:
    when the local address and the remote host have a 4-byte form it can
    always return, even if nothing is captured, every path it returns has
    a nil error and 32 entries at most, and a path returned when no
    captured packet is answered to is made of 32 nil hops; when one of the
    two addresses has no 4-byte form it does not return. *)
Theorem GetPathFrom_results (icmpHeaderLen : Z) (tc : TransportChannel)
    (dest : IP) (timeout : Z) (findLocal : outcome IP) (rx : list Captured) :
  (tc_filter tc <> "icmp" ->
   forall result,
     GetPathFrom_returns icmpHeaderLen tc dest timeout findLocal rx result
     <-> result = ([], Some ("BPF filter must be icmp: got " +:+ tc_filter tc
                             +:+ " instead")))
  /\ (tc_filter tc = "icmp" ->
      forall e, findLocal = Err e ->
        forall result,
          GetPathFrom_returns icmpHeaderLen tc dest timeout findLocal rx result
          <-> result = ([], Some e))
  /\ (tc_filter tc = "icmp" ->
      forall localIP, findLocal = Ok localIP ->
        (is_IPv4 localIP -> is_IPv4 dest ->
         (exists path,
            GetPathFrom_returns icmpHeaderLen tc dest timeout findLocal rx (path, None))
         /\ (forall path err,
               GetPathFrom_returns icmpHeaderLen tc dest timeout findLocal rx (path, err) ->
               err = None /\ length path <= 32
               /\ (Forall (fun packet => classify_from localIP dest packet = Ignore) rx ->
                   path = replicate 32 [])))
        /\ (~ (is_IPv4 localIP /\ is_IPv4 dest) ->
            forall result,
              ~ GetPathFrom_returns icmpHeaderLen tc dest timeout findLocal rx result)).
Proof.
  split.
  { intros Hf result. unfold GetPathFrom_returns, GetPathChannelFrom.
    by rewrite decide_True by done. }
  split.
  { intros Hf e -> result. unfold GetPathFrom_returns, GetPathChannelFrom.
    by rewrite decide_False by (rewrite Hf; intros Hc; by apply Hc). }
  intros Hf localIP ->. unfold GetPathFrom_returns, GetPathChannelFrom.
  rewrite decide_False by (rewrite Hf; intros Hc; by apply Hc).
  rewrite obind_Ok. split.
  - intros Hlocal Hdest.
    assert (forall ttl, from_builds icmpHeaderLen localIP dest ttl = true) as Hbuild.
    { intros ttl. by apply from_builds_iff. }
    pose proof (from_builds_accepts _ _ _ 1 (Hbuild 1)) as Hok.
    split.
    + destruct (relay_timeouts_close (classify_from localIP dest)
                  (from_builds icmpHeaderLen localIP dest) (fun ttl => [ttl; ttl + 1])
                  dest 31 1
                  (relay_init (from_builds icmpHeaderLen localIP dest)
                     (fun ttl => [ttl; ttl + 1]) dest rx))
        as (s' & Hrun & Hcl); [done|done| | |done|].
      { unfold relay_init, relay_enter. by rewrite Hbuild, Hok. }
      { unfold relay_init, relay_enter. by rewrite Hbuild, Hok. }
      by exists (default [] <$> ps_out s'), s'.
    + intros path err (s & Hreach & Hcl & [= -> ->]). split; [done|].
      destruct (relay_out_bound _ _ _ _ _ s Hreach) as [Hlen Hpre].
      split; [by rewrite length_fmap|]. intros Hquiet.
      destruct (relay_quiet_end _ _ _ _ _ s Hbuild Hok Hquiet Hreach) as [_ Hout].
      rewrite (Hout Hcl). by rewrite fmap_replicate.
  - intros Hbad result (s & Hreach & Hcl & _).
    destruct (relay_stuck_forever (classify_from localIP dest)
                (from_builds icmpHeaderLen localIP dest) (fun ttl => [ttl; ttl + 1])
                dest rx s) as (_ & _ & _ & Hopen); [|done|congruence].
    destruct (from_builds icmpHeaderLen localIP dest 1) eqn:Hb; [|done].
    by apply from_builds_iff in Hb.
Qed.

Lemma GetPathFrom_results_witness :
  (exists path,
     GetPathFrom_returns 8 (example_tc "icmp") [10; 0; 0; 9]%Z 100 (Ok [10; 0; 0; 1]%Z) []
       (path, None))
  /\ forall result,
       ~ GetPathFrom_returns 8 (example_tc "icmp") [10; 0; 0; 9; 7]%Z 100
           (Ok [10; 0; 0; 1]%Z) [] result.
Proof.
  split.
  - destruct (GetPathFrom_results 8 (example_tc "icmp") [10; 0; 0; 9]%Z 100
                (Ok [10; 0; 0; 1]%Z) []) as (_ & _ & H).
    destruct (H eq_refl [10; 0; 0; 1]%Z eq_refl) as [Hok _].
    destruct Hok as [Hex _]; [by eexists|by eexists|]. exact Hex.
  - destruct (GetPathFrom_results 8 (example_tc "icmp") [10; 0; 0; 9; 7]%Z 100
                (Ok [10; 0; 0; 1]%Z) []) as (_ & _ & H).
    destruct (H eq_refl [10; 0; 0; 1]%Z eq_refl) as [_ Hbad].
    apply Hbad. intros [_ [a4 Ha4]]. discriminate Ha4.
Defined.

(** ** traffic.go: the goroutine of [Probe] *)

Lemma filter_fresh_listener (entries : list (nat * nat)) (l q : nat) :
  Forall (fun e => e.1 < l) entries ->
  filter (fun e => e.1 <> l) (entries ++ [(l, q)]) = entries.
Proof.
  intros Hfresh. rewrite filter_app, filter_cons. simpl.
  rewrite decide_False by (intros H; by apply H). rewrite filter_nil, app_nil_r.
  induction Hfresh as [|e entries He _ IH]; [done|].
  rewrite filter_cons. rewrite decide_True by lia. by rewrite IH.
Qed.

Section ProbeProps.
Variable json_Marshal : BoomerangPayload -> list Z + string.
Variable json_Unmarshal : list Z -> option BoomerangPayload.
Variable IP_String : IP -> string.

Lemma Boomerang_returns (tc : TransportChannel) (path : Path) (timeout : Z)
    (env : BoomerangEnv) :
  path <> [] ->
  exists r tc',
    Boomerang json_Marshal json_Unmarshal IP_String tc path timeout env = Ok (r, tc').
Proof.
  intros Hne. destruct (decide (2 <= length path)) as [Hlen|Hshort].
  { by apply Boomerang_total. }
  assert (length path = 1) as H1 by (destruct path; [done|simpl in *; lia]).
  unfold Boomerang. rewrite decide_False by lia.
  rewrite (index_hop path (length path - 1)) by lia. rewrite obind_Ok.
  destruct (json_Marshal _) as [payload|err]; [|by eexists _, _].
  rewrite CreateRoundTripPacketForPath_short by lia. by eexists _, _.
Qed.

(** One run of [Boomerang] adds one entry to the table of listeners when
    the reply is seen or the packet cannot be sent, and none otherwise. *)
Lemma Boomerang_listener_count (tc tc' : TransportChannel) (path : Path)
    (timeout : Z) (env : BoomerangEnv) (r : BoomerangResult) :
  listeners_fresh tc ->
  Boomerang json_Marshal json_Unmarshal IP_String tc path timeout env = Ok (r, tc') ->
  listeners_fresh tc'
  /\ length (lm_entries (listenerMap tc'))
     = length (lm_entries (listenerMap tc)) + (if leaves_listener r then 1 else 0).
Proof.
  intros Hfresh Hrun.
  unfold Boomerang in Hrun.
  destruct (decide (length path = 0)); [done|].
  rewrite (index_hop path (length path - 1)) in Hrun by lia.
  rewrite obind_Ok in Hrun.
  destruct (json_Marshal _) as [payload|err].
  2:{ injection Hrun as <- <-. split; [done|]. simpl. lia. }
  destruct (CreateRoundTripPacketForPath path payload) as [bytes|e| |]; try done.
  2:{ injection Hrun as <- <-. split; [done|]. simpl. lia. }
  unfold NewListener, RegisterListener, make_chan in Hrun. simpl in Hrun.
  set (l := lm_next (listenerMap tc)) in *.
  set (q := fresh (dom (tc_chans tc))) in *.
  assert (Forall (fun e : nat * nat => e.1 < S l)
            (lm_entries (listenerMap tc) ++ [(l, q)])) as Hfresh1.
  { apply Forall_app. split.
    - eapply Forall_impl; [exact Hfresh|]. simpl. intros e He. fold l in He. lia.
    - apply Forall_singleton. simpl. lia. }
  destruct (SendToPath _ bytes path) as [rs tc3] eqn:Hsp.
  assert (listenerMap tc3 = mkLM (lm_entries (listenerMap tc) ++ [(l, q)]) (S l)) as Hlm.
  { revert Hsp. unfold SendToPath. case_decide; [by intros [= <- <-]|].
    destruct (index path 1) as [hop1| | |]; try by intros [= <- <-].
    unfold SendTo. simpl.
    destruct (IP_To4 hop1).
    - destruct (tc_sendto tc _ _ _); by intros [= <- <-].
    - destruct (IP_To16 hop1); [|by intros [= <- <-]].
      destruct (tc_sendto tc _ _ _); by intros [= <- <-]. }
  destruct rs as [[]|e| |]; try done.
  - destruct (find _ _) as [[packet rxTime]|].
    + injection Hrun as <- <-. unfold listeners_fresh. rewrite Hlm. simpl.
      split; [done|]. rewrite length_app. simpl. lia.
    + destruct (UnregisterListener tc3 l) as [b tc4] eqn:Hun.
      injection Hrun as <- <-.
      unfold UnregisterListener, listener_queue in Hun. rewrite Hlm in Hun.
      simpl in Hun. rewrite lookup_listener_fresh in Hun by done.
      injection Hun as <- <-. unfold listeners_fresh. simpl.
      rewrite filter_fresh_listener by done. split; [|lia].
      eapply Forall_impl; [exact Hfresh|]. simpl. intros e He. fold l in He. lia.
  - injection Hrun as <- <-. unfold listeners_fresh. rewrite Hlm. simpl.
    split; [done|]. rewrite length_app. simpl. lia.
Qed.

Lemma Probe_rounds_listeners (tc : TransportChannel) (path : Path) (timeout : Z)
    (envs : list BoomerangEnv) :
  listeners_fresh tc -> path <> [] ->
  exists results tc',
    Probe_rounds json_Marshal json_Unmarshal IP_String tc path timeout envs
      = Ok (results, tc')
    /\ length results = length envs
    /\ listeners_fresh tc'
    /\ length (lm_entries (listenerMap tc'))
       = length (lm_entries (listenerMap tc))
         + length (filter (fun r => leaves_listener r = true) results).
Proof.
  intros Hfresh Hne. revert tc Hfresh.
  induction envs as [|env rest IH]; intros tc Hfresh.
  { exists [], tc. simpl. split_and!; (done || lia). }
  simpl.
  destruct (Boomerang_returns tc path timeout env Hne) as (r & tc1 & Hrun).
  rewrite Hrun.
  destruct (Boomerang_listener_count tc tc1 path timeout env r Hfresh Hrun)
    as [Hfresh1 Hcount].
  destruct (IH tc1 Hfresh1) as (rs & tc2 & -> & Hlen & Hfresh2 & Hcount2).
  exists (r :: rs), tc2. split; [done|]. split; [simpl; lia|]. split; [done|].
  rewrite Hcount2, Hcount, filter_cons.
  destruct (leaves_listener r).
  - rewrite decide_True by done. simpl. lia.
  - rewrite decide_False by done. lia.
Qed.

(** X25: the goroutine of [Probe] on a path that is not empty sends one
    result for each of its [numPackets] iterations (none when [numPackets]
    is zero or negative) and then closes the channel; it never panics.
    Every result whose reply was seen, or whose packet could not be sent,
    leaves its listener in the table of the transport channel: after the
    loop the table has grown by the number of these results, so a channel
    that is probed without end grows without end. On the empty path the
    first call of [Boomerang] panics. *)
Theorem Probe_leaves_listeners (tc : TransportChannel) (path : Path)
    (numPackets timeout : Z) (env : Z -> BoomerangEnv) :
  listeners_fresh tc ->
  (path <> [] ->
   exists results tc',
     Probe_goroutine json_Marshal json_Unmarshal IP_String tc path numPackets timeout env
       = Ok (results, tc')
     /\ Z.of_nat (length results) = Z.max 0 numPackets
     /\ listeners_fresh tc'
     /\ length (lm_entries (listenerMap tc'))
        = length (lm_entries (listenerMap tc))
          + length (filter (fun r => leaves_listener r = true) results))
  /\ (path = [] -> (0 < numPackets)%Z ->
      Probe_goroutine json_Marshal json_Unmarshal IP_String tc path numPackets timeout env
        = Panic "index out of range").
Proof.
  intros Hfresh. unfold Probe_goroutine. split.
  - intros Hne.
    destruct (Probe_rounds_listeners tc path timeout
                ((fun i => env (Z.of_nat i)) <$> seq 1 (Z.to_nat numPackets))
                Hfresh Hne) as (results & tc' & Hrun & Hlen & Hfresh' & Hcount).
    exists results, tc'. split; [done|]. split; [|done].
    rewrite Hlen, length_fmap, length_seq. lia.
  - intros -> Hpos.
    destruct (Z.to_nat numPackets) as [|n] eqn:Hn; [lia|]. done.
Qed.
End ProbeProps.

Lemma Probe_leaves_listeners_witness :
  exists results tc',
    Probe_goroutine example_Marshal example_Unmarshal example_IP_String
      (example_tc "ip proto 4") example_path 2 3
      (fun i => if decide (i = 1)%Z then example_env_reply else example_env_silent)
    = Ok (results, tc')
    /\ length results = 2
    /\ length (lm_entries (listenerMap tc'))
       = length (filter (fun r => leaves_listener r = true) results).
Proof.
  destruct (Probe_leaves_listeners example_Marshal example_Unmarshal example_IP_String
              (example_tc "ip proto 4") example_path 2 3
              (fun i => if decide (i = 1)%Z then example_env_reply else example_env_silent))
    as [Hrun _]; [constructor|].
  destruct Hrun as (results & tc' & Hrun & Hlen & _ & Hcount); [done|].
  exists results, tc'. split; [exact Hrun|]. split; [lia|exact Hcount].
Defined.

(** ** traffic.go: the probes that [ProbeEachHopOfPath] starts *)

Lemma probePrefixes_spec (path : Path) (numPackets timeout : Z) (idxs : list nat)
    (rt : Runtime) :
  length (probePrefixes path numPackets timeout idxs rt).1 = length idxs
  /\ NoDup (probePrefixes path numPackets timeout idxs rt).1
  /\ (forall c, c ∈ (probePrefixes path numPackets timeout idxs rt).1 ->
        rt_chans rt !! c = None
        /\ rt_chans (probePrefixes path numPackets timeout idxs rt).2 !! c
           = Some (mkChan 0 [] false 0))
  /\ (forall c ch, rt_chans rt !! c = Some ch ->
        rt_chans (probePrefixes path numPackets timeout idxs rt).2 !! c = Some ch)
  /\ rt_spawned (probePrefixes path numPackets timeout idxs rt).2
     = rt_spawned rt
       ++ zip_with (fun i c => GoProbe (take i path) numPackets timeout c) idxs
            (probePrefixes path numPackets timeout idxs rt).1.
Proof.
  revert rt. induction idxs as [|i idxs IH]; intros rt; simpl.
  { split_and!; try done.
    - constructor.
    - by intros c ?%elem_of_nil.
    - by rewrite app_nil_r. }
  unfold Probe, make_chan. simpl.
  set (c0 := fresh (dom (rt_chans rt))).
  set (rt1 := mkRT (<[c0 := mkChan 0 [] false 0]> (rt_chans rt))
                (rt_spawned rt ++ [GoProbe (take i path) numPackets timeout c0])).
  assert (rt_chans rt !! c0 = None) as Hc0.
  { apply not_elem_of_dom. apply is_fresh. }
  destruct (IH rt1) as (Hlen & Hnd & Hnew & Hold & Hsp).
  destruct (probePrefixes path numPackets timeout idxs rt1) as [cs rt2] eqn:Hrec.
  simpl in *. split_and!.
  - by rewrite Hlen.
  - constructor; [|done]. intros Hin. destruct (Hnew c0 Hin) as [Hnone _].
    by rewrite lookup_insert_eq in Hnone.
  - intros c [->|Hin]%elem_of_cons.
    + split; [done|]. apply Hold. by rewrite lookup_insert_eq.
    + destruct (Hnew c Hin) as [Hnone Hsome]. split; [|done].
      destruct (decide (c0 = c)) as [<-|Hne]; [by rewrite lookup_insert_eq in Hnone|].
      by rewrite lookup_insert_ne in Hnone.
  - intros c ch Hc. apply Hold. rewrite lookup_insert_ne; [done|]. intros <-. congruence.
  - rewrite Hsp. by rewrite <- app_assoc.
Qed.

(** X26: with a filter that contains ["ip proto 4"], [ProbeEachHopOfPath]
    on a path of [n >= 1] hops starts one [Probe] for each prefix of the
    path of 2, 3, ..., [n] hops, in this order and with the given number of
    packets and timeout, each on an unbuffered channel of its own that did
    not exist before, and returns a channel different from all of these; the
    goroutines started after the probes are those of [merge]. A path of one
    hop starts no probe. On the empty path the allocation of the slice of
    channels panics. *)
Theorem ProbeEachHopOfPath_probes (tc : TransportChannel) (path : Path)
    (numPackets timeout : Z) (rt : Runtime) :
  Contains (tc_filter tc) "ip proto 4" = true ->
  (path = [] ->
   ProbeEachHopOfPath tc path numPackets timeout rt
     = Panic "makeslice: len out of range")
  /\ (path <> [] ->
      exists resultChannel cs rt' merged,
        ProbeEachHopOfPath tc path numPackets timeout rt = Ok (resultChannel, rt')
        /\ length cs = length path - 1
        /\ NoDup (resultChannel :: cs)
        /\ (forall c, c ∈ resultChannel :: cs ->
              rt_chans rt !! c = None
              /\ rt_chans rt' !! c = Some (mkChan 0 [] false 0))
        /\ rt_spawned rt'
           = rt_spawned rt
             ++ zip_with (fun i c => GoProbe (take i path) numPackets timeout c)
                  (seq 2 (length path - 1)) cs
             ++ merged
        /\ Forall (fun g => forall p n t c, g <> GoProbe p n t c) merged).
Proof.
  intros Hf. unfold ProbeEachHopOfPath. rewrite Hf. simpl. split.
  { by intros ->. }
  intros Hne. rewrite decide_False by (destruct path; [done|simpl; lia]).
  destruct (probePrefixes_spec path numPackets timeout (seq 2 (length path - 1)) rt)
    as (Hlen & Hnd & Hnew & Hold & Hsp).
  destruct (probePrefixes path numPackets timeout (seq 2 (length path - 1)) rt)
    as [cs rt1] eqn:Hrec.
  simpl in *. unfold merge, make_chan. simpl.
  set (c := fresh (dom (rt_chans rt1))).
  assert (rt_chans rt1 !! c = None) as Hc.
  { apply not_elem_of_dom. apply is_fresh. }
  eexists c, cs, _, _. split; [reflexivity|]. simpl. split_and!.
  - by rewrite Hlen, length_seq.
  - constructor; [|done]. intros Hin. destruct (Hnew c Hin) as [_ Hsome]. congruence.
  - intros c' [->|Hin]%elem_of_cons.
    + split; [|by rewrite lookup_insert_eq].
      destruct (rt_chans rt !! c) as [ch|] eqn:Hch; [|done].
      rewrite (Hold c ch Hch) in Hc. done.
    + destruct (Hnew c' Hin) as [Hnone Hsome]. split; [done|].
      rewrite lookup_insert_ne; [done|]. intros <-. congruence.
  - rewrite Hsp. by rewrite <- app_assoc.
  - apply Forall_app. split; [|by apply Forall_singleton].
    apply Forall_fmap. by apply Forall_forall.
Qed.

Lemma ProbeEachHopOfPath_probes_witness :
  exists resultChannel rt',
    ProbeEachHopOfPath (example_tc "ip proto 4") scenario_path 5 3 example_rt
      = Ok (resultChannel, rt')
    /\ take 2 (rt_spawned rt')
       = [GoProbe (take 2 scenario_path) 5 3 0; GoProbe scenario_path 5 3 1].
Proof.
  destruct (ProbeEachHopOfPath_probes (example_tc "ip proto 4") scenario_path 5 3
              example_rt eq_refl) as [_ Hrun].
  destruct Hrun as (c & cs & rt' & merged & Hrun & _); [done|].
  exists c, rt'. split; [exact Hrun|].
  vm_compute in Hrun. injection Hrun as _ <-. reflexivity.
Defined.

(** ** transport.go: the local address *)

Lemma find_device_named (name : string) (names : list string)
    (devices : list Interface) (eth0Device : option Interface) :
  find_device (name :: names) devices eth0Device
  = Ok (match last_named name devices with
        | Some device => Some device
        | None => eth0Device
        end).
Proof.
  revert eth0Device. unfold last_named.
  induction devices as [|device rest IH]; intros eth0Device; [done|].
  cbn [find_device]. unfold index at 1. cbn [lookup list_lookup]. rewrite obind_Ok.
  rewrite filter_cons. case_decide as Hname; rewrite IH; [|done].
  destruct (filter _ rest) as [|d ds] eqn:Hf; [done|].
  rewrite last_cons_cons. destruct (last (d :: ds)) eqn:Hl; [done|].
  by apply last_None in Hl.
Qed.

(** X27: [FindLocalIP] returns the error of [pcap.FindAllDevs] if there
    is one. Otherwise, with [name] the first device name of the channel:
    when no device has this name it returns the error that names the
    devices of the channel; when some have, it takes the last of them in
    the list and returns its first address, and it panics when that device
    has no address (the case that the text of the error announces is not
    checked). With no device name at all, the call panics as soon as the
    list of devices is not empty. *)
Theorem FindLocalIP_result (deviceNames : list string)
    (findAllDevs : outcome (list Interface)) :
  (forall e, findAllDevs = Err e -> FindLocalIP deviceNames findAllDevs = Err e)
  /\ (forall devices name names,
        findAllDevs = Ok devices -> deviceNames = name :: names ->
        FindLocalIP deviceNames findAllDevs
        = match last_named name devices with
          | None =>
              Err ("Couldn't find a device named " +:+ show_names deviceNames
                   +:+ ", or it did not have any addresses assigned to it")
          | Some device =>
              match Addresses device with
              | ip :: _ => Ok ip
              | [] => Panic "index out of range"
              end
          end)
  /\ (forall devices,
        findAllDevs = Ok devices -> deviceNames = [] -> devices <> [] ->
        FindLocalIP deviceNames findAllDevs = Panic "index out of range")
  /\ (forall devices name names device,
        findAllDevs = Ok devices -> deviceNames = name :: names ->
        last_named name devices = Some device ->
        device ∈ devices /\ Name device = name).
Proof.
  split_and!.
  - by intros e ->.
  - intros devices name names -> ->. unfold FindLocalIP.
    rewrite obind_Ok, find_device_named, obind_Ok.
    destruct (last_named name devices) as [device|]; [|done].
    unfold index. by destruct (Addresses device).
  - intros devices -> -> Hne. unfold FindLocalIP. rewrite obind_Ok.
    by destruct devices.
  - intros devices name names device _ _ Hlast. unfold last_named in Hlast.
    apply last_Some in Hlast as [l' Hl'].
    assert (device ∈ filter (fun d => Name d = name) devices) as Hin.
    { rewrite Hl'. apply elem_of_app. right. apply list_elem_of_here. }
    apply list_elem_of_filter in Hin as [? ?]. done.
Qed.

Lemma FindLocalIP_result_witness :
  FindLocalIP ["eth0"]
    (Ok [mkInterface "lo" [[127; 0; 0; 1]%Z];
         mkInterface "eth0" [[10; 0; 0; 1]%Z; [10; 0; 0; 2]%Z];
         mkInterface "eth0" []])
  = Panic "index out of range".
Proof.
  destruct (FindLocalIP_result ["eth0"]
              (Ok [mkInterface "lo" [[127; 0; 0; 1]%Z];
                   mkInterface "eth0" [[10; 0; 0; 1]%Z; [10; 0; 0; 2]%Z];
                   mkInterface "eth0" []])) as (_ & H & _).
  by rewrite (H _ "eth0" [] eq_refl eq_refl).
Defined.

(** ** transport.go: the repair of the sockets *)

Lemma renewSocketFD_turn_one_socket (s : sock_state) (brokenFD fd : Z) :
  one_socket s -> kernel_socket s fd ->
  one_socket (renewSocketFD_turn s brokenFD fd).
Proof.
  unfold one_socket, renewSocketFD_turn, kernel_socket. intros Hone Hk.
  destruct (decide (brokenFD <> sk_fd s)) as [|Heq]; [done|].
  assert (brokenFD = sk_fd s) as -> by (by destruct (decide (brokenFD = sk_fd s))).
  destruct s as [cur opened closed]. simpl in *. subst opened.
  destruct Hk as [->|[Hfd Hnew]];
    repeat (case_decide; simpl in *); try lia;
    apply set_eq; intros z; set_unfold; intuition lia.
Qed.

(** X28: [renewSocketFD] keeps exactly one raw socket open. Starting with
    the socket that [NewTransportChannel] opened, and whatever descriptors
    arrive on the failure queue (those of the current socket, stale or
    repeated ones, any number at all) and whatever [unix.Socket] answers (a
    descriptor that is not open, or an error), after every turn of the loop
    the only socket of the channel that is open is the one of [socketFD],
    and none is open when the last [unix.Socket] failed: no descriptor is
    leaked. A turn closes a descriptor only if it was the value of
    [socketFD] when the turn began, and a descriptor that differs from
    [socketFD] changes nothing. *)
Theorem renewSocketFD_one_socket (fd0 : Z) (s : sock_state) :
  (0 <= fd0)%Z ->
  rtc renew_step (mkSock fd0 {[fd0]} []) s ->
  one_socket s
  /\ (forall brokenFD fd,
        brokenFD <> sk_fd s -> renewSocketFD_turn s brokenFD fd = s)
  /\ (forall brokenFD fd,
        kernel_socket s fd ->
        one_socket (renewSocketFD_turn s brokenFD fd)
        /\ (sk_closed (renewSocketFD_turn s brokenFD fd) = sk_closed s
            \/ (sk_closed (renewSocketFD_turn s brokenFD fd) = sk_closed s ++ [sk_fd s]
                /\ brokenFD = sk_fd s
                /\ sk_fd s ∉ sk_open (renewSocketFD_turn s brokenFD fd)))).
Proof.
  intros Hfd0 Hreach.
  assert (one_socket s) as Hone.
  { revert s Hreach. apply rtc_ind_r.
    - unfold one_socket. simpl. by rewrite decide_True.
    - intros y z _ (brokenFD & fd & Hk & ->) Hy.
      by apply renewSocketFD_turn_one_socket. }
  split; [done|]. split.
  - intros brokenFD fd Hne. unfold renewSocketFD_turn. by rewrite decide_True.
  - intros brokenFD fd Hk. split; [by apply renewSocketFD_turn_one_socket|].
    unfold renewSocketFD_turn.
    destruct (decide (brokenFD <> sk_fd s)) as [|Heq]; [by left|].
    assert (brokenFD = sk_fd s) as -> by (by destruct (decide (brokenFD = sk_fd s))).
    destruct (decide (sk_fd s <> fd)); [|by left].
    right. simpl. split_and!; try done.
    rewrite elem_of_difference, elem_of_singleton. tauto.
Qed.

Lemma renewSocketFD_one_socket_witness :
  one_socket (renewSocketFD_turn (renewSocketFD_turn (mkSock 3 {[3%Z]} []) 3 5) 3 7)
  /\ renewSocketFD_turn (renewSocketFD_turn (mkSock 3 {[3%Z]} []) 3 5) 3 7
     = renewSocketFD_turn (mkSock 3 {[3%Z]} []) 3 5.
Proof.
  assert (rtc renew_step (mkSock 3 {[3%Z]} [])
            (renewSocketFD_turn (mkSock 3 {[3%Z]} []) 3 5)) as Hreach.
  { apply rtc_once. exists 3%Z, 5%Z. split; [|done]. right. split; [lia|].
    simpl. rewrite elem_of_singleton. lia. }
  destruct (renewSocketFD_one_socket 3 _ ltac:(lia) Hreach) as (Hone & Hstale & Hturn).
  split.
  - rewrite Hstale; [done|]. vm_compute. discriminate.
  - apply Hstale. vm_compute. discriminate.
Defined.
